(** * LGE compiler: lexer, parser, code generator, driver and runtime

    A shallow embedding of the sources under [src/] and [include/]
    (lexer.cpp, parser.cpp, codegen.cpp, main.cpp, ast.h) and of
    [runtime/lge_runtime.c], with the properties of the specification
    stated and settled against it.

    Conventions.
    - [size_t] counters (line, column) are integers in [Z] with the 64-bit
      wrap-around written out ([wrap]); indices into a buffer or a vector
      are [nat].
    - C++ exceptions are an explicit outcome ([Throw]); a read outside a
      vector ([tokens[current]]) is the outcome [Crash].
    - Loops whose trip count is not structural take a fuel argument; the
      lemmas named [*_fuel] show that the fuel handed in by the callers is
      enough.
    - The IR toolkit (LLVM) is outside the repository: the code generator
      is modelled by the sequence of builder requests it issues and by the
      module function list those requests act on. *)

From Stdlib Require Import String Ascii List ZArith Lia Bool DecimalString DecimalPos.
From stdpp Require Import gmap strings.
Import ListNotations.

#[local] Open Scope string_scope.
#[local] Open Scope Z_scope.

Set Default Goal Selector "1".
Set Warnings "-register-all".

(** size_t arithmetic. *)
Definition wrap (z : Z) : Z := z mod 2 ^ 64.

(* ===================================================================== *)
(** ** ast.h *)
(* ===================================================================== *)

Module TokenType.
Inductive t : Set :=
  | UNKNOWN
  | IDENTIFIER | STRING_LITERAL | INT_LITERAL | FLOAT_LITERAL
  | LET | IF | THEN | ELSE
  | ARROW | PLUS | MINUS | MULTIPLY | DIVIDE | EQUALS
  | LESS_THAN | GREATER_THAN | LESS_EQUAL | GREATER_EQUAL
  | EQUAL_EQUAL | NOT_EQUAL
  | LPAREN | RPAREN | COLON | COMMA
  | TYPE_INT | TYPE_FLOAT | TYPE_CHAR | TYPE_STR | TYPE_FUNC
  | NEWLINE | BACKSLASH | COMMENT | EOF_TOKEN.

Definition eqb (a b : t) : bool :=
  match a, b with
  | UNKNOWN, UNKNOWN | IDENTIFIER, IDENTIFIER
  | STRING_LITERAL, STRING_LITERAL | INT_LITERAL, INT_LITERAL
  | FLOAT_LITERAL, FLOAT_LITERAL | LET, LET | IF, IF | THEN, THEN
  | ELSE, ELSE | ARROW, ARROW | PLUS, PLUS | MINUS, MINUS
  | MULTIPLY, MULTIPLY | DIVIDE, DIVIDE | EQUALS, EQUALS
  | LESS_THAN, LESS_THAN | GREATER_THAN, GREATER_THAN
  | LESS_EQUAL, LESS_EQUAL | GREATER_EQUAL, GREATER_EQUAL
  | EQUAL_EQUAL, EQUAL_EQUAL | NOT_EQUAL, NOT_EQUAL | LPAREN, LPAREN
  | RPAREN, RPAREN | COLON, COLON | COMMA, COMMA | TYPE_INT, TYPE_INT
  | TYPE_FLOAT, TYPE_FLOAT | TYPE_CHAR, TYPE_CHAR | TYPE_STR, TYPE_STR
  | TYPE_FUNC, TYPE_FUNC | NEWLINE, NEWLINE | BACKSLASH, BACKSLASH
  | COMMENT, COMMENT | EOF_TOKEN, EOF_TOKEN => true
  | _, _ => false
  end.
End TokenType.

Record Location : Set := mkLocation {
  line : Z;
  column : Z;
  filename : string
}.

(** The default arguments of [Location(size_t l, size_t c, const std::string &f)]:
    line 1, column 1 and the empty file name. *)
Definition Location_default : Location := mkLocation 1 1 EmptyString.

Record Token : Set := mkToken {
  type : TokenType.t;
  value : string;
  location : Location
}.

Module Type_.
Inductive TypeKind : Set := INT | FLOAT | CHAR | STR | FUNC.
End Type_.

(** [class Type]: the kind, the payload of a function type (never filled
    by the parser) and the location. *)
Inductive Type_ : Set :=
  mkType (kind : Type_.TypeKind) (paramTypes : list Type_)
         (returnType : option Type_) (loc : Location).

Definition Type_kind (t : Type_) : Type_.TypeKind :=
  match t with mkType k _ _ _ => k end.

(** [Type(TypeKind k, const Location &loc)] leaves the payload empty. *)
Definition Type_new (k : Type_.TypeKind) (loc : Location) : Type_ :=
  mkType k [] None loc.

Module BinaryOp.
Inductive OpType : Set :=
  | ADD | SUB | MUL | DIV
  | LESS_THAN | GREATER_THAN | LESS_EQUAL | GREATER_EQUAL
  | EQUAL_EQUAL | NOT_EQUAL.
End BinaryOp.

Module UnaryOp.
Inductive OpType : Set := NEG.
End UnaryOp.

(** The value of a [float] literal, kept as the 32-bit pattern of the
    IEEE-754 datum; nothing below computes with it. *)
Definition float32 : Set := Z.

Inductive Expression : Set :=
  | StringLiteral (value : string) (loc : Location)
  | IntLiteral (value : Z) (loc : Location)
  | FloatLiteral (value : float32) (loc : Location)
  | Identifier (name : string) (loc : Location)
  | BinaryOp (op : BinaryOp.OpType) (left right : Expression) (loc : Location)
  | UnaryOp (op : UnaryOp.OpType) (operand : Expression) (loc : Location)
  | FunctionCall (funcName : string) (args : list Expression) (loc : Location)
  | ConditionalExpression (condition thenExpr elseExpr : Expression)
                          (loc : Location).

(** [expr.location] of the base class. *)
Definition Expression_location (e : Expression) : Location :=
  match e with
  | StringLiteral _ l | IntLiteral _ l | FloatLiteral _ l | Identifier _ l
  | BinaryOp _ _ _ l | UnaryOp _ _ l | FunctionCall _ _ l
  | ConditionalExpression _ _ _ l => l
  end.

(** Induction on expressions, with the arguments of a call: [arguments]
    nests [Expression] in [list], so the principle is written by hand. *)
Section ExpressionInduction.
Variable P : Expression -> Prop.
Hypothesis HString : forall v loc, P (StringLiteral v loc).
Hypothesis HInt : forall v loc, P (IntLiteral v loc).
Hypothesis HFloat : forall v loc, P (FloatLiteral v loc).
Hypothesis HIdent : forall name loc, P (Identifier name loc).
Hypothesis HBinary : forall op l r loc, P l -> P r -> P (BinaryOp op l r loc).
Hypothesis HUnary : forall op e loc, P e -> P (UnaryOp op e loc).
Hypothesis HCall : forall name args loc, Forall P args -> P (FunctionCall name args loc).
Hypothesis HCond : forall c t e loc, P c -> P t -> P e -> P (ConditionalExpression c t e loc).

Fixpoint Expression_induction (e : Expression) : P e :=
  match e with
  | StringLiteral v loc => HString v loc
  | IntLiteral v loc => HInt v loc
  | FloatLiteral v loc => HFloat v loc
  | Identifier name loc => HIdent name loc
  | BinaryOp op l r loc =>
      HBinary op l r loc (Expression_induction l) (Expression_induction r)
  | UnaryOp op e loc => HUnary op e loc (Expression_induction e)
  | FunctionCall name args loc =>
      HCall name args loc
        ((fix all (l : list Expression) : Forall P l :=
            match l with
            | [] => List.Forall_nil P
            | a :: l => @List.Forall_cons _ P a l (Expression_induction a) (all l)
            end) args)
  | ConditionalExpression c t e loc =>
      HCond c t e loc (Expression_induction c) (Expression_induction t)
            (Expression_induction e)
  end.
End ExpressionInduction.

Record Parameter_ : Set := mkParameter {
  param_name : string;
  param_type : Type_;
  param_location : Location
}.

Record FunctionDef : Set := mkFunctionDef {
  func_name : string;
  func_returnType : Type_;
  func_parameters : list Parameter_;
  func_body : Expression;
  func_location : Location
}.

Record Program : Set := mkProgram {
  Program_functions : list FunctionDef;
  prog_location : Location
}.

(* ===================================================================== *)
(** ** lexer.cpp *)
(* ===================================================================== *)

Module Lexer.

(** <cctype> in the "C" locale, on bytes. *)
Definition in_range (lo hi : nat) (c : ascii) : bool :=
  let n := nat_of_ascii c in (Nat.leb lo n) && (Nat.leb n hi).
Definition isdigit (c : ascii) : bool := in_range 48 57 c.
Definition isalpha (c : ascii) : bool := in_range 65 90 c || in_range 97 122 c.
Definition isalnum (c : ascii) : bool := isalpha c || isdigit c.

Definition NUL : ascii := "000"%char.
Definition LF : ascii := "010"%char.
Definition TAB : ascii := "009"%char.
Definition CR : ascii := "013"%char.
Definition DQUOTE : ascii := "034"%char.
Definition BSLASH : ascii := "092"%char.

Definition str1 (c : ascii) : string := String c EmptyString.

(** [keywords] of the anonymous namespace. *)
Definition keywords : list (string * TokenType.t) :=
  [ ("let", TokenType.LET); ("if", TokenType.IF); ("then", TokenType.THEN);
    ("else", TokenType.ELSE); ("int", TokenType.TYPE_INT);
    ("float", TokenType.TYPE_FLOAT); ("char", TokenType.TYPE_CHAR);
    ("str", TokenType.TYPE_STR); ("func", TokenType.TYPE_FUNC) ].

Fixpoint keywords_find (kw : list (string * TokenType.t)) (text : string)
  : option TokenType.t :=
  match kw with
  | [] => None
  | (k, ty) :: rest => if String.eqb k text then Some ty else keywords_find rest text
  end.

(** The mutable members of [class Lexer]. *)
Record t : Set := mk {
  input : string;
  position : nat;
  line : Z;
  column : Z;
  filename : string
}.

(** [Lexer(const std::string &input, const std::string &filename)] *)
Definition new (input filename : string) : t := mk input 0 1 1 filename.

Definition set_pos (lx : t) (p : nat) : t :=
  mk (input lx) p (line lx) (column lx) (filename lx).
Definition set_line (lx : t) (l : Z) : t :=
  mk (input lx) (position lx) l (column lx) (filename lx).
Definition set_column (lx : t) (c : Z) : t :=
  mk (input lx) (position lx) (line lx) c (filename lx).

Definition isAtEnd (lx : t) : bool :=
  Nat.leb (String.length (input lx)) (position lx).

Definition peek (lx : t) (offset : nat) : ascii :=
  match String.get (position lx + offset) (input lx) with
  | Some c => c
  | None => NUL
  end.

Definition advance (lx : t) : ascii * t :=
  if isAtEnd lx then (NUL, lx)
  else
    let c := peek lx 0 in
    let lx := set_column (set_pos lx (S (position lx))) (wrap (column lx + 1)) in
    if Ascii.eqb c LF
    then (c, set_column (set_line lx (wrap (line lx + 1))) 1)
    else (c, lx).

Definition match_ (lx : t) (expected : ascii) : bool * t :=
  if isAtEnd lx || negb (Ascii.eqb (peek lx 0) expected) then (false, lx)
  else (true, snd (advance lx)).

(** Bytes left to read: the trip count of every scanning loop is at most
    this plus one. *)
Definition remaining (lx : t) : nat := String.length (input lx) - position lx.

Fixpoint skipWhitespace_loop (fuel : nat) (lx : t) : t :=
  match fuel with
  | O => lx
  | S fuel =>
    let c := peek lx 0 in
    if Ascii.eqb c " " || Ascii.eqb c TAB || Ascii.eqb c CR then
      skipWhitespace_loop fuel (snd (advance lx))
    else if Ascii.eqb c LF then
      let lx := snd (advance lx) in
      let lx := set_line lx (wrap (line lx + 1)) in
      skipWhitespace_loop fuel (set_column lx 1)
    else lx
  end.

Definition skipWhitespace (lx : t) : t :=
  skipWhitespace_loop (S (remaining lx)) lx.

(** [while (p(peek())) advance();] *)
Fixpoint advance_while (p : ascii -> bool) (fuel : nat) (lx : t) : t :=
  match fuel with
  | O => lx
  | S fuel => if p (peek lx 0) then advance_while p fuel (snd (advance lx)) else lx
  end.

Definition Token_at (ty : TokenType.t) (v : string) (l c : Z) (lx : t) : Token :=
  mkToken ty v (mkLocation l c (filename lx)).

Definition makeToken (lx : t) (ty : TokenType.t) (v : string) : Token :=
  Token_at ty v (line lx) (wrap (column lx - Z.of_nat (String.length v))) lx.

Definition errorToken (lx : t) (message : string) : Token :=
  Token_at TokenType.UNKNOWN message (line lx) (column lx) lx.

Definition handleIdentifier (lx : t) : Token * t :=
  let start := position lx in
  let startColumn := column lx in
  let lx := snd (advance lx) in
  let lx := advance_while (fun c => isalnum c || Ascii.eqb c "_") (S (remaining lx)) lx in
  let text := substring start (position lx - start) (input lx) in
  let ty := match keywords_find keywords text with
            | Some k => k
            | None => TokenType.IDENTIFIER
            end in
  (Token_at ty text (line lx) startColumn lx, lx).

Definition handleNumber (lx : t) : Token * t :=
  let start := position lx in
  let startColumn := column lx in
  let lx := advance_while isdigit (S (remaining lx)) lx in
  let '(isFloat, lx) :=
    if Ascii.eqb (peek lx 0) "." && isdigit (peek lx 1) then
      let lx := snd (advance lx) in
      (true, advance_while isdigit (S (remaining lx)) lx)
    else (false, lx) in
  let numberStr := substring start (position lx - start) (input lx) in
  if isFloat
  then (Token_at TokenType.FLOAT_LITERAL numberStr (line lx) startColumn lx, lx)
  else (Token_at TokenType.INT_LITERAL numberStr (line lx) startColumn lx, lx).

(** The body of the [while] of [handleString], with the value read so far. *)
Fixpoint handleString_loop (fuel : nat) (lx : t) (value : string) : t * string :=
  match fuel with
  | O => (lx, value)
  | S fuel =>
    if negb (Ascii.eqb (peek lx 0) DQUOTE) && negb (isAtEnd lx) then
      let lx := if Ascii.eqb (peek lx 0) LF
                then set_column (set_line lx (wrap (line lx + 1))) 1
                else lx in
      if Ascii.eqb (peek lx 0) BSLASH then
        let lx := snd (advance lx) in
        let c := peek lx 0 in
        let decoded :=
          if Ascii.eqb c DQUOTE then DQUOTE
          else if Ascii.eqb c BSLASH then BSLASH
          else if Ascii.eqb c "n" then LF
          else if Ascii.eqb c "t" then TAB
          else if Ascii.eqb c "r" then CR
          else c in
        handleString_loop fuel (snd (advance lx)) (value ++ str1 decoded)
      else
        let '(c, lx) := advance lx in
        handleString_loop fuel lx (value ++ str1 c)
    else (lx, value)
  end.

Definition handleString (lx : t) : Token * t :=
  let startColumn := wrap (column lx - 1) in
  let '(lx, value) := handleString_loop (S (remaining lx)) lx EmptyString in
  if isAtEnd lx then (errorToken lx "Unterminated string", lx)
  else
    let lx := snd (advance lx) in
    (Token_at TokenType.STRING_LITERAL value (line lx) startColumn lx, lx).

Fixpoint handleComment_loop (fuel : nat) (lx : t) (comment : string) : t * string :=
  match fuel with
  | O => (lx, comment)
  | S fuel =>
    if negb (Ascii.eqb (peek lx 0) LF) && negb (isAtEnd lx) then
      let '(c, lx) := advance lx in
      handleComment_loop fuel lx (comment ++ str1 c)
    else (lx, comment)
  end.

Definition handleComment (lx : t) : Token * t :=
  let startColumn := wrap (column lx - 1) in
  let '(lx, comment) := handleComment_loop (S (remaining lx)) lx "#" in
  (Token_at TokenType.COMMENT comment (line lx) startColumn lx, lx).

(** [if (match(second)) return makeToken(two, ...); return makeToken(one, ...);] *)
Definition one_or_two (lx : t) (second : ascii)
    (two : TokenType.t) (v2 : string) (one : TokenType.t) (v1 : string)
  : Token * t :=
  let '(b, lx) := match_ lx second in
  if b then (makeToken lx two v2, lx) else (makeToken lx one v1, lx).

(** [position--; column--;] *)
Definition unread (lx : t) : t :=
  set_column (set_pos lx (position lx - 1)%nat) (wrap (column lx - 1)).

Definition nextToken (lx : t) : Token * t :=
  let lx := skipWhitespace lx in
  if isAtEnd lx then (makeToken lx TokenType.EOF_TOKEN EmptyString, lx)
  else
    let '(c, lx) := advance lx in
    if isalpha c || Ascii.eqb c "_" then handleIdentifier (unread lx)
    else if isdigit c then handleNumber (unread lx)
    else if Ascii.eqb c DQUOTE then handleString lx
    else if Ascii.eqb c "#" then handleComment lx
    else if Ascii.eqb c "(" then (makeToken lx TokenType.LPAREN "(", lx)
    else if Ascii.eqb c ")" then (makeToken lx TokenType.RPAREN ")", lx)
    else if Ascii.eqb c "," then (makeToken lx TokenType.COMMA ",", lx)
    else if Ascii.eqb c ":" then (makeToken lx TokenType.COLON ":", lx)
    else if Ascii.eqb c "+" then (makeToken lx TokenType.PLUS "+", lx)
    else if Ascii.eqb c "-" then
      one_or_two lx ">" TokenType.ARROW "->" TokenType.MINUS "-"
    else if Ascii.eqb c "*" then (makeToken lx TokenType.MULTIPLY "*", lx)
    else if Ascii.eqb c "/" then (makeToken lx TokenType.DIVIDE "/", lx)
    else if Ascii.eqb c "=" then
      one_or_two lx "=" TokenType.EQUAL_EQUAL "==" TokenType.EQUALS "="
    else if Ascii.eqb c BSLASH then (makeToken lx TokenType.BACKSLASH (str1 BSLASH), lx)
    else if Ascii.eqb c LF then (makeToken lx TokenType.NEWLINE (str1 LF), lx)
    else if Ascii.eqb c "<" then
      one_or_two lx "=" TokenType.LESS_EQUAL "<=" TokenType.LESS_THAN "<"
    else if Ascii.eqb c ">" then
      one_or_two lx "=" TokenType.GREATER_EQUAL ">=" TokenType.GREATER_THAN ">"
    else if Ascii.eqb c "!" then
      let '(b, lx) := match_ lx "=" in
      if b then (makeToken lx TokenType.NOT_EQUAL "!=", lx)
      else (errorToken lx "Unexpected character '!'", lx)
    else (errorToken lx "Unexpected character", lx).

(** The [while] of [tokenize]: tokens are pushed until [nextToken] gives
    EOF_TOKEN, which is pushed last. *)
Fixpoint tokenize_loop (fuel : nat) (lx : t) : list Token * t :=
  match fuel with
  | O => ([], lx)
  | S fuel =>
    let '(token, lx) := nextToken lx in
    if TokenType.eqb (type token) TokenType.EOF_TOKEN then ([token], lx)
    else
      let '(tokens, lx) := tokenize_loop fuel lx in
      (token :: tokens, lx)
  end.

(** [tokenize] works on the lexer object itself: the second component is
    the lexer after the call, with [position] where scanning stopped. *)
Definition tokenize (lx : t) : list Token * t :=
  tokenize_loop (S (remaining lx)) lx.

(** *** Vocabulary of the properties *)

(** A lexer state reached from another one: same buffer and file name,
    position not before. *)
Definition reaches (lx lx' : t) : Prop :=
  input lx' = input lx /\ filename lx' = filename lx /\
  (position lx <= position lx')%nat.

(** The cursor is within the buffer or at its end. *)
Definition in_bounds (lx : t) : Prop :=
  (position lx <= String.length (input lx))%nat.

(** The byte classes [skipWhitespace] consumes. *)
Definition is_skipped (c : ascii) : bool :=
  Ascii.eqb c " " || Ascii.eqb c TAB || Ascii.eqb c CR || Ascii.eqb c LF.

(** Kinds the scanners can give for a lexeme: never NEWLINE, and never
    the end-of-input sentinel. *)
Definition scanned (ty : TokenType.t) : Prop :=
  ty <> TokenType.NEWLINE /\ ty <> TokenType.EOF_TOKEN.

(** What the parser relies on: the vector ends with its only EOF_TOKEN. *)
Definition EOF_terminated (tokens : list Token) : Prop :=
  exists body eof, tokens = (body ++ [eof])%list /\
    type eof = TokenType.EOF_TOKEN /\
    Forall (fun tok => type tok <> TokenType.EOF_TOKEN) body.

End Lexer.

(* ===================================================================== *)
(** ** parser.cpp *)
(* ===================================================================== *)

Module Parser.

(** The exceptions the parser meets, all derived from [std::exception]:
    its own [std::runtime_error] and the two that [std::stoi] and
    [std::stof] throw. *)
Inductive exception : Set :=
  | runtime_error (what_arg : string)
  | out_of_range (what_arg : string)
  | invalid_argument (what_arg : string).

(** [e.what()] *)
Definition what (e : exception) : string :=
  match e with
  | runtime_error w | out_of_range w | invalid_argument w => w
  end.

(** Outcome of a member function entered with the cursor [current]:
    normal return, an exception on its way up, a read outside [tokens],
    or the fuel of a loop run out. *)
Inductive result (A : Type) : Type :=
  | Ok (a : A) (current : nat)
  | Throw (e : exception) (current : nat)
  | Crash
  | OutOfFuel.
Arguments Ok {A} a current.
Arguments Throw {A} e current.
Arguments Crash {A}.
Arguments OutOfFuel {A}.

Definition M (A : Type) : Type := nat -> result A.

Definition ret {A} (a : A) : M A := fun current => Ok a current.
Definition throw {A} (e : exception) : M A := fun current => Throw e current.
Definition bind {A B} (m : M A) (k : A -> M B) : M B :=
  fun current =>
    match m current with
    | Ok a current' => k a current'
    | Throw e current' => Throw e current'
    | Crash => Crash
    | OutOfFuel => OutOfFuel
    end.

#[local] Notation "x <- m ;; k" := (bind m (fun x => k))
  (at level 100, m at next level, right associativity).

(** Decimal output of [operator<<] for a [size_t]. *)
Definition show_size_t (z : Z) : string :=
  DecimalString.NilZero.string_of_uint (N.to_uint (Z.to_N z)).

(** *** [std::stoi]

    Modelled from the C++ standard ([strtol] in base 10, then the range
    check of [int]): leading white space, an optional sign, the longest
    run of digits; [invalid_argument] without a digit, [out_of_range]
    when the value does not fit a 32-bit [int]. *)
Definition isspace (c : ascii) : bool :=
  let n := nat_of_ascii c in Nat.eqb n 32 || (Nat.leb 9 n && Nat.leb n 13).

Fixpoint skip_space (s : string) : string :=
  match s with
  | String c rest => if isspace c then skip_space rest else s
  | EmptyString => s
  end.

Fixpoint digits_value (s : string) (acc : option Z) : option Z :=
  match s with
  | String c rest =>
      if Lexer.isdigit c
      then digits_value rest
             (Some (10 * match acc with Some a => a | None => 0 end
                    + Z.of_nat (nat_of_ascii c - 48)))
      else acc
  | EmptyString => acc
  end.

Definition INT_MAX : Z := 2147483647.
Definition INT_MIN : Z := -2147483648.

Definition stoi (s : string) : exception + Z :=
  let s := skip_space s in
  let '(negative, s) :=
    match s with
    | String "-" rest => (true, rest)
    | String "+" rest => (false, rest)
    | _ => (false, s)
    end in
  match digits_value s None with
  | None => inl (invalid_argument "stoi")
  | Some v =>
      let v := if negative then - v else v in
      if (v <? INT_MIN) || (INT_MAX <? v) then inl (out_of_range "stoi")
      else inr v
  end.

Section WithTokens.

(** [tokens], fixed by the constructor, and [std::stof], whose rounding
    to a [float] is left to the C library. *)
Variable tokens : list Token.
Variable stof : string -> exception + float32.

Definition peek : M Token := fun current =>
  match nth_error tokens current with
  | Some t => Ok t current
  | None => Crash
  end.

(** [tokens[current - 1]]; with [current = 0] the index wraps around. *)
Definition previous : M Token := fun current =>
  match current with
  | O => Crash
  | S c => match nth_error tokens c with
           | Some t => Ok t current
           | None => Crash
           end
  end.

Definition isAtEnd : M bool :=
  t <- peek ;; ret (TokenType.eqb (type t) TokenType.EOF_TOKEN).

Definition advance : M Token :=
  e <- isAtEnd ;;
  _ <- (if e then ret tt else fun current => Ok tt (S current)) ;;
  previous.

Definition check (ty : TokenType.t) : M bool :=
  e <- isAtEnd ;;
  if e then ret false
  else t <- peek ;; ret (TokenType.eqb (type t) ty).

Fixpoint match_ (types : list TokenType.t) : M bool :=
  match types with
  | [] => ret false
  | ty :: types =>
      c <- check ty ;;
      if c then _ <- advance ;; ret true else match_ types
  end.

Definition consume (ty : TokenType.t) (message : string) : M Token :=
  c <- check ty ;;
  if c then advance
  else
    t <- peek ;;
    throw (runtime_error
             (message ++ " at " ++ show_size_t (line (location t)) ++ ":"
                      ++ show_size_t (column (location t)))).

(** Tokens from the cursor to the end of the vector: a bound on the trips
    of every loop below, each trip consuming a token. *)
Definition fuel_at (current : nat) : nat := S (length tokens - current).

Fixpoint synchronize_loop (fuel : nat) : M unit :=
  match fuel with
  | O => fun _ => OutOfFuel
  | S fuel =>
      e <- isAtEnd ;;
      if e then ret tt
      else
        p <- previous ;;
        if TokenType.eqb (type p) TokenType.NEWLINE then ret tt
        else
          t <- peek ;;
          if TokenType.eqb (type t) TokenType.LET then ret tt
          else _ <- advance ;; synchronize_loop fuel
  end.

Definition synchronize : M unit :=
  _ <- advance ;; fun current => synchronize_loop (fuel_at current) current.

Definition parseType : M Type_ :=
  typeToken <- advance ;;
  match type typeToken with
  | TokenType.TYPE_INT => ret (Type_new Type_.INT (location typeToken))
  | TokenType.TYPE_FLOAT => ret (Type_new Type_.FLOAT (location typeToken))
  | TokenType.TYPE_CHAR => ret (Type_new Type_.CHAR (location typeToken))
  | TokenType.TYPE_STR => ret (Type_new Type_.STR (location typeToken))
  | TokenType.TYPE_FUNC => ret (Type_new Type_.FUNC (location typeToken))
  | _ => throw (runtime_error "Expected type identifier")
  end.

(** The [do ... while (match({COMMA}))] of [parseParameters]. *)
Fixpoint parseParameters_loop (fuel : nat) (params : list Parameter_)
  : M (list Parameter_) :=
  match fuel with
  | O => fun _ => OutOfFuel
  | S fuel =>
      paramName <- consume TokenType.IDENTIFIER "Expected parameter name" ;;
      _ <- consume TokenType.COLON "Expected ':' after parameter name" ;;
      paramType <- parseType ;;
      let params :=
        (params ++ [mkParameter (value paramName) paramType (location paramName)])%list in
      m <- match_ [TokenType.COMMA] ;;
      if m then parseParameters_loop fuel params else ret params
  end.

Definition parseParameters : M (list Parameter_) :=
  c <- check TokenType.RPAREN ;;
  if c then ret []
  else fun current => parseParameters_loop (fuel_at current) [] current.

(** The [while (match(ops)) { op = previous(); right = operand(); ... }] shared by
    [parseComparison], [parseAddition] and [parseMultiplication];
    [opType] is the choice of the node's operator from [op.type]. *)
Fixpoint binary_loop (ops : list TokenType.t)
    (opType : TokenType.t -> exception + BinaryOp.OpType)
    (operand : M Expression) (fuel : nat) (expr : Expression) : M Expression :=
  match fuel with
  | O => fun _ => OutOfFuel
  | S fuel =>
      m <- match_ ops ;;
      if m then
        op <- previous ;;
        right <- operand ;;
        match opType (type op) with
        | inl e => throw e
        | inr o => binary_loop ops opType operand fuel
                     (BinaryOp o expr right (location op))
        end
      else ret expr
  end.

Definition binary_level (ops : list TokenType.t)
    (opType : TokenType.t -> exception + BinaryOp.OpType)
    (operand : M Expression) : M Expression :=
  expr <- operand ;;
  fun current => binary_loop ops opType operand (fuel_at current) expr current.

Definition addition_ops : list TokenType.t := [TokenType.PLUS; TokenType.MINUS].
Definition addition_opType (ty : TokenType.t) : exception + BinaryOp.OpType :=
  match ty with
  | TokenType.PLUS => inr BinaryOp.ADD
  | _ => inr BinaryOp.SUB
  end.

Definition multiplication_ops : list TokenType.t :=
  [TokenType.MULTIPLY; TokenType.DIVIDE].
Definition multiplication_opType (ty : TokenType.t) : exception + BinaryOp.OpType :=
  match ty with
  | TokenType.MULTIPLY => inr BinaryOp.MUL
  | _ => inr BinaryOp.DIV
  end.

Definition comparison_ops : list TokenType.t :=
  [TokenType.LESS_THAN; TokenType.GREATER_THAN; TokenType.LESS_EQUAL;
   TokenType.GREATER_EQUAL; TokenType.EQUAL_EQUAL; TokenType.NOT_EQUAL].
Definition comparison_opType (ty : TokenType.t) : exception + BinaryOp.OpType :=
  match ty with
  | TokenType.LESS_THAN => inr BinaryOp.LESS_THAN
  | TokenType.GREATER_THAN => inr BinaryOp.GREATER_THAN
  | TokenType.LESS_EQUAL => inr BinaryOp.LESS_EQUAL
  | TokenType.GREATER_EQUAL => inr BinaryOp.GREATER_EQUAL
  | TokenType.EQUAL_EQUAL => inr BinaryOp.EQUAL_EQUAL
  | TokenType.NOT_EQUAL => inr BinaryOp.NOT_EQUAL
  | _ => inl (runtime_error "Unknown comparison operator")
  end.

(** The expression grammar below [parseExpression], with the recursive
    call to [parseExpression] as [parseExpression_rec]: the knot is tied by
    the fixpoint [parseExpression] further down. *)
Section Levels.

Variable parseExpression_rec : M Expression.

(** The [do ... while (match({COMMA}))] of [parseCall]. *)
Fixpoint parseCall_loop (fuel : nat) (arguments : list Expression)
  : M (list Expression) :=
  match fuel with
  | O => fun _ => OutOfFuel
  | S fuel =>
      arg <- parseExpression_rec ;;
      let arguments := (arguments ++ [arg])%list in
      m <- match_ [TokenType.COMMA] ;;
      if m then parseCall_loop fuel arguments else ret arguments
  end.

Definition parseCall (expr : Expression) : M Expression :=
  match expr with
  | Identifier name loc =>
      _ <- consume TokenType.LPAREN "Expected '(' after function name" ;;
      c <- check TokenType.RPAREN ;;
      arguments <-
        (if negb c
         then fun current => parseCall_loop (fuel_at current) [] current
         else ret []) ;;
      _ <- consume TokenType.RPAREN "Expected ')' after arguments" ;;
      ret (FunctionCall name arguments loc)
  | _ => throw (runtime_error "Expected function name before '('")
  end.

Definition parsePrimary : M Expression :=
  m <- match_ [TokenType.STRING_LITERAL] ;;
  if m then p <- previous ;; ret (StringLiteral (value p) (location p))
  else
  m <- match_ [TokenType.INT_LITERAL] ;;
  if m then
    p <- previous ;;
    match stoi (value p) with
    | inl e => throw e
    | inr v => ret (IntLiteral v (location p))
    end
  else
  m <- match_ [TokenType.FLOAT_LITERAL] ;;
  if m then
    p <- previous ;;
    match stof (value p) with
    | inl e => throw e
    | inr v => ret (FloatLiteral v (location p))
    end
  else
  m <- match_ [TokenType.IDENTIFIER] ;;
  if m then
    p <- previous ;;
    let identifier := Identifier (value p) (location p) in
    c <- check TokenType.LPAREN ;;
    if c then parseCall identifier else ret identifier
  else
  m <- match_ [TokenType.LPAREN] ;;
  if m then
    expr <- parseExpression_rec ;;
    _ <- consume TokenType.RPAREN "Expected ')' after expression" ;;
    ret expr
  else throw (runtime_error "Expected expression").

(** [parseUnary] calls itself after each leading [-]. *)
Fixpoint parseUnary_fuel (fuel : nat) : M Expression :=
  match fuel with
  | O => fun _ => OutOfFuel
  | S fuel =>
      m <- match_ [TokenType.MINUS] ;;
      if m then
        op <- previous ;;
        expr <- parseUnary_fuel fuel ;;
        ret (UnaryOp UnaryOp.NEG expr (location op))
      else parsePrimary
  end.

Definition parseUnary : M Expression :=
  fun current => parseUnary_fuel (fuel_at current) current.

Definition parseMultiplication : M Expression :=
  binary_level multiplication_ops multiplication_opType parseUnary.

Definition parseAddition : M Expression :=
  binary_level addition_ops addition_opType parseMultiplication.

Definition parseComparison : M Expression :=
  binary_level comparison_ops comparison_opType parseAddition.

Definition parseConditional : M Expression :=
  condition <- parseComparison ;;
  _ <- consume TokenType.THEN "Expected 'then' after if condition" ;;
  thenExpr <- parseExpression_rec ;;
  _ <- consume TokenType.ELSE "Expected 'else' after then expression" ;;
  elseExpr <- parseExpression_rec ;;
  ret (ConditionalExpression condition thenExpr elseExpr
         (Expression_location condition)).

Definition parseExpression_body : M Expression :=
  m <- match_ [TokenType.IF] ;;
  if m then parseConditional else parseComparison.

End Levels.

(** [parseExpression], with the depth of nested calls to itself bounded by
    [fuel]. *)
Fixpoint parseExpression_fuel (fuel : nat) : M Expression :=
  match fuel with
  | O => fun _ => OutOfFuel
  | S fuel => parseExpression_body (parseExpression_fuel fuel)
  end.

Definition parseExpression : M Expression :=
  fun current => parseExpression_fuel (fuel_at current) current.

Definition parseFunction : M FunctionDef :=
  _ <- consume TokenType.LET "Expected 'let' at start of function definition" ;;
  nameToken <- consume TokenType.IDENTIFIER "Expected function name after 'let'" ;;
  let funcName := value nameToken in
  _ <- consume TokenType.COLON "Expected ':' after function name" ;;
  returnType <- parseType ;;
  _ <- consume TokenType.EQUALS "Expected '=' after return type" ;;
  _ <- consume TokenType.LPAREN "Expected '(' for function parameters" ;;
  parameters <- parseParameters ;;
  _ <- consume TokenType.RPAREN "Expected ')' after function parameters" ;;
  _ <- consume TokenType.ARROW "Expected '->' after parameters" ;;
  body <- parseExpression ;;
  ret (mkFunctionDef funcName returnType parameters body (location nameToken)).

(** [while (match({TokenType::COMMENT})) {}] *)
Fixpoint skip_comments (fuel : nat) : M unit :=
  match fuel with
  | O => fun _ => OutOfFuel
  | S fuel =>
      m <- match_ [TokenType.COMMENT] ;;
      if m then skip_comments fuel else ret tt
  end.

(** The [while (!isAtEnd())] of [parse], carrying [prog->functions] and
    the [errors] member.  The [catch] takes every exception of the
    [try] block, records [e.what()] and resynchronises. *)
Fixpoint parse_loop (fuel : nat) (funcs : list FunctionDef) (errors : list string)
  : M (list FunctionDef * list string) :=
  match fuel with
  | O => fun _ => OutOfFuel
  | S fuel =>
      e <- isAtEnd ;;
      if e then ret (funcs, errors)
      else
        _ <- (fun current => skip_comments (fuel_at current) current) ;;
        e <- isAtEnd ;;
        if e then ret (funcs, errors)
        else fun current =>
          match parseFunction current with
          | Ok func current' =>
              parse_loop fuel (funcs ++ [func])%list errors current'
          | Throw e current' =>
              (_ <- synchronize ;;
               parse_loop fuel funcs (errors ++ [what e])%list) current'
          | Crash => Crash
          | OutOfFuel => OutOfFuel
          end
  end.

End WithTokens.

(** The members of [class Parser] that [main] uses. *)
Record t : Set := mk {
  tokens : list Token;
  current : nat;
  errors : list string
}.

(** [Parser(Lexer &lexer)]: the token vector is taken from the lexer it is
    given, which is left where [tokenize] stopped. *)
Definition new (lexer : Lexer.t) : t * Lexer.t :=
  let '(toks, lexer) := Lexer.tokenize lexer in
  (mk toks 0 [], lexer).

(** [parse()]: the program and the parser after the call. *)
Definition parse (stof : string -> exception + float32) (p : t)
  : result (Program * t) :=
  match parse_loop (tokens p) stof (fuel_at (tokens p) (current p)) [] (errors p)
          (current p) with
  | Ok (funcs, errs) current' =>
      Ok (mkProgram funcs Location_default, mk (tokens p) current' errs) current'
  | Throw e c => Throw e c
  | Crash => Crash
  | OutOfFuel => OutOfFuel
  end.

Definition hasErrors (p : t) : bool :=
  match errors p with [] => false | _ => true end.

(** *** Vocabulary of the properties *)

(** Membership of a token kind in a list of kinds. *)
Definition mem (ty : TokenType.t) (types : list TokenType.t) : bool :=
  existsb (TokenType.eqb ty) types.

(** The operator of the node a binary operator token makes. *)
Definition binary_operator_of (ty : TokenType.t) : option BinaryOp.OpType :=
  match ty with
  | TokenType.PLUS => Some BinaryOp.ADD
  | TokenType.MINUS => Some BinaryOp.SUB
  | TokenType.MULTIPLY => Some BinaryOp.MUL
  | TokenType.DIVIDE => Some BinaryOp.DIV
  | TokenType.LESS_THAN => Some BinaryOp.LESS_THAN
  | TokenType.GREATER_THAN => Some BinaryOp.GREATER_THAN
  | TokenType.LESS_EQUAL => Some BinaryOp.LESS_EQUAL
  | TokenType.GREATER_EQUAL => Some BinaryOp.GREATER_EQUAL
  | TokenType.EQUAL_EQUAL => Some BinaryOp.EQUAL_EQUAL
  | TokenType.NOT_EQUAL => Some BinaryOp.NOT_EQUAL
  | _ => None
  end.

(** A token [std::stoi] accepts, if it is an INT_LITERAL. *)
Definition converts (t : Token) : Prop :=
  type t = TokenType.INT_LITERAL -> exists v, stoi (value t) = inr v.

Section Outcomes.
Variable tokens : list Token.

(** Every INT_LITERAL from [c] up to [c'] converts. *)
Definition span_ok (c c' : nat) : Prop :=
  forall n t, (c <= n < c')%nat -> nth_error tokens n = Some t -> converts t.

(** A member function entered at [c] returns or throws, with the cursor
    not before [c] and on a token; when it returns, the INT_LITERALs it
    went over convert. *)
Definition sound {A} (m : M A) (c : nat) : Prop :=
  match m c with
  | Ok _ c' => (c <= c' < length tokens)%nat /\ span_ok c c'
  | Throw _ c' => (c <= c' < length tokens)%nat
  | Crash | OutOfFuel => False
  end.

(** What follows a [match] that took the token [t]. *)
Definition sound_after {A} (t : Token) (m : M A) (c : nat) : Prop :=
  match m c with
  | Ok _ c' => (c <= c' < length tokens)%nat /\ span_ok c c' /\ converts t
  | Throw _ c' => (c <= c' < length tokens)%nat
  | Crash | OutOfFuel => False
  end.

End Outcomes.

End Parser.

(* ===================================================================== *)
(** ** The IR toolkit, as far as codegen.cpp uses it *)
(* ===================================================================== *)

Module IR.

Inductive Ty : Set :=
  | IntegerTy (bits : nat)
  | FloatTy
  | PointerTy (pointee : Ty)
  | FunctionTy (ret : Ty) (params : list Ty).

Definition Int1Ty : Ty := IntegerTy 1.
Definition Int8Ty : Ty := IntegerTy 8.
Definition Int32Ty : Ty := IntegerTy 32.
(** [llvm::PointerType::get(llvm::Type::getInt8Ty(context), 0)] *)
Definition Int8PtrTy : Ty := PointerTy Int8Ty.

Definition isIntegerTy (ty : Ty) : bool :=
  match ty with IntegerTy _ => true | _ => false end.
Definition isFloatingPointTy (ty : Ty) : bool :=
  match ty with FloatTy => true | _ => false end.

Definition getReturnType (fty : Ty) : Ty :=
  match fty with FunctionTy ret _ => ret | _ => fty end.
Definition getParams (fty : Ty) : list Ty :=
  match fty with FunctionTy _ params => params | _ => [] end.

(** [llvm::Value *]: constants, the arguments of a function, a function of
    the module, or the result of a builder request, each with its type. *)
Inductive Value : Set :=
  | ConstantInt (ty : Ty) (v : Z)
  | ConstantFP (ty : Ty) (v : float32)
  | Argument (fn : nat) (index : nat) (ty : Ty)
  | FunctionRef (fn : nat) (fty : Ty)
  | Result (id : nat) (ty : Ty).

Definition getType (v : Value) : Ty :=
  match v with
  | ConstantInt ty _ | ConstantFP ty _ | Argument _ _ ty | Result _ ty => ty
  | FunctionRef _ fty => PointerTy fty
  end.

Inductive BinaryOps : Set :=
  | Add | Sub | Mul | SDiv | FAdd | FSub | FMul | FDiv.
Inductive ICmpPredicate : Set :=
  | ICMP_SLT | ICMP_SGT | ICMP_SLE | ICMP_SGE | ICMP_EQ | ICMP_NE.
Inductive FCmpPredicate : Set :=
  | FCMP_OLT | FCMP_OGT | FCMP_OLE | FCMP_OGE | FCMP_OEQ | FCMP_ONE.

(** The requests made to [llvm::IRBuilder<>], named after its member
    functions ([CreateAdd(l, r, n)] is [CreateBinOp Add l r n], and so on
    for the other arithmetic and comparison members; a phi node is given
    with the edges [addIncoming] attaches to it).  What the toolkit makes
    of a request (an instruction, or a folded constant) is its business. *)
Inductive Request : Set :=
  | CreateGlobalStringPtr (str name : string)
  | CreateBitCast (v : Value) (destTy : Ty)
  | CreateNeg (v : Value) (name : string)
  | CreateFNeg (v : Value) (name : string)
  | CreateBinOp (opc : BinaryOps) (lhs rhs : Value) (name : string)
  | CreateICmp (p : ICmpPredicate) (lhs rhs : Value) (name : string)
  | CreateFCmp (p : FCmpPredicate) (lhs rhs : Value) (name : string)
  | CreateCall (fty : Ty) (callee : Value) (args : list Value) (name : string)
  | CreateCondBr (cond : Value) (ifTrue ifFalse : nat)
  | CreateBr (dest : nat)
  | CreatePHI (ty : Ty) (incoming : list (Value * option nat)) (name : string)
  | CreateRet (v : Value).

(** A request as placed: its result id and the block the builder was
    positioned at. *)
Record Instruction : Set := mkInstruction {
  inst_id : nat;
  inst_block : option nat;
  inst_request : Request
}.

Record BasicBlock : Set := mkBasicBlock {
  bb_id : nat;
  bb_name : string;
  bb_parent : option nat
}.

(** A function of the module.  [fn_name] is the name it was created
    under; the toolkit gives a later function of the same name a suffixed
    name that no identifier of the language spells, so a look-up by name
    ([getFunction]) ends at the earliest function created under it. *)
Record Function_ : Set := mkFunction {
  fn_id : nat;
  fn_name : string;
  fn_type : Ty;
  fn_args : list string
}.

End IR.

(* ===================================================================== *)
(** ** codegen.cpp *)
(* ===================================================================== *)

Module CodeGenerator.
Import IR.

(** The members of [class CodeGenerator]: the module (functions, blocks,
    placed requests, string constants), the builder's insertion block, the
    two symbol tables,
    and the lines [reportError] wrote to [std::cerr] (message and
    location).  The verdicts of [llvm::verifyFunction] and
    [llvm::verifyModule], which only add diagnostics to [std::cerr], are not
    part of the model. *)
Record t : Type := mk {
  module_functions : list Function_;
  module_blocks : list BasicBlock;
  module_insts : list Instruction;
  module_globals : list string;
  insert_block : option nat;
  next_id : nat;
  namedValues : gmap string Value;
  functions : gmap string nat;
  currentFunction : option nat;
  reported : list (string * Location)
}.

Definition CG (A : Type) : Type := t -> A * t.
Definition ret {A} (a : A) : CG A := fun s => (a, s).
Definition bind {A B} (m : CG A) (k : A -> CG B) : CG B :=
  fun s => let '(a, s) := m s in k a s.

#[local] Notation "x <- m ;; k" := (bind m (fun x => k))
  (at level 100, m at next level, right associativity).

Definition fresh : CG nat := fun s =>
  (next_id s,
   mk (module_functions s) (module_blocks s) (module_insts s) (module_globals s) (insert_block s)
      (S (next_id s)) (namedValues s) (functions s) (currentFunction s)
      (reported s)).

(** A builder request at the insertion point; the value it returns has the
    type [ty]. *)
Definition request (r : Request) (ty : Ty) : CG Value :=
  id <- fresh ;;
  fun s =>
    (Result id ty,
     mk (module_functions s) (module_blocks s)
        (module_insts s ++ [mkInstruction id (insert_block s) r])
        (module_globals s) (insert_block s) (next_id s) (namedValues s) (functions s)
        (currentFunction s) (reported s)).

(** [builder->CreateGlobalStringPtr(str, name)]: the string becomes a
    constant of the module, and stays one whatever happens to the function
    under construction. *)
Definition CreateGlobalStringPtr_ (str name : string) : CG Value :=
  v <- request (CreateGlobalStringPtr str name) Int8PtrTy ;;
  fun s =>
    (v,
     mk (module_functions s) (module_blocks s) (module_insts s)
        (module_globals s ++ [str]) (insert_block s) (next_id s)
        (namedValues s) (functions s) (currentFunction s) (reported s)).

(** [llvm::BasicBlock::Create(context, name, func)] *)
Definition BasicBlock_Create (name : string) (func : option nat) : CG nat :=
  id <- fresh ;;
  fun s =>
    (id,
     mk (module_functions s) (module_blocks s ++ [mkBasicBlock id name func])
        (module_insts s) (module_globals s) (insert_block s) (next_id s) (namedValues s)
        (functions s) (currentFunction s) (reported s)).

Definition SetInsertPoint (bb : nat) : CG unit := fun s =>
  (tt,
   mk (module_functions s) (module_blocks s) (module_insts s) (module_globals s) (Some bb)
      (next_id s) (namedValues s) (functions s) (currentFunction s) (reported s)).

Definition GetInsertBlock : CG (option nat) := fun s => (insert_block s, s).

(** [builder->GetInsertBlock()->getParent()] *)
Definition getParent (bb : option nat) : CG (option nat) := fun s =>
  (match bb with
   | Some b =>
       match find (fun k => Nat.eqb (bb_id k) b) (module_blocks s) with
       | Some k => bb_parent k
       | None => None
       end
   | None => None
   end, s).

(** [llvm::Function::Create(funcType, ExternalLinkage, name, module.get())].
    [fn_name] is the name asked for.  LLVM gives a function whose name is
    taken in the module a suffixed name; [getFunction] below finds the
    first function created under a name, which is the holder of the name
    in LLVM: [generateFunction] only ever erases the function it has just
    created. *)
Definition Function_Create (fty : Ty) (name : string) (args : list string)
  : CG Function_ :=
  id <- fresh ;;
  fun s =>
    let f := mkFunction id name fty args in
    (f,
     mk (module_functions s ++ [f]) (module_blocks s) (module_insts s)
        (module_globals s) (insert_block s) (next_id s) (namedValues s) (functions s)
        (currentFunction s) (reported s)).

(** [module->getFunction(name)] *)
Definition getFunction (name : string) : CG (option Function_) := fun s =>
  (find (fun f => String.eqb (fn_name f) name) (module_functions s), s).

Definition function_by_id (id : nat) : CG (option Function_) := fun s =>
  (find (fun f => Nat.eqb (fn_id f) id) (module_functions s), s).

Definition block_in (fn : nat) (blocks : list BasicBlock) (b : option nat) : bool :=
  match b with
  | Some b =>
      existsb (fun k => Nat.eqb (bb_id k) b &&
                        match bb_parent k with
                        | Some p => Nat.eqb p fn
                        | None => false
                        end) blocks
  | None => false
  end.

(** [function->eraseFromParent()]: the function leaves the module with its
    blocks and what was placed in them. *)
Definition eraseFromParent (fn : nat) : CG unit := fun s =>
  (tt,
   mk (List.filter (fun f => negb (Nat.eqb (fn_id f) fn)) (module_functions s))
      (List.filter (fun k => negb (block_in fn (module_blocks s) (Some (bb_id k))))
              (module_blocks s))
      (List.filter (fun i => negb (block_in fn (module_blocks s) (inst_block i)))
              (module_insts s))
      (module_globals s) (insert_block s) (next_id s) (namedValues s) (functions s)
      (currentFunction s) (reported s)).

Definition reportError (message : string) (loc : Location) : CG unit := fun s =>
  (tt,
   mk (module_functions s) (module_blocks s) (module_insts s) (module_globals s) (insert_block s)
      (next_id s) (namedValues s) (functions s) (currentFunction s)
      (reported s ++ [(message, loc)])).

Definition namedValues_find (name : string) : CG (option Value) := fun s =>
  (namedValues s !! name, s).
Definition functions_find (name : string) : CG (option nat) := fun s =>
  (functions s !! name, s).

Definition set_namedValues (m : gmap string Value) : CG unit := fun s =>
  (tt,
   mk (module_functions s) (module_blocks s) (module_insts s) (module_globals s) (insert_block s)
      (next_id s) m (functions s) (currentFunction s) (reported s)).
Definition set_functions (m : gmap string nat) : CG unit := fun s =>
  (tt,
   mk (module_functions s) (module_blocks s) (module_insts s) (module_globals s) (insert_block s)
      (next_id s) (namedValues s) m (currentFunction s) (reported s)).
Definition set_currentFunction (f : option nat) : CG unit := fun s =>
  (tt,
   mk (module_functions s) (module_blocks s) (module_insts s) (module_globals s) (insert_block s)
      (next_id s) (namedValues s) (functions s) f (reported s)).

(** [llvmType]; its [default] branch cannot be reached from a [TypeKind]. *)
Definition llvmType (ty : Type_) : Ty :=
  match Type_kind ty with
  | Type_.INT => Int32Ty
  | Type_.FLOAT => FloatTy
  | Type_.CHAR => Int8Ty
  | Type_.STR => Int8PtrTy
  | Type_.FUNC => Int8PtrTy
  end.

(** *** The [switch (binOp->op)] of [generateExpression]

    Each [case] is the request it returns with, or nothing when neither
    [if] of the case applies.  All cases end in [break] but [DIV], after
    which control runs on into the statements of [case LESS_THAN]. *)
Definition both (p : Ty -> bool) (left right : Value) : bool :=
  p (getType left) && p (getType right).

Definition arith_case (iop fop : BinaryOps) (iname fname : string)
    (left right : Value) : option (Request * Ty) :=
  if both isIntegerTy left right
  then Some (CreateBinOp iop left right iname, getType left)
  else if both isFloatingPointTy left right
  then Some (CreateBinOp fop left right fname, getType left)
  else None.

Definition cmp_case (ip : ICmpPredicate) (fp : FCmpPredicate)
    (left right : Value) : option (Request * Ty) :=
  if both isIntegerTy left right
  then Some (CreateICmp ip left right "cmptmp", Int1Ty)
  else if both isFloatingPointTy left right
  then Some (CreateFCmp fp left right "cmptmp", Int1Ty)
  else None.

Definition case_LESS_THAN := cmp_case ICMP_SLT FCMP_OLT.

Definition binary_switch (op : BinaryOp.OpType) (left right : Value)
  : option (Request * Ty) :=
  match op with
  | BinaryOp.ADD => arith_case Add FAdd "addtmp" "faddtmp" left right
  | BinaryOp.SUB => arith_case Sub FSub "subtmp" "fsubtmp" left right
  | BinaryOp.MUL => arith_case Mul FMul "multmp" "fmultmp" left right
  | BinaryOp.DIV =>
      match arith_case SDiv FDiv "divtmp" "fdivtmp" left right with
      | Some r => Some r
      | None => (* no [break] *) case_LESS_THAN left right
      end
  | BinaryOp.LESS_THAN => case_LESS_THAN left right
  | BinaryOp.GREATER_THAN => cmp_case ICMP_SGT FCMP_OGT left right
  | BinaryOp.LESS_EQUAL => cmp_case ICMP_SLE FCMP_OLE left right
  | BinaryOp.GREATER_EQUAL => cmp_case ICMP_SGE FCMP_OGE left right
  | BinaryOp.EQUAL_EQUAL => cmp_case ICMP_EQ FCMP_OEQ left right
  | BinaryOp.NOT_EQUAL => cmp_case ICMP_NE FCMP_ONE left right
  end.

(** The same dispatch as the specification words it: division is emitted
    and the case stops there. *)
Definition binary_switch_spec (op : BinaryOp.OpType) (left right : Value)
  : option (Request * Ty) :=
  match op with
  | BinaryOp.ADD => arith_case Add FAdd "addtmp" "faddtmp" left right
  | BinaryOp.SUB => arith_case Sub FSub "subtmp" "fsubtmp" left right
  | BinaryOp.MUL => arith_case Mul FMul "multmp" "fmultmp" left right
  | BinaryOp.DIV => arith_case SDiv FDiv "divtmp" "fdivtmp" left right
  | BinaryOp.LESS_THAN => cmp_case ICMP_SLT FCMP_OLT left right
  | BinaryOp.GREATER_THAN => cmp_case ICMP_SGT FCMP_OGT left right
  | BinaryOp.LESS_EQUAL => cmp_case ICMP_SLE FCMP_OLE left right
  | BinaryOp.GREATER_EQUAL => cmp_case ICMP_SGE FCMP_OGE left right
  | BinaryOp.EQUAL_EQUAL => cmp_case ICMP_EQ FCMP_OEQ left right
  | BinaryOp.NOT_EQUAL => cmp_case ICMP_NE FCMP_ONE left right
  end.

(** The last two statements of [generateExpression], reached by every
    expression no [if] above them returned for. *)
Definition unknown_expression (loc : Location) : CG (option Value) :=
  _ <- reportError "Unknown expression type" loc ;; ret None.

Definition some_request (r : Request) (ty : Ty) : CG (option Value) :=
  v <- request r ty ;; ret (Some v).

(** The body of the [if] for [BinaryOp], after both operands. *)
Definition generateBinaryOp (op : BinaryOp.OpType) (left right : option Value)
    (loc : Location) : CG (option Value) :=
  match left, right with
  | Some lhs, Some rhs =>
      match binary_switch op lhs rhs with
      | Some (r, ty) => some_request r ty
      | None =>
          _ <- reportError "Unsupported binary operation" loc ;; ret None
      end
  | _, _ => ret None
  end.

(** The body of the [if] for [UnaryOp], after the operand: when the
    [switch] ends in [break], no later [dynamic_cast] applies and control
    arrives at the end of the function. *)
Definition generateUnaryOp (op : UnaryOp.OpType) (operand : option Value)
    (loc : Location) : CG (option Value) :=
  match operand with
  | None => ret None
  | Some operand =>
      match op with
      | UnaryOp.NEG =>
          if isIntegerTy (getType operand)
          then some_request (CreateNeg operand "negtmp") (getType operand)
          else if isFloatingPointTy (getType operand)
          then some_request (CreateFNeg operand "fnegtmp") (getType operand)
          else unknown_expression loc
      end
  end.

(** The indirect call, after the arguments: the function type is made of
    the argument types and [i32]. *)
Definition generateIndirectCall (funcPtr : Value) (args : list Value)
  : CG (option Value) :=
  let argTypes := map getType args in
  let returnType := Int32Ty in
  let funcType := FunctionTy returnType argTypes in
  castedFunc <- request (CreateBitCast funcPtr (PointerTy funcType))
                        (PointerTy funcType) ;;
  some_request (CreateCall funcType castedFunc args "calltmp") returnType.

Fixpoint generateExpression (expr : Expression) : CG (option Value) :=
  match expr with
  | IntLiteral v _ => ret (Some (ConstantInt Int32Ty v))
  | FloatLiteral v _ => ret (Some (ConstantFP FloatTy v))
  | StringLiteral v _ => v <- CreateGlobalStringPtr_ v "str" ;; ret (Some v)
  | Identifier name loc =>
      it <- namedValues_find name ;;
      match it with
      | Some v => ret (Some v)
      | None =>
          funcIt <- functions_find name ;;
          match funcIt with
          | Some fn =>
              f <- function_by_id fn ;;
              let fty := match f with Some f => fn_type f | None => Int8Ty end in
              some_request (CreateBitCast (FunctionRef fn fty) Int8PtrTy) Int8PtrTy
          | None =>
              _ <- reportError ("Undefined variable: " ++ name) loc ;; ret None
          end
      end
  | UnaryOp op operand loc =>
      operand <- generateExpression operand ;;
      generateUnaryOp op operand loc
  | BinaryOp op lhs rhs loc =>
      lhs <- generateExpression lhs ;;
      rhs <- generateExpression rhs ;;
      generateBinaryOp op lhs rhs loc
  | FunctionCall funcName args loc =>
      let generateArgs :=
        fix generateArgs (l : list Expression) : CG (option (list Value)) :=
          match l with
          | [] => ret (Some [])
          | arg :: l =>
              argValue <- generateExpression arg ;;
              match argValue with
              | None => ret None
              | Some v =>
                  vs <- generateArgs l ;;
                  ret (option_map (cons v) vs)
              end
          end in
      namedValueIt <- namedValues_find funcName ;;
      match namedValueIt with
      | Some funcPtr =>
          args <- generateArgs args ;;
          match args with
          | None => ret None
          | Some args => generateIndirectCall funcPtr args
          end
      | None =>
          it <- functions_find funcName ;;
          func <- match it with
                  | Some fn => function_by_id fn
                  | None => getFunction funcName
                  end ;;
          match func with
          | None =>
              _ <- reportError ("Undefined function: " ++ funcName) loc ;;
              ret None
          | Some func =>
              if negb (Nat.eqb (length (getParams (fn_type func))) (length args))
              then
                _ <- reportError
                       ("Incorrect number of arguments for function: " ++ funcName)
                       loc ;;
                ret None
              else
                args <- generateArgs args ;;
                match args with
                | None => ret None
                | Some args =>
                    some_request
                      (CreateCall (fn_type func)
                                  (FunctionRef (fn_id func) (fn_type func))
                                  args "calltmp")
                      (getReturnType (fn_type func))
                end
          end
      end
  | ConditionalExpression condition thenExpr elseExpr loc =>
      condition <- generateExpression condition ;;
      match condition with
      | None => ret None
      | Some condition =>
          condBool <-
            (if isIntegerTy (getType condition) then
               some_request
                 (CreateICmp ICMP_NE condition
                             (ConstantInt (getType condition) 0) "ifcond") Int1Ty
             else if isFloatingPointTy (getType condition) then
               some_request
                 (CreateFCmp FCMP_ONE condition
                             (ConstantFP (getType condition) 0) "ifcond") Int1Ty
             else
               _ <- reportError "Invalid condition type for if expression" loc ;;
               ret None) ;;
          match condBool with
          | None => ret None
          | Some condBool =>
              bb <- GetInsertBlock ;;
              func <- getParent bb ;;
              thenBlock <- BasicBlock_Create "then" func ;;
              elseBlock <- BasicBlock_Create "else" func ;;
              mergeBlock <- BasicBlock_Create "ifcont" func ;;
              _ <- request (CreateCondBr condBool thenBlock elseBlock) Int1Ty ;;
              _ <- SetInsertPoint thenBlock ;;
              thenValue <- generateExpression thenExpr ;;
              match thenValue with
              | None => ret None
              | Some thenValue =>
                  _ <- request (CreateBr mergeBlock) Int1Ty ;;
                  thenBlock <- GetInsertBlock ;;
                  _ <- SetInsertPoint elseBlock ;;
                  elseValue <- generateExpression elseExpr ;;
                  match elseValue with
                  | None => ret None
                  | Some elseValue =>
                      _ <- request (CreateBr mergeBlock) Int1Ty ;;
                      elseBlock <- GetInsertBlock ;;
                      _ <- SetInsertPoint mergeBlock ;;
                      some_request
                        (CreatePHI (getType thenValue)
                                   [(thenValue, thenBlock); (elseValue, elseBlock)]
                                   "iftmp")
                        (getType thenValue)
                  end
              end
          end
      end
  end.

(** The loop over [call->args] of both call paths, which
    [generateExpression] carries inside its own recursion: it stops at the
    first argument without a value. *)
Fixpoint generateArgs (l : list Expression) : CG (option (list Value)) :=
  match l with
  | [] => ret (Some [])
  | arg :: l =>
      argValue <- generateExpression arg ;;
      match argValue with
      | None => ret None
      | Some v =>
          vs <- generateArgs l ;;
          ret (option_map (cons v) vs)
      end
  end.

(** The requests the specification names for each operator, on integer
    and on float operands, and the type of their result. *)
Definition integer_request (op : BinaryOp.OpType) (l r : Value) : Request :=
  match op with
  | BinaryOp.ADD => CreateBinOp Add l r "addtmp"
  | BinaryOp.SUB => CreateBinOp Sub l r "subtmp"
  | BinaryOp.MUL => CreateBinOp Mul l r "multmp"
  | BinaryOp.DIV => CreateBinOp SDiv l r "divtmp"
  | BinaryOp.LESS_THAN => CreateICmp ICMP_SLT l r "cmptmp"
  | BinaryOp.GREATER_THAN => CreateICmp ICMP_SGT l r "cmptmp"
  | BinaryOp.LESS_EQUAL => CreateICmp ICMP_SLE l r "cmptmp"
  | BinaryOp.GREATER_EQUAL => CreateICmp ICMP_SGE l r "cmptmp"
  | BinaryOp.EQUAL_EQUAL => CreateICmp ICMP_EQ l r "cmptmp"
  | BinaryOp.NOT_EQUAL => CreateICmp ICMP_NE l r "cmptmp"
  end.

Definition float_request (op : BinaryOp.OpType) (l r : Value) : Request :=
  match op with
  | BinaryOp.ADD => CreateBinOp FAdd l r "faddtmp"
  | BinaryOp.SUB => CreateBinOp FSub l r "fsubtmp"
  | BinaryOp.MUL => CreateBinOp FMul l r "fmultmp"
  | BinaryOp.DIV => CreateBinOp FDiv l r "fdivtmp"
  | BinaryOp.LESS_THAN => CreateFCmp FCMP_OLT l r "cmptmp"
  | BinaryOp.GREATER_THAN => CreateFCmp FCMP_OGT l r "cmptmp"
  | BinaryOp.LESS_EQUAL => CreateFCmp FCMP_OLE l r "cmptmp"
  | BinaryOp.GREATER_EQUAL => CreateFCmp FCMP_OGE l r "cmptmp"
  | BinaryOp.EQUAL_EQUAL => CreateFCmp FCMP_OEQ l r "cmptmp"
  | BinaryOp.NOT_EQUAL => CreateFCmp FCMP_ONE l r "cmptmp"
  end.

Definition is_comparison (op : BinaryOp.OpType) : bool :=
  match op with
  | BinaryOp.ADD | BinaryOp.SUB | BinaryOp.MUL | BinaryOp.DIV => false
  | _ => true
  end.

Definition result_type (op : BinaryOp.OpType) (l : Value) : Ty :=
  if is_comparison op then Int1Ty else getType l.

(** A request placed at the insertion point of [s], as the next result. *)
Definition placed (s : t) (r : Request) : Instruction :=
  mkInstruction (next_id s) (insert_block s) r.

(** [for (auto &arg : function->args()) namedValues[arg.getName()] = &arg;]

    [Argument::setName] and [getName] belong to LLVM: [getName] is taken
    to give back the name that was set, so each parameter name is mapped
    to its argument, in order, a later entry replacing an earlier one of
    the same name.  (LLVM renames an argument whose name is taken in the
    function; the two differ for two parameters of one name only.) *)
Fixpoint bind_arguments (fn : nat) (index : nat) (params : list Parameter_)
    (table : gmap string Value) : gmap string Value :=
  match params with
  | [] => table
  | p :: params =>
      bind_arguments fn (S index) params
        (<[param_name p := Argument fn index (llvmType (param_type p))]> table)
  end.

(** [generateFunction] up to the body: the function is created and named,
    its entry block made the insertion point, the local name table
    replaced by the parameters. *)
Definition enterFunction (func : FunctionDef) : CG Function_ :=
  let returnType := llvmType (func_returnType func) in
  let paramTypes := map (fun p => llvmType (param_type p)) (func_parameters func) in
  let funcType := FunctionTy returnType paramTypes in
  function <- Function_Create funcType (func_name func)
                (map param_name (func_parameters func)) ;;
  entry <- BasicBlock_Create "entry" (Some (fn_id function)) ;;
  _ <- SetInsertPoint entry ;;
  _ <- set_currentFunction (Some (fn_id function)) ;;
  _ <- set_namedValues (bind_arguments (fn_id function) 0 (func_parameters func) ∅) ;;
  ret function.

Definition generateFunction (func : FunctionDef) : CG (option Function_) :=
  function <- enterFunction func ;;
  retVal <- generateExpression (func_body func) ;;
  match retVal with
  | Some retVal =>
      _ <- request (CreateRet retVal) Int1Ty ;;
      fs <- (fun s => (functions s, s)) ;;
      _ <- set_functions (<[func_name func := fn_id function]> fs) ;;
      ret (Some function)
  | None =>
      _ <- eraseFromParent (fn_id function) ;;
      ret None
  end.

Definition declareBuiltinFunction (name : string) (returnType : Ty)
    (paramTypes : list Ty) : CG Function_ :=
  Function_Create (FunctionTy returnType paramTypes) name
                  (map (fun _ => EmptyString) paramTypes).

Definition declareBuiltinFunctions : CG unit :=
  _ <- declareBuiltinFunction "str_print" Int32Ty [Int8PtrTy] ;;
  _ <- declareBuiltinFunction "str_read" Int8PtrTy [Int32Ty] ;;
  _ <- declareBuiltinFunction "str_len" Int32Ty [Int8PtrTy] ;;
  _ <- declareBuiltinFunction "str_at" Int8Ty [Int8PtrTy; Int32Ty] ;;
  _ <- declareBuiltinFunction "str_sub" Int8PtrTy [Int8PtrTy; Int32Ty; Int32Ty] ;;
  _ <- declareBuiltinFunction "str_find" Int32Ty [Int8PtrTy; Int8PtrTy] ;;
  _ <- declareBuiltinFunction "int_to_str" Int8PtrTy [Int32Ty] ;;
  _ <- declareBuiltinFunction "str_to_int" Int32Ty [Int8PtrTy] ;;
  _ <- declareBuiltinFunction "float_to_str" Int8PtrTy [FloatTy] ;;
  _ <- declareBuiltinFunction "str_to_float" FloatTy [Int8PtrTy] ;;
  _ <- declareBuiltinFunction "str_cmp" Int32Ty [Int8PtrTy; Int8PtrTy] ;;
  ret tt.

(** [CodeGenerator()] *)
Definition new : t :=
  snd (declareBuiltinFunctions (mk [] [] [] [] None 0 ∅ ∅ None [])).

Fixpoint generateFunctions (funcs : list FunctionDef) : CG unit :=
  match funcs with
  | [] => ret tt
  | func :: funcs => _ <- generateFunction func ;; generateFunctions funcs
  end.

(** [generate(program)] *)
Definition generate (program : Program) : CG unit :=
  generateFunctions (Program_functions program).

(** [emitIR()] prints the module: its functions with their blocks and what
    was placed in them. *)
Record ModuleText : Set := mkModuleText {
  text_functions : list Function_;
  text_blocks : list BasicBlock;
  text_insts : list Instruction;
  text_globals : list string
}.

Definition emitIR (s : t) : ModuleText :=
  mkModuleText (module_functions s) (module_blocks s) (module_insts s)
               (module_globals s).

(** Whether the module holds a function under [name]. *)
Definition module_has_function (s : t) (name : string) : bool :=
  match fst (getFunction name s) with Some _ => true | None => false end.

(** The owner of a block, as [getParent] finds it. *)
Definition owner (s : t) (b : option nat) : option nat := fst (getParent b s).

(** The ids in use are below [next_id]. *)
Definition fresh_ids (s : t) : Prop :=
  Forall (fun f => (fn_id f < next_id s)%nat) (module_functions s) /\
  Forall (fun k => (bb_id k < next_id s)%nat /\
                   forall p, bb_parent k = Some p -> (p < next_id s)%nat)
         (module_blocks s) /\
  Forall (fun i => forall b, inst_block i = Some b -> (b < next_id s)%nat)
         (module_insts s).

(** The builder works inside function [F]: block ids are below [next_id]
    and the insertion block belongs to [F]. *)
Definition inside (F : nat) (s : t) : Prop :=
  Forall (fun k => (bb_id k < next_id s)%nat) (module_blocks s) /\
  owner s (insert_block s) = Some F.

(** From [s] to [s'] the module has only gained blocks of [F] and
    requests placed in blocks of [F]; the function list and the two
    symbol tables are the same. *)
Record grows (F : nat) (s s' : t) : Prop := mkGrows {
  grows_functions : module_functions s' = module_functions s;
  grows_table : functions s' = functions s;
  grows_named : namedValues s' = namedValues s;
  grows_next : (next_id s <= next_id s')%nat;
  grows_blocks :
    exists nb, module_blocks s' = (module_blocks s ++ nb)%list /\
      Forall (fun k => bb_parent k = Some F /\
                       (next_id s <= bb_id k < next_id s')%nat) nb;
  grows_insts :
    exists ni, module_insts s' = (module_insts s ++ ni)%list /\
      Forall (fun i => exists b, inst_block i = Some b /\
                                 owner s' (Some b) = Some F) ni;
  grows_reported : exists nr, reported s' = (reported s ++ nr)%list
}.

(** The two facts carried along a generation inside [F]. *)
Definition step (F : nat) (s s' : t) : Prop := grows F s s' /\ inside F s'.

(** Generating [e] inside [F] stays inside [F]. *)
Definition keeps (e : Expression) : Prop :=
  forall F s, inside F s -> step F s (snd (generateExpression e s)).

(** A value comes without a report; no value comes with at least one. *)
Definition told {A} (v : option A) (s s' : t) : Prop :=
  match v with
  | Some _ => reported s' = reported s
  | None => exists nr, nr <> [] /\ reported s' = (reported s ++ nr)%list
  end.

(** The same for the outcome of a computation started in [s]. *)
Definition outcome_told {A} (s : t) (r : option A * t) : Prop := told (fst r) s (snd r).

(** [generateExpression] gives a value exactly when it reports nothing. *)
Definition tells (e : Expression) : Prop :=
  forall s, outcome_told s (generateExpression e s).

End CodeGenerator.

(* ===================================================================== *)
(** ** main.cpp *)
(* ===================================================================== *)

Module Main.

(** The command line after [CLI11_PARSE] has accepted it. *)
Record Options : Set := mkOptions {
  inputFile : string;
  dumpTokens : bool;
  dumpAST : bool
}.

(** The steps of the [try] block. *)
Inductive Stage : Set :=
  | LexerCtor | LexerDumpTokens | ParserCtor | ParserParse | ParserDumpAST
  | CodeGeneratorCtor | CodeGeneratorGenerate | CodeGeneratorEmitIR.

(** What the process runs in: the file system, the C library's [stof],
    and [fault], which tells for each step whether it is cut short by an
    exception derived from [std::exception] that the step does not handle
    itself ([std::bad_alloc] and the like), with its [what()]. *)
Record Env : Type := mkEnv {
  read_file : string -> option string;
  stof : string -> Parser.exception + float32;
  fault : Stage -> option string
}.

Inductive Output : Type :=
  | Stdout_tokens (file : string) (tokens : list Token)
  | Stdout_AST (program : Program)
  | Stdout_IR (ir : CodeGenerator.ModuleText)
  | Stderr_cannot_open (file : string)
  | Stderr_parse_errors (errors : list string)
  | Stderr_exception (what : string).

Inductive Event : Type :=
  | Entered (s : Stage)
  | Wrote (o : Output).

(** How the process ends: [return] from [main], or no return at all when
    the parser reads outside its vector or a loop of the model is out of
    fuel. *)
Inductive Status : Set :=
  | Exit (code : Z)
  | Crashed
  | OutOfFuel.

Record Run : Type := mkRun {
  status : Status;
  events : list Event
}.

(** [catch (const std::exception &e)] of [main]. *)
Definition catch (what : string) (log : list Event) : Run :=
  mkRun (Exit 1) (log ++ [Wrote (Stderr_exception what)])%list.

(** Entering a step of the [try] block. *)
Definition enter (env : Env) (s : Stage) (log : list Event)
    (k : list Event -> Run) : Run :=
  let log := (log ++ [Entered s])%list in
  match fault env s with
  | Some what => catch what log
  | None => k log
  end.

(** [Lexer(const std::string &filename)] *)
Definition Lexer_open (env : Env) (file : string) (log : list Event)
  : Lexer.t * list Event :=
  match read_file env file with
  | Some content => (Lexer.new content file, log)
  | None => (Lexer.new EmptyString file,
             (log ++ [Wrote (Stderr_cannot_open file)])%list)
  end.

(** The part of [main] after code generation has been decided on. *)
Definition codegen_part (env : Env) (program : Program) (log : list Event) : Run :=
  enter env CodeGeneratorCtor log (fun log =>
  let codegen := CodeGenerator.new in
  enter env CodeGeneratorGenerate log (fun log =>
  let codegen := snd (CodeGenerator.generate program codegen) in
  enter env CodeGeneratorEmitIR log (fun log =>
  mkRun (Exit 0) (log ++ [Wrote (Stdout_IR (CodeGenerator.emitIR codegen))])%list))).

(** The part of [main] from [parser.parse()] on. *)
Definition parse_part (env : Env) (opts : Options) (parser : Parser.t)
    (log : list Event) : Run :=
  enter env ParserParse log (fun log =>
  match Parser.parse (stof env) parser with
  | Parser.Ok (program, parser) _ =>
      if Parser.hasErrors parser then
        mkRun (Exit 1) (log ++ [Wrote (Stderr_parse_errors (Parser.errors parser))])%list
      else
        if dumpAST opts then
          enter env ParserDumpAST log (fun log =>
          codegen_part env program (log ++ [Wrote (Stdout_AST program)])%list)
        else codegen_part env program log
  | Parser.Throw e _ => catch (Parser.what e) log
  | Parser.Crash => mkRun Crashed log
  | Parser.OutOfFuel => mkRun OutOfFuel log
  end).

(** The one [lexer] object goes first to [dumpTokens], when asked for, and
    then to the parser's constructor, in the state [dumpTokens] left it. *)
Definition main (env : Env) (opts : Options) : Run :=
  enter env LexerCtor [] (fun log =>
  let '(lexer, log) := Lexer_open env (inputFile opts) log in
  let after_dump (lexer : Lexer.t) (log : list Event) : Run :=
    enter env ParserCtor log (fun log =>
    let '(parser, lexer) := Parser.new lexer in
    parse_part env opts parser log) in
  if dumpTokens opts then
    enter env LexerDumpTokens log (fun log =>
    let '(tokens, lexer) := Lexer.tokenize lexer in
    after_dump lexer (log ++ [Wrote (Stdout_tokens (Lexer.filename lexer) tokens)])%list)
  else after_dump lexer log).

(** The parser as [main] has it when [parser.parse()] returns. *)
Definition parser_after_parse (env : Env) (opts : Options) : option Parser.t :=
  let lexer := fst (Lexer_open env (inputFile opts) []) in
  let lexer := if dumpTokens opts then snd (Lexer.tokenize lexer) else lexer in
  match fault env LexerCtor,
        (if dumpTokens opts then fault env LexerDumpTokens else None),
        fault env ParserCtor, fault env ParserParse with
  | None, None, None, None =>
      match Parser.parse (stof env) (fst (Parser.new lexer)) with
      | Parser.Ok (_, parser) _ => Some parser
      | _ => None
      end
  | _, _, _, _ => None
  end.

Definition entered (s : Stage) (r : Run) : Prop := In (Entered s) (events r).

(** Every step entered so far has completed. *)
Definition completed (env : Env) (log : list Event) : Prop :=
  forall s, In (Entered s) log -> fault env s = None.

(** A run in which a step that throws was entered ends with status 1. *)
Definition faults_exit_1 (env : Env) (r : Run) : Prop :=
  forall s what, entered s r -> fault env s = Some what -> status r = Exit 1.

(** The steps of code generation. *)
Definition codegen_stage (s : Stage) : bool :=
  match s with
  | CodeGeneratorCtor | CodeGeneratorGenerate | CodeGeneratorEmitIR => true
  | _ => false
  end.

(** No step of code generation has been entered. *)
Definition before_codegen (log : list Event) : Prop :=
  forall s, In (Entered s) log -> codegen_stage s = false.

(** The program [parser.parse()] returns to [main]. *)
Definition program_after_parse (env : Env) (opts : Options) : option Program :=
  let lexer := fst (Lexer_open env (inputFile opts) []) in
  let lexer := if dumpTokens opts then snd (Lexer.tokenize lexer) else lexer in
  match fault env LexerCtor,
        (if dumpTokens opts then fault env LexerDumpTokens else None),
        fault env ParserCtor, fault env ParserParse with
  | None, None, None, None =>
      match Parser.parse (stof env) (fst (Parser.new lexer)) with
      | Parser.Ok (program, _) _ => Some program
      | _ => None
      end
  | _, _, _, _ => None
  end.

(** The end of a run that generated code: the three steps of code
    generation, then, on standard output, the module [generate] makes of
    [program] from a new code generator: its functions, blocks, placed
    requests and string constants. *)
Definition codegen_events (program : Program) : list Event :=
  let codegen := snd (CodeGenerator.generate program CodeGenerator.new) in
  [Entered CodeGeneratorCtor; Entered CodeGeneratorGenerate;
   Entered CodeGeneratorEmitIR;
   Wrote (Stdout_IR
            (CodeGenerator.mkModuleText
               (CodeGenerator.module_functions codegen)
               (CodeGenerator.module_blocks codegen)
               (CodeGenerator.module_insts codegen)
               (CodeGenerator.module_globals codegen)))].

(** Nothing of a module was written. *)
Definition no_IR (log : list Event) : Prop :=
  forall ir, ~ In (Wrote (Stdout_IR ir)) log.

End Main.

(* ===================================================================== *)
(** ** runtime/lge_runtime.c : [str_read] *)
(* ===================================================================== *)

Module Runtime.

Definition UCHAR_MAX : Z := 255.
Definition BUFFER_SIZE : Z := UCHAR_MAX.
Definition MIN (a b : Z) : Z := if a <? b then a else b.

(** [int] arithmetic, two's complement on 32 bits. *)
Definition int_wrap (z : Z) : Z := (z + 2 ^ 31) mod 2 ^ 32 - 2 ^ 31.

Definition NUL : ascii := "000"%char.
Definition LF : ascii := "010"%char.

(** The process state [str_read] works on: the static buffer and what is
    still to come on [stdin]. *)
Record state : Set := mkState {
  glob_buffer : list ascii;
  stdin : list ascii
}.

(** The addresses the built-ins return. *)
Inductive pointer : Set := addr_glob_buffer | null.

(** [buf[i] = c], inside the array. *)
Fixpoint store (buf : list ascii) (i : nat) (c : ascii) : list ascii :=
  match buf, i with
  | [], _ => []
  | _ :: rest, O => c :: rest
  | b :: rest, S i => b :: store rest i c
  end.

Fixpoint store_all (buf : list ascii) (i : nat) (cs : list ascii) : list ascii :=
  match cs with
  | [] => buf
  | c :: cs => store_all (store buf i c) (S i) cs
  end.

(** [strlen]: the bytes before the first NUL. *)
Fixpoint strlen (buf : list ascii) : nat :=
  match buf with
  | [] => O
  | c :: rest => if Ascii.eqb c NUL then O else S (strlen rest)
  end.

(** The C string at the start of a buffer. *)
Definition c_str (buf : list ascii) : list ascii := firstn (strlen buf) buf.

(** *** [fgets]

    Modelled from the C standard: at most [n - 1] bytes are read, reading
    stops after a new-line (which is kept) or at end of file, and a NUL is
    written after the last byte read; nothing read at end of file gives a
    null pointer and leaves the array alone, as does [n <= 0]; with
    [n = 1] the array receives the NUL alone. *)
Fixpoint read_line (k : nat) (input : list ascii) : list ascii * list ascii :=
  match k, input with
  | S k, c :: rest =>
      if Ascii.eqb c LF then ([c], rest)
      else let '(line, rest) := read_line k rest in (c :: line, rest)
  | _, _ => ([], input)
  end.

Definition fgets (n : Z) (st : state) : bool * state :=
  if n <=? 0 then (false, st)
  else if n =? 1 then (true, mkState (store (glob_buffer st) 0 NUL) (stdin st))
  else
    let '(line, rest) := read_line (Z.to_nat (n - 1)) (stdin st) in
    match line with
    | [] => (false, st)
    | _ => (true, mkState (store_all (glob_buffer st) 0 (line ++ [NUL])%list) rest)
    end.

(** The bound [str_read] hands to [fgets]: [n = MIN(BUFFER_SIZE, n + 1)]. *)
Definition str_read_bound (n : Z) : Z := MIN BUFFER_SIZE (int_wrap (n + 1)).

Definition str_read (n : Z) (st : state) : pointer * state :=
  let n := str_read_bound n in
  let st := mkState (store (glob_buffer st) 0 NUL) (stdin st) in
  let '(ok, st) := fgets n st in
  let st :=
    if ok then
      let len := strlen (glob_buffer st) in
      if Nat.ltb 0 len && Ascii.eqb (nth (len - 1) (glob_buffer st) NUL) LF
      then mkState (store (glob_buffer st) (len - 1) NUL) (stdin st)
      else st
    else st in
  (addr_glob_buffer, st).

(** The bound as the specification gives it. *)
Definition str_read_bound_spec (n : Z) : Z := Z.min (n + 1) 256.

(** The bytes a call took from [stdin]. *)
Definition bytes_read (before after : state) : nat :=
  length (stdin before) - length (stdin after).

(** The line without its closing new-line. *)
Definition strip_newline (line : list ascii) : list ascii :=
  match rev line with
  | c :: r => if Ascii.eqb c LF then rev r else line
  | [] => line
  end.

End Runtime.

(* ===================================================================== *)
(** ** runtime/lge_runtime.c : the other string built-ins *)
(* ===================================================================== *)

Module RuntimeStrings.
Import Runtime.

(** A [const char *] handed to a built-in by a compiled program: the null
    pointer, the static buffer (what a string-returning built-in gave), or
    another array, a string constant of the program, given by its bytes. *)
Inductive c_string : Set :=
  | at_null
  | at_glob_buffer
  | at_array (bytes : list ascii).

(** The array a pointer leads to. *)
Definition bytes_at (st : state) (str : c_string) : option (list ascii) :=
  match str with
  | at_null => None
  | at_glob_buffer => Some (glob_buffer st)
  | at_array bytes => Some bytes
  end.

(** [int str_len(const char *str) { return (int)strlen(str); }]; there is
    no result through a null pointer. *)
Definition str_len (st : state) (str : c_string) : option Z :=
  match bytes_at st str with
  | None => None
  | Some bytes => Some (int_wrap (Z.of_nat (strlen bytes)))
  end.

(** [str_at]: the three tests of its [if], from left to right, then
    [str[index]]. *)
Definition str_at (st : state) (str : c_string) (index : Z) : ascii :=
  match bytes_at st str with
  | None => NUL
  | Some bytes =>
      if (index <? 0) || (Z.of_nat (strlen bytes) <=? index) then NUL
      else nth (Z.to_nat index) bytes NUL
  end.

(** *** [strncpy]

    Modelled from the C standard: [n] bytes are written, the bytes of the
    source string up to its NUL, then NUL bytes when the string is
    shorter than [n]. *)
Definition strncpy_bytes (src : list ascii) (n : nat) : list ascii :=
  (firstn n (c_str src) ++ repeat NUL (n - strlen src))%list.

(** [str_sub].  The static buffer is emptied before [str] is looked at.
    The outcome [None] stands for a write outside the static buffer:
    nothing keeps [sublen] below [BUFFER_SIZE]. *)
Definition str_sub (st : state) (str : c_string) (start end_ : Z)
  : option (pointer * state) :=
  let st := mkState (store (glob_buffer st) 0 NUL) (stdin st) in
  match bytes_at st str with
  | None => Some (addr_glob_buffer, st)
  | Some bytes =>
      let len := int_wrap (Z.of_nat (strlen bytes)) in
      if (start <? 0) || (end_ <? start) || (len <=? start)
      then Some (addr_glob_buffer, st)
      else
        let end_ := if len <? end_ then len else end_ in
        let sublen := int_wrap (end_ - start) in
        let n := Z.to_nat sublen in
        if Nat.ltb n (length (glob_buffer st)) then
          let copied :=
            store_all (glob_buffer st) 0
                      (strncpy_bytes (skipn (Z.to_nat start) bytes) n) in
          Some (addr_glob_buffer, mkState (store copied n NUL) (stdin st))
        else None
  end.

(** *** [sprintf] with [%d] and [atoi]

    Modelled from the C standard.  [%d] gives the decimal digits of the
    value, after a [-] when it is negative.  [atoi] skips white space,
    takes an optional sign and the longest run of digits, and gives 0
    when there is no digit; a value outside [int] has no defined result
    and is wrapped here. *)
Definition decimal (value : Z) : list ascii :=
  list_ascii_of_string (NilZero.string_of_int (Z.to_int value)).

Definition atoi (s : list ascii) : Z :=
  let s := Parser.skip_space (string_of_list_ascii s) in
  let '(negative, s) :=
    match s with
    | String "-" rest => (true, rest)
    | String "+" rest => (false, rest)
    | _ => (false, s)
    end in
  match Parser.digits_value s None with
  | None => 0
  | Some v => int_wrap (if negative then - v else v)
  end.

(** [int_to_str]; [None] when the text and its NUL do not fit the static
    buffer. *)
Definition int_to_str (value : Z) (st : state) : option (pointer * state) :=
  let text := (decimal value ++ [NUL])%list in
  if Nat.leb (length text) (length (glob_buffer st)) then
    Some (addr_glob_buffer, mkState (store_all (glob_buffer st) 0 text) (stdin st))
  else None.

(** [str_to_int] *)
Definition str_to_int (st : state) (str : c_string) : Z :=
  match bytes_at st str with
  | None => 0
  | Some bytes => atoi (c_str bytes)
  end.

(** *** [strcmp]

    Modelled from the C standard: the bytes are compared as
    [unsigned char] up to the first difference or the NUL; the sign of the
    result is that of the difference. *)
Fixpoint strcmp (a b : list ascii) : Z :=
  match a with
  | [] => 0 - Z.of_nat (nat_of_ascii (hd NUL b))
  | x :: a' =>
      let y := hd NUL b in
      if Ascii.eqb x y then
        if Ascii.eqb x NUL then 0 else strcmp a' (tl b)
      else Z.of_nat (nat_of_ascii x) - Z.of_nat (nat_of_ascii y)
  end.

(** [int str_cmp(const char *a, const char *b) { return strcmp(a, b) == 0; }];
    there is no result through a null pointer. *)
Definition str_cmp (st : state) (a b : c_string) : option Z :=
  match bytes_at st a, bytes_at st b with
  | Some a, Some b => Some (if strcmp a b =? 0 then 1 else 0)
  | _, _ => None
  end.

End RuntimeStrings.

(* ===================================================================== *)
(** ** Sample inputs

    Source buffers, expressions and states at which the properties below
    are evaluated. *)
Module Samples.

(** A location in the file [f]. *)
Definition at_ (l c : Z) : Location := mkLocation l c "f".

(** Two lines, [a] then [b]. *)
Definition two_lines : string := "a" ++ String Lexer.LF "b".

(** A string literal with a new-line inside, then [c]:
    the bytes [DQUOTE a LF b DQUOTE SP c]. *)
Definition string_over_two_lines : string :=
  String Lexer.DQUOTE ("a" ++ String Lexer.LF ("b" ++ String Lexer.DQUOTE " c")).

(** A state in which [f] is a parameter: the constructor's state with [f]
    entered in the local name table as the first argument of function 11. *)
Definition with_parameter_f : CodeGenerator.t :=
  snd (CodeGenerator.set_namedValues
         (<["f" := IR.Argument 11 0 IR.Int8PtrTy]> ∅) CodeGenerator.new).

(** [let bad: int = (a: int) -> a + 1.0] *)
Definition bad_function : FunctionDef :=
  mkFunctionDef "bad" (Type_new Type_.INT (at_ 1 10))
    [mkParameter "a" (Type_new Type_.INT (at_ 1 20)) (at_ 1 17)]
    (BinaryOp BinaryOp.ADD (Identifier "a" (at_ 1 28)) (FloatLiteral 0 (at_ 1 32))
              (at_ 1 30))
    (at_ 1 5).

(** [let str_len: int = () -> x] *)
Definition str_len_function : FunctionDef :=
  mkFunctionDef "str_len" (Type_new Type_.INT (at_ 1 14)) []
    (Identifier "x" (at_ 1 26)) (at_ 1 5).

(** Kind, line and column of each token of a vector. *)
Definition located (tokens : list Token) : list (TokenType.t * Z * Z) :=
  map (fun tok => (type tok, line (location tok), column (location tok))) tokens.

(** The token vector of a one-line source. *)
Definition tokens_of (text : string) : list Token :=
  fst (Lexer.tokenize (Lexer.new text "f.lge")).

(** A C library whose [stof] rejects everything; it is not called on
    sources without a float literal. *)
Definition no_stof (s : string) : Parser.exception + float32 :=
  inl (Parser.invalid_argument "stof").

(** An identifier and a binary node on line 1 of [f.lge]. *)
Definition var (name : string) (c : Z) : Expression :=
  Identifier name (mkLocation 1 c "f.lge").
Definition node (o : BinaryOp.OpType) (l r : Expression) (c : Z) : Expression :=
  BinaryOp o l r (mkLocation 1 c "f.lge").

(** [parseExpression] on the token vector of [text], from its first
    token. *)
Definition parsed (text : string) : Parser.result Expression :=
  Parser.parseExpression (tokens_of text) no_stof 0%nat.

(** The command line with the input file alone. *)
Definition plain (inputFile : string) : Main.Options :=
  Main.mkOptions inputFile false false.

(** A file system in which every file holds [text], and a run in which no
    step is cut short. *)
Definition file_with (text : string) : Main.Env :=
  Main.mkEnv (fun _ => Some text) no_stof (fun _ => None).

(** A function whose body is an integer literal beyond [INT_MAX]. *)
Definition big_literal : string := "let f: int = () -> 9999999999".

(** The same with a syntax error before the literal. *)
Definition literal_after_error : string := "let f: int = () -> * 9999999999".

End Samples.

(* ===================================================================== *)
(** ** Further vocabulary of the properties *)
Module Notions.

(** Every byte of a string satisfies [p]. *)
Fixpoint all_of (p : ascii -> bool) (s : string) : bool :=
  match s with
  | EmptyString => true
  | String c rest => p c && all_of p rest
  end.

(** The fixed text of the token kinds that have one: the keywords of the
    table and the operators and punctuation of the dispatch. *)
Definition spelling (ty : TokenType.t) : option string :=
  match ty with
  | TokenType.LET => Some "let"
  | TokenType.IF => Some "if"
  | TokenType.THEN => Some "then"
  | TokenType.ELSE => Some "else"
  | TokenType.TYPE_INT => Some "int"
  | TokenType.TYPE_FLOAT => Some "float"
  | TokenType.TYPE_CHAR => Some "char"
  | TokenType.TYPE_STR => Some "str"
  | TokenType.TYPE_FUNC => Some "func"
  | TokenType.ARROW => Some "->"
  | TokenType.PLUS => Some "+"
  | TokenType.MINUS => Some "-"
  | TokenType.MULTIPLY => Some "*"
  | TokenType.DIVIDE => Some "/"
  | TokenType.EQUALS => Some "="
  | TokenType.LESS_THAN => Some "<"
  | TokenType.GREATER_THAN => Some ">"
  | TokenType.LESS_EQUAL => Some "<="
  | TokenType.GREATER_EQUAL => Some ">="
  | TokenType.EQUAL_EQUAL => Some "=="
  | TokenType.NOT_EQUAL => Some "!="
  | TokenType.LPAREN => Some "("
  | TokenType.RPAREN => Some ")"
  | TokenType.COLON => Some ":"
  | TokenType.COMMA => Some ","
  | TokenType.BACKSLASH => Some (Lexer.str1 Lexer.BSLASH)
  | TokenType.NEWLINE => Some (Lexer.str1 Lexer.LF)
  | TokenType.EOF_TOKEN => Some EmptyString
  | _ => None
  end.

(** The text of an INT_LITERAL is a run of digits, at least one. *)
Definition digit_run (t : Token) : Prop :=
  type t = TokenType.INT_LITERAL ->
  value t <> EmptyString /\ all_of Lexer.isdigit (value t) = true.

(** A token of a kind with a fixed text carries that text, and an
    IDENTIFIER is never one of the keywords. *)
Definition spelled (t : Token) : Prop :=
  (forall s, spelling (type t) = Some s -> value t = s) /\
  (type t = TokenType.IDENTIFIER -> Lexer.keywords_find Lexer.keywords (value t) = None).

(** The value of a run of decimal digits read from the left, after [acc]. *)
Fixpoint eval (d : Decimal.uint) (acc : Z) : Z :=
  match d with
  | Decimal.Nil => acc
  | Decimal.D0 l => eval l (10 * acc + 0)
  | Decimal.D1 l => eval l (10 * acc + 1)
  | Decimal.D2 l => eval l (10 * acc + 2)
  | Decimal.D3 l => eval l (10 * acc + 3)
  | Decimal.D4 l => eval l (10 * acc + 4)
  | Decimal.D5 l => eval l (10 * acc + 5)
  | Decimal.D6 l => eval l (10 * acc + 6)
  | Decimal.D7 l => eval l (10 * acc + 7)
  | Decimal.D8 l => eval l (10 * acc + 8)
  | Decimal.D9 l => eval l (10 * acc + 9)
  end.

(** A byte of a string literal that stands for itself. *)
Definition plain_byte (c : ascii) : bool :=
  negb (Ascii.eqb c Lexer.DQUOTE) && negb (Ascii.eqb c Lexer.BSLASH).

End Notions.

(** *** The functions of the module *)

Module Generated.
Import IR CodeGenerator.

(** [f] is a function as [generateFunction] creates it for the definition
    [d]: created under the name of [d], with the IR types of its return
    type and parameters, its arguments named after the parameters. *)
Definition created_for (d : FunctionDef) (f : Function_) : Prop :=
  fn_name f = func_name d /\
  fn_type f =
    FunctionTy (llvmType (func_returnType d))
               (map (fun p => llvmType (param_type p)) (func_parameters d)) /\
  fn_args f = map param_name (func_parameters d).

(** The definitions whose body gives a value when their turn comes in the
    loop of [generate], in their order. *)
Fixpoint with_value (funcs : list FunctionDef) (s : t) : list FunctionDef :=
  match funcs with
  | [] => []
  | d :: ds =>
      let rest := with_value ds (snd (generateFunction d s)) in
      match fst (generateExpression (func_body d) (snd (enterFunction d s))) with
      | Some _ => d :: rest
      | None => rest
      end
  end.

End Generated.

(** *** The blocks and the calls of the module *)

Module Blocks.
Import IR CodeGenerator.

(** The requests that end a block. *)
Definition is_terminator (r : Request) : bool :=
  match r with
  | CreateCondBr _ _ _ | CreateBr _ | CreateRet _ => true
  | _ => false
  end.

Definition in_block (b : nat) (i : Instruction) : bool :=
  match inst_block i with
  | Some x => Nat.eqb x b
  | None => false
  end.

(** What was placed in block [b], in the order it was placed. *)
Definition requests_in (s : t) (b : nat) : list Request :=
  map inst_request (List.filter (in_block b) (module_insts s)).

(** A block still under construction holds no terminator. *)
Definition open_block (rs : list Request) : bool :=
  forallb (fun r => negb (is_terminator r)) rs.

(** A finished block ends with its only terminator. *)
Fixpoint closed_block (rs : list Request) : bool :=
  match rs with
  | [] => false
  | r :: rs' =>
      match rs' with
      | [] => is_terminator r
      | _ :: _ => negb (is_terminator r) && closed_block rs'
      end
  end.

Definition all_closed (s : t) : Prop :=
  Forall (fun k => closed_block (requests_in s (bb_id k)) = true) (module_blocks s).

(** The module while a function body is generated: the insertion block is
    open, the blocks of [pending] were created and are still empty, every
    other block is finished. *)
Record building (pending : nat -> Prop) (s : t) : Prop := mkBuilding {
  building_insts :
    Forall (fun i => forall b, inst_block i = Some b -> (b < next_id s)%nat)
           (module_insts s);
  building_blocks : Forall (fun k => (bb_id k < next_id s)%nat) (module_blocks s);
  building_insert :
    forall b, insert_block s = Some b -> (b < next_id s)%nat /\ ~ pending b;
  building_pending : forall b, pending b -> (b < next_id s)%nat;
  building_status :
    forall k, In k (module_blocks s) ->
      (insert_block s = Some (bb_id k) ->
       open_block (requests_in s (bb_id k)) = true) /\
      (pending (bb_id k) -> requests_in s (bb_id k) = []) /\
      (insert_block s <> Some (bb_id k) -> ~ pending (bb_id k) ->
       closed_block (requests_in s (bb_id k)) = true)
}.

(** The outcome of a generation that gave a value is a module under
    construction with the same pending blocks. *)
Definition builds {A} (pending : nat -> Prop) (r : option A * t) : Prop :=
  match fst r with
  | Some _ => building pending (snd r)
  | None => True
  end.

(** Generating [e] leaves the module under construction when it gives a
    value. *)
Definition closes (e : Expression) : Prop :=
  forall P s, building P s -> builds P (generateExpression e s).

End Blocks.

Module Calls.
Import IR CodeGenerator.

(** A call passes as many arguments as its function type has
    parameters. *)
Definition call_arity_ok (r : Request) : bool :=
  match r with
  | CreateCall fty _ args _ => Nat.eqb (length args) (length (getParams fty))
  | _ => true
  end.

Definition calls_ok (s : t) : Prop :=
  Forall (fun i => call_arity_ok (inst_request i) = true) (module_insts s).

(** Generating [e] keeps the calls of the module well formed. *)
Definition keeps_calls (e : Expression) : Prop :=
  forall s, calls_ok s -> calls_ok (snd (generateExpression e s)).

End Calls.

(* ===================================================================== *)
(** * Properties *)
(* ===================================================================== *)

(** ** The lexer *)

Module LexerFacts.
Import Lexer.

Lemma get_None_length (s : string) (n : nat) :
  String.get n s = None <-> (String.length s <= n)%nat.
Proof.
  revert n; induction s as [|c s IH]; intros [|n]; simpl;
    try (split; [intros; lia | reflexivity]).
  - split; [discriminate | lia].
  - rewrite IH. lia.
Qed.

Lemma isAtEnd_false (lx : t) :
  isAtEnd lx = false <-> (position lx < String.length (input lx))%nat.
Proof. unfold isAtEnd. rewrite Nat.leb_gt. reflexivity. Qed.

Lemma peek_at_end (lx : t) : isAtEnd lx = true -> peek lx 0 = NUL.
Proof.
  unfold isAtEnd, peek. rewrite Nat.leb_le, Nat.add_0_r. intros H.
  apply get_None_length in H. now rewrite H.
Qed.

Lemma peek_not_NUL (lx : t) : peek lx 0 <> NUL -> isAtEnd lx = false.
Proof.
  intros H. destruct (isAtEnd lx) eqn:E; [|reflexivity].
  now apply peek_at_end in E.
Qed.

Lemma reaches_refl lx : reaches lx lx.
Proof. unfold reaches; auto. Qed.

Lemma reaches_trans a b c : reaches a b -> reaches b c -> reaches a c.
Proof. unfold reaches; intros (?&?&?) (?&?&?); repeat split; try congruence; lia. Qed.

Lemma advance_fst lx : isAtEnd lx = false -> fst (advance lx) = peek lx 0.
Proof. unfold advance. intros ->. now destruct (Ascii.eqb _ _). Qed.

Lemma advance_position lx :
  position (snd (advance lx)) =
  if isAtEnd lx then position lx else S (position lx).
Proof. unfold advance. destruct (isAtEnd lx); [reflexivity|]. now destruct (Ascii.eqb _ _). Qed.

Lemma advance_input lx : input (snd (advance lx)) = input lx.
Proof. unfold advance. destruct (isAtEnd lx); [reflexivity|]. now destruct (Ascii.eqb _ _). Qed.

Lemma advance_filename lx : filename (snd (advance lx)) = filename lx.
Proof. unfold advance. destruct (isAtEnd lx); [reflexivity|]. now destruct (Ascii.eqb _ _). Qed.

Lemma advance_reaches lx : reaches lx (snd (advance lx)).
Proof.
  unfold reaches. rewrite advance_input, advance_filename, advance_position.
  destruct (isAtEnd lx); auto.
Qed.

Lemma advance_in_bounds lx : in_bounds lx -> in_bounds (snd (advance lx)).
Proof.
  unfold in_bounds. rewrite advance_input, advance_position.
  destruct (isAtEnd lx) eqn:E; [auto|]. apply isAtEnd_false in E. lia.
Qed.

Lemma advance_remaining lx :
  isAtEnd lx = false -> S (remaining (snd (advance lx))) = remaining lx.
Proof.
  intros E. unfold remaining. rewrite advance_input, advance_position, E.
  apply isAtEnd_false in E. lia.
Qed.

Create HintDb lexer.
#[local] Hint Resolve reaches_refl advance_reaches advance_in_bounds : lexer.

Lemma advance_while_reaches p fuel lx : reaches lx (advance_while p fuel lx).
Proof.
  revert lx; induction fuel as [|fuel IH]; intros lx; simpl; auto with lexer.
  destruct (p (peek lx 0)); auto with lexer.
  eapply reaches_trans; [apply advance_reaches | apply IH].
Qed.

Lemma advance_while_in_bounds p fuel lx :
  in_bounds lx -> in_bounds (advance_while p fuel lx).
Proof.
  revert lx; induction fuel as [|fuel IH]; intros lx H; simpl; auto.
  destruct (p (peek lx 0)); auto with lexer.
Qed.

(** With the fuel its callers give it, [advance_while] stops because the
    test fails, not because the fuel is gone. *)
Lemma advance_while_fuel p fuel lx :
  p NUL = false -> (remaining lx < fuel)%nat ->
  p (peek (advance_while p fuel lx) 0) = false.
Proof.
  intros HNUL. revert lx; induction fuel as [|fuel IH]; intros lx Hf; [lia|].
  simpl. destruct (p (peek lx 0)) eqn:E; [|exact E].
  apply IH.
  assert (isAtEnd lx = false) as Hend.
  { apply peek_not_NUL. intros H. rewrite H in E. congruence. }
  pose proof (advance_remaining lx Hend). lia.
Qed.

Lemma skipWhitespace_loop_reaches fuel lx : reaches lx (skipWhitespace_loop fuel lx).
Proof.
  revert lx; induction fuel as [|fuel IH]; intros lx; simpl; auto with lexer.
  destruct (_ || _).
  - eapply reaches_trans; [apply advance_reaches | apply IH].
  - destruct (Ascii.eqb _ _); auto with lexer.
    eapply reaches_trans; [apply advance_reaches |].
    eapply reaches_trans; [| apply IH]. unfold reaches; simpl; auto.
Qed.

Lemma skipWhitespace_loop_in_bounds fuel lx :
  in_bounds lx -> in_bounds (skipWhitespace_loop fuel lx).
Proof.
  revert lx; induction fuel as [|fuel IH]; intros lx H; simpl; auto.
  destruct (_ || _); auto with lexer.
  destruct (Ascii.eqb _ _); auto.
  apply IH. apply advance_in_bounds in H. exact H.
Qed.

Lemma skipWhitespace_loop_fuel fuel lx :
  (remaining lx < fuel)%nat ->
  is_skipped (peek (skipWhitespace_loop fuel lx) 0) = false.
Proof.
  revert lx; induction fuel as [|fuel IH]; intros lx Hf; [lia|].
  simpl. unfold is_skipped.
  destruct (Ascii.eqb (peek lx 0) " " || Ascii.eqb (peek lx 0) TAB
            || Ascii.eqb (peek lx 0) CR) eqn:E1.
  - apply IH.
    assert (isAtEnd lx = false) as Hend.
    { apply peek_not_NUL. intros H. rewrite H in E1. discriminate. }
    pose proof (advance_remaining lx Hend). lia.
  - destruct (Ascii.eqb (peek lx 0) LF) eqn:E2.
    + apply IH.
      assert (isAtEnd lx = false) as Hend.
      { apply peek_not_NUL. intros H. rewrite H in E2. discriminate. }
      pose proof (advance_remaining lx Hend).
      unfold remaining in *. simpl. lia.
    + rewrite E1, E2. reflexivity.
Qed.

Lemma skipWhitespace_peek lx : is_skipped (peek (skipWhitespace lx) 0) = false.
Proof. apply skipWhitespace_loop_fuel. lia. Qed.

Lemma skipWhitespace_not_LF lx : peek (skipWhitespace lx) 0 <> LF.
Proof.
  intros H. pose proof (skipWhitespace_peek lx) as P. rewrite H in P. discriminate.
Qed.

Lemma keywords_find_In kw text k :
  keywords_find kw text = Some k -> In k (map snd kw).
Proof.
  induction kw as [|[k' ty] kw IH]; simpl; [discriminate|].
  destruct (String.eqb k' text); [intros [= <-]; now left | auto].
Qed.

Lemma keywords_find_not_special text k :
  keywords_find keywords text = Some k ->
  k <> TokenType.NEWLINE /\ k <> TokenType.EOF_TOKEN /\ k <> TokenType.INT_LITERAL.
Proof.
  intros H. apply keywords_find_In in H. simpl in H.
  repeat (destruct H as [<-|H]; [repeat split; discriminate|]).
  destruct H.
Qed.

(** *** Token kinds produced by each scanner *)

Ltac scanned_const := split; discriminate.

Lemma handleIdentifier_type lx : scanned (type (fst (handleIdentifier lx))).
Proof.
  unfold handleIdentifier, Token_at; cbv zeta; cbn [fst type].
  match goal with
  | |- context [keywords_find keywords ?x] =>
      destruct (keywords_find keywords x) eqn:E; [|scanned_const]
  end.
  apply keywords_find_not_special in E. split; apply E.
Qed.

Lemma handleNumber_type lx : scanned (type (fst (handleNumber lx))).
Proof. unfold handleNumber. destruct (_ && _); simpl; scanned_const. Qed.

Lemma handleString_type lx : scanned (type (fst (handleString lx))).
Proof.
  unfold handleString. destruct (handleString_loop _ _ _) as [lx' v].
  destruct (isAtEnd lx'); simpl; scanned_const.
Qed.

Lemma handleComment_type lx : scanned (type (fst (handleComment lx))).
Proof.
  unfold handleComment. destruct (handleComment_loop _ _ _) as [lx' v].
  simpl; scanned_const.
Qed.

Lemma one_or_two_type lx c two v2 one v1 :
  scanned two -> scanned one ->
  scanned (type (fst (one_or_two lx c two v2 one v1))).
Proof.
  intros H2 H1. unfold one_or_two. destruct (match_ lx c) as [[] lx']; simpl; auto.
Qed.

(** The [case '\n'] of the dispatch is never taken: the byte handed to
    the dispatch is the one [skipWhitespace] stopped at. *)
Lemma nextToken_scanned lx :
  isAtEnd (skipWhitespace lx) = false -> scanned (type (fst (nextToken lx))).
Proof.
  unfold nextToken.
  pose proof (skipWhitespace_not_LF lx) as HLF.
  set (lx0 := skipWhitespace lx) in *. intros Hend. rewrite Hend.
  pose proof (advance_fst lx0 Hend) as Hc.
  destruct (advance lx0) as [c lx1]; simpl in Hc; subst c.
  repeat lazymatch goal with
  | |- scanned (type (fst (if Ascii.eqb (peek lx0 0) LF then _ else _))) =>
      destruct (Ascii.eqb_spec (peek lx0 0) LF) as [E|_]; [now elim HLF|]
  | |- scanned (type (fst (if ?b then _ else _))) =>
      destruct b;
      [first [ apply handleIdentifier_type | apply handleNumber_type
             | apply handleString_type | apply handleComment_type
             | apply one_or_two_type; scanned_const
             | simpl; scanned_const
             | idtac ] |]
  end.
  - destruct (match_ lx1 "=") as [[] lx2]; simpl; scanned_const.
  - simpl; scanned_const.
Qed.

Lemma nextToken_type lx : type (fst (nextToken lx)) <> TokenType.NEWLINE.
Proof.
  destruct (isAtEnd (skipWhitespace lx)) eqn:Hend.
  - unfold nextToken. rewrite Hend. simpl. discriminate.
  - now apply nextToken_scanned.
Qed.

Lemma tokenize_loop_no_NEWLINE fuel lx :
  Forall (fun tok => type tok <> TokenType.NEWLINE) (fst (tokenize_loop fuel lx)).
Proof.
  revert lx; induction fuel as [|fuel IH]; intros lx; simpl; [constructor|].
  pose proof (nextToken_type lx) as H.
  destruct (nextToken lx) as [token lx1]; simpl in H.
  destruct (TokenType.eqb _ _); simpl.
  - repeat constructor; exact H.
  - specialize (IH lx1). destruct (tokenize_loop fuel lx1) as [tokens lx2].
    simpl in *. now constructor.
Qed.

(** *** Progress of the scanners *)

Lemma handleString_loop_reaches fuel lx v :
  reaches lx (fst (handleString_loop fuel lx v)).
Proof.
  revert lx v; induction fuel as [|fuel IH]; intros lx v; simpl; auto with lexer.
  destruct (_ && _); simpl; auto with lexer.
  set (lx1 := if Ascii.eqb (peek lx 0) LF then _ else lx).
  assert (reaches lx lx1) as H1
    by (subst lx1; destruct (Ascii.eqb (peek lx 0) LF); unfold reaches; simpl; auto).
  destruct (Ascii.eqb (peek lx1 0) BSLASH).
  - eapply reaches_trans; [exact H1|].
    eapply reaches_trans; [apply advance_reaches|].
    eapply reaches_trans; [apply advance_reaches|apply IH].
  - pose proof (advance_reaches lx1) as H2.
    destruct (advance lx1) as [c lx2]; simpl in H2.
    eapply reaches_trans; [exact H1|].
    eapply reaches_trans; [exact H2|apply IH].
Qed.

Lemma handleString_loop_in_bounds fuel lx v :
  in_bounds lx -> in_bounds (fst (handleString_loop fuel lx v)).
Proof.
  revert lx v; induction fuel as [|fuel IH]; intros lx v H; simpl; auto.
  destruct (_ && _); simpl; auto.
  set (lx1 := if Ascii.eqb (peek lx 0) LF then _ else lx).
  assert (in_bounds lx1) as H1
    by (subst lx1; destruct (Ascii.eqb (peek lx 0) LF); auto).
  destruct (Ascii.eqb (peek lx1 0) BSLASH).
  - apply IH. auto with lexer.
  - pose proof (advance_in_bounds lx1 H1) as H2.
    destruct (advance lx1) as [c lx2]; simpl in H2. now apply IH.
Qed.

Lemma handleComment_loop_reaches fuel lx v :
  reaches lx (fst (handleComment_loop fuel lx v)).
Proof.
  revert lx v; induction fuel as [|fuel IH]; intros lx v; simpl; auto with lexer.
  destruct (_ && _); simpl; auto with lexer.
  pose proof (advance_reaches lx) as H2.
  destruct (advance lx) as [c lx2]; simpl in H2.
  eapply reaches_trans; [exact H2|apply IH].
Qed.

Lemma handleComment_loop_in_bounds fuel lx v :
  in_bounds lx -> in_bounds (fst (handleComment_loop fuel lx v)).
Proof.
  revert lx v; induction fuel as [|fuel IH]; intros lx v H; simpl; auto.
  destruct (_ && _); simpl; auto.
  pose proof (advance_in_bounds lx H) as H2.
  destruct (advance lx) as [c lx2]; simpl in H2. now apply IH.
Qed.

Lemma match_reaches lx c : reaches lx (snd (match_ lx c)).
Proof. unfold match_. destruct (_ || _); simpl; auto with lexer. Qed.

Lemma match_in_bounds lx c : in_bounds lx -> in_bounds (snd (match_ lx c)).
Proof. unfold match_. destruct (_ || _); simpl; auto with lexer. Qed.

Lemma handleIdentifier_reaches lx :
  reaches (snd (advance lx)) (snd (handleIdentifier lx)).
Proof. unfold handleIdentifier; cbv zeta; cbn [snd]. apply advance_while_reaches. Qed.

Lemma handleIdentifier_in_bounds lx :
  in_bounds lx -> in_bounds (snd (handleIdentifier lx)).
Proof.
  intros H. unfold handleIdentifier; cbv zeta; cbn [snd].
  apply advance_while_in_bounds. auto with lexer.
Qed.

Lemma handleNumber_reaches lx :
  isdigit (peek lx 0) = true ->
  reaches (snd (advance lx)) (snd (handleNumber lx)).
Proof.
  intros Hd. unfold handleNumber; cbv zeta.
  assert (reaches (snd (advance lx)) (advance_while isdigit (S (remaining lx)) lx)) as H.
  { simpl. rewrite Hd. apply advance_while_reaches. }
  set (lx1 := advance_while isdigit (S (remaining lx)) lx) in *.
  destruct (_ && _); [|cbn [snd]; exact H].
  cbn [snd]. eapply reaches_trans; [exact H|].
  eapply reaches_trans; [apply advance_reaches | apply advance_while_reaches].
Qed.

Lemma handleNumber_in_bounds lx :
  in_bounds lx -> in_bounds (snd (handleNumber lx)).
Proof.
  intros H. unfold handleNumber; cbv zeta.
  pose proof (advance_while_in_bounds isdigit (S (remaining lx)) lx H) as H1.
  set (lx1 := advance_while isdigit (S (remaining lx)) lx) in *.
  destruct (_ && _); cbn [snd]; auto.
  apply advance_while_in_bounds. auto with lexer.
Qed.

Lemma handleString_reaches lx : reaches lx (snd (handleString lx)).
Proof.
  unfold handleString.
  pose proof (handleString_loop_reaches (S (remaining lx)) lx EmptyString) as H.
  destruct (handleString_loop _ _ _) as [lx1 v]; simpl in H.
  destruct (isAtEnd lx1); simpl; auto.
  eapply reaches_trans; [exact H | apply advance_reaches].
Qed.

Lemma handleString_in_bounds lx : in_bounds lx -> in_bounds (snd (handleString lx)).
Proof.
  intros Hb. unfold handleString.
  pose proof (handleString_loop_in_bounds (S (remaining lx)) lx EmptyString Hb) as H.
  destruct (handleString_loop _ _ _) as [lx1 v]; simpl in H.
  destruct (isAtEnd lx1); simpl; auto with lexer.
Qed.

Lemma handleComment_reaches lx : reaches lx (snd (handleComment lx)).
Proof.
  unfold handleComment.
  pose proof (handleComment_loop_reaches (S (remaining lx)) lx "#") as H.
  destruct (handleComment_loop _ _ _) as [lx1 v]; simpl in H. exact H.
Qed.

Lemma handleComment_in_bounds lx : in_bounds lx -> in_bounds (snd (handleComment lx)).
Proof.
  intros Hb. unfold handleComment.
  pose proof (handleComment_loop_in_bounds (S (remaining lx)) lx "#" Hb) as H.
  destruct (handleComment_loop _ _ _) as [lx1 v]; simpl in H. exact H.
Qed.

Lemma one_or_two_reaches lx c two v2 one v1 :
  reaches lx (snd (one_or_two lx c two v2 one v1)).
Proof.
  unfold one_or_two. pose proof (match_reaches lx c) as H.
  destruct (match_ lx c) as [[] lx']; simpl in *; exact H.
Qed.

Lemma one_or_two_in_bounds lx c two v2 one v1 :
  in_bounds lx -> in_bounds (snd (one_or_two lx c two v2 one v1)).
Proof.
  intros Hb. unfold one_or_two. pose proof (match_in_bounds lx c Hb) as H.
  destruct (match_ lx c) as [[] lx']; simpl in *; exact H.
Qed.

(** [position--; column--;] right after a successful [advance] gives back
    the position before it. *)
Lemma unread_advance lx :
  isAtEnd lx = false ->
  input (unread (snd (advance lx))) = input lx /\
  filename (unread (snd (advance lx))) = filename lx /\
  position (unread (snd (advance lx))) = position lx.
Proof.
  intros E. unfold unread; simpl.
  rewrite advance_input, advance_filename, advance_position, E. simpl.
  repeat split; lia.
Qed.

Lemma peek_ext lx lx' n :
  input lx' = input lx -> position lx' = position lx -> peek lx' n = peek lx n.
Proof. unfold peek. now intros -> ->. Qed.

Lemma isAtEnd_ext lx lx' :
  input lx' = input lx -> position lx' = position lx -> isAtEnd lx' = isAtEnd lx.
Proof. unfold isAtEnd. now intros -> ->. Qed.

(** One call of [nextToken]: at the end of the buffer it gives EOF_TOKEN
    and stays; otherwise it consumes at least one byte. *)
Lemma nextToken_progress lx :
  in_bounds lx ->
  reaches lx (snd (nextToken lx)) /\ in_bounds (snd (nextToken lx)) /\
  (if isAtEnd (skipWhitespace lx)
   then type (fst (nextToken lx)) = TokenType.EOF_TOKEN
   else (position lx < position (snd (nextToken lx)))%nat).
Proof.
  intros Hb. unfold nextToken.
  pose proof (skipWhitespace_loop_reaches (S (remaining lx)) lx) as Hr0.
  pose proof (skipWhitespace_loop_in_bounds (S (remaining lx)) lx Hb) as Hb0.
  fold (skipWhitespace lx) in Hr0, Hb0.
  set (lx0 := skipWhitespace lx) in *.
  destruct (isAtEnd lx0) eqn:Hend; [simpl; auto|].
  pose proof (advance_fst lx0 Hend) as Hc.
  pose proof (advance_reaches lx0) as Hr1.
  pose proof (advance_in_bounds lx0 Hb0) as Hb1.
  pose proof (advance_position lx0) as Hp1. rewrite Hend in Hp1.
  pose proof (unread_advance lx0 Hend) as (Hu1 & Hu2 & Hu3).
  destruct (advance lx0) as [c lx1];
    cbn [fst snd] in Hc, Hr1, Hb1, Hp1, Hu1, Hu2, Hu3; subst c.
  assert (forall lx2, reaches lx1 lx2 -> in_bounds lx2 ->
            reaches lx lx2 /\ in_bounds lx2 /\ (position lx < position lx2)%nat) as K.
  { intros lx2 Hr2 Hb2. split; [|split; [exact Hb2|]].
    - eapply reaches_trans; [exact Hr0|]. eapply reaches_trans; [exact Hr1|exact Hr2].
    - destruct Hr0 as (_ & _ & ?), Hr2 as (_ & _ & ?). lia. }
  assert (in_bounds (unread lx1)) as Hbu.
  { unfold in_bounds. rewrite Hu1, Hu3. exact Hb0. }
  assert (reaches lx1 (snd (advance (unread lx1)))) as Hru.
  { unfold reaches. rewrite advance_input, advance_filename, advance_position.
    rewrite (isAtEnd_ext lx0 (unread lx1) Hu1 Hu3), Hend, Hu1, Hu2, Hu3.
    destruct Hr1 as (-> & -> & _). repeat split; lia. }
  apply K.
  - repeat lazymatch goal with
    | |- reaches _ (snd (if isdigit ?c then _ else _)) =>
        destruct (isdigit c) eqn:Hdig;
        [eapply reaches_trans; [exact Hru|]; apply handleNumber_reaches;
         rewrite (peek_ext lx0 (unread lx1) 0 Hu1 Hu3); exact Hdig|]
    | |- reaches _ (snd (if ?b then _ else _)) =>
        destruct b;
        [first [ eapply reaches_trans; [exact Hru|]; apply handleIdentifier_reaches
               | apply handleString_reaches | apply handleComment_reaches
               | apply one_or_two_reaches | cbn [snd]; apply reaches_refl
               | idtac ] |]
    end.
    + pose proof (match_reaches lx1 "=") as H.
      destruct (match_ lx1 "=") as [[] lx2]; exact H.
    + cbn [snd]; apply reaches_refl.
  - repeat lazymatch goal with
    | |- in_bounds (snd (if ?b then _ else _)) =>
        destruct b;
        [first [ apply handleIdentifier_in_bounds; exact Hbu
               | apply handleNumber_in_bounds; exact Hbu
               | apply handleString_in_bounds; exact Hb1
               | apply handleComment_in_bounds; exact Hb1
               | apply one_or_two_in_bounds; exact Hb1
               | cbn [snd]; exact Hb1
               | idtac ] |]
    end.
    + pose proof (match_in_bounds lx1 "=" Hb1) as H.
      destruct (match_ lx1 "=") as [[] lx2]; exact H.
    + cbn [snd]; exact Hb1.
Qed.

(** *** The token vector *)

Lemma TokenType_eqb_eq a b : TokenType.eqb a b = true <-> a = b.
Proof. destruct a, b; simpl; split; intros H; solve [reflexivity | discriminate H]. Qed.

Lemma TokenType_eqb_refl a : TokenType.eqb a a = true.
Proof. now apply TokenType_eqb_eq. Qed.

Lemma TokenType_eqb_neq a b : TokenType.eqb a b = false <-> a <> b.
Proof.
  rewrite <- TokenType_eqb_eq. destruct (TokenType.eqb a b); split; congruence.
Qed.

(** [tokenize_loop] leaves through the EOF_TOKEN test, with the lexer at
    the end of its buffer. *)
Lemma tokenize_loop_fuel fuel lx :
  in_bounds lx -> (remaining lx < fuel)%nat ->
  EOF_terminated (fst (tokenize_loop fuel lx)) /\
  isAtEnd (snd (tokenize_loop fuel lx)) = true /\
  reaches lx (snd (tokenize_loop fuel lx)).
Proof.
  revert lx; induction fuel as [|fuel IH]; intros lx Hb Hf; [lia|].
  simpl.
  pose proof (nextToken_progress lx Hb) as (Hr & Hb1 & Hp).
  pose proof (nextToken_scanned lx) as Hs.
  assert (isAtEnd (skipWhitespace lx) = true -> snd (nextToken lx) = skipWhitespace lx) as Hsame.
  { intros E. unfold nextToken. now rewrite E. }
  destruct (nextToken lx) as [token lx1]; cbn [fst snd] in *.
  destruct (TokenType.eqb (type token) TokenType.EOF_TOKEN) eqn:E; cbn [fst snd].
  - apply TokenType_eqb_eq in E. split; [|split; [|exact Hr]].
    + exists [], token. repeat split; [exact E | constructor].
    + destruct (isAtEnd (skipWhitespace lx)) eqn:Hend.
      * rewrite Hsame by reflexivity. exact Hend.
      * destruct (Hs eq_refl) as [_ Hne]. contradiction.
  - apply TokenType_eqb_neq in E.
    destruct (isAtEnd (skipWhitespace lx)) eqn:Hend; [contradiction|].
    assert (remaining lx1 < fuel)%nat as Hf1.
    { unfold remaining, in_bounds in *. destruct Hr as (Hin & _ & _). rewrite Hin in *. lia. }
    specialize (IH lx1 Hb1 Hf1).
    destruct (tokenize_loop fuel lx1) as [tokens lx2]; cbn [fst snd] in *.
    destruct IH as ((body & eof & -> & He & Hbody) & Hend2 & Hr2).
    split; [|split; [exact Hend2 | eapply reaches_trans; eassumption]].
    exists (token :: body), eof. repeat split; auto.
Qed.

Lemma tokenize_EOF_terminated lx :
  in_bounds lx -> EOF_terminated (fst (tokenize lx)).
Proof. intros Hb. apply tokenize_loop_fuel; [exact Hb | lia]. Qed.

Lemma new_in_bounds input filename : in_bounds (new input filename).
Proof. unfold in_bounds; simpl. lia. Qed.

(** A lexer that has been driven to the end gives a lone EOF_TOKEN on the
    next [tokenize]: nothing rewinds [position]. *)
Lemma tokenize_at_end lx :
  isAtEnd lx = true ->
  fst (tokenize lx) = [makeToken lx TokenType.EOF_TOKEN EmptyString].
Proof.
  intros E. unfold tokenize. cbn [tokenize_loop]. unfold nextToken.
  assert (skipWhitespace lx = lx) as ->.
  { unfold skipWhitespace. cbn [skipWhitespace_loop].
    rewrite (peek_at_end lx E). reflexivity. }
  rewrite E. reflexivity.
Qed.

Lemma tokenize_twice lx :
  in_bounds lx ->
  exists eof, fst (tokenize (snd (tokenize lx))) = [eof] /\
              type eof = TokenType.EOF_TOKEN.
Proof.
  intros Hb.
  destruct (tokenize_loop_fuel (S (remaining lx)) lx Hb) as (_ & E & _); [lia|].
  fold (tokenize lx) in E.
  eexists. split; [apply tokenize_at_end; exact E | reflexivity].
Qed.

End LexerFacts.

Module LexerClaims.
Import LexerFacts Samples.

(** C8.  No token of kind NEWLINE leaves [tokenize], whatever the source
    buffer: [skipWhitespace] runs first in [nextToken] and stops only at
    a byte that is not a blank, a tab, a carriage return or a new-line, so
    the [case '\n'] of the dispatch is never taken; this holds for each
    call of [nextToken] and hence for the whole token vector. *)
Theorem tokenize_never_NEWLINE :
  (forall lx : Lexer.t, Lexer.is_skipped (Lexer.peek (Lexer.skipWhitespace lx) 0) = false) /\
  (forall lx : Lexer.t, type (fst (Lexer.nextToken lx)) <> TokenType.NEWLINE) /\
  (forall input filename : string,
      Forall (fun tok => type tok <> TokenType.NEWLINE)
             (fst (Lexer.tokenize (Lexer.new input filename)))).
Proof.
  split; [|split].
  - exact skipWhitespace_peek.
  - exact nextToken_type.
  - intros input filename. apply tokenize_loop_no_NEWLINE.
Qed.

(** C2.  The locations of the token vector are not those of the lexemes.
    In [two_lines] the identifier [b] starts at line 2, column 1, and is
    given line 3: [skipWhitespace] adds one to [line] after [advance] has
    already done so.  In [string_over_two_lines] the literal starts at
    line 1 and [c] at line 2, and both are given line 3: [handleString]
    counts the embedded new-line twice and stamps the token with the line
    it ends on.  In [x @] the offending byte is at column 3 and the UNKNOWN
    token is given column 4, the column after it. *)
Theorem token_locations_at_failing_inputs :
  located (fst (Lexer.tokenize (Lexer.new two_lines "f"))) =
    [(TokenType.IDENTIFIER, 1, 1); (TokenType.IDENTIFIER, 3, 1);
     (TokenType.EOF_TOKEN, 3, 2)] /\
  located (fst (Lexer.tokenize (Lexer.new string_over_two_lines "f"))) =
    [(TokenType.STRING_LITERAL, 3, 1); (TokenType.IDENTIFIER, 3, 4);
     (TokenType.EOF_TOKEN, 3, 5)] /\
  located (fst (Lexer.tokenize (Lexer.new "x @" "f"))) =
    [(TokenType.IDENTIFIER, 1, 1); (TokenType.UNKNOWN, 1, 4);
     (TokenType.EOF_TOKEN, 1, 4)].
Proof. repeat split; vm_compute; reflexivity. Qed.

(** On one line without errors the locations are the expected ones. *)
Example token_locations_one_line :
  located (fst (Lexer.tokenize (Lexer.new "let f: int = (x: int) -> x <= 12.5" "f"))) =
    [(TokenType.LET, 1, 1); (TokenType.IDENTIFIER, 1, 5); (TokenType.COLON, 1, 6);
     (TokenType.TYPE_INT, 1, 8); (TokenType.EQUALS, 1, 12);
     (TokenType.LPAREN, 1, 14); (TokenType.IDENTIFIER, 1, 15);
     (TokenType.COLON, 1, 16); (TokenType.TYPE_INT, 1, 18);
     (TokenType.RPAREN, 1, 21); (TokenType.ARROW, 1, 23);
     (TokenType.IDENTIFIER, 1, 26); (TokenType.LESS_EQUAL, 1, 28);
     (TokenType.FLOAT_LITERAL, 1, 31); (TokenType.EOF_TOKEN, 1, 35)].
Proof. vm_compute; reflexivity. Qed.

End LexerClaims.

(** ** The runtime *)

Module RuntimeFacts.
Import Runtime.

Lemma store_length buf i c : length (store buf i c) = length buf.
Proof.
  revert i; induction buf as [|b buf IH]; intros [|i]; simpl; auto.
Qed.

Lemma store_all_length cs : forall buf i, length (store_all buf i cs) = length buf.
Proof.
  induction cs as [|c cs IH]; intros buf i; simpl; auto.
  rewrite IH. apply store_length.
Qed.

Lemma store_app (pre : list ascii) b post c :
  store (pre ++ b :: post) (length pre) c = (pre ++ c :: post)%list.
Proof. induction pre as [|p pre IH]; simpl; [reflexivity|]. now rewrite IH. Qed.

(** Writing [cs] over a buffer, from index [length pre] on. *)
Lemma store_all_app cs : forall (pre old post : list ascii),
  length old = length cs ->
  store_all (pre ++ old ++ post) (length pre) cs = (pre ++ cs ++ post)%list.
Proof.
  induction cs as [|c cs IH]; intros pre old post H.
  - destruct old; [reflexivity | discriminate].
  - destruct old as [|o old]; [discriminate|]. simpl in H. injection H as H.
    cbn [store_all]. change ((o :: old) ++ post)%list with (o :: (old ++ post))%list.
    rewrite store_app.
    specialize (IH (pre ++ [c])%list old post H).
    rewrite length_app in IH. simpl in IH.
    replace (length pre + 1)%nat with (S (length pre)) in IH by lia.
    rewrite <- !app_assoc in IH. simpl in IH. exact IH.
Qed.

Lemma store_all_0 cs buf :
  (length cs <= length buf)%nat ->
  store_all buf 0 cs = (cs ++ skipn (length cs) buf)%list.
Proof.
  intros H.
  rewrite <- (firstn_skipn (length cs) buf) at 1.
  apply (store_all_app cs [] (firstn (length cs) buf) (skipn (length cs) buf)).
  rewrite length_firstn. lia.
Qed.

Lemma strlen_app l rest :
  ~ In NUL l -> strlen (l ++ NUL :: rest) = length l.
Proof.
  induction l as [|c l IH]; simpl; intros H; [reflexivity|].
  destruct (Ascii.eqb_spec c NUL) as [->|_]; [elim H; now left|].
  f_equal. apply IH. intros K. apply H. now right.
Qed.

Lemma c_str_app l rest : ~ In NUL l -> c_str (l ++ NUL :: rest) = l.
Proof.
  intros H. unfold c_str. rewrite strlen_app by exact H.
  rewrite firstn_app, Nat.sub_diag, firstn_all. simpl. apply app_nil_r.
Qed.

(** What [fgets] takes from the stream. *)
Lemma read_line_spec k : forall input,
  let '(line, rest) := read_line k input in
  input = (line ++ rest)%list /\ (length line <= k)%nat /\
  (forall pre c, line = (pre ++ [c])%list -> ~ In LF pre) /\
  (forall pre c post, line = (pre ++ c :: post)%list -> post <> [] -> c <> LF).
Proof.
  induction k as [|k IH]; intros input; simpl.
  - repeat split; auto; try lia.
    + intros [|] c H; discriminate.
    + intros [|] c post H; discriminate.
  - destruct input as [|c input]; simpl.
    + repeat split; auto; try lia.
      * intros [|] d H; discriminate.
      * intros [|] d post H; discriminate.
    + destruct (Ascii.eqb_spec c LF) as [->|Hne].
      * repeat split; simpl; auto; try lia.
        -- intros [|p pre] d H; [intros []|].
           destruct pre; discriminate.
        -- intros [|p pre] d post H Hp; [injection H as _ <-; congruence|].
           destruct pre; discriminate.
      * specialize (IH input). destruct (read_line k input) as [line rest].
        destruct IH as (-> & Hlen & Hpre & Hmid).
        repeat split; simpl; auto; try lia.
        -- intros [|p pre] d H; [intros []|].
           injection H as <- H. intros [K|K]; [congruence|].
           now apply (Hpre pre d).
        -- intros [|p pre] d post H Hp.
           ++ injection H as <- _. exact Hne.
           ++ injection H as _ H. now apply (Hmid pre d post).
Qed.

Lemma str_read_bound_in_range n :
  Parser.INT_MIN <= n < Parser.INT_MAX -> str_read_bound n = Z.min (n + 1) 255.
Proof.
  unfold Parser.INT_MIN, Parser.INT_MAX, str_read_bound, MIN, BUFFER_SIZE,
    UCHAR_MAX, int_wrap.
  intros H.
  replace ((n + 1 + 2 ^ 31) mod 2 ^ 32) with (n + 1 + 2 ^ 31)
    by (symmetry; apply Z.mod_small; lia).
  destruct (255 <? n + 1 + 2 ^ 31 - 2 ^ 31) eqn:E;
    [apply Z.ltb_lt in E | apply Z.ltb_ge in E]; lia.
Qed.

Lemma str_read_bound_le n : str_read_bound n <= 255.
Proof.
  unfold str_read_bound, MIN, BUFFER_SIZE, UCHAR_MAX.
  destruct (255 <? int_wrap (n + 1)) eqn:E;
    [apply Z.ltb_lt in E | apply Z.ltb_ge in E]; lia.
Qed.

Lemma strip_newline_snoc pre c :
  strip_newline (pre ++ [c]) = if Ascii.eqb c LF then pre else (pre ++ [c])%list.
Proof.
  unfold strip_newline. rewrite rev_app_distr. simpl.
  now rewrite rev_involutive.
Qed.

Lemma nth_snoc (pre : list ascii) c post d :
  nth (length pre) (pre ++ c :: post) d = c.
Proof. induction pre; simpl; auto. Qed.

(** One call of [fgets] on a buffer of [BUFFER_SIZE] bytes with a bound
    that fits. *)
Lemma fgets_spec n st :
  length (glob_buffer st) = 255%nat -> n <= 255 ->
  exists line,
    stdin st = (line ++ stdin (snd (fgets n st)))%list /\
    Z.of_nat (length line) <= Z.max 0 (n - 1) /\
    length (glob_buffer (snd (fgets n st))) = 255%nat /\
    (if fst (fgets n st)
     then exists post, glob_buffer (snd (fgets n st)) = (line ++ NUL :: post)%list
     else snd (fgets n st) = st /\ line = []).
Proof.
  intros Hlen Hn. unfold fgets.
  destruct (n <=? 0) eqn:E0; [exists []; simpl; repeat split; auto; lia|].
  apply Z.leb_gt in E0.
  destruct (n =? 1) eqn:E1.
  - exists []. simpl. rewrite store_length. repeat split; auto; try lia.
    destruct (glob_buffer st) as [|b rest]; [discriminate|]. now exists rest.
  - apply Z.eqb_neq in E1.
    pose proof (read_line_spec (Z.to_nat (n - 1)) (stdin st)) as H.
    destruct (read_line (Z.to_nat (n - 1)) (stdin st)) as [line rest].
    destruct H as (Hin & Hk & _).
    destruct line as [|c line].
    + exists []. simpl. repeat split; auto; lia.
    + exists (c :: line). cbn [fst snd glob_buffer stdin].
      rewrite store_all_length. repeat split; auto; [simpl length in *; lia|].
      set (cs := ((c :: line) ++ [NUL])%list).
      assert (length cs <= 255)%nat as Hcs.
      { subst cs. rewrite length_app. simpl length in *. lia. }
      exists (skipn (length cs) (glob_buffer st)).
      rewrite store_all_0 by lia.
      subst cs. now rewrite <- app_assoc.
Qed.

(** Where [read_line] stops: at its bound, at the end of the stream, or
    behind a new-line. *)
Lemma read_line_stops k : forall input,
  length (fst (read_line k input)) = k \/
  snd (read_line k input) = [] \/
  exists pre, fst (read_line k input) = (pre ++ [LF])%list.
Proof.
  induction k as [|k IH]; intros input; [now left|].
  destruct input as [|c input]; [right; now left|].
  cbn [read_line].
  destruct (Ascii.eqb_spec c LF) as [->|Hne].
  - right. right. now exists [].
  - specialize (IH input). destruct (read_line k input) as [line rest].
    cbn [fst snd] in *. destruct IH as [H | [H | (pre & H)]].
    + left. simpl. now rewrite H.
    + right. now left.
    + right. right. exists (c :: pre). now rewrite H.
Qed.

(** The string at the start of an array that holds [l] and then a NUL. *)
Lemma c_str_prefix (l : list ascii) :
  exists tail, (l ++ [NUL])%list = (c_str l ++ NUL :: tail)%list /\ ~ In NUL (c_str l).
Proof.
  unfold c_str. induction l as [|c l IH].
  - exists []. split; [reflexivity | intros []].
  - cbn [strlen]. destruct (Ascii.eqb_spec c NUL) as [->|Hne].
    + exists (l ++ [NUL])%list. split; [reflexivity | intros []].
    + destruct IH as (tail & E & Hn). exists tail. cbn [firstn]. split.
      * change ((c :: l) ++ [NUL])%list with (c :: (l ++ [NUL]))%list.
        now rewrite E.
      * intros [K|K]; [congruence | contradiction].
Qed.

Lemma str_read_bound_min n : str_read_bound n = Z.min 255 (int_wrap (n + 1)).
Proof.
  unfold str_read_bound, MIN, BUFFER_SIZE, UCHAR_MAX.
  destruct (255 <? int_wrap (n + 1)) eqn:E;
    [apply Z.ltb_lt in E | apply Z.ltb_ge in E]; lia.
Qed.

(** The limit of the code is within the bound of the specification. *)
Lemma str_read_limit_le n :
  Parser.INT_MIN <= n <= Parser.INT_MAX ->
  Z.of_nat (Z.to_nat (Z.min 255 (int_wrap (n + 1)) - 1)) <= Z.max 0 (Z.min (n + 1) 256).
Proof.
  intros H. destruct (Z.eq_dec n Parser.INT_MAX) as [->|Hne].
  - vm_compute. discriminate.
  - rewrite <- str_read_bound_min, str_read_bound_in_range by lia. lia.
Qed.

(** One call of [fgets] on a buffer of [BUFFER_SIZE] bytes with a bound
    that fits: what it takes from the stream is what [read_line] takes. *)
Lemma fgets_reads n st :
  length (glob_buffer st) = 255%nat -> n <= 255 ->
  let line := fst (read_line (Z.to_nat (n - 1)) (stdin st)) in
  stdin (snd (fgets n st)) = snd (read_line (Z.to_nat (n - 1)) (stdin st)) /\
  length (glob_buffer (snd (fgets n st))) = 255%nat /\
  (if fst (fgets n st)
   then exists post, glob_buffer (snd (fgets n st)) = (line ++ NUL :: post)%list
   else snd (fgets n st) = st /\ line = []).
Proof.
  intros Hlen Hn. cbv zeta. unfold fgets.
  destruct (n <=? 0) eqn:E0.
  - apply Z.leb_le in E0. replace (Z.to_nat (n - 1)) with 0%nat by lia.
    simpl. repeat split; auto.
  - apply Z.leb_gt in E0.
    destruct (n =? 1) eqn:E1.
    + apply Z.eqb_eq in E1. subst n. simpl. rewrite store_length.
      repeat split; auto.
      destruct (glob_buffer st) as [|b rest]; [discriminate|]. now exists rest.
    + apply Z.eqb_neq in E1.
      pose proof (read_line_spec (Z.to_nat (n - 1)) (stdin st)) as H.
      destruct (read_line (Z.to_nat (n - 1)) (stdin st)) as [line rest].
      destruct H as (Hin & Hk & _). cbn [fst snd].
      destruct line as [|c line].
      * simpl in Hin. cbn [fst snd]. repeat split; auto.
      * cbn [fst snd glob_buffer stdin]. rewrite store_all_length.
        repeat split; auto.
        set (cs := ((c :: line) ++ [NUL])%list).
        assert (length cs <= 255)%nat as Hcs.
        { subst cs. rewrite length_app. simpl length in *. lia. }
        exists (skipn (length cs) (glob_buffer st)).
        rewrite store_all_0 by lia.
        subst cs. now rewrite <- app_assoc.
Qed.

(** The end of [str_read]: the new-line before the NUL is overwritten. *)
Lemma strip_in_buffer (text post : list ascii) :
  ~ In NUL text ->
  let buf := (text ++ NUL :: post)%list in
  let len := strlen buf in
  c_str (if Nat.ltb 0 len && Ascii.eqb (nth (len - 1) buf NUL) LF
         then store buf (len - 1) NUL else buf) = strip_newline text.
Proof.
  intros HNUL. cbv zeta. rewrite strlen_app by exact HNUL.
  destruct (rev text) as [|c r] eqn:Er.
  - apply (f_equal (@rev ascii)) in Er. rewrite rev_involutive in Er.
    simpl in Er. subst text. reflexivity.
  - apply (f_equal (@rev ascii)) in Er. rewrite rev_involutive in Er.
    simpl in Er. subst text. set (pre := rev r) in *.
    rewrite length_app. simpl length.
    replace (length pre + 1 - 1)%nat with (length pre) by lia.
    replace (0 <? length pre + 1)%nat with true
      by (symmetry; apply Nat.ltb_lt; lia).
    rewrite <- app_assoc. simpl app. rewrite nth_snoc.
    rewrite strip_newline_snoc.
    destruct (Ascii.eqb c LF); cbn [andb].
    + rewrite store_app. apply c_str_app.
      intros K. apply HNUL. apply in_or_app. now left.
    + change (pre ++ c :: NUL :: post)%list with (pre ++ [c] ++ NUL :: post)%list.
      rewrite app_assoc. now apply c_str_app.
Qed.

End RuntimeFacts.

Module RuntimeClaims.
Import Runtime RuntimeFacts.

(** C9.  For every [int] argument [n] and whatever waits on [stdin],
    [str_read] takes from [stdin] a prefix [line] of at most
    [min (n + 1) 256] bytes (none when that is not positive) and returns
    the address of the static buffer, which keeps its 255 bytes.  What it
    takes is what [fgets] takes under the bound [MIN(BUFFER_SIZE, n + 1)],
    computed on [int]: at most that bound less one byte, with a new-line
    as last byte only, and up to that limit, to the end of the stream or
    to behind the first new-line, whichever comes first.  The string the
    buffer holds afterwards is the string read, without its trailing
    new-line when it has one. *)
Theorem str_read_reads_bounded_line (n : Z) (st : state) :
  Parser.INT_MIN <= n <= Parser.INT_MAX ->
  length (glob_buffer st) = Z.to_nat BUFFER_SIZE ->
  let st' := snd (str_read n st) in
  let limit := Z.to_nat (Z.min 255 (int_wrap (n + 1)) - 1) in
  fst (str_read n st) = addr_glob_buffer /\
  length (glob_buffer st') = 255%nat /\
  exists line,
    stdin st = (line ++ stdin st')%list /\
    Z.of_nat (length line) <= Z.max 0 (Z.min (n + 1) 256) /\
    (length line <= limit)%nat /\
    (forall pre c post, line = (pre ++ c :: post)%list -> post <> [] -> c <> LF) /\
    (length line = limit \/ stdin st' = [] \/ exists pre, line = (pre ++ [LF])%list) /\
    c_str (glob_buffer st') = strip_newline (c_str line).
Proof.
  intros Hn Hlen. cbv zeta. change (Z.to_nat BUFFER_SIZE) with 255%nat in *.
  rewrite <- str_read_bound_min.
  set (st0 := mkState (store (glob_buffer st) 0 NUL) (stdin st)).
  assert (length (glob_buffer st0) = 255%nat) as H0
    by (subst st0; simpl; now rewrite store_length).
  pose proof (fgets_reads (str_read_bound n) st0 H0 (str_read_bound_le n)) as F.
  cbv zeta in F. destruct F as (Hrest & Hl & Hok).
  pose proof (read_line_spec (Z.to_nat (str_read_bound n - 1)) (stdin st0)) as R.
  pose proof (read_line_stops (Z.to_nat (str_read_bound n - 1)) (stdin st0)) as S.
  destruct (read_line (Z.to_nat (str_read_bound n - 1)) (stdin st0)) as [line rest].
  cbn [fst snd] in Hrest, Hok, S. destruct R as (Hin & Hk & _ & Hmid).
  assert (stdin (snd (str_read n st)) = rest /\
          length (glob_buffer (snd (str_read n st))) = 255%nat /\
          c_str (glob_buffer (snd (str_read n st))) = strip_newline (c_str line))
    as (Hs & Hb & Hc).
  { unfold str_read. fold st0.
    destruct (fgets (str_read_bound n) st0) as [ok st1]; cbn [fst snd] in *.
    destruct ok.
    - destruct Hok as (post & Hbuf).
      destruct (c_str_prefix line) as (tail & Hsplit & HNUL).
      assert (glob_buffer st1 = (c_str line ++ NUL :: (tail ++ post))%list) as Hbuf'.
      { rewrite Hbuf. change (NUL :: post) with ([NUL] ++ post)%list.
        rewrite app_assoc, Hsplit, <- app_assoc. reflexivity. }
      pose proof (strip_in_buffer (c_str line) (tail ++ post) HNUL) as Hstrip.
      cbv zeta in Hstrip. rewrite <- Hbuf' in Hstrip.
      destruct (_ && _); cbn [snd glob_buffer stdin].
      + split; [exact Hrest|]. split; [now rewrite store_length | exact Hstrip].
      + split; [exact Hrest|]. split; [exact Hl | exact Hstrip].
    - destruct Hok as (-> & ->). cbn [snd]. split; [exact Hrest|]. split; [exact Hl|].
      subst st0. cbn [glob_buffer].
      destruct (glob_buffer st) as [|b rest']; [discriminate|]. reflexivity. }
  split; [unfold str_read; destruct (fgets _ _); reflexivity|].
  split; [exact Hb|].
  exists line. rewrite Hs.
  split; [exact Hin|]. split.
  { pose proof (str_read_limit_le n Hn) as Hle.
    rewrite <- str_read_bound_min in Hle. lia. }
  split; [exact Hk|]. split; [exact Hmid|]. split; [exact S | exact Hc].
Qed.

(** The hypotheses of [str_read_reads_bounded_line] hold for a request of
    5 bytes on a stream that starts with a line of three: the line and
    its new-line are taken, and the buffer holds the line. *)
Lemma str_read_reads_bounded_line_witness :
  let st := mkState (repeat "x"%char 255)
                    (list_ascii_of_string ("abc" ++ String LF "def")) in
  fst (str_read 5 st) = addr_glob_buffer /\
  stdin (snd (str_read 5 st)) = list_ascii_of_string "def" /\
  c_str (glob_buffer (snd (str_read 5 st))) = list_ascii_of_string "abc".
Proof.
  pose proof (str_read_reads_bounded_line 5
                (mkState (repeat "x"%char 255)
                         (list_ascii_of_string ("abc" ++ String LF "def"))))
    as H.
  destruct H as (Hp & _ & _).
  - unfold Parser.INT_MIN, Parser.INT_MAX. lia.
  - reflexivity.
  - split; [exact Hp|]. split; vm_compute; reflexivity.
Defined.

(** The bound of the specification is not attained: for [n = 300] the
    bound handed to [fgets] is [BUFFER_SIZE = 255], where the
    specification has [min (n + 1) 256 = 256], and of 300 bytes waiting
    on [stdin] without a new-line 254 are read. *)
Lemma str_read_limit_is_254 :
  str_read_bound 300 = 255 /\ str_read_bound_spec 300 = 256 /\
  bytes_read (mkState (repeat "x"%char 255) (repeat "a"%char 300))
             (snd (str_read 300 (mkState (repeat "x"%char 255)
                                         (repeat "a"%char 300)))) = 254%nat.
Proof. repeat split; vm_compute; reflexivity. Qed.

End RuntimeClaims.

(** ** The code generator *)

Module CodeGeneratorFacts.
Import IR CodeGenerator.

Lemma some_request_eq r ty s :
  some_request r ty s =
  (Some (Result (next_id s) ty),
   mk (module_functions s) (module_blocks s) (module_insts s ++ [placed s r])
      (module_globals s) (insert_block s) (S (next_id s)) (namedValues s)
      (functions s) (currentFunction s) (reported s)).
Proof. reflexivity. Qed.

Lemma request_eq r ty s :
  request r ty s =
  (Result (next_id s) ty,
   mk (module_functions s) (module_blocks s) (module_insts s ++ [placed s r])
      (module_globals s) (insert_block s) (S (next_id s)) (namedValues s)
      (functions s) (currentFunction s) (reported s)).
Proof. reflexivity. Qed.

Lemma generateExpression_BinaryOp op lhs rhs loc s :
  generateExpression (BinaryOp op lhs rhs loc) s =
  let '(l, s1) := generateExpression lhs s in
  let '(r, s2) := generateExpression rhs s1 in
  generateBinaryOp op l r loc s2.
Proof. reflexivity. Qed.

Lemma generateExpression_UnaryOp op operand loc s :
  generateExpression (UnaryOp op operand loc) s =
  let '(v, s1) := generateExpression operand s in
  generateUnaryOp op v loc s1.
Proof. reflexivity. Qed.

Lemma generateExpression_indirect funcName args loc s funcPtr :
  namedValues s !! funcName = Some funcPtr ->
  generateExpression (FunctionCall funcName args loc) s =
  let '(vs, s1) := generateArgs args s in
  match vs with
  | None => (None, s1)
  | Some vs => generateIndirectCall funcPtr vs s1
  end.
Proof.
  intros H. cbn [generateExpression]. unfold bind at 1.
  unfold namedValues_find at 1. cbn beta iota. rewrite H.
  unfold bind at 1. fold generateArgs.
  destruct (generateArgs args s) as [[vs|] s1]; reflexivity.
Qed.

(** The dispatch of the source, with its missing [break], and the
    dispatch of the specification give the same request. *)
Lemma binary_switch_refines op l r :
  binary_switch op l r = binary_switch_spec op l r.
Proof.
  destruct op; try reflexivity. simpl.
  unfold arith_case, case_LESS_THAN, cmp_case.
  destruct (both isIntegerTy l r); [reflexivity|].
  destruct (both isFloatingPointTy l r); reflexivity.
Qed.

Lemma binary_switch_integer op l r :
  isIntegerTy (getType l) = true -> isIntegerTy (getType r) = true ->
  binary_switch op l r = Some (integer_request op l r, result_type op l).
Proof.
  intros Hl Hr. rewrite binary_switch_refines.
  destruct op; simpl; unfold arith_case, cmp_case, both; rewrite Hl, Hr; reflexivity.
Qed.

Lemma integer_not_float ty : isIntegerTy ty = true -> isFloatingPointTy ty = false.
Proof. destruct ty; simpl; congruence. Qed.

Lemma float_not_integer ty : isFloatingPointTy ty = true -> isIntegerTy ty = false.
Proof. destruct ty; simpl; congruence. Qed.

Lemma binary_switch_float op l r :
  isFloatingPointTy (getType l) = true -> isFloatingPointTy (getType r) = true ->
  binary_switch op l r = Some (float_request op l r, result_type op l).
Proof.
  intros Hl Hr. rewrite binary_switch_refines.
  destruct op; simpl; unfold arith_case, cmp_case, both;
    rewrite Hl, Hr, (float_not_integer _ Hl); reflexivity.
Qed.

(** Operands that are neither both integer nor both float get no request
    from any case, [DIV] included. *)
Lemma binary_switch_unsupported op l r :
  both isIntegerTy l r = false -> both isFloatingPointTy l r = false ->
  binary_switch op l r = None.
Proof.
  intros Hi Hf. rewrite binary_switch_refines.
  destruct op; simpl; unfold arith_case, cmp_case; rewrite Hi, Hf; reflexivity.
Qed.

Lemma mixed_unsupported l r :
  (isIntegerTy (getType l) = true /\ isFloatingPointTy (getType r) = true) \/
  (isFloatingPointTy (getType l) = true /\ isIntegerTy (getType r) = true) ->
  both isIntegerTy l r = false /\ both isFloatingPointTy l r = false.
Proof.
  unfold both. intros [[Hl Hr]|[Hl Hr]].
  - rewrite Hl, Hr, (float_not_integer _ Hr), (integer_not_float _ Hl).
    split; [apply andb_false_r | reflexivity].
  - rewrite Hl, Hr, (float_not_integer _ Hl), (integer_not_float _ Hr).
    split; [reflexivity | apply andb_false_r].
Qed.

End CodeGeneratorFacts.

Module CodeGeneratorClaims.
Import IR CodeGenerator CodeGeneratorFacts Samples.

(** C1.  A [BinaryOp] whose operands both generate a value dispatches on
    their IR types.  Both integer: the integer request of the operator
    (add, sub, mul, signed div, or the signed comparison) is placed and its
    result returned.  Both float: the float request (FAdd, FSub, FMul,
    FDiv, or the ordered comparison).  One integer and one float, either
    way round: nothing is placed, no value is returned, and "Unsupported
    binary operation" is reported at the location of the node, which the
    parser sets to that of the operator token.  For every operator, [DIV]
    included, the request chosen by the source's [switch] is the one of the
    specification's dispatch, where division stops its case. *)
Theorem binary_operator_dispatch
    (op : BinaryOp.OpType) (lhs rhs : Expression) (loc : Location)
    (s s1 s2 : CodeGenerator.t) (l r : Value) :
  generateExpression lhs s = (Some l, s1) ->
  generateExpression rhs s1 = (Some r, s2) ->
  let res := generateExpression (BinaryOp op lhs rhs loc) s in
  (isIntegerTy (getType l) = true -> isIntegerTy (getType r) = true ->
   fst res = Some (Result (next_id s2) (result_type op l)) /\
   module_insts (snd res) =
     (module_insts s2 ++ [placed s2 (integer_request op l r)])%list /\
   reported (snd res) = reported s2) /\
  (isFloatingPointTy (getType l) = true -> isFloatingPointTy (getType r) = true ->
   fst res = Some (Result (next_id s2) (result_type op l)) /\
   module_insts (snd res) =
     (module_insts s2 ++ [placed s2 (float_request op l r)])%list /\
   reported (snd res) = reported s2) /\
  ((isIntegerTy (getType l) = true /\ isFloatingPointTy (getType r) = true) \/
   (isFloatingPointTy (getType l) = true /\ isIntegerTy (getType r) = true) ->
   fst res = None /\
   module_insts (snd res) = module_insts s2 /\
   reported (snd res) =
     (reported s2 ++ [("Unsupported binary operation", loc)])%list) /\
  binary_switch op l r = binary_switch_spec op l r.
Proof.
  intros H1 H2 res. subst res.
  rewrite generateExpression_BinaryOp, H1, H2. unfold generateBinaryOp.
  split; [|split; [|split]].
  - intros Hl Hr. rewrite (binary_switch_integer op l r Hl Hr), some_request_eq.
    repeat split.
  - intros Hl Hr. rewrite (binary_switch_float op l r Hl Hr), some_request_eq.
    repeat split.
  - intros Hm. destruct (mixed_unsupported l r Hm) as [Hi Hf].
    rewrite (binary_switch_unsupported op l r Hi Hf). repeat split.
  - apply binary_switch_refines.
Qed.

(** An integer divided by a float, in the state the constructor leaves. *)
Lemma binary_operator_dispatch_witness :
  generateExpression (IntLiteral 6 (at_ 1 1)) CodeGenerator.new =
    (Some (ConstantInt Int32Ty 6), CodeGenerator.new) /\
  generateExpression (FloatLiteral 0 (at_ 1 5)) CodeGenerator.new =
    (Some (ConstantFP FloatTy 0), CodeGenerator.new) /\
  fst (generateExpression
         (BinaryOp BinaryOp.DIV (IntLiteral 6 (at_ 1 1))
                   (FloatLiteral 0 (at_ 1 5)) (at_ 1 3)) CodeGenerator.new) = None /\
  reported (snd (generateExpression
         (BinaryOp BinaryOp.DIV (IntLiteral 6 (at_ 1 1))
                   (FloatLiteral 0 (at_ 1 5)) (at_ 1 3)) CodeGenerator.new)) =
    [("Unsupported binary operation", at_ 1 3)].
Proof.
  pose proof (binary_operator_dispatch BinaryOp.DIV
                (IntLiteral 6 (at_ 1 1)) (FloatLiteral 0 (at_ 1 5)) (at_ 1 3)
                CodeGenerator.new CodeGenerator.new CodeGenerator.new
                (ConstantInt Int32Ty 6) (ConstantFP FloatTy 0)
                eq_refl eq_refl) as (_ & _ & H & _).
  destruct (H (or_introl (conj eq_refl eq_refl))) as (Hv & _ & Hr).
  split; [reflexivity|]. split; [reflexivity|]. split; [exact Hv | exact Hr].
Defined.

(** C5, as the code has it.  [UnaryOp NEG] on an operand that generates
    a value: integer negation is placed for an integer operand, float
    negation for a float operand; for an operand of any other type nothing
    is placed, no value is returned, and the error "Unknown expression
    type" is reported at the location of the unary node, the [break]
    of the [switch] leading to the end of [generateExpression]. *)
Theorem negation_dispatch
    (op : UnaryOp.OpType) (operand : Expression) (loc : Location)
    (s s1 : CodeGenerator.t) (v : Value) :
  generateExpression operand s = (Some v, s1) ->
  let res := generateExpression (UnaryOp op operand loc) s in
  (isIntegerTy (getType v) = true ->
   fst res = Some (Result (next_id s1) (getType v)) /\
   module_insts (snd res) = (module_insts s1 ++ [placed s1 (CreateNeg v "negtmp")])%list /\
   reported (snd res) = reported s1) /\
  (isFloatingPointTy (getType v) = true ->
   fst res = Some (Result (next_id s1) (getType v)) /\
   module_insts (snd res) = (module_insts s1 ++ [placed s1 (CreateFNeg v "fnegtmp")])%list /\
   reported (snd res) = reported s1) /\
  (isIntegerTy (getType v) = false -> isFloatingPointTy (getType v) = false ->
   fst res = None /\
   module_insts (snd res) = module_insts s1 /\
   reported (snd res) = (reported s1 ++ [("Unknown expression type", loc)])%list).
Proof.
  intros H res. subst res.
  rewrite generateExpression_UnaryOp, H. unfold generateUnaryOp. destruct op.
  split; [|split].
  - intros Hi. rewrite Hi, some_request_eq. repeat split.
  - intros Hf. rewrite Hf, (float_not_integer _ Hf), some_request_eq. repeat split.
  - intros Hi Hf. rewrite Hi, Hf. repeat split.
Qed.

Lemma negation_dispatch_witness :
  generateExpression (IntLiteral 1 (at_ 1 2)) CodeGenerator.new =
    (Some (ConstantInt Int32Ty 1), CodeGenerator.new) /\
  fst (generateExpression (UnaryOp UnaryOp.NEG (IntLiteral 1 (at_ 1 2)) (at_ 1 1))
                          CodeGenerator.new) =
    Some (Result (next_id CodeGenerator.new) Int32Ty).
Proof.
  pose proof (negation_dispatch UnaryOp.NEG (IntLiteral 1 (at_ 1 2)) (at_ 1 1)
                CodeGenerator.new CodeGenerator.new (ConstantInt Int32Ty 1)
                eq_refl) as (H & _ & _).
  destruct (H eq_refl) as (Hv & _ & _).
  split; [reflexivity | exact Hv].
Defined.

(** C5 as stated fails: negating a string literal is reported, as
    "Unknown expression type" at the location of the [-]. *)
Lemma negation_of_string_is_reported :
  let res := generateExpression
               (UnaryOp UnaryOp.NEG (StringLiteral "s" (at_ 1 2)) (at_ 1 1))
               CodeGenerator.new in
  fst res = None /\
  reported CodeGenerator.new = [] /\
  reported (snd res) = [("Unknown expression type", at_ 1 1)].
Proof. vm_compute. repeat split. Qed.

(** What [generateArgs] does when it gives no value: the arguments before
    some argument all have a value, and that argument has none; the
    arguments after it are not looked at. *)
Lemma generateArgs_None args : forall s s1,
  generateArgs args s = (None, s1) ->
  exists pre a post vs s',
    args = (pre ++ a :: post)%list /\
    generateArgs pre s = (Some vs, s') /\
    generateExpression a s' = (None, s1).
Proof.
  induction args as [|a args IH]; intros s s1 H; [discriminate|].
  cbn [generateArgs] in H. unfold bind at 1 in H.
  destruct (generateExpression a s) as [[v|] s0] eqn:Ea.
  - unfold bind in H. destruct (generateArgs args s0) as [[vs|] s2] eqn:Er;
      [discriminate|].
    injection H as <-.
    destruct (IH s0 s2 Er) as (pre & b & post & vs & s' & -> & Hpre & Hb).
    exists (a :: pre), b, post, (v :: vs), s'. repeat split; auto.
    cbn [generateArgs]. unfold bind at 1. rewrite Ea. unfold bind.
    rewrite Hpre. reflexivity.
  - injection H as <-. exists [], a, args, [], s. repeat split; auto.
Qed.

Lemma generateArgs_length args : forall s vs s1,
  generateArgs args s = (Some vs, s1) -> length vs = length args.
Proof.
  induction args as [|a args IH]; intros s vs s1 H.
  - injection H as <- _. reflexivity.
  - cbn [generateArgs] in H. unfold bind at 1 in H.
    destruct (generateExpression a s) as [[v|] s0]; [|discriminate].
    unfold bind in H. destruct (generateArgs args s0) as [[ws|] s2] eqn:Er;
      [|discriminate].
    injection H as <- _. simpl. f_equal. eapply IH; eassumption.
Qed.

(** C4, as the code has it.  For a call whose callee name is in the local
    name table: the arguments are generated in order; when each gives a
    value, a function type is made of their IR types with [i32] as return
    type, whatever the module may hold under that name, the table's value
    is bit-cast to a pointer to it, the indirect call is placed after the
    cast, and its [i32] result returned; when an argument gives no value,
    generation stops at that argument, no cast and no call are placed and
    no value is returned. *)
Theorem indirect_call_through_parameter
    (funcName : string) (args : list Expression) (loc : Location)
    (s : CodeGenerator.t) (funcPtr : Value) :
  namedValues s !! funcName = Some funcPtr ->
  let res := generateExpression (FunctionCall funcName args loc) s in
  (forall vs s1, generateArgs args s = (Some vs, s1) ->
     let funcType := FunctionTy Int32Ty (map getType vs) in
     let castedFunc := Result (next_id s1) (PointerTy funcType) in
     length vs = length args /\
     fst res = Some (Result (S (next_id s1)) Int32Ty) /\
     module_insts (snd res) =
       (module_insts s1 ++
        [mkInstruction (next_id s1) (insert_block s1)
                       (CreateBitCast funcPtr (PointerTy funcType));
         mkInstruction (S (next_id s1)) (insert_block s1)
                       (CreateCall funcType castedFunc vs "calltmp")])%list /\
     reported (snd res) = reported s1) /\
  (forall s1, generateArgs args s = (None, s1) ->
     res = (None, s1) /\
     exists pre a post vs s',
       args = (pre ++ a :: post)%list /\
       generateArgs pre s = (Some vs, s') /\
       generateExpression a s' = (None, s1)).
Proof.
  intros H res. subst res. rewrite (generateExpression_indirect _ _ _ _ _ H).
  split.
  - intros vs s1 Hargs. rewrite Hargs. cbv zeta.
    split; [eapply generateArgs_length; eassumption|].
    unfold generateIndirectCall, bind. rewrite request_eq, some_request_eq.
    cbn [fst snd module_insts reported next_id insert_block].
    rewrite <- app_assoc. repeat split.
  - intros s1 Hargs. rewrite Hargs. split; [reflexivity|].
    now apply generateArgs_None.
Qed.

Lemma indirect_call_through_parameter_witness :
  namedValues with_parameter_f !! "f" = Some (Argument 11 0 Int8PtrTy) /\
  fst (generateExpression
         (FunctionCall "f" [IntLiteral 1 (at_ 1 3); FloatLiteral 0 (at_ 1 6)] (at_ 1 1))
         with_parameter_f) =
    Some (Result (S (next_id with_parameter_f)) Int32Ty).
Proof.
  assert (namedValues with_parameter_f !! "f" = Some (Argument 11 0 Int8PtrTy)) as H
    by (vm_compute; reflexivity).
  pose proof (indirect_call_through_parameter "f"
                [IntLiteral 1 (at_ 1 3); FloatLiteral 0 (at_ 1 6)] (at_ 1 1)
                with_parameter_f (Argument 11 0 Int8PtrTy) H) as (K & _).
  destruct (K [ConstantInt Int32Ty 1; ConstantFP FloatTy 0] with_parameter_f eq_refl)
    as (_ & Hv & _).
  split; [exact H | exact Hv].
Defined.

(** C4 as stated fails: [f(y)] with [f] a parameter and [y] unbound
    places neither a cast nor a call and returns no value. *)
Lemma indirect_call_with_failing_argument :
  let res := generateExpression
               (FunctionCall "f" [Identifier "y" (at_ 1 3)] (at_ 1 1))
               with_parameter_f in
  namedValues with_parameter_f !! "f" = Some (Argument 11 0 Int8PtrTy) /\
  fst res = None /\
  module_insts (snd res) = module_insts with_parameter_f /\
  reported (snd res) = [("Undefined variable: y", at_ 1 3)].
Proof. vm_compute. repeat split. Qed.

End CodeGeneratorClaims.

(** ** The driver *)

Module MainFacts.
Import Main.

Lemma completed_nil env : completed env [].
Proof. intros s []. Qed.

Lemma completed_wrote env log o :
  completed env log -> completed env (log ++ [Wrote o]).
Proof.
  intros H s Hin. apply in_app_or in Hin as [Hin|[Hin|[]]]; [auto | discriminate].
Qed.

Lemma completed_final env st log : completed env log -> faults_exit_1 env (mkRun st log).
Proof. intros H s what Hin Hf. unfold entered in Hin. simpl in Hin. rewrite (H s Hin) in Hf. discriminate. Qed.

Lemma catch_exit_1 env what log : faults_exit_1 env (catch what log).
Proof. intros s w _ _. reflexivity. Qed.

Lemma enter_faults env X log k :
  completed env log ->
  (forall log', completed env log' -> faults_exit_1 env (k log')) ->
  faults_exit_1 env (enter env X log k).
Proof.
  intros Hc Hk. unfold enter. destruct (fault env X) eqn:E.
  - apply catch_exit_1.
  - apply Hk. intros s Hin. apply in_app_or in Hin as [Hin|[Hin|[]]]; [auto|].
    injection Hin as <-. exact E.
Qed.

Lemma codegen_part_faults env program log :
  completed env log -> faults_exit_1 env (codegen_part env program log).
Proof.
  intros Hc. unfold codegen_part.
  repeat (apply enter_faults; [assumption|]; clear log Hc; intros log Hc).
  apply completed_final, completed_wrote, Hc.
Qed.

Lemma parse_part_faults env opts parser log :
  completed env log -> faults_exit_1 env (parse_part env opts parser log).
Proof.
  intros Hc. unfold parse_part.
  apply enter_faults; [assumption|]; clear log Hc; intros log Hc.
  destruct (Parser.parse (stof env) parser) as [[program parser'] c|e c| |].
  - destruct (Parser.hasErrors parser').
    + apply completed_final, completed_wrote, Hc.
    + destruct (dumpAST opts).
      * apply enter_faults; [assumption|]; clear log Hc; intros log Hc.
        apply codegen_part_faults, completed_wrote, Hc.
      * apply codegen_part_faults, Hc.
  - apply catch_exit_1.
  - apply completed_final, Hc.
  - apply completed_final, Hc.
Qed.

Lemma Lexer_open_completed env file log :
  completed env log -> completed env (snd (Lexer_open env file log)).
Proof.
  intros Hc. unfold Lexer_open. destruct (read_file env file); simpl; [exact Hc|].
  apply completed_wrote, Hc.
Qed.

Lemma main_faults env opts : faults_exit_1 env (main env opts).
Proof.
  unfold main.
  apply enter_faults; [apply completed_nil|]. intros log Hc.
  pose proof (Lexer_open_completed env (inputFile opts) log Hc) as Hc1.
  destruct (Lexer_open env (inputFile opts) log) as [lexer log1]. simpl in Hc1.
  destruct (dumpTokens opts).
  - apply enter_faults; [assumption|]. intros log2 Hc2.
    destruct (Lexer.tokenize lexer) as [tokens lexer'].
    apply enter_faults; [apply completed_wrote, Hc2|]. intros log3 Hc3.
    destruct (Parser.new lexer') as [parser lexer''].
    apply parse_part_faults, Hc3.
  - apply enter_faults; [assumption|]. intros log2 Hc2.
    destruct (Parser.new lexer) as [parser lexer''].
    apply parse_part_faults, Hc2.
Qed.

Lemma before_codegen_snoc log e :
  before_codegen log ->
  match e with Entered s => codegen_stage s = false | Wrote _ => True end ->
  before_codegen (log ++ [e]).
Proof.
  intros H He s Hin. apply in_app_or in Hin as [Hin|[Hin|[]]]; [auto|].
  subst e. exact He.
Qed.

Lemma Lexer_open_fst env file log :
  fst (Lexer_open env file log) = fst (Lexer_open env file []).
Proof. unfold Lexer_open. now destruct (read_file env file). Qed.

Lemma Lexer_open_before_codegen env file log :
  before_codegen log -> before_codegen (snd (Lexer_open env file log)).
Proof.
  intros H. unfold Lexer_open. destruct (read_file env file); simpl; [exact H|].
  now apply before_codegen_snoc.
Qed.

(** [main] up to the return of [parser.parse()]: when that point is
    reached, the rest of the run is decided by the parser it left. *)
Lemma main_after_parse env opts parser :
  parser_after_parse env opts = Some parser ->
  exists program log,
    before_codegen log /\
    main env opts =
      if Parser.hasErrors parser then
        mkRun (Exit 1) (log ++ [Wrote (Stderr_parse_errors (Parser.errors parser))])
      else if dumpAST opts then
        enter env ParserDumpAST log (fun log =>
          codegen_part env program (log ++ [Wrote (Stdout_AST program)]))
      else codegen_part env program log.
Proof.
  unfold parser_after_parse, main, enter.
  destruct (fault env LexerCtor); [discriminate|].
  pose proof (Lexer_open_fst env (inputFile opts) ([] ++ [Entered LexerCtor])) as Hfst.
  pose proof (Lexer_open_before_codegen env (inputFile opts) ([] ++ [Entered LexerCtor])) as Hlog.
  destruct (Lexer_open env (inputFile opts) ([] ++ [Entered LexerCtor])) as [lexer log1].
  simpl in Hfst, Hlog. rewrite <- Hfst.
  assert (before_codegen log1) as Hb1.
  { apply Hlog. intros s [H|[]]. now injection H as <-. }
  clear Hlog Hfst.
  destruct (dumpTokens opts).
  - destruct (fault env LexerDumpTokens); [discriminate|].
    destruct (Lexer.tokenize lexer) as [tokens lexer']. cbn [snd].
    destruct (fault env ParserCtor); [discriminate|].
    destruct (Parser.new lexer') as [parser0 lexer'']. cbn [fst].
    unfold parse_part, enter.
    destruct (fault env ParserParse); [discriminate|].
    destruct (Parser.parse (stof env) parser0) as [[program parser'] c|e c| |];
      try discriminate.
    intros [= ->]. exists program. eexists. split; [|reflexivity].
    repeat (apply before_codegen_snoc; [|exact I || reflexivity]). exact Hb1.
  - destruct (fault env ParserCtor); [discriminate|].
    destruct (Parser.new lexer) as [parser0 lexer'']. cbn [fst].
    unfold parse_part, enter.
    destruct (fault env ParserParse); [discriminate|].
    destruct (Parser.parse (stof env) parser0) as [[program parser'] c|e c| |];
      try discriminate.
    intros [= ->]. exists program. eexists. split; [|reflexivity].
    repeat (apply before_codegen_snoc; [|exact I || reflexivity]). exact Hb1.
Qed.

Lemma codegen_part_success env program log :
  (forall s, fault env s = None) ->
  status (codegen_part env program log) = Exit 0 /\
  exists ir, In (Wrote (Stdout_IR ir)) (events (codegen_part env program log)).
Proof.
  intros H. unfold codegen_part, enter. rewrite !H. simpl. split; [reflexivity|].
  eexists. apply in_or_app. right. left. reflexivity.
Qed.

Lemma no_IR_snoc log e :
  no_IR log ->
  match e with Wrote (Stdout_IR _) => False | _ => True end ->
  no_IR (log ++ [e]).
Proof.
  intros H He ir Hin. apply in_app_or in Hin as [Hin|[Hin|[]]]; [now apply (H ir)|].
  subst e. exact He.
Qed.

Lemma Lexer_open_no_IR env file log :
  no_IR log -> no_IR (snd (Lexer_open env file log)).
Proof.
  intros H. unfold Lexer_open. destruct (read_file env file); simpl; [exact H|].
  now apply no_IR_snoc.
Qed.

(** [main] from the return of [parser.parse()] on, with the program and
    the parser it left. *)
Lemma main_after_parse_program env opts parser program :
  parser_after_parse env opts = Some parser ->
  program_after_parse env opts = Some program ->
  exists log,
    before_codegen log /\ no_IR log /\
    main env opts =
      if Parser.hasErrors parser then
        mkRun (Exit 1) (log ++ [Wrote (Stderr_parse_errors (Parser.errors parser))])
      else if dumpAST opts then
        enter env ParserDumpAST log (fun log =>
          codegen_part env program (log ++ [Wrote (Stdout_AST program)]))
      else codegen_part env program log.
Proof.
  unfold parser_after_parse, program_after_parse, main, enter.
  destruct (fault env LexerCtor); [discriminate|].
  pose proof (Lexer_open_fst env (inputFile opts) ([] ++ [Entered LexerCtor])) as Hfst.
  pose proof (Lexer_open_before_codegen env (inputFile opts) ([] ++ [Entered LexerCtor])) as Hlog.
  pose proof (Lexer_open_no_IR env (inputFile opts) ([] ++ [Entered LexerCtor])) as Hir.
  destruct (Lexer_open env (inputFile opts) ([] ++ [Entered LexerCtor])) as [lexer log1].
  simpl in Hfst, Hlog, Hir. rewrite <- Hfst.
  assert (before_codegen log1) as Hb1.
  { apply Hlog. intros s [H|[]]. now injection H as <-. }
  assert (no_IR log1) as Hn1.
  { apply Hir. intros ir [H|[]]. discriminate. }
  clear Hlog Hir Hfst.
  destruct (dumpTokens opts).
  - destruct (fault env LexerDumpTokens); [discriminate|].
    destruct (Lexer.tokenize lexer) as [tokens lexer']. cbn [snd].
    destruct (fault env ParserCtor); [discriminate|].
    destruct (Parser.new lexer') as [parser0 lexer'']. cbn [fst].
    unfold parse_part, enter.
    destruct (fault env ParserParse); [discriminate|].
    destruct (Parser.parse (stof env) parser0) as [[program' parser'] c|e c| |];
      try discriminate.
    intros [= ->] [= ->]. eexists. split; [|split; [|reflexivity]].
    + repeat (apply before_codegen_snoc; [|exact I || reflexivity]). exact Hb1.
    + repeat (apply no_IR_snoc; [|exact I]). exact Hn1.
  - destruct (fault env ParserCtor); [discriminate|].
    destruct (Parser.new lexer) as [parser0 lexer'']. cbn [fst].
    unfold parse_part, enter.
    destruct (fault env ParserParse); [discriminate|].
    destruct (Parser.parse (stof env) parser0) as [[program' parser'] c|e c| |];
      try discriminate.
    intros [= ->] [= ->]. eexists. split; [|split; [|reflexivity]].
    + repeat (apply before_codegen_snoc; [|exact I || reflexivity]). exact Hb1.
    + repeat (apply no_IR_snoc; [|exact I]). exact Hn1.
Qed.

(** The steps of code generation when none of them throws. *)
Lemma codegen_part_run env program log :
  (forall s, fault env s = None) ->
  codegen_part env program log = mkRun (Exit 0) (log ++ codegen_events program).
Proof.
  intros H. unfold codegen_part, enter, codegen_events. rewrite !H.
  rewrite <- !app_assoc. reflexivity.
Qed.

End MainFacts.

Module MainClaims.
Import Main MainFacts Samples.

(** C7.  For every run of the driver on an accepted command line.
    When [parser.parse()] has returned and left a non-empty error list,
    the process exits with status 1 and no step of code generation (the
    constructor, [generate], [emitIR]) is entered.  When it has returned
    [program] with an empty error list and no step throws, the process
    exits with status 0 and the run ends with the three steps of code
    generation and the module that [generate] makes of [program] from a
    new code generator, written to standard output by [emitIR]; no other
    module is written in the run.  When a step that was entered throws,
    the process exits with status 1. *)
Theorem driver_exit_status (env : Env) (opts : Options) :
  (forall parser,
      parser_after_parse env opts = Some parser ->
      Parser.hasErrors parser = true ->
      status (main env opts) = Exit 1 /\
      forall s, entered s (main env opts) -> codegen_stage s = false) /\
  (forall parser program,
      parser_after_parse env opts = Some parser ->
      program_after_parse env opts = Some program ->
      Parser.hasErrors parser = false ->
      (forall s, fault env s = None) ->
      status (main env opts) = Exit 0 /\
      exists log,
        events (main env opts) = (log ++ codegen_events program)%list /\
        before_codegen log /\ no_IR log) /\
  (forall s what,
      entered s (main env opts) -> fault env s = Some what ->
      status (main env opts) = Exit 1).
Proof.
  split; [|split].
  - intros parser Hp He.
    destruct (main_after_parse env opts parser Hp) as (program & log & Hlog & ->).
    rewrite He. split; [reflexivity|].
    intros s Hin. unfold entered in Hin. simpl in Hin.
    apply in_app_or in Hin as [Hin|[Hin|[]]]; [auto | discriminate].
  - intros parser program Hp Hprog He Hf.
    destruct (main_after_parse_program env opts parser program Hp Hprog)
      as (log & Hlog & Hir & ->).
    rewrite He. destruct (dumpAST opts).
    + unfold enter. rewrite Hf, (codegen_part_run env program _ Hf).
      split; [reflexivity|]. eexists. split; [reflexivity|]. split.
      * repeat (apply before_codegen_snoc; [|exact I || reflexivity]). exact Hlog.
      * repeat (apply no_IR_snoc; [|exact I]). exact Hir.
    + rewrite (codegen_part_run env program _ Hf).
      split; [reflexivity|]. exists log. split; [reflexivity|]. split; assumption.
  - apply main_faults.
Qed.

(** Three runs: a source with a parse error, a source without, whose
    module holds the function [main] after the eleven built-ins, and a run
    in which the parser's constructor throws. *)
Lemma driver_exit_status_witness :
  (status (main (file_with big_literal) (plain "f.lge")) = Exit 1 /\
   forall s, entered s (main (file_with big_literal) (plain "f.lge")) ->
             codegen_stage s = false) /\
  (status (main (file_with "let main: int = () -> 0") (plain "f.lge")) = Exit 0 /\
   exists log ir,
     events (main (file_with "let main: int = () -> 0") (plain "f.lge")) =
       (log ++ [Wrote (Stdout_IR ir)])%list /\
     no_IR log /\
     nth_error (map IR.fn_name (CodeGenerator.text_functions ir)) 11 = Some "main" /\
     map IR.inst_request (CodeGenerator.text_insts ir) =
       [IR.CreateRet (IR.ConstantInt IR.Int32Ty 0)]) /\
  status (main (mkEnv (fun _ => Some big_literal) no_stof
                  (fun s => match s with
                            | ParserCtor => Some "std::bad_alloc"
                            | _ => None
                            end))
            (plain "f.lge")) = Exit 1.
Proof.
  split; [|split].
  - eapply (proj1 (driver_exit_status _ _));
      [vm_compute; reflexivity | vm_compute; reflexivity].
  - destruct (proj1 (proj2 (driver_exit_status
                              (file_with "let main: int = () -> 0") (plain "f.lge")))
                (match parser_after_parse
                         (file_with "let main: int = () -> 0") (plain "f.lge") with
                 | Some parser => parser
                 | None => Parser.mk [] 0 []
                 end)
                (match program_after_parse
                         (file_with "let main: int = () -> 0") (plain "f.lge") with
                 | Some program => program
                 | None => mkProgram [] Location_default
                 end))
      as (Hs & log & Hev & _ & Hir).
    + vm_compute. reflexivity.
    + vm_compute. reflexivity.
    + reflexivity.
    + reflexivity.
    + split; [exact Hs|].
      exists (log ++ [Entered CodeGeneratorCtor; Entered CodeGeneratorGenerate;
                      Entered CodeGeneratorEmitIR])%list.
      eexists. split; [rewrite Hev; unfold codegen_events; rewrite <- app_assoc; reflexivity|].
      split; [|split; vm_compute; reflexivity].
      intros ir Hin. apply in_app_or in Hin as [Hin|Hin]; [now apply (Hir ir)|].
      repeat (destruct Hin as [Hin|Hin]; [discriminate|]). exact Hin.
  - eapply (proj2 (proj2 (driver_exit_status _ _)) ParserCtor);
      [vm_compute; auto 10 | reflexivity].
Defined.

End MainClaims.

(** ** What generating an expression does to the module *)

Module CodeGeneratorInvariants.
Import IR CodeGenerator CodeGeneratorFacts.

Lemma find_app_l {A} (p : A -> bool) l l' x :
  find p l = Some x -> find p (l ++ l') = Some x.
Proof.
  induction l as [|a l IH]; simpl; [discriminate|].
  destruct (p a); auto.
Qed.

Lemma find_app_r {A} (p : A -> bool) l l' :
  find p l = None -> find p (l ++ l') = find p l'.
Proof.
  induction l as [|a l IH]; simpl; [reflexivity|].
  destruct (p a); [discriminate | auto].
Qed.

Lemma find_none_fresh (blocks : list BasicBlock) n :
  Forall (fun k => (bb_id k < n)%nat) blocks ->
  find (fun k => Nat.eqb (bb_id k) n) blocks = None.
Proof.
  induction 1 as [|k blocks Hk _ IH]; simpl; [reflexivity|].
  destruct (Nat.eqb_spec (bb_id k) n); [lia | exact IH].
Qed.

Lemma owner_None s : owner s None = None.
Proof. reflexivity. Qed.

Lemma owner_app s s' nb b F :
  module_blocks s' = (module_blocks s ++ nb)%list ->
  owner s (Some b) = Some F -> owner s' (Some b) = Some F.
Proof.
  unfold owner, getParent; simpl. intros -> H.
  destruct (find (fun k => Nat.eqb (bb_id k) b) (module_blocks s)) as [k|] eqn:E;
    [|discriminate].
  now rewrite (find_app_l _ _ nb _ E).
Qed.

Lemma owner_grows F s s' b G :
  grows F s s' -> owner s (Some b) = Some G -> owner s' (Some b) = Some G.
Proof.
  intros [_ _ _ _ (nb & Hb & _) _ _]. now apply owner_app with (nb := nb).
Qed.

Lemma inside_insert F s : inside F s -> exists b, insert_block s = Some b.
Proof.
  intros [_ H]. destruct (insert_block s) as [b|]; [eauto | discriminate].
Qed.

Lemma grows_refl F s : grows F s s.
Proof.
  constructor; auto.
  - exists []. split; [now rewrite app_nil_r | constructor].
  - exists []. split; [now rewrite app_nil_r | constructor].
  - exists []. now rewrite app_nil_r.
Qed.

Lemma grows_trans F a b c : grows F a b -> grows F b c -> grows F a c.
Proof.
  intros [Hf1 Ht1 Hn1 Hx1 (nb1 & Hb1 & Hnb1) (ni1 & Hi1 & Hni1) (nr1 & Hr1)] Hbc.
  pose proof Hbc as [Hf2 Ht2 Hn2 Hx2 (nb2 & Hb2 & Hnb2) (ni2 & Hi2 & Hni2) (nr2 & Hr2)].
  constructor; try congruence; try lia.
  - exists (nb1 ++ nb2)%list. split; [rewrite Hb2, Hb1; now rewrite app_assoc|].
    apply Forall_app. split.
    + eapply List.Forall_impl; [|exact Hnb1]. simpl. intros k [? ?]. split; [auto|lia].
    + eapply List.Forall_impl; [|exact Hnb2]. simpl. intros k [? ?]. split; [auto|lia].
  - exists (ni1 ++ ni2)%list. split; [rewrite Hi2, Hi1; now rewrite app_assoc|].
    apply Forall_app. split; [|exact Hni2].
    eapply List.Forall_impl; [|exact Hni1]. simpl. intros i (x & Hx & Ho).
    exists x. split; [exact Hx|]. eapply owner_grows; eassumption.
  - exists (nr1 ++ nr2)%list. rewrite Hr2, Hr1. now rewrite app_assoc.
Qed.

Lemma step_trans F a b c : step F a b -> step F b c -> step F a c.
Proof. intros [G1 _] [G2 I2]. split; [eapply grows_trans; eassumption | exact I2]. Qed.

Lemma step_refl F s : inside F s -> step F s s.
Proof. intros H. split; [apply grows_refl | exact H]. Qed.

Lemma Forall_lt_S (blocks : list BasicBlock) n :
  Forall (fun k => (bb_id k < n)%nat) blocks ->
  Forall (fun k => (bb_id k < S n)%nat) blocks.
Proof. intros H. eapply List.Forall_impl; [|exact H]. simpl. intros; lia. Qed.

Lemma request_step F r ty s : inside F s -> step F s (snd (request r ty s)).
Proof.
  intros Hin. destruct (inside_insert F s Hin) as (b & Hb).
  destruct Hin as [Hids Hown]. rewrite request_eq. cbn [snd].
  split.
  - constructor; simpl; auto.
    + exists []. split; [now rewrite app_nil_r | constructor].
    + exists [placed s r]. split; [reflexivity|]. constructor; [|constructor].
      exists b. split; [exact Hb|]. rewrite Hb in Hown. exact Hown.
    + exists []. now rewrite app_nil_r.
  - split; simpl; [now apply Forall_lt_S | exact Hown].
Qed.

Lemma some_request_step F r ty s : inside F s -> step F s (snd (some_request r ty s)).
Proof. intros H. exact (request_step F r ty s H). Qed.

Lemma reportError_step F msg loc s : inside F s -> step F s (snd (reportError msg loc s)).
Proof.
  intros [Hids Hown]. split.
  - constructor; simpl; auto.
    + exists []. split; [now rewrite app_nil_r | constructor].
    + exists []. split; [now rewrite app_nil_r | constructor].
    + eexists. reflexivity.
  - split; simpl; assumption.
Qed.

Lemma CreateGlobalStringPtr_step F str name s :
  inside F s -> step F s (snd (CreateGlobalStringPtr_ str name s)).
Proof.
  intros Hin. pose proof (request_step F (CreateGlobalStringPtr str name) Int8PtrTy s Hin)
    as [G [Hids Hown]].
  unfold CreateGlobalStringPtr_, bind.
  destruct (request (CreateGlobalStringPtr str name) Int8PtrTy s) as [v s1].
  cbn [snd] in *. split.
  - destruct G. constructor; simpl; auto.
  - split; simpl; assumption.
Qed.

Lemma BasicBlock_Create_step F name s :
  inside F s ->
  step F s (snd (BasicBlock_Create name (Some F) s)) /\
  owner (snd (BasicBlock_Create name (Some F) s))
        (Some (fst (BasicBlock_Create name (Some F) s))) = Some F.
Proof.
  intros [Hids Hown]. unfold BasicBlock_Create, bind, fresh. cbn [fst snd].
  split; [split|].
  - constructor; simpl; auto.
    + eexists. split; [reflexivity|]. constructor; [|constructor]. simpl. split; [auto|lia].
    + exists []. split; [now rewrite app_nil_r | constructor].
    + exists []. now rewrite app_nil_r.
  - split; simpl.
    + apply Forall_app. split; [now apply Forall_lt_S|].
      constructor; [simpl; lia | constructor].
    + destruct (insert_block s) as [b|]; [|discriminate].
      eapply owner_app; [|exact Hown]. reflexivity.
  - unfold owner, getParent. simpl.
    rewrite find_app_r by (now apply find_none_fresh).
    simpl. now rewrite Nat.eqb_refl.
Qed.

Lemma SetInsertPoint_step F b s :
  inside F s -> owner s (Some b) = Some F ->
  step F s (snd (SetInsertPoint b s)).
Proof.
  intros [Hids Hown] Hb. split.
  - constructor; simpl; auto.
    + exists []. split; [now rewrite app_nil_r | constructor].
    + exists []. split; [now rewrite app_nil_r | constructor].
    + exists []. now rewrite app_nil_r.
  - split; simpl; assumption.
Qed.

Lemma generateUnaryOp_step F op v loc s :
  inside F s -> step F s (snd (generateUnaryOp op v loc s)).
Proof.
  intros H. unfold generateUnaryOp. destruct v as [v|]; [|now apply step_refl].
  destruct op. destruct (isIntegerTy _); [now apply some_request_step|].
  destruct (isFloatingPointTy _); [now apply some_request_step|].
  now apply reportError_step.
Qed.

Lemma generateBinaryOp_step F op l r loc s :
  inside F s -> step F s (snd (generateBinaryOp op l r loc s)).
Proof.
  intros H. unfold generateBinaryOp.
  destruct l as [l|]; [|now apply step_refl].
  destruct r as [r|]; [|now apply step_refl].
  destruct (binary_switch op l r) as [[rq ty]|]; [now apply some_request_step|].
  now apply reportError_step.
Qed.

Lemma generateIndirectCall_step F funcPtr args s :
  inside F s -> step F s (snd (generateIndirectCall funcPtr args s)).
Proof.
  intros H. unfold generateIndirectCall, bind.
  match goal with |- context [request ?r ?ty s] =>
    pose proof (request_step F r ty s H) as S1; destruct (request r ty s) as [v s1] end.
  cbn [snd] in S1. eapply step_trans; [exact S1|]. apply some_request_step, S1.
Qed.

Lemma generateArgs_step args :
  Forall keeps args ->
  forall F s, inside F s -> step F s (snd (generateArgs args s)).
Proof.
  induction 1 as [|a args Ha _ IH]; intros F s Hin; [now apply step_refl|].
  cbn [generateArgs]. unfold bind at 1.
  pose proof (Ha F s Hin) as S1.
  destruct (generateExpression a s) as [[v|] s1]; cbn [snd] in S1; [|exact S1].
  unfold bind. pose proof (IH F s1 (proj2 S1)) as S2.
  destruct (generateArgs args s1) as [vs s2]; cbn [snd] in *.
  eapply step_trans; eassumption.
Qed.

(** Move on to the state [s'] a step [S] leads to, taking along what is
    known of block owners. *)
Ltac move_on S I :=
  eapply step_trans; [exact S|];
  repeat match goal with
  | O : owner ?s (Some ?b) = Some ?G |- _ =>
      match type of S with
      | step _ s ?s' => apply (owner_grows _ _ _ _ _ (proj1 S)) in O
      end
  end;
  destruct S as [_ I].

Lemma generateExpression_step e : keeps e.
Proof.
  induction e using Expression_induction; intros F s Hin.
  - cbn [generateExpression]. unfold bind.
    pose proof (CreateGlobalStringPtr_step F v "str" s Hin) as S1.
    destruct (CreateGlobalStringPtr_ v "str" s). exact S1.
  - now apply step_refl.
  - now apply step_refl.
  - cbn [generateExpression]. unfold bind, namedValues_find, functions_find, function_by_id.
    destruct (namedValues s !! name); [now apply step_refl|].
    destruct (functions s !! name); [now apply some_request_step|].
    now apply reportError_step.
  - rewrite generateExpression_BinaryOp.
    pose proof (IHe1 F s Hin) as S1.
    destruct (generateExpression e1 s) as [lv s1]; cbn [snd] in S1.
    pose proof (IHe2 F s1 (proj2 S1)) as S2.
    destruct (generateExpression e2 s1) as [rv s2]; cbn [snd] in S2.
    eapply step_trans; [exact S1|]. eapply step_trans; [exact S2|].
    apply generateBinaryOp_step, S2.
  - rewrite generateExpression_UnaryOp.
    pose proof (IHe F s Hin) as S1.
    destruct (generateExpression e s) as [v s1]; cbn [snd] in S1.
    eapply step_trans; [exact S1|]. apply generateUnaryOp_step, S1.
  - cbn [generateExpression]. fold generateArgs.
    unfold bind at 1. unfold namedValues_find at 1. cbn beta iota.
    destruct (namedValues s !! name) as [funcPtr|].
    + unfold bind at 1. pose proof (generateArgs_step args H F s Hin) as S1.
      destruct (generateArgs args s) as [[vs|] s1]; cbn [snd] in S1; [|exact S1].
      eapply step_trans; [exact S1|]. apply generateIndirectCall_step, S1.
    + unfold bind at 1. unfold functions_find at 1. cbn beta iota.
      unfold bind at 1.
      set (lookup := (match functions s !! name with Some fn => function_by_id fn | None => getFunction name end) s).
      assert (snd lookup = s) as Hl by (subst lookup; destruct (functions s !! name); reflexivity).
      destruct lookup as [func s0]. cbn [snd] in Hl. subst s0.
      destruct func as [func|]; [|now apply reportError_step].
      destruct (negb _); [now apply reportError_step|].
      unfold bind at 1. pose proof (generateArgs_step args H F s Hin) as S1.
      destruct (generateArgs args s) as [[vs|] s1]; cbn [snd] in S1; [|exact S1].
      eapply step_trans; [exact S1|]. apply some_request_step, S1.
  - cbn [generateExpression]. unfold bind at 1.
    pose proof (IHe1 F s Hin) as S1.
    destruct (generateExpression e1 s) as [[cv|] s1]; cbn [snd] in S1; [|exact S1].
    eapply step_trans; [exact S1|]. destruct S1 as [_ I1]. clear Hin s.
    unfold bind at 1.
    match goal with |- context [(if ?c then ?a else ?b) s1] =>
      set (cb := (if c then a else b) s1) end.
    assert (step F s1 (snd cb)) as S2.
    { subst cb. destruct (isIntegerTy _); [now apply some_request_step|].
      destruct (isFloatingPointTy _); [now apply some_request_step|].
      now apply reportError_step. }
    destruct cb as [[condBool|] s2]; cbn [snd] in S2; [|exact S2].
    eapply step_trans; [exact S2|]. destruct S2 as [_ I2]. clear I1 s1.
    unfold bind at 1. unfold GetInsertBlock at 1. cbn beta iota.
    unfold bind at 1. unfold getParent at 1. cbn beta iota.
    pose proof (proj2 I2) as Hown. unfold owner, getParent in Hown. cbn [fst] in Hown.
    rewrite Hown. clear Hown.
    unfold bind at 1.
    pose proof (BasicBlock_Create_step F "then" s2 I2) as [S3 O3].
    destruct (BasicBlock_Create "then" (Some F) s2) as [thenBlock s3]; cbn [fst snd] in S3, O3.
    move_on S3 I3. clear I2 s2.
    unfold bind at 1.
    pose proof (BasicBlock_Create_step F "else" s3 I3) as [S4 O4].
    destruct (BasicBlock_Create "else" (Some F) s3) as [elseBlock s4]; cbn [fst snd] in S4, O4.
    move_on S4 I4. clear I3 s3.
    unfold bind at 1.
    pose proof (BasicBlock_Create_step F "ifcont" s4 I4) as [S5 O5].
    destruct (BasicBlock_Create "ifcont" (Some F) s4) as [mergeBlock s5]; cbn [fst snd] in S5, O5.
    move_on S5 I5. clear I4 s4.
    unfold bind at 1.
    match goal with |- context [request ?r ?ty s5] =>
      pose proof (request_step F r ty s5 I5) as S6;
      destruct (request r ty s5) as [v6 s6]; cbn [snd] in S6 end.
    move_on S6 I6. clear I5 s5.
    unfold bind at 1.
    pose proof (SetInsertPoint_step F thenBlock s6 I6 O3) as S7.
    destruct (SetInsertPoint thenBlock s6) as [u7 s7]; cbn [snd] in S7.
    move_on S7 I7. clear I6 s6.
    unfold bind at 1.
    pose proof (IHe2 F s7 I7) as S8.
    destruct (generateExpression e2 s7) as [[thenValue|] s8]; cbn [snd] in S8; [|exact S8].
    move_on S8 I8. clear I7 s7.
    unfold bind at 1.
    match goal with |- context [request ?r ?ty s8] =>
      pose proof (request_step F r ty s8 I8) as S9;
      destruct (request r ty s8) as [v9 s9]; cbn [snd] in S9 end.
    move_on S9 I9. clear I8 s8.
    unfold bind at 1. unfold GetInsertBlock at 1. cbn beta iota.
    unfold bind at 1.
    pose proof (SetInsertPoint_step F elseBlock s9 I9 O4) as S10.
    destruct (SetInsertPoint elseBlock s9) as [u10 s10]; cbn [snd] in S10.
    move_on S10 I10. clear I9.
    unfold bind at 1.
    pose proof (IHe3 F s10 I10) as S11.
    destruct (generateExpression e3 s10) as [[elseValue|] s11]; cbn [snd] in S11; [|exact S11].
    move_on S11 I11. clear I10 s10.
    unfold bind at 1.
    match goal with |- context [request ?r ?ty s11] =>
      pose proof (request_step F r ty s11 I11) as S12;
      destruct (request r ty s11) as [v12 s12]; cbn [snd] in S12 end.
    move_on S12 I12. clear I11 s11.
    unfold bind at 1. unfold GetInsertBlock at 1. cbn beta iota.
    unfold bind at 1.
    pose proof (SetInsertPoint_step F mergeBlock s12 I12 O5) as S13.
    destruct (SetInsertPoint mergeBlock s12) as [u13 s13]; cbn [snd] in S13.
    move_on S13 I13.
    now apply some_request_step.
Qed.

Lemma told_more {A} (v : option A) s s' :
  told v s s' -> exists nr, reported s' = (reported s ++ nr)%list.
Proof.
  destruct v; simpl.
  - intros ->. exists []. now rewrite app_nil_r.
  - intros (nr & _ & ->). now exists nr.
Qed.

Lemma told_None_then {A B} (v : option B) s s1 s2 :
  told (@None A) s s1 -> told v s1 s2 -> told (@None A) s s2.
Proof.
  intros (nr & Hne & H1) H2. apply told_more in H2 as (nr2 & H2).
  exists (nr ++ nr2)%list. split.
  - destruct nr; [congruence | discriminate].
  - rewrite H2, H1. now rewrite app_assoc.
Qed.

Lemma outcome_after {A B} (a : A) s s1 (r : option B * t) :
  told (Some a) s s1 -> outcome_told s1 r -> outcome_told s r.
Proof. unfold outcome_told, told. intros H1. destruct (fst r); rewrite H1; auto. Qed.

Lemma outcome_same {B} s s1 (r : option B * t) :
  reported s1 = reported s -> outcome_told s1 r -> outcome_told s r.
Proof. unfold outcome_told, told. intros H1. destruct (fst r); rewrite H1; auto. Qed.

Lemma outcome_reportError {A} msg loc s :
  outcome_told s (@None A, snd (reportError msg loc s)).
Proof. exists [(msg, loc)]. split; [discriminate | reflexivity]. Qed.

Lemma outcome_some_request r ty s : outcome_told s (some_request r ty s).
Proof. reflexivity. Qed.

Lemma outcome_None {A} s s1 : told (@None A) s s1 -> outcome_told s (@None A, s1).
Proof. auto. Qed.

Lemma generateUnaryOp_told op v loc s :
  outcome_told s (generateUnaryOp op (Some v) loc s).
Proof.
  unfold generateUnaryOp. destruct op.
  destruct (isIntegerTy _); [reflexivity|].
  destruct (isFloatingPointTy _); [reflexivity|]. apply outcome_reportError.
Qed.

Lemma generateBinaryOp_told op l r loc s :
  outcome_told s (generateBinaryOp op (Some l) (Some r) loc s).
Proof.
  unfold generateBinaryOp.
  destruct (binary_switch op l r) as [[rq ty]|]; [reflexivity|]. apply outcome_reportError.
Qed.

Lemma generateArgs_told args :
  Forall tells args -> forall s, outcome_told s (generateArgs args s).
Proof.
  induction 1 as [|a args Ha _ IH]; intros s; [reflexivity|].
  cbn [generateArgs]. unfold bind at 1.
  pose proof (Ha s) as T1.
  destruct (generateExpression a s) as [[v|] s1]; unfold outcome_told in T1;
    cbn [fst snd] in T1; [|exact T1].
  eapply outcome_after; [exact T1|].
  unfold bind. pose proof (IH s1) as T2.
  destruct (generateArgs args s1) as [[vs|] s2]; exact T2.
Qed.

(** A step of the builder that writes nothing to [std::cerr]. *)
Ltac quiet_step call a s' :=
  unfold bind at 1;
  let Q := fresh "Q" in
  assert (reported (snd call) = reported ltac:(
            match call with
            | ?m ?st => exact st
            end)) as Q by reflexivity;
  destruct call as [a s']; cbn [snd] in Q;
  eapply (outcome_same _ s'); [exact Q|]; clear Q.

Lemma generateExpression_told e : tells e.
Proof.
  induction e using Expression_induction; intros s.
  - reflexivity.
  - reflexivity.
  - reflexivity.
  - cbn [generateExpression]. unfold bind, namedValues_find, functions_find, function_by_id.
    destruct (namedValues s !! name); [reflexivity|].
    destruct (functions s !! name); [reflexivity|]. apply outcome_reportError.
  - rewrite generateExpression_BinaryOp.
    pose proof (IHe1 s) as T1.
    destruct (generateExpression e1 s) as [lv s1]; unfold outcome_told in T1; cbn [fst snd] in T1.
    pose proof (IHe2 s1) as T2.
    destruct (generateExpression e2 s1) as [rv s2]; unfold outcome_told in T2; cbn [fst snd] in T2.
    destruct lv as [lv|].
    + eapply outcome_after; [exact T1|]. destruct rv as [rv|].
      * eapply outcome_after; [exact T2|]. apply generateBinaryOp_told.
      * exact T2.
    + apply outcome_None. eapply told_None_then; [exact T1|exact T2].
  - rewrite generateExpression_UnaryOp.
    pose proof (IHe s) as T1.
    destruct (generateExpression e s) as [[v|] s1]; unfold outcome_told in T1;
      cbn [fst snd] in T1; [|exact T1].
    eapply outcome_after; [exact T1|]. apply generateUnaryOp_told.
  - cbn [generateExpression]. fold generateArgs.
    unfold bind at 1. unfold namedValues_find at 1. cbn beta iota.
    destruct (namedValues s !! name) as [funcPtr|].
    + unfold bind at 1. pose proof (generateArgs_told args H s) as T1.
      destruct (generateArgs args s) as [[vs|] s1]; unfold outcome_told in T1;
        cbn [fst snd] in T1; [|exact T1].
      eapply outcome_after; [exact T1|]. reflexivity.
    + unfold bind at 1. unfold functions_find at 1. cbn beta iota.
      unfold bind at 1.
      set (lookup := (match functions s !! name with Some fn => function_by_id fn | None => getFunction name end) s).
      assert (snd lookup = s) as Hl by (subst lookup; destruct (functions s !! name); reflexivity).
      destruct lookup as [func s0]. cbn [snd] in Hl. subst s0.
      destruct func as [func|]; [|apply outcome_reportError].
      destruct (negb _); [apply outcome_reportError|].
      unfold bind at 1. pose proof (generateArgs_told args H s) as T1.
      destruct (generateArgs args s) as [[vs|] s1]; unfold outcome_told in T1;
        cbn [fst snd] in T1; [|exact T1].
      eapply outcome_after; [exact T1|]. reflexivity.
  - cbn [generateExpression]. unfold bind at 1.
    pose proof (IHe1 s) as T1.
    destruct (generateExpression e1 s) as [[cv|] s1]; unfold outcome_told in T1;
      cbn [fst snd] in T1; [|exact T1].
    eapply outcome_after; [exact T1|]. clear T1 s.
    unfold bind at 1.
    match goal with |- context [(if ?c then ?a else ?b) s1] =>
      set (cb := (if c then a else b) s1) end.
    assert (outcome_told s1 cb) as T2.
    { subst cb. destruct (isIntegerTy _); [reflexivity|].
      destruct (isFloatingPointTy _); [reflexivity|]. apply outcome_reportError. }
    destruct cb as [[condBool|] s2]; unfold outcome_told in T2; cbn [fst snd] in T2; [|exact T2].
    eapply outcome_after; [exact T2|]. clear T2 s1.
    unfold bind at 1. unfold GetInsertBlock at 1. cbn beta iota.
    unfold bind at 1.
    destruct (getParent (insert_block s2) s2) as [func s2'] eqn:E.
    assert (s2' = s2) as -> by (unfold getParent in E; now injection E as _ <-). clear E.
    quiet_step (BasicBlock_Create "then" func s2) thenBlock s3.
    quiet_step (BasicBlock_Create "else" func s3) elseBlock s4.
    quiet_step (BasicBlock_Create "ifcont" func s4) mergeBlock s5.
    quiet_step (request (CreateCondBr condBool thenBlock elseBlock) Int1Ty s5) v6 s6.
    quiet_step (SetInsertPoint thenBlock s6) u7 s7.
    unfold bind at 1.
    pose proof (IHe2 s7) as T3.
    destruct (generateExpression e2 s7) as [[tv|] s8]; unfold outcome_told in T3;
      cbn [fst snd] in T3; [|exact T3].
    eapply (outcome_same _ s8); [exact T3|]. clear T3 s7.
    quiet_step (request (CreateBr mergeBlock) Int1Ty s8) v9 s9.
    unfold bind at 1. unfold GetInsertBlock at 1. cbn beta iota.
    quiet_step (SetInsertPoint elseBlock s9) u10 s10.
    unfold bind at 1.
    pose proof (IHe3 s10) as T4.
    destruct (generateExpression e3 s10) as [[ev|] s11]; unfold outcome_told in T4;
      cbn [fst snd] in T4; [|exact T4].
    eapply (outcome_same _ s11); [exact T4|]. clear T4 s10.
    quiet_step (request (CreateBr mergeBlock) Int1Ty s11) v12 s12.
    unfold bind at 1. unfold GetInsertBlock at 1. cbn beta iota.
    quiet_step (SetInsertPoint mergeBlock s12) u13 s13.
    reflexivity.
Qed.

Lemma filter_all {A} (p : A -> bool) l :
  Forall (fun x => p x = true) l -> List.filter p l = l.
Proof. induction 1 as [|x l Hx _ IH]; simpl; [reflexivity|]. cbv beta in Hx. now rewrite Hx, IH. Qed.

Lemma filter_none {A} (p : A -> bool) l :
  Forall (fun x => p x = false) l -> List.filter p l = [].
Proof. induction 1 as [|x l Hx _ IH]; simpl; [reflexivity|]. cbv beta in Hx. now rewrite Hx, IH. Qed.

Lemma fresh_ids_new : fresh_ids CodeGenerator.new.
Proof.
  unfold fresh_ids. cbn. repeat split; repeat constructor.
Qed.

(** The state in which the body of a function is generated. *)
Lemma enterFunction_spec func s :
  fresh_ids s ->
  let f := fst (enterFunction func s) in
  let s0 := snd (enterFunction func s) in
  f = mkFunction (next_id s) (func_name func)
        (FunctionTy (llvmType (func_returnType func))
                    (map (fun p => llvmType (param_type p)) (func_parameters func)))
        (map param_name (func_parameters func)) /\
  module_functions s0 = (module_functions s ++ [f])%list /\
  module_blocks s0 =
    (module_blocks s ++ [mkBasicBlock (S (next_id s)) "entry" (Some (next_id s))])%list /\
  module_insts s0 = module_insts s /\
  functions s0 = functions s /\
  reported s0 = reported s /\
  next_id s0 = S (S (next_id s)) /\
  inside (next_id s) s0.
Proof.
  intros (Hf & Hb & Hi). cbv zeta. repeat split.
  - cbn. apply Forall_app. split.
    + eapply List.Forall_impl; [|exact Hb]. simpl. intros k [H _]. lia.
    + constructor; [simpl; lia | constructor].
  - unfold owner, getParent. cbn.
    rewrite find_app_r.
    + simpl. now rewrite Nat.eqb_refl.
    + apply find_none_fresh. eapply List.Forall_impl; [|exact Hb].
      simpl. intros k [H _]. lia.
Qed.

(** No block of the function under construction has an id that was in use
    before the function was created. *)
Lemma block_in_old F blocks nb b :
  Forall (fun k => forall p, bb_parent k = Some p -> (p < F)%nat) blocks ->
  Forall (fun k => (F < bb_id k)%nat) nb ->
  (b < F)%nat ->
  block_in F (blocks ++ nb) (Some b) = false.
Proof.
  intros Hold Hnew Hb. unfold block_in. rewrite existsb_app.
  apply orb_false_iff. split.
  - induction Hold as [|k blocks Hk _ IH]; simpl; [reflexivity|].
    rewrite IH, orb_false_r. destruct (bb_parent k) as [p|]; [|apply andb_false_r].
    specialize (Hk p eq_refl). destruct (Nat.eqb_spec p F); [lia | apply andb_false_r].
  - induction Hnew as [|k nb Hk _ IH]; simpl; [reflexivity|].
    rewrite IH, orb_false_r. destruct (Nat.eqb_spec (bb_id k) b); [lia | reflexivity].
Qed.

Lemma block_in_own F blocks k :
  In k blocks -> bb_parent k = Some F ->
  block_in F blocks (Some (bb_id k)) = true.
Proof.
  intros Hin Hp. unfold block_in. apply existsb_exists. exists k.
  split; [exact Hin|]. now rewrite Nat.eqb_refl, Hp, Nat.eqb_refl.
Qed.

Lemma owner_block_in F s b :
  owner s (Some b) = Some F -> block_in F (module_blocks s) (Some b) = true.
Proof.
  unfold owner, getParent. cbn [fst].
  destruct (find (fun k => Nat.eqb (bb_id k) b) (module_blocks s)) as [k|] eqn:E;
    [|discriminate].
  intros Hp. apply find_some in E as [Hin Hid]. apply Nat.eqb_eq in Hid. subst b.
  now apply block_in_own.
Qed.

Lemma owner_lt F s b :
  Forall (fun k => (bb_id k < next_id s)%nat) (module_blocks s) ->
  owner s (Some b) = Some F -> (b < next_id s)%nat.
Proof.
  unfold owner, getParent. cbn [fst]. intros Hids.
  destruct (find (fun k => Nat.eqb (bb_id k) b) (module_blocks s)) as [k|] eqn:E;
    [|discriminate].
  intros _. apply find_some in E as [Hin Hid]. apply Nat.eqb_eq in Hid. subst b.
  rewrite List.Forall_forall in Hids. now apply Hids.
Qed.

(** Erasing the function under construction gives back the function list,
    the blocks and the placed requests the module had before it. *)
Lemma eraseFromParent_restores func s s1 :
  fresh_ids s ->
  grows (next_id s) (snd (enterFunction func s)) s1 ->
  let s2 := snd (eraseFromParent (next_id s) s1) in
  module_functions s2 = module_functions s /\
  module_blocks s2 = module_blocks s /\
  module_insts s2 = module_insts s.
Proof.
  intros Hfresh G.
  destruct (enterFunction_spec func s Hfresh) as (Hf & Hfs & Hbs & His & _ & _ & Hn & _).
  cbv zeta in *. set (s0 := snd (enterFunction func s)) in *.
  set (F := next_id s) in *.
  destruct Hfresh as (Fr_f & Fr_b & Fr_i).
  destruct G as [Gf _ _ _ (nb & Gb & Gnb) (ni & Gi & Gni) _].
  assert (module_blocks s1 =
          (module_blocks s ++ (mkBasicBlock (S F) "entry" (Some F) :: nb))%list) as Hb1.
  { rewrite Gb, Hbs. now rewrite <- app_assoc. }
  assert (Forall (fun k => bb_parent k = Some F /\ (F < bb_id k)%nat)
                 (mkBasicBlock (S F) "entry" (Some F) :: nb)) as Hnew.
  { constructor; [simpl; split; [reflexivity|lia]|].
    eapply List.Forall_impl; [|exact Gnb]. simpl. intros k [Hp Hid]. split; [exact Hp|lia]. }
  assert (forall b, (b < F)%nat -> block_in F (module_blocks s1) (Some b) = false) as Hold.
  { intros b Hb. rewrite Hb1. apply block_in_old; [| |exact Hb].
    - eapply List.Forall_impl; [|exact Fr_b]. simpl. intros k [_ H]. exact H.
    - eapply List.Forall_impl; [|exact Hnew]. simpl. intros k [_ H]. exact H. }
  cbn [snd eraseFromParent module_functions module_blocks module_insts].
  split; [|split].
  - rewrite Gf, Hfs, List.filter_app, filter_all, Hf.
    + simpl. rewrite Nat.eqb_refl. simpl. apply app_nil_r.
    + eapply List.Forall_impl; [|exact Fr_f]. cbv beta. intros f' Hlt.
      destruct (Nat.eqb_spec (fn_id f') F); [lia | reflexivity].
  - match goal with |- List.filter ?q _ = _ => set (p := q) end.
    rewrite Hb1. subst p.
    rewrite List.filter_app, filter_all, filter_none; [apply app_nil_r| |].
    + rewrite List.Forall_forall. intros k Hk.
      rewrite List.Forall_forall in Hnew. destruct (Hnew k Hk) as [Hp _].
      rewrite block_in_own; [reflexivity| |exact Hp].
      rewrite Hb1. apply in_or_app. now right.
    + eapply List.Forall_impl; [|exact Fr_b]. cbv beta. intros k [Hlt _].
      now rewrite Hold.
  - rewrite Gi, His, List.filter_app, filter_all, filter_none; [apply app_nil_r| |].
    + eapply List.Forall_impl; [|exact Gni]. cbv beta. intros i (b & Hb & Ho).
      rewrite Hb, (owner_block_in _ _ _ Ho). reflexivity.
    + eapply List.Forall_impl; [|exact Fr_i]. cbv beta. intros i Hi.
      destruct (inst_block i) as [b|] eqn:E; [|reflexivity].
      now rewrite Hold by (apply Hi; reflexivity).
Qed.

Lemma fresh_ids_mono s n :
  fresh_ids s -> (next_id s <= n)%nat ->
  Forall (fun f => (fn_id f < n)%nat) (module_functions s) /\
  Forall (fun k => (bb_id k < n)%nat /\ forall p, bb_parent k = Some p -> (p < n)%nat)
         (module_blocks s) /\
  Forall (fun i => forall b, inst_block i = Some b -> (b < n)%nat) (module_insts s).
Proof.
  intros (Hf & Hb & Hi) Hn. repeat split.
  - eapply List.Forall_impl; [|exact Hf]. cbv beta. intros; lia.
  - eapply List.Forall_impl; [|exact Hb]. cbv beta. intros k [H1 H2]. split; [lia|].
    intros p Hp. specialize (H2 p Hp). lia.
  - eapply List.Forall_impl; [|exact Hi]. cbv beta. intros i H b Hb'.
    specialize (H b Hb'). lia.
Qed.

(** [generateFunction] on a state with fresh ids, by the outcome of the
    body. *)
Lemma generateFunction_spec (func : FunctionDef) (s : CodeGenerator.t) :
  fresh_ids s ->
  let s0 := snd (enterFunction func s) in
  let body := generateExpression (func_body func) s0 in
  let res := generateFunction func s in
  (fst body = None ->
   (exists nr, nr <> [] /\ reported (snd body) = (reported s0 ++ nr)%list) /\
   fst res = None /\
   module_functions (snd res) = module_functions s /\
   module_blocks (snd res) = module_blocks s /\
   module_insts (snd res) = module_insts s /\
   functions (snd res) = functions s /\
   (forall name, module_has_function (snd res) name = module_has_function s name)) /\
  (forall retVal, fst body = Some retVal ->
   reported (snd body) = reported s0 /\
   exists function,
     fst res = Some function /\
     fn_name function = func_name func /\
     module_functions (snd res) = (module_functions s ++ [function])%list /\
     module_insts (snd res) =
       (module_insts (snd body) ++ [placed (snd body) (CreateRet retVal)])%list /\
     functions (snd res) = <[func_name func := fn_id function]> (functions s)) /\
  fresh_ids (snd res).
Proof.
  intros Hfresh. cbv zeta.
  destruct (enterFunction_spec func s Hfresh)
    as (Hf & Hfs & Hbs & His & Hts & Hrs & Hn & Hin).
  cbv zeta in *.
  pose proof (generateExpression_step (func_body func) (next_id s) _ Hin) as [G I1].
  pose proof (generateExpression_told (func_body func) (snd (enterFunction func s))) as T.
  pose proof (eraseFromParent_restores func s _ Hfresh G) as R.
  unfold generateFunction, bind.
  destruct (enterFunction func s) as [function s0]. cbn [fst snd] in *.
  destruct (generateExpression (func_body func) s0) as [retVal s1].
  unfold outcome_told in T. cbn [fst snd] in *.
  destruct retVal as [retVal|].
  - (* the body has a value *)
    split; [intros [=]|]. split.
    + intros rv [= <-]. split; [exact T|].
      exists function. cbn [fst snd]. rewrite request_eq. cbn.
      destruct G as [Gf Gt _ _ _ _ _].
      repeat split.
      * now rewrite Hf.
      * now rewrite Gf, Hfs.
      * now rewrite Gt, Hts, Hf.
    + rewrite request_eq. cbn.
      destruct (inside_insert _ _ I1) as (b & Hb).
      destruct I1 as [Hids Hown].
      pose proof G as [Gf _ _ Gn (nb & Gb & Gnb) (ni & Gi & Gni) _].
      destruct (fresh_ids_mono s (S (next_id s1)) Hfresh ltac:(lia))
        as (Of & Ob & Oi).
      unfold fresh_ids; cbn. repeat split.
      * rewrite Gf, Hfs. apply Forall_app. split; [exact Of|].
        constructor; [rewrite Hf; simpl; lia | constructor].
      * rewrite Gb, Hbs. apply Forall_app. split; [apply Forall_app; split|].
        -- exact Ob.
        -- constructor; [|constructor]. simpl. split; [lia|]. intros p [= <-]. lia.
        -- eapply List.Forall_impl; [|exact Gnb]. cbv beta. intros k [Hp Hid].
           split; [lia|]. intros p Hp'. rewrite Hp in Hp'. injection Hp' as <-. lia.
      * rewrite Gi, His. apply Forall_app. split; [apply Forall_app; split|].
        -- exact Oi.
        -- eapply List.Forall_impl; [|exact Gni]. cbv beta.
           intros i (x & Hx & Ho) y Hy. rewrite Hx in Hy. injection Hy as <-.
           pose proof (owner_lt _ _ _ Hids Ho). lia.
        -- constructor; [|constructor]. unfold placed; simpl. intros y Hy.
           rewrite Hb in Hy. injection Hy as <-. rewrite Hb in Hown.
           pose proof (owner_lt _ _ _ Hids Hown). lia.
  - (* the body has no value *)
    assert (fn_id function = next_id s) as -> by (rewrite Hf; reflexivity).
    destruct R as (Rf & Rb & Ri).
    split; [|split; [intros rv [=]|]].
    + intros _. split; [exact T|]. split; [reflexivity|].
      cbn [snd eraseFromParent ret] in *.
      split; [exact Rf|]. split; [exact Rb|]. split; [exact Ri|].
      destruct G as [_ Gt _ _ _ _ _].
      split; [cbn; now rewrite Gt, Hts|].
      intros name. unfold module_has_function, getFunction. cbn [fst].
      cbn [module_functions] in Rf. now rewrite Rf.
    + cbn [snd eraseFromParent ret] in *.
      destruct G as [_ _ _ Gn _ _ _].
      destruct (fresh_ids_mono s (next_id s1) Hfresh ltac:(lia))
        as (Of & Ob & Oi).
      unfold fresh_ids. cbn [module_functions module_blocks module_insts next_id] in *.
      rewrite Rf, Rb, Ri. repeat split; assumption.
Qed.

End CodeGeneratorInvariants.

Module FunctionClaims.
Import IR CodeGenerator CodeGeneratorFacts CodeGeneratorInvariants Samples.

(** C6, as the code has it.  In a module whose ids are fresh, take a
    [FunctionDef] and the outcome of generating its body in the state
    [enterFunction] prepares.  The body has no value exactly when an error
    was reported inside it; then [generateFunction] returns nothing, and
    erasing the function gives back the function list, the blocks and the
    placed requests the module had before the definition, the function
    table is untouched, and the module holds a function under a name if
    and only if it did before (an earlier definition or a built-in of the
    same name stays).  The body has a value exactly when nothing was
    reported; then the function is in the module, a return of the body's
    value is the last request placed, and the function table maps the
    source name to the function. *)
Theorem function_erased_or_registered (func : FunctionDef) (s : CodeGenerator.t) :
  fresh_ids s ->
  let s0 := snd (enterFunction func s) in
  let body := generateExpression (func_body func) s0 in
  let res := generateFunction func s in
  (fst body = None ->
   (exists nr, nr <> [] /\ reported (snd body) = (reported s0 ++ nr)%list) /\
   fst res = None /\
   module_functions (snd res) = module_functions s /\
   module_blocks (snd res) = module_blocks s /\
   module_insts (snd res) = module_insts s /\
   functions (snd res) = functions s /\
   (forall name, module_has_function (snd res) name = module_has_function s name)) /\
  (forall retVal, fst body = Some retVal ->
   reported (snd body) = reported s0 /\
   exists function,
     fst res = Some function /\
     fn_name function = func_name func /\
     module_functions (snd res) = (module_functions s ++ [function])%list /\
     module_insts (snd res) =
       (module_insts (snd body) ++ [placed (snd body) (CreateRet retVal)])%list /\
     functions (snd res) = <[func_name func := fn_id function]> (functions s)) /\
  fresh_ids (snd res).
Proof. exact (generateFunction_spec func s). Qed.

Lemma function_erased_or_registered_witness :
  fresh_ids CodeGenerator.new /\
  fst (generateFunction bad_function CodeGenerator.new) = None /\
  module_functions (snd (generateFunction bad_function CodeGenerator.new)) =
    module_functions CodeGenerator.new /\
  module_has_function (snd (generateFunction bad_function CodeGenerator.new)) "bad"
    = false.
Proof.
  pose proof (function_erased_or_registered bad_function CodeGenerator.new
                fresh_ids_new) as (H & _ & _).
  destruct (H eq_refl) as (_ & Hn & Hf & _ & _ & _ & Hh).
  split; [exact fresh_ids_new|]. split; [exact Hn|]. split; [exact Hf|].
  rewrite Hh. reflexivity.
Defined.

(** C6 as stated fails: the body of [str_len_function] has no value and
    the function is erased, yet the module still holds a function named
    [str_len], the declaration of the built-in. *)
Lemma erased_function_name_still_in_module :
  let res := generateFunction str_len_function CodeGenerator.new in
  fst (generateExpression (func_body str_len_function)
         (snd (enterFunction str_len_function CodeGenerator.new))) = None /\
  fst res = None /\
  module_has_function (snd res) "str_len" = true.
Proof. vm_compute. repeat split. Qed.

End FunctionClaims.

(** ** The parser *)

Module ParserFacts.
Import Parser LexerFacts.

Lemma TokenType_eqb_sym a b : TokenType.eqb a b = TokenType.eqb b a.
Proof.
  destruct (TokenType.eqb b a) eqn:E.
  - apply TokenType_eqb_eq in E. subst. apply TokenType_eqb_refl.
  - apply TokenType_eqb_neq in E. apply TokenType_eqb_neq. congruence.
Qed.

Section ParserSteps.
Variable tokens : list Token.

#[local] Abbreviation peek := (Parser.peek tokens).
#[local] Abbreviation previous := (Parser.previous tokens).
#[local] Abbreviation isAtEnd := (Parser.isAtEnd tokens).
#[local] Abbreviation advance := (Parser.advance tokens).
#[local] Abbreviation check := (Parser.check tokens).
#[local] Abbreviation match_ := (Parser.match_ tokens).
#[local] Abbreviation fuel_at := (Parser.fuel_at tokens).
#[local] Abbreviation binary_loop := (Parser.binary_loop tokens).
#[local] Abbreviation binary_level := (Parser.binary_level tokens).

Lemma peek_at cur t : nth_error tokens cur = Some t -> peek cur = Ok t cur.
Proof. unfold Parser.peek. now intros ->. Qed.

Lemma previous_at cur t : nth_error tokens cur = Some t -> previous (S cur) = Ok t (S cur).
Proof. unfold Parser.previous. now intros ->. Qed.

Lemma isAtEnd_at cur t :
  nth_error tokens cur = Some t ->
  isAtEnd cur = Ok (TokenType.eqb (type t) TokenType.EOF_TOKEN) cur.
Proof. intros H. unfold Parser.isAtEnd, bind. now rewrite (peek_at _ _ H). Qed.

Lemma check_at ty cur t :
  nth_error tokens cur = Some t ->
  check ty cur =
  Ok (negb (TokenType.eqb (type t) TokenType.EOF_TOKEN) && TokenType.eqb (type t) ty) cur.
Proof.
  intros H. unfold Parser.check, bind. rewrite (isAtEnd_at _ _ H).
  destruct (TokenType.eqb (type t) TokenType.EOF_TOKEN); [reflexivity|].
  now rewrite (peek_at _ _ H).
Qed.

Lemma advance_at cur t :
  nth_error tokens cur = Some t -> type t <> TokenType.EOF_TOKEN ->
  advance cur = Ok t (S cur).
Proof.
  intros H Hne. unfold Parser.advance, bind. rewrite (isAtEnd_at _ _ H).
  apply TokenType_eqb_neq in Hne. rewrite Hne. cbn. now rewrite H.
Qed.

(** [match] consumes the token under the cursor when its kind is one of
    [types] and the cursor is not at the end. *)
Lemma match_at types cur t :
  nth_error tokens cur = Some t ->
  match_ types cur =
  if negb (TokenType.eqb (type t) TokenType.EOF_TOKEN) && mem (type t) types
  then Ok true (S cur) else Ok false cur.
Proof.
  intros H. induction types as [|ty types IH]; cbn [Parser.match_ mem existsb].
  - now rewrite andb_false_r.
  - unfold bind at 1. rewrite (check_at _ _ _ H).
    destruct (TokenType.eqb (type t) TokenType.EOF_TOKEN) eqn:E; cbn [negb andb].
    + rewrite IH. reflexivity.
    + rewrite (TokenType_eqb_sym (type t) ty).
      destruct (TokenType.eqb ty (type t)) eqn:E2; cbn [orb].
      * unfold bind. rewrite (advance_at _ _ H); [reflexivity|].
        now apply TokenType_eqb_neq.
      * rewrite IH. reflexivity.
Qed.

Lemma fuel_at_inside cur t :
  nth_error tokens cur = Some t -> fuel_at cur = S (fuel_at (S cur)).
Proof.
  intros H. unfold Parser.fuel_at.
  assert (cur < length tokens)%nat by (apply nth_error_Some; congruence). lia.
Qed.

(** One trip of the loop of a binary level, and its exit. *)
Lemma binary_loop_trip ops opType operand fuel expr cur t o right cur' :
  nth_error tokens cur = Some t ->
  type t <> TokenType.EOF_TOKEN -> mem (type t) ops = true ->
  opType (type t) = inr o ->
  operand (S cur) = Ok right cur' ->
  binary_loop ops opType operand (S fuel) expr cur =
  binary_loop ops opType operand fuel (BinaryOp o expr right (location t)) cur'.
Proof.
  intros H Hne Hm Ho Hop. cbn [Parser.binary_loop]. unfold bind at 1.
  rewrite (match_at _ _ _ H), Hm.
  apply TokenType_eqb_neq in Hne. rewrite Hne. cbn [negb andb].
  unfold bind at 1. rewrite (previous_at _ _ H).
  unfold bind at 1. rewrite Hop, Ho. reflexivity.
Qed.

Lemma binary_loop_exit ops opType operand fuel expr cur t :
  nth_error tokens cur = Some t -> mem (type t) ops = false ->
  binary_loop ops opType operand (S fuel) expr cur = Ok expr cur.
Proof.
  intros H Hm. cbn [Parser.binary_loop]. unfold bind at 1.
  rewrite (match_at _ _ _ H), Hm, andb_false_r. reflexivity.
Qed.

(** A level with one operator: [x op y], then a token that is not of the
    level. *)
Lemma binary_level_one ops opType operand i j k x y op next o :
  operand i = Ok x j ->
  nth_error tokens j = Some op ->
  type op <> TokenType.EOF_TOKEN -> mem (type op) ops = true ->
  opType (type op) = inr o ->
  operand (S j) = Ok y k ->
  nth_error tokens k = Some next -> mem (type next) ops = false ->
  binary_level ops opType operand i = Ok (BinaryOp o x y (location op)) k.
Proof.
  intros Hx Hop Hne Hm Ho Hy Hnext Hm'.
  unfold Parser.binary_level, bind. rewrite Hx.
  rewrite (fuel_at_inside _ _ Hop).
  rewrite (binary_loop_trip _ _ _ _ _ _ _ _ _ _ Hop Hne Hm Ho Hy).
  assert (fuel_at (S j) = S (length tokens - S j)) as -> by reflexivity.
  eapply binary_loop_exit; eassumption.
Qed.

(** A level without operator: [x], then a token that is not of the level. *)
Lemma binary_level_none ops opType operand i j x next :
  operand i = Ok x j ->
  nth_error tokens j = Some next -> mem (type next) ops = false ->
  binary_level ops opType operand i = Ok x j.
Proof.
  intros Hx Hnext Hm. unfold Parser.binary_level, bind. rewrite Hx.
  eapply binary_loop_exit; eassumption.
Qed.

Variable stof : string -> exception + float32.
Variable rec : M Expression.

#[local] Abbreviation parseUnary := (Parser.parseUnary tokens stof rec).
#[local] Abbreviation parseMultiplication := (Parser.parseMultiplication tokens stof rec).
#[local] Abbreviation parseAddition := (Parser.parseAddition tokens stof rec).
#[local] Abbreviation parseComparison := (Parser.parseComparison tokens stof rec).

(** A leading [-] makes a [UnaryOp] of the unary expression after it. *)
Lemma parseUnary_minus i j minus ea :
  nth_error tokens i = Some minus -> type minus = TokenType.MINUS ->
  parseUnary (S i) = Ok ea j ->
  parseUnary i = Ok (UnaryOp UnaryOp.NEG ea (location minus)) j.
Proof.
  intros Hm Hty Ha. unfold Parser.parseUnary in *.
  rewrite (fuel_at_inside _ _ Hm). cbn [Parser.parseUnary_fuel].
  unfold bind at 1. rewrite (match_at _ _ _ Hm), Hty. cbn [negb andb TokenType.eqb mem existsb orb].
  unfold bind at 1. rewrite (previous_at _ _ Hm).
  unfold bind. rewrite Ha. reflexivity.
Qed.

(** [x * y] (or [x / y]) followed by a token that is not [*] or [/]. *)
Lemma parseMultiplication_one i j k x y op next o :
  parseUnary i = Ok x j ->
  nth_error tokens j = Some op ->
  multiplication_opType (type op) = inr o ->
  mem (type op) multiplication_ops = true ->
  parseUnary (S j) = Ok y k ->
  nth_error tokens k = Some next -> mem (type next) multiplication_ops = false ->
  parseMultiplication i = Ok (BinaryOp o x y (location op)) k.
Proof.
  intros Hx Hop Ho Hm Hy Hn Hm'. unfold Parser.parseMultiplication.
  eapply binary_level_one; try eassumption.
  intros E. rewrite E in Hm. discriminate.
Qed.

End ParserSteps.

End ParserFacts.

Module ParserTactics.
Import Parser ParserFacts.

(** [- a op b] for an operator of each of the three levels. *)
Ltac additive_case Eop N2 N3 :=
  eapply binary_level_none; [|eassumption|exact N3];
  eapply binary_level_one; [| | | | | |eassumption|exact N2];
  [ eapply binary_level_none; [eassumption|eassumption|now rewrite Eop]
  | eassumption | rewrite Eop; discriminate | now rewrite Eop
  | now rewrite Eop
  | eapply binary_level_none; eassumption ].

Ltac multiplicative_case Eop N1 N2 N3 :=
  eapply binary_level_none; [|eassumption|exact N3];
  eapply binary_level_none; [|eassumption|exact N2];
  eapply binary_level_one; [| | | | | |eassumption|exact N1];
  [ eassumption | eassumption | rewrite Eop; discriminate
  | now rewrite Eop | now rewrite Eop | eassumption ].

Ltac comparison_case Eop N1 N2 N3 :=
  eapply binary_level_one; [| | | | | |eassumption|exact N3];
  [ eapply binary_level_none;
    [ eapply binary_level_none; [eassumption|eassumption|now rewrite Eop]
    | eassumption | now rewrite Eop ]
  | eassumption | rewrite Eop; discriminate | now rewrite Eop
  | now rewrite Eop
  | eapply binary_level_none; [|eassumption|exact N2];
    eapply binary_level_none; eassumption ].

End ParserTactics.

Module ParserClaims.
Import Parser ParserFacts ParserTactics Samples.

(** C3.  On every token vector, whatever nested expressions parse to:
    - [a + b * c]: for [a] parsed by [parseMultiplication], then a [+],
      then [b] and [c] parsed by [parseUnary] around a [*], then a token
      that is none of [+ - * /], [parseAddition] gives the ADD node whose
      right child is the MUL node of [b] and [c];
    - [a * b + c]: for [a] and [b] parsed by [parseUnary] around a [*],
      then a [+], then [c] parsed by [parseMultiplication], then a token
      that is not [+] or [-], [parseAddition] gives the ADD node whose left
      child is the MUL node of [a] and [b];
    - [- a op b]: for a [-], then [a] parsed by [parseUnary], then any
      of the ten binary operators, then [b] parsed by [parseUnary], then a
      token that is no binary operator, [parseComparison] gives the node of
      [op] whose left child is the negation of [a].
    Every node carries the location of its operator token. *)
Theorem precedence_of_operators
    (tokens : list Token) (stof : string -> exception + float32)
    (rec : M Expression) :
  (forall i j k l ea eb ec plus times next,
      parseMultiplication tokens stof rec i = Ok ea j ->
      nth_error tokens j = Some plus -> type plus = TokenType.PLUS ->
      parseUnary tokens stof rec (S j) = Ok eb k ->
      nth_error tokens k = Some times -> type times = TokenType.MULTIPLY ->
      parseUnary tokens stof rec (S k) = Ok ec l ->
      nth_error tokens l = Some next ->
      mem (type next) (multiplication_ops ++ addition_ops) = false ->
      parseAddition tokens stof rec i =
        Ok (BinaryOp BinaryOp.ADD ea
              (BinaryOp BinaryOp.MUL eb ec (location times)) (location plus)) l) /\
  (forall i j k l ea eb ec times plus next,
      parseUnary tokens stof rec i = Ok ea j ->
      nth_error tokens j = Some times -> type times = TokenType.MULTIPLY ->
      parseUnary tokens stof rec (S j) = Ok eb k ->
      nth_error tokens k = Some plus -> type plus = TokenType.PLUS ->
      parseMultiplication tokens stof rec (S k) = Ok ec l ->
      nth_error tokens l = Some next ->
      mem (type next) addition_ops = false ->
      parseAddition tokens stof rec i =
        Ok (BinaryOp BinaryOp.ADD
              (BinaryOp BinaryOp.MUL ea eb (location times)) ec (location plus)) l) /\
  (forall i j k ea eb minus op o next,
      nth_error tokens i = Some minus -> type minus = TokenType.MINUS ->
      parseUnary tokens stof rec (S i) = Ok ea j ->
      nth_error tokens j = Some op -> binary_operator_of (type op) = Some o ->
      parseUnary tokens stof rec (S j) = Ok eb k ->
      nth_error tokens k = Some next -> binary_operator_of (type next) = None ->
      parseComparison tokens stof rec i =
        Ok (BinaryOp o (UnaryOp UnaryOp.NEG ea (location minus)) eb (location op)) k).
Proof.
  split; [|split].
  - intros i j k l ea eb ec plus times next Ha Hp Hpt Hb Ht Htt Hc Hn Hm.
    unfold mem in Hm. rewrite existsb_app in Hm. apply orb_false_iff in Hm as [Hm1 Hm2].
    unfold Parser.parseAddition.
    eapply binary_level_one; try eassumption.
    + rewrite Hpt. discriminate.
    + now rewrite Hpt.
    + now rewrite Hpt.
    + eapply parseMultiplication_one; try eassumption; now rewrite Htt.
  - intros i j k l ea eb ec times plus next Ha Ht Htt Hb Hp Hpt Hc Hn Hm.
    unfold Parser.parseAddition.
    eapply binary_level_one; try eassumption.
    + eapply parseMultiplication_one; try eassumption; try now rewrite Htt.
      now rewrite Hpt.
    + rewrite Hpt. discriminate.
    + now rewrite Hpt.
    + now rewrite Hpt.
  - intros i j k ea eb minus op o next Hm Hmt Ha Hop Ho Hb Hn Hno.
    pose proof (parseUnary_minus tokens stof rec i j minus ea Hm Hmt Ha) as Hneg.
    assert (type op <> TokenType.EOF_TOKEN) as Hne
      by (intros E; rewrite E in Ho; discriminate).
    assert (mem (type next) multiplication_ops = false /\
            mem (type next) addition_ops = false /\
            mem (type next) comparison_ops = false) as (N1 & N2 & N3)
      by (destruct (type next); try discriminate Hno; repeat split; reflexivity).
    unfold Parser.parseComparison, Parser.parseAddition, Parser.parseMultiplication.
    destruct (type op) eqn:Eop; try discriminate Ho; injection Ho as <-.
    + additive_case Eop N2 N3.
    + additive_case Eop N2 N3.
    + multiplicative_case Eop N1 N2 N3.
    + multiplicative_case Eop N1 N2 N3.
    + comparison_case Eop N1 N2 N3.
    + comparison_case Eop N1 N2 N3.
    + comparison_case Eop N1 N2 N3.
    + comparison_case Eop N1 N2 N3.
    + comparison_case Eop N1 N2 N3.
    + comparison_case Eop N1 N2 N3.
Qed.


(** The three shapes on the sources [a + b * c], [a * b + c] and [-a * b]. *)
Lemma precedence_of_operators_witness :
  let add := "a + b * c" in
  let mul := "a * b + c" in
  let neg := "-a * b" in
  parseAddition (tokens_of add) no_stof (parseExpression (tokens_of add) no_stof) 0%nat =
    Ok (node BinaryOp.ADD (var "a" 1) (node BinaryOp.MUL (var "b" 5) (var "c" 9) 7) 3)
       5%nat /\
  parseAddition (tokens_of mul) no_stof (parseExpression (tokens_of mul) no_stof) 0%nat =
    Ok (node BinaryOp.ADD (node BinaryOp.MUL (var "a" 1) (var "b" 5) 3) (var "c" 9) 7)
       5%nat /\
  parseComparison (tokens_of neg) no_stof (parseExpression (tokens_of neg) no_stof) 0%nat =
    Ok (node BinaryOp.MUL
          (UnaryOp UnaryOp.NEG (var "a" 2) (mkLocation 1 1 "f.lge")) (var "b" 6) 4)
       4%nat.
Proof.
  intros add mul neg. split; [|split].
  - apply (proj1 (precedence_of_operators (tokens_of add) no_stof _)
             0 1 3 5 (var "a" 1) (var "b" 5) (var "c" 9)
             (mkToken TokenType.PLUS "+" (mkLocation 1 3 "f.lge"))
             (mkToken TokenType.MULTIPLY "*" (mkLocation 1 7 "f.lge"))
             (mkToken TokenType.EOF_TOKEN EmptyString (mkLocation 1 10 "f.lge")))%nat;
      vm_compute; reflexivity.
  - apply (proj1 (proj2 (precedence_of_operators (tokens_of mul) no_stof _))
             0 1 3 5 (var "a" 1) (var "b" 5) (var "c" 9)
             (mkToken TokenType.MULTIPLY "*" (mkLocation 1 3 "f.lge"))
             (mkToken TokenType.PLUS "+" (mkLocation 1 7 "f.lge"))
             (mkToken TokenType.EOF_TOKEN EmptyString (mkLocation 1 10 "f.lge")))%nat;
      vm_compute; reflexivity.
  - apply (proj2 (proj2 (precedence_of_operators (tokens_of neg) no_stof _))
             0 2 4 (var "a" 2) (var "b" 6)
             (mkToken TokenType.MINUS "-" (mkLocation 1 1 "f.lge"))
             (mkToken TokenType.MULTIPLY "*" (mkLocation 1 4 "f.lge"))
             BinaryOp.MUL
             (mkToken TokenType.EOF_TOKEN EmptyString (mkLocation 1 7 "f.lge")))%nat;
      vm_compute; reflexivity.
Defined.

(** The same sources through [parseExpression] itself. *)
Example parsed_precedence :
  parsed "a + b * c" =
    Ok (node BinaryOp.ADD (var "a" 1) (node BinaryOp.MUL (var "b" 5) (var "c" 9) 7) 3)
       5%nat /\
  parsed "a * b + c" =
    Ok (node BinaryOp.ADD (node BinaryOp.MUL (var "a" 1) (var "b" 5) 3) (var "c" 9) 7)
       5%nat /\
  parsed "-a * b" =
    Ok (node BinaryOp.MUL
          (UnaryOp UnaryOp.NEG (var "a" 2) (mkLocation 1 1 "f.lge")) (var "b" 6) 4)
       4%nat.
Proof. vm_compute. repeat split. Qed.

End ParserClaims.

(* ===================================================================== *)
(** ** The parser returns, and what it skips

    On a vector that ends with its only EOF_TOKEN every member function of
    the parser returns or throws with the cursor inside the vector: no
    loop of the model runs out of fuel and no read leaves the vector. *)
Module ParserSoundness.
Import Parser LexerFacts ParserFacts.
#[local] Open Scope nat_scope.

Section Soundness.
Variable tokens : list Token.
Variable stof : string -> exception + float32.
Hypothesis tokens_wf : Lexer.EOF_terminated tokens.

#[local] Abbreviation L := (length tokens).
#[local] Abbreviation span_ok := (Parser.span_ok tokens).
#[local] Abbreviation sound := (Parser.sound tokens).
#[local] Abbreviation sound_after := (Parser.sound_after tokens).

Lemma span_ok_refl c : span_ok c c.
Proof. intros n t H. lia. Qed.

Lemma span_ok_trans a b c : span_ok a b -> span_ok b c -> span_ok a c.
Proof.
  intros H1 H2 n t Hn Ht. destruct (Nat.lt_ge_cases n b).
  - apply (H1 n t); [lia | exact Ht].
  - apply (H2 n t); [lia | exact Ht].
Qed.

Lemma span_ok_one c t :
  nth_error tokens c = Some t -> converts t -> span_ok c (S c).
Proof.
  intros Ht Hc n t' Hn Ht'. assert (n = c) as -> by lia.
  rewrite Ht in Ht'. now injection Ht' as <-.
Qed.

Lemma token_at c : (c < L)%nat -> exists t, nth_error tokens c = Some t.
Proof.
  intros H. destruct (nth_error tokens c) as [t|] eqn:E; [eauto|].
  apply nth_error_None in E. lia.
Qed.

Lemma wf_not_EOF c t :
  nth_error tokens c = Some t -> type t <> TokenType.EOF_TOKEN -> (S c < L)%nat.
Proof.
  destruct tokens_wf as (body & eof & -> & He & Hb). intros Ht Hne.
  rewrite length_app. simpl.
  destruct (Nat.lt_ge_cases c (length body)); [lia|].
  rewrite nth_error_app2 in Ht by lia.
  destruct (c - length body)%nat as [|n] eqn:E; simpl in Ht.
  - injection Ht as <-. contradiction.
  - destruct n; discriminate.
Qed.

Lemma wf_EOF c t :
  nth_error tokens c = Some t -> type t = TokenType.EOF_TOKEN -> S c = L.
Proof.
  destruct tokens_wf as (body & eof & -> & He & Hb). intros Ht Hty.
  rewrite length_app. simpl.
  destruct (Nat.lt_ge_cases c (length body)) as [Hlt|Hge].
  - rewrite nth_error_app1 in Ht by lia.
    rewrite List.Forall_forall in Hb. apply nth_error_In in Ht.
    now apply Hb in Ht.
  - assert (c < length (body ++ [eof]))%nat by (apply nth_error_Some; congruence).
    rewrite length_app in H. simpl in H. lia.
Qed.

Lemma sound_ret {A} (a : A) c : (c < L)%nat -> sound (ret a) c.
Proof. intros H. unfold Parser.sound, ret. split; [lia | apply span_ok_refl]. Qed.

Lemma sound_throw {A} e c : (c < L)%nat -> sound (@throw A e) c.
Proof. intros H. unfold Parser.sound, throw. lia. Qed.

Lemma sound_bind {A B} (m : M A) (k : A -> M B) c :
  sound m c ->
  (forall a c', m c = Ok a c' -> (c <= c' < L)%nat -> sound (k a) c') ->
  sound (bind m k) c.
Proof.
  unfold Parser.sound at 1 3, bind. intros Hm Hk.
  destruct (m c) as [a c'|e c'| |] eqn:E; try contradiction; [|exact Hm].
  destruct Hm as [Hc Hs]. specialize (Hk a c' eq_refl Hc). unfold Parser.sound in Hk.
  destruct (k a c') as [b c''|e c''| |]; try contradiction.
  - destruct Hk as [Hc' Hs']. split; [lia|]. eapply span_ok_trans; eassumption.
  - lia.
Qed.

Lemma sound_check_bind {B} ty (k : bool -> M B) c :
  (c < L)%nat -> (forall b, sound (k b) c) -> sound (bind (check tokens ty) k) c.
Proof.
  intros Hc Hk. destruct (token_at c Hc) as (t & Ht).
  unfold Parser.sound, bind. rewrite (check_at _ _ _ _ Ht). apply Hk.
Qed.

Lemma sound_isAtEnd_bind {B} (k : bool -> M B) c :
  (c < L)%nat -> (forall b, sound (k b) c) -> sound (bind (isAtEnd tokens) k) c.
Proof.
  intros Hc Hk. destruct (token_at c Hc) as (t & Ht).
  unfold Parser.sound, bind. rewrite (isAtEnd_at _ _ _ Ht). apply Hk.
Qed.

Lemma sound_match_bind_after {B} types (k : bool -> M B) c :
  (c < L)%nat ->
  sound (k false) c ->
  (forall t, nth_error tokens c = Some t -> mem (type t) types = true ->
             (S c < L)%nat -> sound_after t (k true) (S c)) ->
  sound (bind (match_ tokens types) k) c.
Proof.
  intros Hc Hf Ht. destruct (token_at c Hc) as (t & Hn).
  unfold Parser.sound, bind. rewrite (match_at _ _ _ _ Hn).
  destruct (negb _ && _) eqn:E; [|exact Hf].
  apply andb_true_iff in E as [E1 E2]. apply negb_true_iff, TokenType_eqb_neq in E1.
  pose proof (wf_not_EOF c t Hn E1) as Hlt.
  specialize (Ht t Hn E2 Hlt). unfold Parser.sound_after in Ht.
  destruct (k true (S c)) as [b c'|e c'| |]; try contradiction.
  - destruct Ht as (H1 & H2 & H3). split; [lia|].
    eapply span_ok_trans; [eapply span_ok_one; eassumption | exact H2].
  - lia.
Qed.

Lemma mem_neq ty ty' types :
  mem ty types = true -> mem ty' types = false -> ty <> ty'.
Proof. intros H1 H2 ->. congruence. Qed.

Lemma sound_match_bind {B} types (k : bool -> M B) c :
  (c < L)%nat -> mem TokenType.INT_LITERAL types = false ->
  sound (k false) c ->
  (forall t, nth_error tokens c = Some t -> mem (type t) types = true ->
             (S c < L)%nat -> sound (k true) (S c)) ->
  sound (bind (match_ tokens types) k) c.
Proof.
  intros Hc Hm Hf Ht. apply sound_match_bind_after; [assumption|assumption|].
  intros t Hn Hmem Hlt. specialize (Ht t Hn Hmem Hlt).
  unfold Parser.sound in Ht. unfold Parser.sound_after.
  destruct (k true (S c)) as [b c'|e c'| |]; try contradiction; [|exact Ht].
  destruct Ht as [H1 H2]. repeat split; try assumption; try lia.
  intros E. exfalso. eapply mem_neq; eassumption.
Qed.

Lemma sound_consume_bind {B} ty msg (k : Token -> M B) c :
  (c < L)%nat -> ty <> TokenType.INT_LITERAL ->
  (forall t, nth_error tokens c = Some t -> type t = ty -> (S c < L)%nat ->
             sound (k t) (S c)) ->
  sound (bind (consume tokens ty msg) k) c.
Proof.
  intros Hc Hty Hk. destruct (token_at c Hc) as (t & Hn).
  unfold Parser.sound, bind, consume. unfold bind at 1. rewrite (check_at _ _ _ _ Hn).
  destruct (negb _ && _) eqn:E.
  - apply andb_true_iff in E as [E1 E2]. apply negb_true_iff, TokenType_eqb_neq in E1.
    apply TokenType_eqb_eq in E2.
    pose proof (wf_not_EOF c t Hn E1) as Hlt.
    rewrite (advance_at _ _ _ Hn E1).
    specialize (Hk t Hn E2 Hlt). unfold Parser.sound in Hk.
    destruct (k t (S c)) as [b c'|e c'| |]; try contradiction.
    + destruct Hk as [H1 H2]. split; [lia|].
      eapply span_ok_trans; [eapply span_ok_one; [eassumption|] | exact H2].
      intros E. congruence.
    + lia.
  - unfold bind. rewrite (peek_at _ _ _ Hn). unfold throw. lia.
Qed.

Lemma sound_consume ty msg c :
  (c < L)%nat -> ty <> TokenType.INT_LITERAL -> sound (consume tokens ty msg) c.
Proof.
  intros Hc Hty.
  pose proof (sound_consume_bind ty msg (fun t => ret t) c Hc Hty) as H.
  assert (bind (consume tokens ty msg) (fun t => ret t) c = consume tokens ty msg c) as E.
  { unfold bind, ret. destruct (consume tokens ty msg c); reflexivity. }
  unfold Parser.sound in *. rewrite <- E. apply H. intros t _ _ Hlt. now apply sound_ret.
Qed.

Lemma bind_previous {B} (k : Token -> M B) c t :
  nth_error tokens c = Some t -> bind (previous tokens) k (S c) = k t (S c).
Proof. intros H. unfold bind. now rewrite (previous_at _ _ _ H). Qed.


Lemma sound_previous_bind {B} (k : Token -> M B) c t :
  nth_error tokens c = Some t -> sound (k t) (S c) ->
  sound (bind (previous tokens) k) (S c).
Proof. intros H Hk. unfold Parser.sound. rewrite (bind_previous k c t H). exact Hk. Qed.

Lemma sound_after_previous_bind {B} t' (k : Token -> M B) c t :
  nth_error tokens c = Some t -> sound_after t' (k t) (S c) ->
  sound_after t' (bind (previous tokens) k) (S c).
Proof. intros H Hk. unfold Parser.sound_after. rewrite (bind_previous k c t H). exact Hk. Qed.

Lemma consume_bind_progress {B} ty msg (k : Token -> M B) c a c' :
  (c < L)%nat ->
  (forall t, nth_error tokens c = Some t -> type t = ty -> (S c < L)%nat ->
             sound (k t) (S c)) ->
  bind (consume tokens ty msg) k c = Ok a c' -> (c < c')%nat.
Proof.
  intros Hc Hk. destruct (token_at c Hc) as (t & Hn).
  unfold bind, consume. unfold bind at 1. rewrite (check_at _ _ _ _ Hn).
  destruct (negb _ && _) eqn:E.
  - apply andb_true_iff in E as [E1 E2]. apply negb_true_iff, TokenType_eqb_neq in E1.
    apply TokenType_eqb_eq in E2.
    pose proof (wf_not_EOF c t Hn E1) as Hlt.
    rewrite (advance_at _ _ _ Hn E1).
    specialize (Hk t Hn E2 Hlt). unfold Parser.sound in Hk.
    destruct (k t (S c)) as [b c1|e c1| |]; try contradiction; try discriminate.
    intros [= _ <-]. lia.
  - unfold bind. rewrite (peek_at _ _ _ Hn). unfold throw. discriminate.
Qed.

(** *** The expression grammar

    [rec] stands for the recursive call of [parseExpression]; it is only
    entered after a token has been taken, at a cursor beyond [p0]. *)
Section Below.
Variable rec : M Expression.
Variable p0 : nat.
Hypothesis Hrec : forall c, (p0 < c)%nat -> (c < L)%nat -> sound rec c.

Lemma parseCall_loop_sound fuel : forall args c,
  (p0 < c)%nat -> (c < L)%nat -> (L - c < fuel)%nat ->
  sound (parseCall_loop tokens rec fuel args) c.
Proof.
  induction fuel as [|fuel IH]; intros args c H0 Hc Hf; [lia|].
  cbn [parseCall_loop].
  apply sound_bind; [now apply Hrec|].
  intros arg c1 _ Hc1.
  apply sound_match_bind; [lia | reflexivity | apply sound_ret; lia |].
  intros t Hn Hm Hlt. apply IH; lia.
Qed.

Lemma parseCall_sound expr c :
  (p0 <= c)%nat -> (c < L)%nat -> sound (parseCall tokens rec expr) c.
Proof.
  intros H0 Hc. destruct expr; try (apply sound_throw; lia).
  cbn [parseCall].
  apply sound_consume_bind; [lia | discriminate |]. intros t Hn Hty Hlt.
  apply sound_check_bind; [lia|]. intros b.
  apply sound_bind.
  - destruct b; cbn [negb]; [apply sound_ret; lia|].
    change (sound (parseCall_loop tokens rec (fuel_at tokens (S c)) []) (S c)).
    apply parseCall_loop_sound; unfold fuel_at; lia.
  - intros args c1 _ Hc1.
    apply sound_consume_bind; [lia | discriminate |].
    intros. apply sound_ret; lia.
Qed.

Lemma parsePrimary_sound c :
  (p0 <= c)%nat -> (c < L)%nat -> sound (parsePrimary tokens stof rec) c.
Proof.
  intros H0 Hc. unfold parsePrimary.
  apply sound_match_bind; [lia | reflexivity | |].
  2: { intros t Hn _ Hlt. apply (sound_previous_bind _ c t Hn). apply sound_ret; lia. }
  apply sound_match_bind_after; [lia | |].
  2: { intros t Hn _ Hlt. apply (sound_after_previous_bind _ _ c t Hn).
       unfold Parser.sound_after. destruct (stoi (value t)) as [e|v] eqn:E.
       - unfold throw. lia.
       - unfold ret. repeat split; try lia; [apply span_ok_refl|].
         intros _. eauto. }
  apply sound_match_bind; [lia | reflexivity | |].
  2: { intros t Hn _ Hlt. apply (sound_previous_bind _ c t Hn).
       destruct (stof (value t)); [apply sound_throw | apply sound_ret]; lia. }
  apply sound_match_bind; [lia | reflexivity | |].
  2: { intros t Hn _ Hlt. apply (sound_previous_bind _ c t Hn). cbv zeta.
       apply sound_check_bind; [lia|].
       intros [|]; [apply parseCall_sound; lia | apply sound_ret; lia]. }
  apply sound_match_bind; [lia | reflexivity | |].
  2: { intros t Hn _ Hlt. apply sound_bind; [apply Hrec; lia|].
       intros e c1 _ Hc1. apply sound_consume_bind; [lia | discriminate |].
       intros. apply sound_ret; lia. }
  apply sound_throw; lia.
Qed.

Lemma parseUnary_fuel_sound fuel : forall c,
  (p0 <= c)%nat -> (c < L)%nat -> (L - c < fuel)%nat ->
  sound (parseUnary_fuel tokens stof rec fuel) c.
Proof.
  induction fuel as [|fuel IH]; intros c H0 Hc Hf; [lia|].
  cbn [parseUnary_fuel].
  apply sound_match_bind; [lia | reflexivity | apply parsePrimary_sound; lia |].
  intros t Hn _ Hlt. apply (sound_previous_bind _ c t Hn).
  apply sound_bind; [apply IH; lia|]. intros. apply sound_ret; lia.
Qed.

Lemma parseUnary_sound c :
  (p0 <= c)%nat -> (c < L)%nat -> sound (parseUnary tokens stof rec) c.
Proof.
  intros H0 Hc.
  change (sound (parseUnary_fuel tokens stof rec (fuel_at tokens c)) c).
  apply parseUnary_fuel_sound; unfold fuel_at; lia.
Qed.

Lemma binary_loop_sound ops opType operand :
  mem TokenType.INT_LITERAL ops = false ->
  (forall c, (p0 <= c)%nat -> (c < L)%nat -> sound operand c) ->
  forall fuel expr c,
    (p0 <= c)%nat -> (c < L)%nat -> (L - c < fuel)%nat ->
    sound (binary_loop tokens ops opType operand fuel expr) c.
Proof.
  intros Hops Hop. induction fuel as [|fuel IH]; intros expr c H0 Hc Hf; [lia|].
  cbn [binary_loop].
  apply sound_match_bind; [lia | assumption | apply sound_ret; lia |].
  intros t Hn _ Hlt. apply (sound_previous_bind _ c t Hn).
  apply sound_bind; [apply Hop; lia|]. intros right c1 _ Hc1.
  destruct (opType (type t)); [apply sound_throw; lia | apply IH; lia].
Qed.

Lemma binary_level_sound ops opType operand :
  mem TokenType.INT_LITERAL ops = false ->
  (forall c, (p0 <= c)%nat -> (c < L)%nat -> sound operand c) ->
  forall c, (p0 <= c)%nat -> (c < L)%nat ->
    sound (binary_level tokens ops opType operand) c.
Proof.
  intros Hops Hop c H0 Hc. unfold binary_level.
  apply sound_bind; [apply Hop; lia|]. intros expr c1 _ Hc1.
  change (sound (binary_loop tokens ops opType operand (fuel_at tokens c1) expr) c1).
  apply binary_loop_sound; try assumption; unfold fuel_at; lia.
Qed.

Lemma parseMultiplication_sound c :
  (p0 <= c)%nat -> (c < L)%nat -> sound (parseMultiplication tokens stof rec) c.
Proof. apply binary_level_sound; [reflexivity | apply parseUnary_sound]. Qed.

Lemma parseAddition_sound c :
  (p0 <= c)%nat -> (c < L)%nat -> sound (parseAddition tokens stof rec) c.
Proof. apply binary_level_sound; [reflexivity | apply parseMultiplication_sound]. Qed.

Lemma parseComparison_sound c :
  (p0 <= c)%nat -> (c < L)%nat -> sound (parseComparison tokens stof rec) c.
Proof. apply binary_level_sound; [reflexivity | apply parseAddition_sound]. Qed.

Lemma parseConditional_sound c :
  (p0 <= c)%nat -> (c < L)%nat -> sound (parseConditional tokens stof rec) c.
Proof.
  intros H0 Hc. unfold parseConditional.
  apply sound_bind; [apply parseComparison_sound; lia|]. intros condition c1 _ Hc1.
  apply sound_consume_bind; [lia | discriminate |]. intros t1 _ _ Hlt1.
  apply sound_bind; [apply Hrec; lia|]. intros thenExpr c2 _ Hc2.
  apply sound_consume_bind; [lia | discriminate |]. intros t2 _ _ Hlt2.
  apply sound_bind; [apply Hrec; lia|]. intros elseExpr c3 _ Hc3.
  apply sound_ret; lia.
Qed.

Lemma parseExpression_body_sound c :
  (p0 <= c)%nat -> (c < L)%nat -> sound (parseExpression_body tokens stof rec) c.
Proof.
  intros H0 Hc. unfold parseExpression_body.
  apply sound_match_bind; [lia | reflexivity | apply parseComparison_sound; lia |].
  intros t Hn _ Hlt. apply parseConditional_sound; lia.
Qed.

End Below.

Lemma parseExpression_fuel_sound fuel : forall c,
  (c < L)%nat -> (L - c < fuel)%nat -> sound (parseExpression_fuel tokens stof fuel) c.
Proof.
  induction fuel as [|fuel IH]; intros c Hc Hf; [lia|].
  cbn [parseExpression_fuel].
  apply (parseExpression_body_sound _ c); [|lia|lia].
  intros c' H1 H2. apply IH; lia.
Qed.

Lemma parseExpression_sound c :
  (c < L)%nat -> sound (parseExpression tokens stof) c.
Proof.
  intros Hc. change (sound (parseExpression_fuel tokens stof (fuel_at tokens c)) c).
  apply parseExpression_fuel_sound; unfold fuel_at; lia.
Qed.

(** *** Function definitions *)

Lemma parseType_sound c : (1 <= c)%nat -> (c < L)%nat -> sound (parseType tokens) c.
Proof.
  intros H1 Hc. destruct (token_at c Hc) as (t & Hn).
  unfold Parser.sound, parseType. unfold bind at 1.
  destruct (TokenType.eqb (type t) TokenType.EOF_TOKEN) eqn:E.
  - destruct c as [|c0]; [lia|].
    destruct (token_at c0 ltac:(lia)) as (t0 & Hn0).
    unfold advance, bind. rewrite (isAtEnd_at _ _ _ Hn), E. cbn.
    rewrite Hn0.
    destruct (type t0); cbn; try lia; (split; [lia | apply span_ok_refl]).
  - apply TokenType_eqb_neq in E.
    pose proof (wf_not_EOF c t Hn E) as Hlt.
    rewrite (advance_at _ _ _ Hn E).
    destruct (type t) eqn:Ety; cbn; try lia;
      (split; [lia | eapply span_ok_one; [eassumption | intros H; congruence]]).
Qed.

Lemma parseParameters_loop_sound fuel : forall params c,
  (c < L)%nat -> (L - c < fuel)%nat ->
  sound (parseParameters_loop tokens fuel params) c.
Proof.
  induction fuel as [|fuel IH]; intros params c Hc Hf; [lia|].
  cbn [parseParameters_loop].
  apply sound_consume_bind; [lia | discriminate |]. intros t1 _ _ Hlt1.
  apply sound_consume_bind; [lia | discriminate |]. intros t2 _ _ Hlt2.
  apply sound_bind; [apply parseType_sound; lia|]. intros ty c1 _ Hc1. cbv zeta.
  apply sound_match_bind; [lia | reflexivity | apply sound_ret; lia |].
  intros t Hn _ Hlt. apply IH; lia.
Qed.

Lemma parseParameters_sound c : (c < L)%nat -> sound (parseParameters tokens) c.
Proof.
  intros Hc. unfold parseParameters.
  apply sound_check_bind; [lia|]. intros [|]; [apply sound_ret; lia|].
  change (sound (parseParameters_loop tokens (fuel_at tokens c) []) c).
  apply parseParameters_loop_sound; unfold fuel_at; lia.
Qed.

Lemma parseFunction_rest_sound c nameToken :
  (S c < L)%nat ->
  sound
    (bind (consume tokens TokenType.COLON "Expected ':' after function name") (fun _ =>
     bind (parseType tokens) (fun returnType =>
     bind (consume tokens TokenType.EQUALS "Expected '=' after return type") (fun _ =>
     bind (consume tokens TokenType.LPAREN "Expected '(' for function parameters") (fun _ =>
     bind (parseParameters tokens) (fun parameters =>
     bind (consume tokens TokenType.RPAREN "Expected ')' after function parameters") (fun _ =>
     bind (consume tokens TokenType.ARROW "Expected '->' after parameters") (fun _ =>
     bind (parseExpression tokens stof) (fun body =>
     ret (mkFunctionDef (value nameToken) returnType parameters body
            (location nameToken)))))))))))
    (S c).
Proof.
  intros Hlt.
  apply sound_consume_bind; [lia | discriminate |]. intros t1 _ _ Hlt1.
  apply sound_bind; [apply parseType_sound; lia|]. intros ty c1 _ Hc1.
  apply sound_consume_bind; [lia | discriminate |]. intros t2 _ _ Hlt2.
  apply sound_consume_bind; [lia | discriminate |]. intros t3 _ _ Hlt3.
  apply sound_bind; [apply parseParameters_sound; lia|]. intros ps c2 _ Hc2.
  apply sound_consume_bind; [lia | discriminate |]. intros t4 _ _ Hlt4.
  apply sound_consume_bind; [lia | discriminate |]. intros t5 _ _ Hlt5.
  apply sound_bind; [apply parseExpression_sound; lia|]. intros body c3 _ Hc3.
  apply sound_ret; lia.
Qed.

Lemma parseFunction_after_let c t :
  nth_error tokens c = Some t -> type t = TokenType.LET -> (S c < L)%nat ->
  sound
    (bind (consume tokens TokenType.IDENTIFIER "Expected function name after 'let'")
       (fun nameToken =>
     bind (consume tokens TokenType.COLON "Expected ':' after function name") (fun _ =>
     bind (parseType tokens) (fun returnType =>
     bind (consume tokens TokenType.EQUALS "Expected '=' after return type") (fun _ =>
     bind (consume tokens TokenType.LPAREN "Expected '(' for function parameters") (fun _ =>
     bind (parseParameters tokens) (fun parameters =>
     bind (consume tokens TokenType.RPAREN "Expected ')' after function parameters") (fun _ =>
     bind (consume tokens TokenType.ARROW "Expected '->' after parameters") (fun _ =>
     bind (parseExpression tokens stof) (fun body =>
     ret (mkFunctionDef (value nameToken) returnType parameters body
            (location nameToken))))))))))))
    (S c).
Proof.
  intros _ _ Hlt.
  apply sound_consume_bind; [lia | discriminate |]. intros nameToken _ _ Hlt0.
  apply (parseFunction_rest_sound (S c) nameToken Hlt0).
Qed.

Lemma parseFunction_sound c : (c < L)%nat -> sound (parseFunction tokens stof) c.
Proof.
  intros Hc. unfold parseFunction. cbv zeta.
  apply sound_consume_bind; [lia | discriminate |]. apply parseFunction_after_let.
Qed.

(** A function definition that is returned has taken its [let]. *)
Lemma parseFunction_progress c func c' :
  (c < L)%nat -> parseFunction tokens stof c = Ok func c' -> (c < c')%nat.
Proof.
  intros Hc. unfold parseFunction. cbv zeta.
  apply consume_bind_progress; [lia|]. apply parseFunction_after_let.
Qed.

(** *** Resynchronisation and the top-level loop *)

Lemma synchronize_loop_spec fuel : forall c,
  (1 <= c)%nat -> (c < L)%nat -> (L - c < fuel)%nat ->
  exists c', synchronize_loop tokens fuel c = Ok tt c' /\ (c <= c' < L)%nat.
Proof.
  induction fuel as [|fuel IH]; intros c H1 Hc Hf; [lia|].
  cbn [synchronize_loop]. destruct (token_at c Hc) as (t & Hn).
  unfold bind at 1. rewrite (isAtEnd_at _ _ _ Hn).
  destruct (TokenType.eqb (type t) TokenType.EOF_TOKEN) eqn:E.
  - exists c. split; [reflexivity | lia].
  - destruct c as [|c0]; [lia|].
    destruct (token_at c0 ltac:(lia)) as (t0 & Hn0).
    unfold bind at 1. rewrite (previous_at _ _ _ Hn0).
    destruct (TokenType.eqb (type t0) TokenType.NEWLINE).
    { exists (S c0). split; [reflexivity | lia]. }
    unfold bind at 1. rewrite (peek_at _ _ _ Hn).
    destruct (TokenType.eqb (type t) TokenType.LET).
    { exists (S c0). split; [reflexivity | lia]. }
    apply TokenType_eqb_neq in E.
    pose proof (wf_not_EOF _ t Hn E) as Hlt.
    unfold bind at 1. rewrite (advance_at _ _ _ Hn E).
    destruct (IH (S (S c0))) as (c' & Hs & Hc'); [lia | lia | lia |].
    exists c'. split; [exact Hs | lia].
Qed.

Lemma synchronize_spec c t :
  nth_error tokens c = Some t ->
  (type t = TokenType.EOF_TOKEN -> (1 <= c)%nat) ->
  exists c', synchronize tokens c = Ok tt c' /\ (c <= c' < L)%nat /\
             (type t <> TokenType.EOF_TOKEN -> (c < c')%nat).
Proof.
  intros Hn H1.
  assert (c < L)%nat as Hc by (apply nth_error_Some; congruence).
  unfold synchronize. unfold bind at 1.
  destruct (TokenType.eqb (type t) TokenType.EOF_TOKEN) eqn:E.
  - assert (type t = TokenType.EOF_TOKEN) as Ety by now apply TokenType_eqb_eq.
    specialize (H1 Ety).
    destruct c as [|c0]; [lia|].
    destruct (token_at c0 ltac:(lia)) as (t0 & Hn0).
    unfold advance, bind. rewrite (isAtEnd_at _ _ _ Hn), E. cbn. rewrite Hn0.
    destruct (synchronize_loop_spec (fuel_at tokens (S c0)) (S c0)) as (c' & Hs & Hc');
      [lia | lia | unfold fuel_at; lia |].
    exists c'. split; [exact Hs|]. split; [lia|]. congruence.
  - apply TokenType_eqb_neq in E.
    pose proof (wf_not_EOF _ t Hn E) as Hlt.
    rewrite (advance_at _ _ _ Hn E).
    destruct (synchronize_loop_spec (fuel_at tokens (S c)) (S c)) as (c' & Hs & Hc');
      [lia | lia | unfold fuel_at; lia |].
    exists c'. split; [exact Hs|]. split; lia.
Qed.

Lemma skip_comments_spec fuel : forall c,
  (c < L)%nat -> (L - c < fuel)%nat ->
  exists c', skip_comments tokens fuel c = Ok tt c' /\ (c <= c' < L)%nat /\ span_ok c c'.
Proof.
  induction fuel as [|fuel IH]; intros c Hc Hf; [lia|].
  cbn [skip_comments]. destruct (token_at c Hc) as (t & Hn).
  unfold bind. rewrite (match_at _ _ _ _ Hn).
  destruct (negb _ && _) eqn:E.
  - apply andb_true_iff in E as [E1 E2]. apply negb_true_iff, TokenType_eqb_neq in E1.
    pose proof (wf_not_EOF _ t Hn E1) as Hlt.
    destruct (IH (S c)) as (c' & Hs & Hc' & Hsp); [lia | lia |].
    exists c'. split; [exact Hs|]. split; [lia|].
    eapply span_ok_trans; [eapply span_ok_one; [eassumption|] | exact Hsp].
    intros Hty. rewrite Hty in E2. discriminate.
  - exists c. split; [reflexivity|]. split; [lia | apply span_ok_refl].
Qed.

(** The loop of [parse] returns at the EOF_TOKEN; either it has recorded
    an error, or every INT_LITERAL from the cursor on converts. *)
Lemma parse_loop_spec fuel : forall funcs errs c,
  (c < L)%nat -> (L - c < fuel)%nat ->
  exists fs more c',
    parse_loop tokens stof fuel funcs errs c = Ok (fs, (errs ++ more)%list) c' /\
    (c' < L)%nat /\ (more = [] -> span_ok c c' /\ S c' = L).
Proof.
  induction fuel as [|fuel IH]; intros funcs errs c Hc Hf; [lia|].
  cbn [parse_loop]. destruct (token_at c Hc) as (t & Hn).
  unfold bind at 1. rewrite (isAtEnd_at _ _ _ Hn).
  destruct (TokenType.eqb (type t) TokenType.EOF_TOKEN) eqn:E.
  { apply TokenType_eqb_eq in E. exists funcs, [], c. rewrite app_nil_r.
    split; [reflexivity|]. split; [lia|]. intros _.
    split; [apply span_ok_refl | now apply (wf_EOF c t)]. }
  destruct (skip_comments_spec (fuel_at tokens c) c) as (c1 & Hs & Hc1 & Hsp1);
    [lia | unfold fuel_at; lia |].
  unfold bind at 1. rewrite Hs.
  destruct (token_at c1 ltac:(lia)) as (t1 & Hn1).
  unfold bind at 1. rewrite (isAtEnd_at _ _ _ Hn1).
  destruct (TokenType.eqb (type t1) TokenType.EOF_TOKEN) eqn:E1.
  { apply TokenType_eqb_eq in E1. exists funcs, [], c1. rewrite app_nil_r.
    split; [reflexivity|]. split; [lia|]. intros _.
    split; [exact Hsp1 | now apply (wf_EOF c1 t1)]. }
  apply TokenType_eqb_neq in E1.
  pose proof (parseFunction_sound c1 ltac:(lia)) as Hf1.
  pose proof (parseFunction_progress c1) as Hp1.
  unfold Parser.sound in Hf1.
  destruct (parseFunction tokens stof c1) as [func c2|e c2| |]; try contradiction.
  - destruct Hf1 as [Hc2 Hsp2]. specialize (Hp1 func c2 ltac:(lia) eq_refl).
    destruct (IH (funcs ++ [func])%list errs c2) as (fs & more & c' & Hl & Hc' & Hm);
      [lia | lia |].
    exists fs, more, c'. split; [exact Hl|]. split; [exact Hc'|].
    intros Hnil. destruct (Hm Hnil) as [Hsp3 Hend]. split; [|exact Hend].
    eapply span_ok_trans; [exact Hsp1|]. eapply span_ok_trans; eassumption.
  - destruct (token_at c2 ltac:(lia)) as (t2 & Hn2).
    destruct (synchronize_spec c2 t2 Hn2) as (c3 & Hsy & Hc3 & Hmove).
    { intros Ht2. destruct (Nat.eq_dec c2 c1) as [->|]; [|lia].
      rewrite Hn1 in Hn2. injection Hn2 as <-. contradiction. }
    assert (c < c3)%nat as Hlt.
    { destruct (Nat.eq_dec c2 c1) as [->|]; [|lia].
      rewrite Hn1 in Hn2. injection Hn2 as <-. specialize (Hmove E1). lia. }
    unfold bind. rewrite Hsy.
    destruct (IH funcs (errs ++ [what e])%list c3) as (fs & more & c' & Hl & Hc' & Hm);
      [lia | lia |].
    exists fs, ([what e] ++ more)%list, c'. rewrite app_assoc.
    split; [exact Hl|]. split; [exact Hc'|]. discriminate.
Qed.

(** An INT_LITERAL that [std::stoi] rejects leaves an error behind. *)
Lemma parse_loop_reports t e :
  In t tokens -> type t = TokenType.INT_LITERAL -> stoi (value t) = inl e ->
  exists fs errs c',
    parse_loop tokens stof (fuel_at tokens 0) [] [] 0 = Ok (fs, errs) c' /\ errs <> [].
Proof.
  intros Hin Hty Hst. apply In_nth_error in Hin as (n & Hn).
  assert (0 < L)%nat as HL.
  { destruct tokens_wf as (body & eof & -> & _). rewrite length_app. simpl. lia. }
  destruct (parse_loop_spec (fuel_at tokens 0) [] [] 0) as (fs & more & c' & Hl & Hc' & Hm);
    [lia | unfold fuel_at; lia |].
  exists fs, more, c'. split; [exact Hl|]. intros Hnil.
  destruct (Hm Hnil) as [Hsp Hend].
  assert (S n < L)%nat as Hlt.
  { apply (wf_not_EOF n t Hn). rewrite Hty. discriminate. }
  destruct (Hsp n t ltac:(lia) Hn Hty) as (v & Hv). congruence.
Qed.

End Soundness.

Lemma parse_reports stof toks t e :
  Lexer.EOF_terminated toks ->
  In t toks -> type t = TokenType.INT_LITERAL -> stoi (value t) = inl e ->
  exists program errs c,
    Parser.parse stof (Parser.mk toks 0 []) = Ok (program, Parser.mk toks c errs) c /\
    errs <> [].
Proof.
  intros Hwf Hin Hty Hst.
  destruct (parse_loop_reports toks stof Hwf t e Hin Hty Hst) as (fs & errs & c & Hl & Hne).
  unfold Parser.parse. cbn [Parser.tokens Parser.current Parser.errors].
  rewrite Hl. eauto.
Qed.

End ParserSoundness.

Module LiteralClaims.
Import Parser LexerFacts ParserFacts ParserSoundness Main MainFacts Samples.

Lemma digits_value_first s v :
  digits_value s None = Some v ->
  exists c rest, s = String c rest /\ Lexer.isdigit c = true.
Proof.
  destruct s as [|c rest]; [discriminate|]. cbn [digits_value].
  destruct (Lexer.isdigit c) eqn:E; [|discriminate]. eauto.
Qed.

(** [std::stoi] on a string that starts with a digit: no white space to
    skip and no sign. *)
Lemma stoi_digits c rest :
  Lexer.isdigit c = true ->
  stoi (String c rest) =
  match digits_value (String c rest) None with
  | Some v =>
      if (v <? INT_MIN) || (INT_MAX <? v) then inl (out_of_range "stoi") else inr v
  | None => inl (invalid_argument "stoi")
  end.
Proof.
  destruct c as [[] [] [] [] [] [] [] []]; try discriminate; reflexivity.
Qed.

(** [std::stoi] on a run of digits beyond [INT_MAX]. *)
Lemma stoi_beyond_INT_MAX s v :
  digits_value s None = Some v -> INT_MAX < v -> stoi s = inl (out_of_range "stoi").
Proof.
  intros Hd Hv. destruct (digits_value_first s v Hd) as (c & rest & -> & Hc).
  rewrite (stoi_digits c rest Hc), Hd.
  apply Z.ltb_lt in Hv. rewrite Hv, orb_true_r. reflexivity.
Qed.

(** [parsePrimary] with the cursor on an INT_LITERAL that [std::stoi]
    rejects throws what [std::stoi] threw, the token taken. *)
Lemma parsePrimary_rejects tokens stof rec c t e :
  nth_error tokens c = Some t -> type t = TokenType.INT_LITERAL ->
  stoi (value t) = inl e ->
  parsePrimary tokens stof rec c = Throw e (S c).
Proof.
  intros Hn Hty Hst. unfold parsePrimary.
  unfold bind at 1. rewrite (match_at _ _ _ _ Hn), Hty. cbn [negb andb TokenType.eqb mem existsb orb].
  unfold bind at 1. rewrite (match_at _ _ _ _ Hn), Hty. cbn [negb andb TokenType.eqb mem existsb orb].
  unfold bind. rewrite (previous_at _ _ _ Hn), Hst. reflexivity.
Qed.

Ltac entered_before_codegen :=
  let s := fresh "s" in
  let Hin := fresh "Hin" in
  intros s Hin; unfold entered in Hin; simpl in Hin;
  repeat (destruct Hin as [Hin|Hin];
          [try discriminate; try (injection Hin as <-; reflexivity)|]);
  contradiction.

Ltac stopped_by E :=
  split; [reflexivity|]; split; [entered_before_codegen|];
  let H := fresh "H" in intros H; rewrite H in E; discriminate E.

(** Without [--dump-tokens], a source with an INT_LITERAL that [std::stoi]
    rejects ends the process with status 1 before code generation, and
    with a parse error on [stderr] when no step is cut short. *)
Lemma rejected_literal_exits_1 env opts src t e :
  dumpTokens opts = false ->
  read_file env (inputFile opts) = Some src ->
  In t (fst (Lexer.tokenize (Lexer.new src (inputFile opts)))) ->
  type t = TokenType.INT_LITERAL -> stoi (value t) = inl e ->
  status (main env opts) = Exit 1 /\
  (forall s, entered s (main env opts) -> codegen_stage s = false) /\
  ((forall s, fault env s = None) ->
   exists errs, errs <> [] /\
                In (Wrote (Stderr_parse_errors errs)) (events (main env opts))).
Proof.
  intros Hdump Hread Hin Hty Hst.
  pose proof (tokenize_EOF_terminated _ (new_in_bounds src (inputFile opts))) as Hwf.
  unfold main, enter, catch.
  destruct (fault env LexerCtor) eqn:E1; [stopped_by E1|].
  unfold Lexer_open. rewrite Hread, Hdump.
  destruct (fault env ParserCtor) eqn:E2; [stopped_by E2|].
  unfold Parser.new.
  destruct (Lexer.tokenize (Lexer.new src (inputFile opts))) as [toks lexer].
  cbn [fst] in Hin, Hwf.
  unfold parse_part, enter, catch.
  destruct (fault env ParserParse) eqn:E3; [stopped_by E3|].
  destruct (parse_reports (stof env) toks t e Hwf Hin Hty Hst)
    as (program & errs & c & -> & Hne).
  unfold Parser.hasErrors. cbn [Parser.errors].
  destruct errs as [|err errs]; [contradiction|].
  split; [reflexivity|]. split; [entered_before_codegen|].
  intros _. exists (err :: errs). split; [discriminate|].
  cbn [events]. apply in_or_app. right. left. reflexivity.
Qed.

(** C10, as the code has it.  Take a source file with an INT_LITERAL token
    whose decimal value is beyond [INT_MAX], compiled without
    [--dump-tokens].  Whenever [parsePrimary] is entered with the cursor on
    that token, [std::stoi] throws [std::out_of_range] and [parsePrimary]
    lets it through.  The process does not crash: it exits with status 1,
    no step of code generation is entered, and, when no step is cut short
    by an exception of its own, a non-empty list of parse errors is
    written to [stderr]. *)
Theorem out_of_range_literal_exits_1
    (env : Env) (opts : Options) (src : string) (t : Token) (v : Z) :
  dumpTokens opts = false ->
  read_file env (inputFile opts) = Some src ->
  In t (fst (Lexer.tokenize (Lexer.new src (inputFile opts)))) ->
  type t = TokenType.INT_LITERAL ->
  digits_value (value t) None = Some v -> INT_MAX < v ->
  (forall tokens rec c,
      nth_error tokens c = Some t ->
      parsePrimary tokens (stof env) rec c = Throw (out_of_range "stoi") (S c)) /\
  status (main env opts) = Exit 1 /\
  (forall s, entered s (main env opts) -> codegen_stage s = false) /\
  ((forall s, fault env s = None) ->
   exists errs, errs <> [] /\
                In (Wrote (Stderr_parse_errors errs)) (events (main env opts))).
Proof.
  intros Hdump Hread Hin Hty Hd Hv.
  pose proof (stoi_beyond_INT_MAX (value t) v Hd Hv) as Hst.
  split.
  - intros tokens rec c Hn.
    exact (parsePrimary_rejects tokens (stof env) rec c t _ Hn Hty Hst).
  - exact (rejected_literal_exits_1 env opts src t _ Hdump Hread Hin Hty Hst).
Qed.

(** The source [let f: int = () -> 9999999999]. *)
Lemma out_of_range_literal_exits_1_witness :
  status (main (file_with big_literal) (plain "f.lge")) = Exit 1 /\
  (forall s, entered s (main (file_with big_literal) (plain "f.lge")) ->
             codegen_stage s = false) /\
  exists errs, errs <> [] /\
               In (Wrote (Stderr_parse_errors errs))
                  (events (main (file_with big_literal) (plain "f.lge"))).
Proof.
  destruct (out_of_range_literal_exits_1
              (file_with big_literal) (plain "f.lge") big_literal
              (mkToken TokenType.INT_LITERAL "9999999999" (mkLocation 1 20 "f.lge"))
              9999999999) as (_ & Hs & He & Hr).
  - reflexivity.
  - reflexivity.
  - vm_compute. do 8 right. left. reflexivity.
  - reflexivity.
  - reflexivity.
  - reflexivity.
  - split; [exact Hs|]. split; [exact He|]. apply Hr. reflexivity.
Defined.

(** C10 as stated fails: in [let f: int = () -> * 9999999999] the [*]
    makes [parsePrimary] throw [Expected expression] first; the loop of
    [parse] records that error and [synchronize] runs over the literal to
    the end of the file, so [std::stoi] is never called on it and its
    exception is not among the parse errors. *)
Lemma out_of_range_literal_skipped :
  let run := main (file_with literal_after_error) (plain "f.lge") in
  (exists t,
      In t (tokens_of literal_after_error) /\
      type t = TokenType.INT_LITERAL /\ value t = "9999999999" /\
      stoi (value t) = inl (out_of_range "stoi")) /\
  events run =
    [Entered LexerCtor; Entered ParserCtor; Entered ParserParse;
     Wrote (Stderr_parse_errors ["Expected expression"])] /\
  (forall errs, In (Wrote (Stderr_parse_errors errs)) (events run) ->
                ~ In (what (out_of_range "stoi")) errs).
Proof.
  split; [|split].
  - exists (mkToken TokenType.INT_LITERAL "9999999999" (mkLocation 1 22 "f.lge")).
    split; [|repeat split].
    vm_compute. do 9 right. left. reflexivity.
  - vm_compute. reflexivity.
  - vm_compute. intros errs H.
    repeat (destruct H as [H|H]; [try discriminate H|]); [|contradiction].
    injection H as <-. intros [E|[]]. discriminate E.
Qed.

(** Where the parser reaches the literal, the error recorded is the one of
    [std::stoi]. *)
Example out_of_range_literal_recorded :
  events (main (file_with big_literal) (plain "f.lge")) =
    [Entered LexerCtor; Entered ParserCtor; Entered ParserParse;
     Wrote (Stderr_parse_errors ["stoi"])].
Proof. vm_compute. reflexivity. Qed.

(** With [--dump-tokens] the same source ends with status 0:
    [dumpTokens] takes every token from the one lexer, the parser's
    constructor gets the lone EOF_TOKEN that is left, [parse] returns an
    empty program without error and the three steps of code generation are
    entered. *)
Example out_of_range_literal_after_dump_tokens :
  let run := main (file_with big_literal) (mkOptions "f.lge" true false) in
  status run = Exit 0 /\
  entered CodeGeneratorCtor run /\ entered CodeGeneratorGenerate run /\
  entered CodeGeneratorEmitIR run /\
  parser_after_parse (file_with big_literal) (mkOptions "f.lge" true false) =
    Some (Parser.mk [mkToken TokenType.EOF_TOKEN EmptyString (mkLocation 1 30 "f.lge")]
            0%nat []).
Proof. vm_compute. repeat split; auto 20. Qed.

End LiteralClaims.

(* ===================================================================== *)
(** * Further properties *)
(* ===================================================================== *)

(** ** The token vector *)

Module LexerStream.
Import Lexer LexerFacts Notions.

(** A property of every token [nextToken] can give holds of every token
    of the vector. *)
Lemma tokenize_loop_Forall (P : Token -> Prop) :
  (forall lx, P (fst (nextToken lx))) ->
  forall fuel lx, Forall P (fst (tokenize_loop fuel lx)).
Proof.
  intros H fuel. induction fuel as [|fuel IH]; intros lx; simpl; [constructor|].
  specialize (H lx). destruct (nextToken lx) as [token lx1]; simpl in H.
  destruct (TokenType.eqb _ _); simpl.
  - repeat constructor; exact H.
  - specialize (IH lx1). destruct (tokenize_loop fuel lx1) as [tokens lx2].
    simpl in *. now constructor.
Qed.

Lemma tokenize_loop_length fuel : forall lx,
  in_bounds lx ->
  (length (fst (tokenize_loop fuel lx)) <= S (remaining lx))%nat.
Proof.
  induction fuel as [|fuel IH]; intros lx Hb; simpl; [lia|].
  destruct (nextToken_progress lx Hb) as (Hr & Hb1 & Hp).
  destruct (nextToken lx) as [token lx1]; cbn [fst snd] in *.
  destruct (TokenType.eqb (type token) TokenType.EOF_TOKEN) eqn:E; simpl; [lia|].
  specialize (IH lx1 Hb1). destruct (tokenize_loop fuel lx1) as [tokens lx2].
  cbn [fst] in *. simpl.
  destruct (isAtEnd (skipWhitespace lx)).
  - apply TokenType_eqb_neq in E. contradiction.
  - destruct Hr as (Hi & _ & _). unfold remaining, in_bounds in *. rewrite Hi in *. lia.
Qed.

Lemma tokenize_loop_in_bounds fuel : forall lx,
  in_bounds lx -> in_bounds (snd (tokenize_loop fuel lx)).
Proof.
  induction fuel as [|fuel IH]; intros lx Hb; simpl; [exact Hb|].
  destruct (nextToken_progress lx Hb) as (_ & Hb1 & _).
  destruct (nextToken lx) as [token lx1]; cbn [fst snd] in *.
  destruct (TokenType.eqb _ _); simpl; [exact Hb1|].
  specialize (IH lx1 Hb1). destruct (tokenize_loop fuel lx1). exact IH.
Qed.

(** X1.  The token vector of a source buffer ends with its only EOF_TOKEN. *)
Theorem tokenize_ends_with_the_only_EOF (input filename : string) :
  EOF_terminated (fst (tokenize (new input filename))).
Proof. apply tokenize_EOF_terminated, new_in_bounds. Qed.

(** X2.  [tokenize] uses the buffer up. *)
Theorem tokenize_uses_the_buffer_up (input filename : string) :
  let after := snd (tokenize (new input filename)) in
  Lexer.input after = input /\
  position after = String.length input /\
  fst (tokenize after) = [makeToken after TokenType.EOF_TOKEN EmptyString].
Proof.
  cbv zeta.
  destruct (tokenize_loop_fuel (S (remaining (new input filename))) (new input filename)
              (new_in_bounds input filename)) as (_ & E & Hr); [lia|].
  fold (tokenize (new input filename)) in E, Hr.
  destruct Hr as (Hi & _ & Hp). cbn [Lexer.input new] in Hi.
  split; [exact Hi|]. split; [|now apply tokenize_at_end].
  pose proof (tokenize_loop_in_bounds (S (remaining (new input filename))) _
                (new_in_bounds input filename)) as Hb.
  fold (tokenize (new input filename)) in Hb.
  unfold in_bounds in Hb. unfold isAtEnd in E. apply Nat.leb_le in E.
  rewrite Hi in *. lia.
Qed.

(** X3.  A token takes at least one byte. *)
Theorem tokenize_length_bound (input filename : string) :
  (length (fst (tokenize (new input filename))) <= S (String.length input))%nat.
Proof.
  pose proof (tokenize_loop_length (S (remaining (new input filename)))
                (new input filename) (new_in_bounds input filename)) as H.
  unfold tokenize. unfold remaining at 2 in H. cbn [Lexer.input position new] in H.
  rewrite Nat.sub_0_r in H. exact H.
Qed.


(** *** Where a token comes from *)

(** Every token of [nextToken] is made by one of the four scanners, or is
    a token with a fixed text, or an error token. *)
Lemma nextToken_origin (P : Token -> Prop) :
  (forall lx, isAtEnd lx = false ->
              isalpha (peek lx 0) || Ascii.eqb (peek lx 0) "_" = true ->
              P (fst (handleIdentifier lx))) ->
  (forall lx, isAtEnd lx = false -> isdigit (peek lx 0) = true ->
              P (fst (handleNumber lx))) ->
  (forall lx, P (fst (handleString lx))) ->
  (forall lx, P (fst (handleComment lx))) ->
  (forall lx ty v, spelling ty = Some v -> P (makeToken lx ty v)) ->
  (forall lx message, P (errorToken lx message)) ->
  forall lx, P (fst (nextToken lx)).
Proof.
  intros HI HN HS HC HM HE lx. unfold nextToken.
  set (lx0 := skipWhitespace lx).
  destruct (isAtEnd lx0) eqn:Hend; [now apply HM|].
  pose proof (advance_fst lx0 Hend) as Hc.
  destruct (unread_advance lx0 Hend) as (Ui & _ & Up).
  destruct (advance lx0) as [c lx1]; cbn [fst snd] in *; subst c.
  assert (isAtEnd (unread lx1) = false) as Uend
    by (rewrite (isAtEnd_ext lx0 (unread lx1) Ui Up); exact Hend).
  assert (peek (unread lx1) 0 = peek lx0 0) as Upeek by (apply peek_ext; assumption).
  destruct (isalpha (peek lx0 0) || Ascii.eqb (peek lx0 0) "_") eqn:E1.
  { apply HI; [exact Uend | now rewrite Upeek]. }
  destruct (isdigit (peek lx0 0)) eqn:E2.
  { apply HN; [exact Uend | now rewrite Upeek]. }
  repeat lazymatch goal with
  | |- P (fst (if ?b then _ else _)) =>
      destruct b;
      [first [ apply HS | apply HC | now apply HM
             | unfold one_or_two;
               match goal with
               | |- context [match_ ?l ?x] => destruct (match_ l x) as [[] ?]
               end; now apply HM
             | idtac ] |]
  end.
  - destruct (match_ lx1 "=") as [[] lx2]; [now apply HM | apply HE].
  - apply HE.
Qed.

Lemma tokenize_Forall (P : Token -> Prop) :
  (forall lx, P (fst (nextToken lx))) ->
  forall lx, Forall P (fst (tokenize lx)).
Proof. intros H lx. now apply tokenize_loop_Forall. Qed.

(** *** Number tokens *)

Lemma all_of_get p s :
  (forall i c, String.get i s = Some c -> p c = true) -> all_of p s = true.
Proof.
  induction s as [|a s IH]; intros H; [reflexivity|]. cbn [all_of].
  rewrite (H 0%nat a eq_refl). apply IH. intros i c Hg. exact (H (S i) c Hg).
Qed.

(** The bytes [advance_while] went over satisfy the test. *)
Lemma advance_while_all p fuel : forall lx i,
  (position lx <= i < position (advance_while p fuel lx))%nat ->
  exists c, String.get i (Lexer.input lx) = Some c /\ p c = true.
Proof.
  induction fuel as [|fuel IH]; intros lx i Hi; cbn [advance_while] in Hi; [lia|].
  destruct (p (peek lx 0)) eqn:Hp; [|lia].
  destruct (isAtEnd lx) eqn:E.
  - apply (IH lx i). unfold advance in Hi. rewrite E in Hi. exact Hi.
  - pose proof (advance_position lx) as Hpos. rewrite E in Hpos.
    destruct (Nat.eq_dec i (position lx)) as [->|Hne].
    + unfold peek in Hp. rewrite Nat.add_0_r in Hp.
      destruct (String.get (position lx) (Lexer.input lx)) as [c|] eqn:G; [eauto|].
      apply get_None_length in G. apply isAtEnd_false in E. lia.
    + rewrite <- (advance_input lx). apply IH. lia.
Qed.

Lemma advance_while_moves p fuel lx :
  isAtEnd lx = false -> p (peek lx 0) = true ->
  (position lx < position (advance_while p (S fuel) lx))%nat.
Proof.
  intros E Hp. cbn [advance_while]. rewrite Hp.
  pose proof (advance_while_reaches p fuel (snd (advance lx))) as (_ & _ & H).
  rewrite advance_position, E in H. lia.
Qed.

Lemma handleNumber_digit_run lx :
  isAtEnd lx = false -> isdigit (peek lx 0) = true ->
  digit_run (fst (handleNumber lx)).
Proof.
  intros E Hd. unfold handleNumber.
  pose proof (advance_while_moves isdigit (remaining lx) lx E Hd) as Hmove.
  pose proof (advance_while_all isdigit (S (remaining lx)) lx) as Hall.
  pose proof (advance_while_reaches isdigit (S (remaining lx)) lx) as (Hin & _ & _).
  set (lxa := advance_while isdigit (S (remaining lx)) lx) in *.
  unfold digit_run.
  destruct (Ascii.eqb (peek lxa 0) "." && isdigit (peek lxa 1));
    cbn [fst type value Token_at]; intros Hty; [discriminate Hty|].
  clear Hty. rewrite Hin.
  set (m := (position lxa - position lx)%nat).
  assert (0 < m)%nat as Hm by (subst m; lia).
  split.
  - intros He.
    pose proof (substring_correct1 (Lexer.input lx) (position lx) m 0 Hm) as G.
    rewrite He in G. cbn [String.get] in G.
    destruct (Hall (position lx)) as (c & Gc & _); [lia|].
    cbn [Nat.add] in G. rewrite Gc in G. discriminate G.
  - apply all_of_get. intros i c G.
    destruct (Nat.lt_ge_cases i m) as [Hlt|Hge].
    + rewrite (substring_correct1 _ _ _ _ Hlt) in G.
      destruct (Hall (i + position lx)%nat) as (c' & Gc & Hc); [subst m; lia|].
      rewrite Gc in G. injection G as <-. exact Hc.
    + rewrite (substring_correct2 _ _ _ _ Hge) in G. discriminate G.
Qed.

Lemma handleIdentifier_kind lx k :
  keywords_find keywords (value (fst (handleIdentifier lx))) = Some k ->
  type (fst (handleIdentifier lx)) = k.
Proof.
  unfold handleIdentifier, Token_at; cbv zeta; cbn [fst type value]. now intros ->.
Qed.

Lemma nextToken_digit_run lx : digit_run (fst (nextToken lx)).
Proof.
  apply nextToken_origin.
  - intros lx0 _ _ Hty. exfalso. revert Hty.
    unfold handleIdentifier, Token_at; cbv zeta; cbn [fst type].
    match goal with
    | |- context [keywords_find keywords ?x] =>
        destruct (keywords_find keywords x) eqn:E; [|discriminate]
    end.
    apply keywords_find_not_special in E. intros ->. now destruct E as (_ & _ & E).
  - apply handleNumber_digit_run.
  - intros lx0 Hty. exfalso. revert Hty. unfold handleString.
    destruct (handleString_loop _ _ _) as [lx1 v]. destruct (isAtEnd lx1); discriminate.
  - intros lx0 Hty. exfalso. revert Hty. unfold handleComment.
    destruct (handleComment_loop _ _ _) as [lx1 v]. discriminate.
  - intros lx0 ty v Hs Hty. cbn [makeToken Token_at type] in Hty. subst ty. discriminate Hs.
  - intros lx0 message Hty. discriminate Hty.
Qed.

(** [digits_value] on a run of digits. *)
Lemma digits_value_run s : forall acc,
  all_of isdigit s = true ->
  (s <> EmptyString \/ acc <> None) ->
  (forall a, acc = Some a -> 0 <= a) ->
  exists v, Parser.digits_value s acc = Some v /\ 0 <= v.
Proof.
  induction s as [|c s IH]; intros acc Hall Hne Hacc.
  - destruct acc as [a|]; [|destruct Hne; congruence].
    exists a. split; [reflexivity | now apply Hacc].
  - cbn [all_of] in Hall. apply andb_true_iff in Hall as [Hc Hs].
    cbn [Parser.digits_value]. rewrite Hc. apply IH; [exact Hs | right; discriminate |].
    intros a [= <-]. destruct acc as [a0|]; [specialize (Hacc a0 eq_refl)|]; lia.
Qed.

(** X4.  A number token without a fraction is a run of digits, at least one, so
    that [std::stoi] in [parsePrimary] has digits to convert: it returns
    their value, or throws [std::out_of_range] when the value is beyond
    [INT_MAX]; [std::invalid_argument] cannot come from a token of the
    lexer. *)
Theorem int_literals_are_digit_runs (input filename : string) :
  Forall (fun t =>
            type t = TokenType.INT_LITERAL ->
            value t <> EmptyString /\ all_of isdigit (value t) = true /\
            exists v, 0 <= v /\ Parser.digits_value (value t) None = Some v /\
                      Parser.stoi (value t) =
                        (if Parser.INT_MAX <? v
                         then inl (Parser.out_of_range "stoi") else inr v))
         (fst (tokenize (new input filename))).
Proof.
  eapply List.Forall_impl; [|apply (tokenize_Forall digit_run nextToken_digit_run)].
  intros t Hrun Hty. destruct (Hrun Hty) as [Hne Hall].
  split; [exact Hne|]. split; [exact Hall|].
  destruct (digits_value_run (value t) None Hall (or_introl Hne)) as (v & Hv & Hpos);
    [discriminate|].
  exists v. split; [exact Hpos|]. split; [exact Hv|].
  destruct (value t) as [|c rest] eqn:Ev; [congruence|].
  cbn [all_of] in Hall. apply andb_true_iff in Hall as [Hc _].
  rewrite (LiteralClaims.stoi_digits c rest Hc), Hv.
  assert ((v <? Parser.INT_MIN) = false) as ->
    by (apply Z.ltb_ge; unfold Parser.INT_MIN; lia).
  reflexivity.
Qed.

(** *** Tokens with a fixed text *)

Lemma keywords_spelling text k :
  keywords_find keywords text = Some k ->
  spelling k = Some text /\ k <> TokenType.IDENTIFIER.
Proof.
  unfold keywords. cbn [keywords_find].
  repeat match goal with
  | |- (if String.eqb ?k text then _ else _) = _ -> _ =>
      destruct (String.eqb_spec k text) as [<-|_];
      [intros [= <-]; split; [reflexivity | discriminate]|]
  end.
  discriminate.
Qed.

Lemma nextToken_spelled lx : spelled (fst (nextToken lx)).
Proof.
  apply nextToken_origin.
  - intros lx0 _ _. unfold handleIdentifier, Token_at; cbv zeta; cbn [fst type value].
    match goal with
    | |- context [keywords_find keywords ?x] =>
        destruct (keywords_find keywords x) as [k|] eqn:E
    end.
    + destruct (keywords_spelling _ _ E) as [Hs Hk]. split.
      * unfold spelled. cbn [type value]. intros s Hs'. congruence.
      * cbn [type]. intros. contradiction.
    + split; cbn [type value]; [discriminate | intros _; exact E].
  - intros lx0 _ _. unfold handleNumber.
    destruct (_ && _); split; cbn [fst type Token_at]; discriminate.
  - intros lx0. unfold handleString.
    destruct (handleString_loop _ _ _) as [lx1 v].
    destruct (isAtEnd lx1); split; cbn [fst type Token_at errorToken]; discriminate.
  - intros lx0. unfold handleComment. destruct (handleComment_loop _ _ _) as [lx1 v].
    split; cbn [fst type Token_at]; discriminate.
  - intros lx0 ty v Hs. split; cbn [makeToken Token_at type value].
    + intros s Hs'. congruence.
    + intros ->. discriminate Hs.
  - intros lx0 message. split; cbn [errorToken Token_at type]; discriminate.
Qed.

(** X5.  In the token vector of any source buffer, a token of a kind with
    a fixed text (a keyword, an operator, a parenthesis, the colon, the
    comma, the EOF_TOKEN) carries exactly that text, and the text of an
    IDENTIFIER is never a keyword: the kind of a word is decided by the
    keyword table alone. *)
Theorem tokens_carry_their_spelling (input filename : string) :
  Forall (fun t =>
            (forall s, spelling (type t) = Some s -> value t = s) /\
            (type t = TokenType.IDENTIFIER ->
             keywords_find keywords (value t) = None))
         (fst (tokenize (new input filename))).
Proof. exact (tokenize_Forall spelled nextToken_spelled _). Qed.

End LexerStream.

Module LexerStrings.
Import Lexer LexerFacts Notions.
#[local] Open Scope nat_scope.

Lemma append_assoc_1 (a : string) c b :
  ((a ++ str1 c) ++ b)%string = (a ++ String c b)%string.
Proof.
  induction a as [|x a IH]; [reflexivity|].
  change (String x ((a ++ str1 c) ++ b) = String x (a ++ String c b)). now f_equal.
Qed.

Lemma append_empty_r (a : string) : (a ++ EmptyString)%string = a.
Proof.
  induction a as [|x a IH]; [reflexivity|].
  change (String x (a ++ EmptyString) = String x a). now f_equal.
Qed.

Lemma get_isAtEnd lx c :
  String.get (position lx) (input lx) = Some c ->
  isAtEnd lx = false /\ peek lx 0 = c.
Proof.
  intros H. split.
  - apply isAtEnd_false.
    destruct (Nat.lt_ge_cases (position lx) (String.length (input lx))) as [Hlt|Hge];
      [exact Hlt|].
    apply get_None_length in Hge. congruence.
  - unfold peek. now rewrite Nat.add_0_r, H.
Qed.

(** The loop of [handleString] over bytes that stand for themselves. *)
Lemma handleString_loop_plain body :
  forall fuel lx value,
    (forall p, p < String.length body ->
               String.get (position lx + p) (input lx) = String.get p body) ->
    String.get (position lx + String.length body) (input lx) = Some DQUOTE ->
    all_of plain_byte body = true ->
    String.length body < fuel ->
    exists lx',
      handleString_loop fuel lx value = (lx', (value ++ body)%string) /\
      input lx' = input lx /\
      position lx' = position lx + String.length body.
Proof.
  induction body as [|c body IH]; intros fuel lx value Hget Hq Hall Hfuel.
  - destruct fuel as [|fuel]; [simpl in Hfuel; lia|].
    cbn [String.length] in Hq. rewrite Nat.add_0_r in Hq.
    destruct (get_isAtEnd lx DQUOTE Hq) as [_ Hp].
    cbn [handleString_loop]. rewrite Hp. cbn [Ascii.eqb]. 
    assert (Ascii.eqb DQUOTE DQUOTE = true) as -> by reflexivity.
    cbn [negb andb]. exists lx. rewrite append_empty_r. repeat split. 
    cbn [String.length]. lia.
  - destruct fuel as [|fuel]; [simpl in Hfuel; lia|].
    cbn [String.length] in Hfuel, Hq.
    cbn [all_of] in Hall. apply andb_true_iff in Hall as [Hc Hall].
    unfold plain_byte in Hc. apply andb_true_iff in Hc as [Hc1 Hc2].
    apply negb_true_iff in Hc1, Hc2.
    pose proof (Hget 0 ltac:(cbn [String.length]; lia)) as H0.
    rewrite Nat.add_0_r in H0. cbn [String.get] in H0.
    destruct (get_isAtEnd lx c H0) as [He Hp].
    cbn [handleString_loop]. rewrite Hp, Hc1, He. cbn [negb andb].
    set (lx1 := if Ascii.eqb c LF then _ else lx).
    assert (input lx1 = input lx /\ position lx1 = position lx) as [Hi1 Hp1]
      by (subst lx1; destruct (Ascii.eqb c LF); split; reflexivity).
    rewrite (peek_ext lx lx1 0 Hi1 Hp1), Hp, Hc2.
    pose proof (advance_fst lx1) as Hf.
    pose proof (advance_position lx1) as Hpos.
    pose proof (advance_input lx1) as Hin.
    rewrite (isAtEnd_ext lx lx1 Hi1 Hp1), He in Hf, Hpos.
    specialize (Hf eq_refl). rewrite (peek_ext lx lx1 0 Hi1 Hp1), Hp in Hf.
    destruct (advance lx1) as [c' lx2]. cbn [fst snd] in Hf, Hpos, Hin. subst c'.
    destruct (IH fuel lx2 (value ++ str1 c)%string) as (lx' & Hl & Hi' & Hp').
    + intros p Hlt. rewrite Hpos, Hin, Hp1, Hi1.
      specialize (Hget (S p) ltac:(cbn [String.length]; lia)).
      cbn [String.get] in Hget. rewrite <- Hget. f_equal. lia.
    + rewrite Hpos, Hin, Hp1, Hi1. rewrite <- Hq. f_equal. lia.
    + exact Hall.
    + lia.
    + exists lx'. rewrite Hl, append_assoc_1. split; [reflexivity|].
      split; [congruence|]. cbn [String.length]. lia.
Qed.

(** The loop of [handleString] with no closing quote ahead runs to the end
    of the buffer. *)
Lemma handleString_loop_unclosed fuel :
  forall lx value,
    in_bounds lx ->
    (forall p, position lx <= p -> String.get p (input lx) <> Some DQUOTE) ->
    remaining lx < fuel ->
    position (fst (handleString_loop fuel lx value)) = String.length (input lx) /\
    input (fst (handleString_loop fuel lx value)) = input lx.
Proof.
  induction fuel as [|fuel IH]; intros lx value Hb Hq Hfuel; [lia|].
  cbn [handleString_loop].
  destruct (isAtEnd lx) eqn:He.
  - rewrite andb_false_r. cbn [fst]. split; [|reflexivity].
    unfold isAtEnd in He. apply Nat.leb_le in He. unfold in_bounds in Hb. lia.
  - assert (Ascii.eqb (peek lx 0) DQUOTE = false) as Hp.
    { apply Ascii.eqb_neq. intros E. apply (Hq (position lx) (Nat.le_refl _)).
      unfold peek in E. rewrite Nat.add_0_r in E.
      destruct (String.get (position lx) (input lx)) as [c|] eqn:G; [now subst c|].
      apply get_None_length in G. apply isAtEnd_false in He. lia. }
    rewrite Hp. cbn [negb andb].
    set (lx1 := if Ascii.eqb (peek lx 0) LF then _ else lx).
    assert (input lx1 = input lx /\ position lx1 = position lx) as [Hi1 Hp1]
      by (subst lx1; destruct (Ascii.eqb (peek lx 0) LF); split; reflexivity).
    assert (in_bounds lx1) as Hb1 by (unfold in_bounds; now rewrite Hi1, Hp1).
    assert (isAtEnd lx1 = false) as He1 by (now rewrite (isAtEnd_ext lx lx1 Hi1 Hp1)).
    pose proof (advance_position lx1) as Hpos. rewrite He1 in Hpos.
    pose proof (advance_input lx1) as Hin.
    pose proof (advance_in_bounds lx1 Hb1) as Hb2.
    destruct (Ascii.eqb (peek lx1 0) BSLASH).
    + set (lx2 := snd (advance lx1)) in *.
      pose proof (advance_position lx2) as Hpos3.
      pose proof (advance_input lx2) as Hin3.
      pose proof (advance_in_bounds lx2 Hb2) as Hb3.
      match goal with |- context [handleString_loop fuel ?l ?v] =>
        destruct (IH l v) as [R1 R2] end.
      * exact Hb3.
      * intros p Hle. rewrite Hin3, Hin, Hi1. apply Hq.
        rewrite Hpos3 in Hle. destruct (isAtEnd lx2); lia.
      * unfold remaining in *. rewrite Hin3, Hin, Hi1, Hpos3.
        apply isAtEnd_false in He. destruct (isAtEnd lx2); lia.
      * rewrite R1, R2, Hin3, Hin, Hi1. split; reflexivity.
    + destruct (advance lx1) as [c lx2]. cbn [snd] in *.
      destruct (IH lx2 (value ++ str1 c)%string) as [R1 R2].
      * exact Hb2.
      * intros p Hle. rewrite Hin, Hi1. apply Hq. lia.
      * unfold remaining in *. rewrite Hin, Hi1, Hpos.
        apply isAtEnd_false in He. lia.
      * rewrite R1, R2, Hin, Hi1. split; reflexivity.
Qed.

(** [nextToken] in front of a double quote goes to [handleString] with the
    quote consumed. *)
Lemma nextToken_at_quote lx :
  String.get (position lx) (input lx) = Some DQUOTE ->
  exists lx1,
    nextToken lx = handleString lx1 /\
    input lx1 = input lx /\ position lx1 = S (position lx).
Proof.
  intros H. destruct (get_isAtEnd lx DQUOTE H) as [He Hp].
  unfold nextToken.
  assert (skipWhitespace lx = lx) as ->.
  { unfold skipWhitespace. cbn [skipWhitespace_loop]. rewrite Hp. reflexivity. }
  rewrite He.
  pose proof (advance_fst lx He) as Hf. rewrite Hp in Hf.
  pose proof (advance_position lx) as Hpos. rewrite He in Hpos.
  pose proof (advance_input lx) as Hin.
  destruct (advance lx) as [c lx1]. cbn [fst snd] in *. subst c.
  exists lx1. split; [reflexivity|]. split; assumption.
Qed.

End LexerStrings.

Module LexerStringExtras.
Import Lexer LexerFacts Notions LexerStrings.
#[local] Open Scope nat_scope.

(** X25.  A string literal without a backslash is lexed to a STRING_LITERAL
    token whose text is what stands between the two double quotes,
    newlines and all, and the lexer goes on behind the closing quote. *)
Theorem string_literal_carries_its_text (lx : Lexer.t) (body : string) :
  substring (position lx) (String.length body + 2) (input lx) =
    String DQUOTE (body ++ str1 DQUOTE) ->
  all_of plain_byte body = true ->
  type (fst (nextToken lx)) = TokenType.STRING_LITERAL /\
  value (fst (nextToken lx)) = body /\
  input (snd (nextToken lx)) = input lx /\
  position (snd (nextToken lx)) = position lx + String.length body + 2.
Proof.
  intros Hsub Hall.
  assert (forall p, p < String.length body + 2 ->
                    String.get (position lx + p) (input lx) =
                    String.get p (String DQUOTE (body ++ str1 DQUOTE))) as Hget.
  { intros p Hp. rewrite <- Hsub, substring_correct1 by exact Hp.
    f_equal. lia. }
  assert (forall p, p < String.length body ->
                    String.get p (body ++ str1 DQUOTE) = String.get p body) as Hpre.
  { intros p Hp. symmetry. apply append_correct1. exact Hp. }
  assert (String.get (String.length body) (body ++ str1 DQUOTE) = Some DQUOTE) as Hend.
  { change (String.length body) with (0 + String.length body).
    rewrite <- append_correct2. reflexivity. }
  pose proof (Hget 0 ltac:(lia)) as H0. rewrite Nat.add_0_r in H0. cbn [String.get] in H0.
  destruct (nextToken_at_quote lx H0) as (lx1 & -> & Hi1 & Hp1).
  destruct (handleString_loop_plain body (S (remaining lx1)) lx1 EmptyString)
    as (lx2 & Hl & Hi2 & Hp2).
  - intros p Hp. rewrite Hp1, Hi1.
    replace (S (position lx) + p) with (position lx + S p) by lia.
    rewrite Hget by lia. cbn [String.get]. now apply Hpre.
  - rewrite Hp1, Hi1.
    replace (S (position lx) + String.length body)
      with (position lx + S (String.length body)) by lia.
    rewrite Hget by lia. cbn [String.get]. exact Hend.
  - exact Hall.
  - unfold remaining. rewrite Hi1, Hp1.
    assert (position lx + S (String.length body) < String.length (input lx)).
    { destruct (Nat.lt_ge_cases (position lx + S (String.length body))
                               (String.length (input lx))) as [Hlt|Hge]; [exact Hlt|].
      apply get_None_length in Hge. rewrite Hget in Hge by lia.
      cbn [String.get] in Hge. congruence. }
    lia.
  - assert (String.get (position lx2) (input lx2) = Some DQUOTE) as Hq.
    { rewrite Hi2, Hp2, Hi1, Hp1.
      replace (S (position lx) + String.length body)
        with (position lx + S (String.length body)) by lia.
      rewrite Hget by lia. cbn [String.get]. exact Hend. }
    destruct (get_isAtEnd lx2 DQUOTE Hq) as [He2 _].
    unfold handleString. rewrite Hl. cbn [append]. rewrite He2.
    cbn [fst snd Token_at type value].
    rewrite advance_input, advance_position, He2.
    repeat split; [congruence | lia].
Qed.

Lemma string_literal_carries_its_text_witness :
  let lx := Lexer.mk ("f(" ++ str1 DQUOTE ++ "a b" ++ str1 DQUOTE ++ ")") 2 1 3 "w.lge" in
  value (fst (nextToken lx)) = "a b" /\ position (snd (nextToken lx)) = 7.
Proof.
  cbv zeta.
  destruct (string_literal_carries_its_text
              (Lexer.mk ("f(" ++ str1 DQUOTE ++ "a b" ++ str1 DQUOTE ++ ")") 2 1 3 "w.lge")
              "a b") as (_ & Hv & _ & Hp).
  - vm_compute. reflexivity.
  - vm_compute. reflexivity.
  - split; [exact Hv | exact Hp].
Defined.

(** X26.  A double quote with no double quote after it in the buffer gives the
    UNKNOWN token [Unterminated string], and the lexer is at the end of
    the buffer afterwards: whatever follows an unclosed string literal is
    taken into it, and the next token is the EOF_TOKEN. *)
Theorem unclosed_string_takes_the_rest (lx : Lexer.t) :
  in_bounds lx ->
  String.get (position lx) (input lx) = Some DQUOTE ->
  (forall p, position lx < p -> String.get p (input lx) <> Some DQUOTE) ->
  type (fst (nextToken lx)) = TokenType.UNKNOWN /\
  value (fst (nextToken lx)) = "Unterminated string" /\
  position (snd (nextToken lx)) = String.length (input lx) /\
  type (fst (nextToken (snd (nextToken lx)))) = TokenType.EOF_TOKEN.
Proof.
  intros Hb Hq Hno.
  destruct (nextToken_at_quote lx Hq) as (lx1 & E & Hi1 & Hp1).
  destruct (get_isAtEnd lx DQUOTE Hq) as [He _]. apply isAtEnd_false in He.
  assert (in_bounds lx1) as Hb1 by (unfold in_bounds; rewrite Hi1, Hp1; lia).
  destruct (handleString_loop_unclosed (S (remaining lx1)) lx1 EmptyString Hb1)
    as [R1 R2].
  - intros p Hle. rewrite Hi1. apply Hno. lia.
  - lia.
  - assert (handleString lx1 =
            (errorToken (fst (handleString_loop (S (remaining lx1)) lx1 EmptyString))
                        "Unterminated string",
             fst (handleString_loop (S (remaining lx1)) lx1 EmptyString))) as Hs.
    { unfold handleString.
      destruct (handleString_loop (S (remaining lx1)) lx1 EmptyString) as [lx2 v].
      cbn [fst] in *. unfold isAtEnd. rewrite R1, R2, Nat.leb_refl. reflexivity. }
    rewrite E, Hs. cbn [fst snd].
    set (lx2 := fst (handleString_loop (S (remaining lx1)) lx1 EmptyString)) in *.
    split; [reflexivity|]. split; [reflexivity|]. split; [congruence|].
    assert (isAtEnd lx2 = true) as He2
      by (unfold isAtEnd; rewrite R1, R2; apply Nat.leb_refl).
    unfold nextToken.
    assert (skipWhitespace lx2 = lx2) as ->.
    { unfold skipWhitespace. cbn [skipWhitespace_loop].
      rewrite (peek_at_end lx2 He2). reflexivity. }
    rewrite He2. reflexivity.
Qed.

Lemma unclosed_string_takes_the_rest_witness :
  let lx := Lexer.new (str1 DQUOTE ++ "abc) let g") "w.lge" in
  value (fst (nextToken lx)) = "Unterminated string" /\
  position (snd (nextToken lx)) = 11.
Proof.
  cbv zeta.
  destruct (unclosed_string_takes_the_rest
              (Lexer.new (str1 DQUOTE ++ "abc) let g") "w.lge"))
    as (_ & Hv & Hp & _).
  - vm_compute. repeat constructor.
  - reflexivity.
  - intros p Hp. cbn in Hp.
    do 12 (destruct p as [|p]; [try lia; vm_compute; discriminate|]).
    vm_compute. discriminate.
  - split; [exact Hv | exact Hp].
Defined.

End LexerStringExtras.

(** ** Runs of the parser *)

Module ParserRuns.
Import Parser LexerFacts ParserFacts ParserSoundness.
#[local] Open Scope nat_scope.

Section Runs.
Variable tokens : list Token.
Variable stof : string -> exception + float32.
Hypothesis tokens_wf : Lexer.EOF_terminated tokens.

#[local] Abbreviation L := (length tokens).

(** The loop of [parse] returns with the cursor on the EOF_TOKEN, the
    functions and the errors it was entered with still there. *)
Lemma parse_loop_returns fuel : forall funcs errs c,
  c < L -> L - c < fuel ->
  exists more_funcs more_errs c',
    parse_loop tokens stof fuel funcs errs c =
      Ok ((funcs ++ more_funcs)%list, (errs ++ more_errs)%list) c' /\ S c' = L.
Proof.
  induction fuel as [|fuel IH]; intros funcs errs c Hc Hf; [lia|].
  cbn [parse_loop]. destruct (token_at tokens c Hc) as (t & Hn).
  unfold bind at 1. rewrite (isAtEnd_at _ _ _ Hn).
  destruct (TokenType.eqb (type t) TokenType.EOF_TOKEN) eqn:E.
  { apply TokenType_eqb_eq in E. exists [], [], c. rewrite !app_nil_r.
    split; [reflexivity | now apply (wf_EOF tokens tokens_wf c t)]. }
  destruct (skip_comments_spec tokens tokens_wf (fuel_at tokens c) c)
    as (c1 & Hs & Hc1 & _); [lia | unfold fuel_at; lia |].
  unfold bind at 1. rewrite Hs.
  destruct (token_at tokens c1 ltac:(lia)) as (t1 & Hn1).
  unfold bind at 1. rewrite (isAtEnd_at _ _ _ Hn1).
  destruct (TokenType.eqb (type t1) TokenType.EOF_TOKEN) eqn:E1.
  { apply TokenType_eqb_eq in E1. exists [], [], c1. rewrite !app_nil_r.
    split; [reflexivity | now apply (wf_EOF tokens tokens_wf c1 t1)]. }
  apply TokenType_eqb_neq in E1.
  pose proof (parseFunction_sound tokens stof tokens_wf c1 ltac:(lia)) as Hf1.
  pose proof (parseFunction_progress tokens stof tokens_wf c1) as Hp1.
  unfold sound in Hf1.
  destruct (parseFunction tokens stof c1) as [func c2|e c2| |]; try contradiction.
  - destruct Hf1 as [Hc2 _]. specialize (Hp1 func c2 ltac:(lia) eq_refl).
    destruct (IH (funcs ++ [func])%list errs c2) as (fs & es & c' & Hl & Hend);
      [lia | lia |].
    exists ([func] ++ fs)%list, es, c'. rewrite app_assoc. split; assumption.
  - destruct (token_at tokens c2 ltac:(lia)) as (t2 & Hn2).
    destruct (synchronize_spec tokens tokens_wf c2 t2 Hn2) as (c3 & Hsy & Hc3 & Hmove).
    { intros Ht2. destruct (Nat.eq_dec c2 c1) as [->|]; [|lia].
      rewrite Hn1 in Hn2. injection Hn2 as <-. contradiction. }
    assert (c < c3) as Hlt.
    { destruct (Nat.eq_dec c2 c1) as [->|]; [|lia].
      rewrite Hn1 in Hn2. injection Hn2 as <-. specialize (Hmove E1). lia. }
    unfold bind. rewrite Hsy.
    destruct (IH funcs (errs ++ [what e])%list c3) as (fs & es & c' & Hl & Hend);
      [lia | lia |].
    exists fs, ([what e] ++ es)%list, c'. rewrite app_assoc. split; assumption.
Qed.

(** [synchronize_loop] stops in front of a [let] or at the end of the
    vector, having gone over no [let], when no token is a NEWLINE. *)
Lemma synchronize_loop_stops fuel : forall c,
  Forall (fun t => type t <> TokenType.NEWLINE) tokens ->
  1 <= c -> c < L -> L - c < fuel ->
  exists c' t',
    synchronize_loop tokens fuel c = Ok tt c' /\ c <= c' /\
    nth_error tokens c' = Some t' /\
    (type t' = TokenType.LET \/ type t' = TokenType.EOF_TOKEN) /\
    forall i t, c <= i < c' -> nth_error tokens i = Some t -> type t <> TokenType.LET.
Proof.
  induction fuel as [|fuel IH]; intros c Hnl H1 Hc Hf; [lia|].
  cbn [synchronize_loop]. destruct (token_at tokens c Hc) as (t & Hn).
  unfold bind at 1. rewrite (isAtEnd_at _ _ _ Hn).
  destruct (TokenType.eqb (type t) TokenType.EOF_TOKEN) eqn:E.
  { apply TokenType_eqb_eq in E. exists c, t.
    split; [reflexivity|]. split; [lia|]. split; [exact Hn|]. split; [now right|].
    intros; lia. }
  destruct c as [|c0]; [lia|].
  destruct (token_at tokens c0 ltac:(lia)) as (t0 & Hn0).
  unfold bind at 1. rewrite (previous_at _ _ _ Hn0).
  assert (TokenType.eqb (type t0) TokenType.NEWLINE = false) as ->.
  { apply TokenType_eqb_neq. rewrite List.Forall_forall in Hnl. apply Hnl.
    eapply nth_error_In; eassumption. }
  unfold bind at 1. rewrite (peek_at _ _ _ Hn).
  destruct (TokenType.eqb (type t) TokenType.LET) eqn:ELet.
  { apply TokenType_eqb_eq in ELet. exists (S c0), t.
    split; [reflexivity|]. split; [lia|]. split; [exact Hn|]. split; [now left|].
    intros; lia. }
  apply TokenType_eqb_neq in E. apply TokenType_eqb_neq in ELet.
  pose proof (wf_not_EOF tokens tokens_wf _ t Hn E) as Hlt.
  unfold bind at 1. rewrite (advance_at _ _ _ Hn E).
  destruct (IH (S (S c0)) Hnl) as (c' & t' & Hs & Hc' & Hn' & Hty & Hskip);
    [lia | lia | lia |].
  exists c', t'. split; [exact Hs|]. split; [lia|]. split; [exact Hn'|].
  split; [exact Hty|].
  intros i ti Hi Hni. destruct (Nat.eq_dec i (S c0)) as [->|Hne].
  - rewrite Hn in Hni. injection Hni as <-. exact ELet.
  - apply (Hskip i ti); [lia | exact Hni].
Qed.

End Runs.

(** The loop of comments at the top of [parse]. *)
Lemma skip_comments_run comments : forall pre rest fuel,
  Forall (fun t => type t = TokenType.COMMENT) comments ->
  length comments < fuel ->
  match rest with
  | t :: _ => type t <> TokenType.COMMENT
  | [] => False
  end ->
  skip_comments (pre ++ comments ++ rest) fuel (length pre) =
    Ok tt (length pre + length comments).
Proof.
  induction comments as [|a comments IH]; intros pre rest fuel Hall Hf Hrest.
  - destruct fuel as [|fuel]; [simpl in Hf; lia|]. destruct rest as [|t rest]; [contradiction|].
    cbn [skip_comments app]. unfold bind.
    assert (nth_error (pre ++ t :: rest) (length pre) = Some t) as Hn
      by (rewrite nth_error_app2 by lia; now rewrite Nat.sub_diag).
    rewrite (match_at _ _ _ _ Hn).
    assert (mem (type t) [TokenType.COMMENT] = false) as ->.
    { cbn [mem existsb]. rewrite orb_false_r. now apply TokenType_eqb_neq. }
    rewrite andb_false_r. simpl. now rewrite Nat.add_0_r.
  - destruct fuel as [|fuel]; [simpl in Hf; lia|].
    inversion Hall as [|? ? Ha Hall']; subst.
    change ((a :: comments) ++ rest)%list with (a :: (comments ++ rest))%list.
    cbn [skip_comments]. unfold bind.
    assert (nth_error (pre ++ a :: comments ++ rest) (length pre) = Some a) as Hn
      by (rewrite nth_error_app2 by lia; now rewrite Nat.sub_diag).
    rewrite (match_at _ _ _ _ Hn), Ha. cbn [negb andb TokenType.eqb mem existsb orb].
    specialize (IH (pre ++ [a])%list rest fuel Hall').
    rewrite <- app_assoc in IH. cbn [app] in IH.
    rewrite length_app in IH. cbn [length] in IH.
    replace (length pre + 1) with (S (length pre)) in IH by lia.
    rewrite IH; [|simpl in Hf; lia | exact Hrest].
    f_equal. simpl. lia.
Qed.

(** [parse] on a vector of comments and the EOF_TOKEN. *)
Lemma parse_comments comments eof stof :
  Forall (fun t => type t = TokenType.COMMENT) comments ->
  type eof = TokenType.EOF_TOKEN ->
  Parser.parse stof (Parser.mk (comments ++ [eof]) 0 []) =
    Ok (mkProgram [] Location_default,
        Parser.mk (comments ++ [eof]) (length comments) [])
       (length comments).
Proof.
  intros Hall Heof. unfold Parser.parse.
  cbn [Parser.tokens Parser.current Parser.errors].
  assert (nth_error (comments ++ [eof]) (length comments) = Some eof) as Hlast.
  { rewrite nth_error_app2 by lia. now rewrite Nat.sub_diag. }
  assert (isAtEnd (comments ++ [eof]) (length comments) = Ok true (length comments)) as Hend.
  { rewrite (isAtEnd_at _ _ _ Hlast), Heof. reflexivity. }
  set (toks := (comments ++ [eof])%list) in *.
  assert (fuel_at toks 0 = S (length toks)) as Hfuel by (unfold fuel_at; lia).
  rewrite Hfuel. cbn [parse_loop].
  destruct comments as [|a comments].
  - unfold bind. cbn [length] in Hend. now rewrite Hend.
  - unfold bind at 1.
    assert (nth_error toks 0 = Some a) as H0 by reflexivity.
    rewrite (isAtEnd_at _ _ _ H0).
    inversion Hall as [|? ? Ha Hall']; subst. rewrite Ha. cbn [TokenType.eqb].
    unfold bind at 1.
    pose proof (skip_comments_run (a :: comments) [] [eof] (fuel_at toks 0) Hall) as Hrun.
    cbn [app length Nat.add] in Hrun.
    change (a :: comments ++ [eof])%list with toks in Hrun.
    rewrite Hrun; [| rewrite Hfuel; subst toks; rewrite length_app; simpl; lia
                   | rewrite Heof; discriminate ].
    unfold bind. cbn [length] in Hend. rewrite Hend. reflexivity.
Qed.

(** Two operators of one level. *)
Lemma binary_level_two tokens ops opType operand i j k l x y z op1 op2 next o1 o2 :
  operand i = Ok x j ->
  nth_error tokens j = Some op1 ->
  type op1 <> TokenType.EOF_TOKEN -> mem (type op1) ops = true ->
  opType (type op1) = inr o1 ->
  operand (S j) = Ok y k -> j < k ->
  nth_error tokens k = Some op2 ->
  type op2 <> TokenType.EOF_TOKEN -> mem (type op2) ops = true ->
  opType (type op2) = inr o2 ->
  operand (S k) = Ok z l ->
  nth_error tokens l = Some next -> mem (type next) ops = false ->
  binary_level tokens ops opType operand i =
    Ok (BinaryOp o2 (BinaryOp o1 x y (location op1)) z (location op2)) l.
Proof.
  intros Hx H1 Hne1 Hm1 Ho1 Hy Hjk H2 Hne2 Hm2 Ho2 Hz Hn Hm.
  unfold binary_level, bind. rewrite Hx.
  rewrite (fuel_at_inside _ _ _ H1).
  rewrite (binary_loop_trip _ _ _ _ _ _ _ _ _ _ _ H1 Hne1 Hm1 Ho1 Hy).
  assert (k < length tokens) as Hk by (apply nth_error_Some; congruence).
  assert (fuel_at tokens (S j) = S (S (length tokens - S (S j)))) as ->
    by (unfold fuel_at; lia).
  rewrite (binary_loop_trip _ _ _ _ _ _ _ _ _ _ _ H2 Hne2 Hm2 Ho2 Hz).
  eapply binary_loop_exit; eassumption.
Qed.

Lemma level_operator ops opType ty :
  (ops = multiplication_ops /\ opType = multiplication_opType) \/
  (ops = addition_ops /\ opType = addition_opType) \/
  (ops = comparison_ops /\ opType = comparison_opType) ->
  mem ty ops = true ->
  ty <> TokenType.EOF_TOKEN /\
  exists o, binary_operator_of ty = Some o /\ opType ty = inr o.
Proof.
  intros [[-> ->]|[[-> ->]|[-> ->]]] Hm;
    destruct ty; try discriminate Hm; (split; [discriminate | eexists; split; reflexivity]).
Qed.

End ParserRuns.

Module ParserExtras.
Import Parser LexerFacts ParserFacts ParserSoundness ParserRuns Samples.
#[local] Open Scope nat_scope.

(** X6.  [parse()] on the token vector of any source buffer returns, with the
    cursor on the EOF_TOKEN that ends the vector: no read leaves the
    vector, every loop ends, and no exception leaves [parse()]. *)
Theorem parse_returns_at_EOF
    (input filename : string) (stof : string -> exception + float32) :
  let parser := fst (Parser.new (Lexer.new input filename)) in
  let last := length (Parser.tokens parser) - 1 in
  (exists eof, nth_error (Parser.tokens parser) last = Some eof /\
               type eof = TokenType.EOF_TOKEN) /\
  exists funcs errs,
    Parser.parse stof parser =
      Ok (mkProgram funcs Location_default, Parser.mk (Parser.tokens parser) last errs)
         last.
Proof.
  cbv zeta.
  pose proof (tokenize_EOF_terminated _ (new_in_bounds input filename)) as Hwf.
  unfold Parser.new.
  destruct (Lexer.tokenize (Lexer.new input filename)) as [toks lexer].
  cbn [fst Parser.tokens] in *.
  assert (0 < length toks) as HL.
  { destruct Hwf as (body & eof & -> & _). rewrite length_app. simpl. lia. }
  split.
  - destruct Hwf as (body & eof & -> & He & _). exists eof. split; [|exact He].
    rewrite length_app. cbn [length]. rewrite nth_error_app2 by lia.
    replace (length body + 1 - 1 - length body) with 0 by lia. reflexivity.
  - destruct (parse_loop_returns toks stof Hwf (fuel_at toks 0) [] [] 0)
      as (fs & es & c & Hl & Hend); [lia | unfold fuel_at; lia |].
    unfold Parser.parse. cbn [Parser.tokens Parser.current Parser.errors].
    rewrite Hl. cbn [app]. replace (length toks - 1) with c by lia. eauto.
Qed.

(** X7.  After an error, [synchronize] skips the token the error was found at
    and every token after it up to the next [let], or up to the end of
    the vector when there is none: the parse is resumed in front of a
    [let] or not at all.  (The lexer gives no NEWLINE token, so the test
    on the previous token never ends the loop.) *)
Theorem synchronize_stops_at_let (tokens : list Token) (c : nat) (t : Token) :
  Lexer.EOF_terminated tokens ->
  Forall (fun t => type t <> TokenType.NEWLINE) tokens ->
  nth_error tokens c = Some t -> type t <> TokenType.EOF_TOKEN ->
  exists c' t',
    synchronize tokens c = Ok tt c' /\ c < c' /\
    nth_error tokens c' = Some t' /\
    (type t' = TokenType.LET \/ type t' = TokenType.EOF_TOKEN) /\
    forall i ti, c < i < c' -> nth_error tokens i = Some ti ->
                 type ti <> TokenType.LET.
Proof.
  intros Hwf Hnl Hn Hne.
  pose proof (wf_not_EOF tokens Hwf c t Hn Hne) as Hlt.
  unfold synchronize, bind. rewrite (advance_at _ _ _ Hn Hne).
  destruct (synchronize_loop_stops tokens Hwf (fuel_at tokens (S c)) (S c) Hnl)
    as (c' & t' & Hs & Hc' & Hn' & Hty & Hskip); [lia | lia | unfold fuel_at; lia |].
  exists c', t'. split; [exact Hs|]. split; [lia|]. split; [exact Hn'|].
  split; [exact Hty|]. intros i ti Hi. apply Hskip. lia.
Qed.

(** In [1 2 let f], an error at the first token resumes at the [let]. *)
Lemma synchronize_stops_at_let_witness :
  exists t',
    synchronize (tokens_of "1 2 let f") 0 = Ok tt 2 /\
    nth_error (tokens_of "1 2 let f") 2 = Some t' /\ type t' = TokenType.LET.
Proof.
  destruct (synchronize_stops_at_let (tokens_of "1 2 let f") 0
              (mkToken TokenType.INT_LITERAL "1" (mkLocation 1 1 "f.lge")))
    as (c' & t' & Hs & Hlt & Hn & Hty & Hskip).
  - exists (firstn 4 (tokens_of "1 2 let f")),
           (mkToken TokenType.EOF_TOKEN EmptyString (mkLocation 1 10 "f.lge")).
    vm_compute. split; [reflexivity|]. split; [reflexivity|].
    repeat constructor; discriminate.
  - vm_compute. repeat constructor; discriminate.
  - reflexivity.
  - discriminate.
  - assert (c' = 2) as ->.
    { destruct c' as [|[|[|c']]]; [lia| | reflexivity |].
      - vm_compute in Hn. injection Hn as <-. destruct Hty; discriminate.
      - exfalso. apply (Hskip 2 (mkToken TokenType.LET "let" (mkLocation 1 5 "f.lge")));
          [lia | reflexivity | reflexivity]. }
    exists t'. split; [exact Hs|]. split; [exact Hn|].
    vm_compute in Hn. injection Hn as <-. reflexivity.
Defined.

(** X8.  The binary operators of one level associate to the left: in
    [x op1 y op2 z], with both operators of the level and the operands
    parsed by the level below, the node of [op2] has the node of [op1] as
    its left child.  This holds for [* /], for [+ -] and for the six
    comparisons (so that [a < b < c] is [(a < b) < c]). *)
Theorem binary_operators_associate_left
    (tokens : list Token) (stof : string -> exception + float32)
    (rec : M Expression) (level operand : M Expression) (ops : list TokenType.t)
    (i j k l : nat) (x y z : Expression) (op1 op2 next : Token)
    (o1 o2 : BinaryOp.OpType) :
  (level = parseMultiplication tokens stof rec /\
   operand = parseUnary tokens stof rec /\ ops = multiplication_ops) \/
  (level = parseAddition tokens stof rec /\
   operand = parseMultiplication tokens stof rec /\ ops = addition_ops) \/
  (level = parseComparison tokens stof rec /\
   operand = parseAddition tokens stof rec /\ ops = comparison_ops) ->
  operand i = Ok x j ->
  nth_error tokens j = Some op1 -> mem (type op1) ops = true ->
  binary_operator_of (type op1) = Some o1 ->
  operand (S j) = Ok y k -> j < k ->
  nth_error tokens k = Some op2 -> mem (type op2) ops = true ->
  binary_operator_of (type op2) = Some o2 ->
  operand (S k) = Ok z l ->
  nth_error tokens l = Some next -> mem (type next) ops = false ->
  level i = Ok (BinaryOp o2 (BinaryOp o1 x y (location op1)) z (location op2)) l.
Proof.
  intros Hlevel Hx H1 Hm1 Ho1 Hy Hjk H2 Hm2 Ho2 Hz Hn Hm.
  assert (exists opType,
             level = binary_level tokens ops opType operand /\
             ((ops = multiplication_ops /\ opType = multiplication_opType) \/
              (ops = addition_ops /\ opType = addition_opType) \/
              (ops = comparison_ops /\ opType = comparison_opType)))
    as (opType & -> & Hops).
  { destruct Hlevel as [(-> & -> & ->)|[(-> & -> & ->)|(-> & -> & ->)]];
      eexists; (split; [reflexivity|]); auto. }
  destruct (level_operator ops opType (type op1) Hops Hm1) as (Hne1 & o1' & Ho1' & Ht1).
  destruct (level_operator ops opType (type op2) Hops Hm2) as (Hne2 & o2' & Ho2' & Ht2).
  rewrite Ho1 in Ho1'. injection Ho1' as <-.
  rewrite Ho2 in Ho2'. injection Ho2' as <-.
  eapply binary_level_two; eassumption.
Qed.

(** [a - b - c] is [(a - b) - c]. *)
Lemma binary_operators_associate_left_witness :
  let tokens := tokens_of "a - b - c" in
  parseAddition tokens no_stof (parseExpression tokens no_stof) 0 =
    Ok (node BinaryOp.SUB (node BinaryOp.SUB (var "a" 1) (var "b" 5) 3) (var "c" 9) 7) 5.
Proof.
  intros tokens.
  apply (binary_operators_associate_left tokens no_stof
           (parseExpression tokens no_stof)
           (parseAddition tokens no_stof (parseExpression tokens no_stof))
           (parseMultiplication tokens no_stof (parseExpression tokens no_stof))
           addition_ops 0 1 3 5 (var "a" 1) (var "b" 5) (var "c" 9)
           (mkToken TokenType.MINUS "-" (mkLocation 1 3 "f.lge"))
           (mkToken TokenType.MINUS "-" (mkLocation 1 7 "f.lge"))
           (mkToken TokenType.EOF_TOKEN EmptyString (mkLocation 1 10 "f.lge")));
    [ right; left; repeat split
    | vm_compute; reflexivity | reflexivity | reflexivity | reflexivity
    | vm_compute; reflexivity | lia
    | reflexivity | reflexivity | reflexivity
    | vm_compute; reflexivity | reflexivity | reflexivity ].
Defined.

(** X9.  A source that holds nothing but comments, or nothing at all, parses to
    the empty program without an error. *)
Theorem comments_alone_parse_to_nothing
    (comments : list Token) (eof : Token) (stof : string -> exception + float32) :
  Forall (fun t => type t = TokenType.COMMENT) comments ->
  type eof = TokenType.EOF_TOKEN ->
  Parser.parse stof (Parser.mk (comments ++ [eof]) 0 []) =
    Ok (mkProgram [] Location_default,
        Parser.mk (comments ++ [eof]) (length comments) [])
       (length comments).
Proof. apply parse_comments. Qed.

(** Two comment lines. *)
Lemma comments_alone_parse_to_nothing_witness :
  Parser.hasErrors (fst (Parser.new (Lexer.new ("# one" ++ String Lexer.LF "# two") "f.lge")))
    = false /\
  exists parser c,
    Parser.parse no_stof
      (fst (Parser.new (Lexer.new ("# one" ++ String Lexer.LF "# two") "f.lge"))) =
    Ok (mkProgram [] Location_default, parser) c /\ Parser.hasErrors parser = false.
Proof.
  split; [reflexivity|].
  pose proof (comments_alone_parse_to_nothing
                [mkToken TokenType.COMMENT "# one" (mkLocation 1 1 "f.lge");
                 mkToken TokenType.COMMENT "# two" (mkLocation 3 1 "f.lge")]
                (mkToken TokenType.EOF_TOKEN EmptyString (mkLocation 3 6 "f.lge"))
                no_stof) as H.
  do 2 eexists. split.
  - etransitivity; [|apply H; [repeat constructor | reflexivity]].
    vm_compute. reflexivity.
  - reflexivity.
Defined.

End ParserExtras.

(** ** Code generation *)

Module GenerationExtras.
Import IR CodeGenerator CodeGeneratorFacts CodeGeneratorInvariants Samples Generated.

(** X10.  [generateExpression] gives a value exactly when it reports nothing:
    every [nullptr] comes with at least one new line on [std::cerr], and a
    value comes with none. *)
Theorem value_or_report (e : Expression) (s : CodeGenerator.t) :
  match fst (generateExpression e s) with
  | Some _ => reported (snd (generateExpression e s)) = reported s
  | None =>
      exists nr, nr <> [] /\
        reported (snd (generateExpression e s)) = (reported s ++ nr)%list
  end.
Proof. exact (generateExpression_told e s). Qed.

(** X11.  Generating an expression while the builder stands in a block of the
    function [F] leaves the function list and both symbol tables alone;
    the blocks it adds belong to [F], what it places is placed in blocks
    of [F], and the builder still stands in a block of [F] afterwards. *)
Theorem generation_stays_in_its_function
    (e : Expression) (F : nat) (s : CodeGenerator.t) :
  inside F s ->
  let s' := snd (generateExpression e s) in
  module_functions s' = module_functions s /\
  functions s' = functions s /\
  namedValues s' = namedValues s /\
  (exists nb, module_blocks s' = (module_blocks s ++ nb)%list /\
              Forall (fun k => bb_parent k = Some F) nb) /\
  (exists ni, module_insts s' = (module_insts s ++ ni)%list /\
              Forall (fun i => exists b, inst_block i = Some b /\
                                         owner s' (Some b) = Some F) ni) /\
  owner s' (insert_block s') = Some F.
Proof.
  intros H. cbv zeta.
  destruct (generateExpression_step e F s H) as [G [_ I]].
  destruct G as [Gf Gt Gn _ (nb & Gb & Hnb) Gi _].
  repeat split; try assumption.
  exists nb. split; [exact Gb|].
  eapply List.Forall_impl; [|exact Hnb]. cbv beta. now intros k [Hk _].
Qed.

(** A conditional inside the body of [bad_function]'s frame. *)
Lemma generation_stays_in_its_function_witness :
  let s := snd (enterFunction bad_function CodeGenerator.new) in
  let e := ConditionalExpression (IntLiteral 1 (at_ 1 1)) (IntLiteral 2 (at_ 1 2))
             (IntLiteral 3 (at_ 1 3)) (at_ 1 1) in
  module_functions (snd (generateExpression e s)) = module_functions s /\
  owner (snd (generateExpression e s)) (insert_block (snd (generateExpression e s)))
    = Some 11%nat.
Proof.
  intros s e.
  destruct (generation_stays_in_its_function e 11 s) as (Hf & _ & _ & _ & _ & Ho).
  - split; [vm_compute; repeat constructor | reflexivity].
  - split; [exact Hf | exact Ho].
Defined.


(** *** The local name table *)

Lemma bind_arguments_other fn name params : forall index table,
  ~ In name (map param_name params) ->
  bind_arguments fn index params table !! name = table !! name.
Proof.
  induction params as [|p params IH]; intros index table Hn; [reflexivity|].
  cbn [bind_arguments]. rewrite IH.
  - apply lookup_insert_ne. intros E. apply Hn. left. exact E.
  - intros H. apply Hn. right. exact H.
Qed.

Lemma bind_arguments_nth fn params : forall index table i p,
  List.NoDup (map param_name params) ->
  nth_error params i = Some p ->
  bind_arguments fn index params table !! param_name p =
    Some (Argument fn (index + i) (llvmType (param_type p))).
Proof.
  induction params as [|q params IH]; intros index table i p Hnd Hn.
  - destruct i; discriminate.
  - cbn [map] in Hnd. apply List.NoDup_cons_iff in Hnd as [Hq Hnd].
    cbn [bind_arguments]. destruct i as [|i]; cbn [nth_error] in Hn.
    + injection Hn as <-. rewrite bind_arguments_other by exact Hq.
      rewrite Nat.add_0_r. apply lookup_insert_eq.
    + rewrite (IH (S index) _ i p Hnd Hn). do 2 f_equal. lia.
Qed.

(** X12.  When a function is entered, the local name table is made of its
    parameters alone: a parameter name stands for the argument at its
    position, with the IR type of its declared type, and every other name
    (the parameters of the functions before it among them) is unbound. *)
Theorem parameters_are_the_only_locals
    (func : FunctionDef) (s : CodeGenerator.t) (name : string) :
  List.NoDup (map param_name (func_parameters func)) ->
  let table := namedValues (snd (enterFunction func s)) in
  (forall i p, nth_error (func_parameters func) i = Some p ->
               table !! param_name p =
                 Some (Argument (next_id s) i (llvmType (param_type p)))) /\
  (~ In name (map param_name (func_parameters func)) -> table !! name = None).
Proof.
  intros Hnd. cbv zeta.
  assert (namedValues (snd (enterFunction func s)) =
          bind_arguments (next_id s) 0 (func_parameters func) ∅) as -> by reflexivity.
  split.
  - intros i p Hn. now rewrite (bind_arguments_nth _ _ 0%nat ∅ i p Hnd Hn).
  - intros Hn. rewrite bind_arguments_other by exact Hn. apply lookup_empty.
Qed.

(** [bad_function] has the one parameter [a]. *)
Lemma parameters_are_the_only_locals_witness :
  namedValues (snd (enterFunction bad_function with_parameter_f)) !! "a" =
    Some (Argument 11 0 Int32Ty) /\
  namedValues (snd (enterFunction bad_function with_parameter_f)) !! "f" = None.
Proof.
  destruct (parameters_are_the_only_locals bad_function with_parameter_f "f")
    as [Hp Hn].
  - constructor; [intros [] | constructor].
  - split.
    + exact (Hp 0%nat (mkParameter "a" (Type_new Type_.INT (at_ 1 20)) (at_ 1 17)) eq_refl).
    + apply Hn. intros [H|[]]. discriminate H.
Defined.

(** *** A whole program *)

Lemma generateFunction_reported func s :
  reported (snd (generateFunction func s)) =
  reported (snd (generateExpression (func_body func) (snd (enterFunction func s)))).
Proof.
  unfold generateFunction. unfold bind at 1.
  destruct (enterFunction func s) as [function s0]. cbn [snd].
  unfold bind at 1.
  destruct (generateExpression (func_body func) s0) as [[retVal|] s1]; reflexivity.
Qed.

Lemma with_value_length funcs :
  forall s, (length (with_value funcs s) <= length funcs)%nat.
Proof.
  induction funcs as [|d ds IH]; intros s; [reflexivity|].
  cbn [with_value]. specialize (IH (snd (generateFunction d s))).
  destruct (fst (generateExpression _ _)); cbn [length]; lia.
Qed.

Lemma with_value_full funcs :
  forall s, length (with_value funcs s) = length funcs -> with_value funcs s = funcs.
Proof.
  induction funcs as [|d ds IH]; intros s; [reflexivity|].
  cbn [with_value]. pose proof (with_value_length ds (snd (generateFunction d s))) as Hle.
  specialize (IH (snd (generateFunction d s))).
  destruct (fst (generateExpression _ _)); cbn [length]; intros H.
  - f_equal. apply IH. lia.
  - lia.
Qed.

Lemma enterFunction_created func s :
  created_for func (fst (enterFunction func s)).
Proof. repeat split. Qed.

Lemma generateFunction_result func s :
  fst (generateFunction func s) =
  match fst (generateExpression (func_body func) (snd (enterFunction func s))) with
  | Some _ => Some (fst (enterFunction func s))
  | None => None
  end.
Proof.
  unfold generateFunction. unfold bind at 1.
  destruct (enterFunction func s) as [function s0]. cbn [fst snd].
  unfold bind at 1.
  destruct (generateExpression (func_body func) s0) as [[retVal|] s1]; reflexivity.
Qed.

Lemma generateFunctions_kept funcs : forall s,
  fresh_ids s ->
  exists defs nr,
    module_functions (snd (generateFunctions funcs s)) = (module_functions s ++ defs)%list /\
    reported (snd (generateFunctions funcs s)) = (reported s ++ nr)%list /\
    Forall2 created_for (with_value funcs s) defs /\
    (nr = [] <-> with_value funcs s = funcs).
Proof.
  induction funcs as [|func funcs IH]; intros s Hfresh.
  - exists [], []. cbn. rewrite !app_nil_r. repeat split; constructor.
  - cbn [generateFunctions with_value]. unfold bind.
    pose proof (generateFunction_spec func s Hfresh) as Hspec. cbv zeta in Hspec.
    pose proof (generateFunction_reported func s) as Hrep.
    pose proof (generateFunction_result func s) as Hres.
    pose proof (with_value_length funcs (snd (generateFunction func s))) as Hlen.
    destruct (enterFunction_spec func s Hfresh) as (_ & _ & _ & _ & _ & Hr0 & _).
    cbv zeta in Hr0.
    destruct Hspec as (Hnone & Hsome & Hfresh1).
    destruct (generateFunction func s) as [res s1]. cbn [fst snd] in *.
    destruct (IH s1 Hfresh1) as (defs & nr & Hd & Hn & Hall & Hiff).
    destruct (fst (generateExpression (func_body func) (snd (enterFunction func s))))
      as [retVal|] eqn:Ebody.
    + destruct (Hsome retVal eq_refl) as (Hr & function & Hf & _ & Hmf & _).
      assert (function = fst (enterFunction func s)) as Hfn by congruence.
      exists (function :: defs), nr. rewrite Hd, Hn, Hmf, Hrep, Hr, Hr0.
      rewrite <- app_assoc. cbn [app].
      split; [reflexivity|]. split; [reflexivity|]. split.
      * constructor; [rewrite Hfn; apply enterFunction_created | exact Hall].
      * split; intros H; [apply Hiff in H; now rewrite H|].
        apply Hiff. now injection H.
    + destruct (Hnone eq_refl) as ((nr1 & Hne & Hr) & _ & Hmf & _).
      exists defs, (nr1 ++ nr)%list. rewrite Hd, Hn, Hmf, Hrep, Hr, Hr0.
      rewrite <- app_assoc.
      split; [reflexivity|]. split; [reflexivity|]. split; [exact Hall|].
      split; intros H; [apply app_eq_nil in H as [H _]; contradiction|].
      rewrite H in Hlen. cbn [length] in Hlen. lia.
Qed.

(** X13.  Starting from a new code generator, [generate] appends to the
    built-in declarations one function for each definition of the program
    whose body gives a value, in the order of the definitions and nothing
    else: each of these functions is created under the name of its
    definition, with the IR types of its return type and parameters and
    its arguments named after the parameters, and the definitions whose
    body fails have no function in the module.  Every definition has its
    function when, and only when, [reportError] was never called. *)
Theorem generate_one_function_per_definition (program : Program) :
  let s' := snd (generate program CodeGenerator.new) in
  let kept := with_value (Program_functions program) CodeGenerator.new in
  exists defs,
    module_functions s' = (module_functions CodeGenerator.new ++ defs)%list /\
    Forall2 created_for kept defs /\
    (reported s' = [] <-> kept = Program_functions program) /\
    (length defs <= length (Program_functions program))%nat /\
    (reported s' = [] <-> length defs = length (Program_functions program)).
Proof.
  cbv zeta. unfold generate.
  destruct (generateFunctions_kept (Program_functions program) CodeGenerator.new
              fresh_ids_new) as (defs & nr & Hd & Hn & Hall & Hiff).
  pose proof (with_value_length (Program_functions program) CodeGenerator.new) as Hlen.
  pose proof (List.Forall2_length Hall) as Hl2.
  exists defs. split; [exact Hd|]. split; [exact Hall|].
  rewrite Hn. cbn [app]. 
  assert (reported CodeGenerator.new = []) as -> by reflexivity. cbn [app].
  split; [exact Hiff|]. split; [lia|].
  split; intros H.
  - apply Hiff in H. rewrite H in Hl2. lia.
  - apply Hiff. apply with_value_full. lia.
Qed.

End GenerationExtras.

Module BlockFacts.
Import IR CodeGenerator CodeGeneratorFacts CodeGeneratorInvariants Blocks.
#[local] Open Scope nat_scope.

Lemma open_block_app rs rs' :
  open_block (rs ++ rs') = open_block rs && open_block rs'.
Proof. apply forallb_app. Qed.

Lemma closed_block_snoc rs r :
  closed_block (rs ++ [r]) = open_block rs && is_terminator r.
Proof.
  induction rs as [|a rs IH]; [simpl; reflexivity|].
  destruct rs as [|b rs'].
  - simpl. now rewrite andb_true_r.
  - change (closed_block ((a :: b :: rs') ++ [r]))
      with (negb (is_terminator a) && closed_block ((b :: rs') ++ [r])).
    rewrite IH. cbn [open_block forallb]. now rewrite andb_assoc.
Qed.

Lemma requests_in_app s s' ni b :
  module_insts s' = (module_insts s ++ ni)%list ->
  requests_in s' b =
    (requests_in s b ++ map inst_request (List.filter (in_block b) ni))%list.
Proof. unfold requests_in. intros ->. now rewrite List.filter_app, map_app. Qed.

Lemma requests_in_same s s' b :
  module_insts s' = module_insts s -> requests_in s' b = requests_in s b.
Proof. unfold requests_in. now intros ->. Qed.

Lemma requests_in_fresh s b :
  Forall (fun i => forall x, inst_block i = Some x -> x < b) (module_insts s) ->
  requests_in s b = [].
Proof.
  unfold requests_in. intros H. rewrite filter_none; [reflexivity|].
  eapply List.Forall_impl; [|exact H]. cbv beta. intros i Hi. unfold in_block.
  destruct (inst_block i) as [x|]; [|reflexivity].
  specialize (Hi x eq_refl). destruct (Nat.eqb_spec x b); [lia | reflexivity].
Qed.

Lemma building_ext (P Q : nat -> Prop) s :
  (forall b, P b <-> Q b) -> building P s -> building Q s.
Proof.
  intros E [Hi Hb Hc Hp Hs]. constructor; auto.
  - intros b H. destruct (Hc b H) as [? ?]. split; [auto|]. now rewrite <- E.
  - intros b H. apply Hp. now apply E.
  - intros k Hk. destruct (Hs k Hk) as (H1 & H2 & H3). repeat split; auto.
    + intros H. apply H2. now apply E.
    + intros H Hn. apply H3; [exact H|]. now rewrite E.
Qed.

(** The requests of a block after one more request at the insertion
    point. *)
Lemma requests_in_request r ty s b :
  requests_in (snd (request r ty s)) b =
    if decide (insert_block s = Some b)
    then (requests_in s b ++ [r])%list else requests_in s b.
Proof.
  rewrite request_eq. cbn [snd].
  rewrite (requests_in_app s _ [placed s r] b) by reflexivity.
  cbn [List.filter]. unfold in_block, placed. cbn [inst_block inst_request].
  destruct (decide (insert_block s = Some b)) as [E|E].
  - rewrite E, Nat.eqb_refl. reflexivity.
  - destruct (insert_block s) as [x|]; [|now rewrite app_nil_r].
    destruct (Nat.eqb_spec x b); [congruence | now rewrite app_nil_r].
Qed.

Lemma insts_request r s :
  Forall (fun i => forall b, inst_block i = Some b -> b < next_id s) (module_insts s) ->
  (forall b, insert_block s = Some b -> b < next_id s) ->
  Forall (fun i => forall b, inst_block i = Some b -> b < S (next_id s))
         (module_insts s ++ [placed s r]).
Proof.
  intros Hi Hc. apply Forall_app. split.
  - eapply List.Forall_impl; [|exact Hi]. cbv beta. intros i H b Hb.
    specialize (H b Hb). lia.
  - constructor; [|constructor]. unfold placed. cbn. intros b Hb.
    specialize (Hc b Hb). lia.
Qed.

(** A request that is no terminator leaves the module under
    construction. *)
Lemma request_building P r ty s :
  is_terminator r = false ->
  building P s -> building P (snd (request r ty s)).
Proof.
  intros Hr B. pose proof B as [Hi Hb Hc Hp Hs].
  constructor.
  - rewrite request_eq. cbn. apply insts_request; [exact Hi|].
    intros b H. now destruct (Hc b H).
  - rewrite request_eq. cbn. now apply Forall_lt_S.
  - rewrite request_eq. cbn. intros b H. destruct (Hc b H). split; [lia | assumption].
  - rewrite request_eq. cbn. intros b H. specialize (Hp b H). lia.
  - intros k Hk. rewrite requests_in_request.
    assert (insert_block (snd (request r ty s)) = insert_block s) as -> by reflexivity.
    assert (In k (module_blocks s)) as Hk' by exact Hk.
    destruct (Hs k Hk') as (H1 & H2 & H3).
    destruct (decide (insert_block s = Some (bb_id k))) as [E|E].
    + split; [|split].
      * intros _. rewrite open_block_app, (H1 E). simpl. now rewrite Hr.
      * intros Hpk. destruct (Hc _ E) as [_ Hn]. contradiction.
      * intros Hn. contradiction.
    + repeat split; auto.
Qed.

Lemma some_request_builds P r ty s :
  is_terminator r = false ->
  building P s -> builds P (some_request r ty s).
Proof. intros Hr B. exact (request_building P r ty s Hr B). Qed.

Lemma CreateGlobalStringPtr_building P str name s :
  building P s -> building P (snd (CreateGlobalStringPtr_ str name s)).
Proof.
  intros B.
  pose proof (request_building P (CreateGlobalStringPtr str name) Int8PtrTy s eq_refl B)
    as [Hi Hb Hc Hp Hs].
  unfold CreateGlobalStringPtr_, bind.
  destruct (request (CreateGlobalStringPtr str name) Int8PtrTy s) as [v s1].
  cbn [snd] in *. constructor; assumption.
Qed.

(** A new block is pending. *)
Lemma BasicBlock_Create_building P name func s :
  building P s ->
  fst (BasicBlock_Create name func s) = next_id s /\
  next_id (snd (BasicBlock_Create name func s)) = S (next_id s) /\
  building (fun b => P b \/ b = next_id s) (snd (BasicBlock_Create name func s)).
Proof.
  intros [Hi Hb Hc Hp Hs]. unfold BasicBlock_Create, bind, fresh. cbn [fst snd].
  split; [reflexivity|]. split; [reflexivity|].
  constructor; cbn [module_insts module_blocks insert_block next_id].
  - eapply List.Forall_impl; [|exact Hi]. cbv beta. intros i H b Hb'.
    specialize (H b Hb'). lia.
  - apply Forall_app. split; [now apply Forall_lt_S|].
    constructor; [simpl; lia | constructor].
  - intros b H. destruct (Hc b H) as [Hlt Hn]. split; [lia|].
    intros [Hpb | ->]; [contradiction | lia].
  - intros b [H | ->]; [specialize (Hp b H); lia | lia].
  - intros k Hk. unfold requests_in. cbn [module_insts].
    fold (requests_in s (bb_id k)).
    apply in_app_or in Hk as [Hk | [<- | []]].
    + destruct (Hs k Hk) as (H1 & H2 & H3).
      assert (bb_id k < next_id s) as Hlt
        by (rewrite List.Forall_forall in Hb; now apply Hb).
      split; [exact H1|]. split.
      * intros [H | H]; [now apply H2 | lia].
      * intros Hn Hnp. apply H3; [exact Hn|]. intros H. apply Hnp. now left.
    + cbn [bb_id]. rewrite (requests_in_fresh s (next_id s) Hi).
      split; [reflexivity|]. split; [reflexivity|].
      intros _ Hnp. exfalso. apply Hnp. now right.
Qed.

(** A terminator at the insertion point, and the builder moved to a
    pending block: the block is finished and the pending one is the open
    one. *)
Lemma move_building (Q : nat -> Prop) X r ty s :
  is_terminator r = true -> ~ Q X ->
  building (fun b => Q b \/ b = X) s ->
  building Q (snd (SetInsertPoint X (snd (request r ty s)))).
Proof.
  intros Hr HQ [Hi Hb Hc Hp Hs].
  assert (insert_block s <> Some X) as Hne.
  { intros E. destruct (Hc X E) as [_ Hn]. apply Hn. now right. }
  constructor.
  - rewrite request_eq. cbn. apply insts_request; [exact Hi|].
    intros b H. now destruct (Hc b H).
  - rewrite request_eq. cbn. now apply Forall_lt_S.
  - rewrite request_eq. cbn. intros b [= <-]. split; [|exact HQ].
    specialize (Hp X (or_intror eq_refl)). lia.
  - rewrite request_eq. cbn. intros b H. specialize (Hp b (or_introl H)). lia.
  - intros k Hk.
    assert (insert_block (snd (SetInsertPoint X (snd (request r ty s)))) = Some X)
      as -> by reflexivity.
    assert (requests_in (snd (SetInsertPoint X (snd (request r ty s)))) (bb_id k) =
            requests_in (snd (request r ty s)) (bb_id k)) as -> by reflexivity.
    rewrite requests_in_request.
    assert (In k (module_blocks s)) as Hk' by exact Hk.
    destruct (Hs k Hk') as (H1 & H2 & H3).
    destruct (decide (insert_block s = Some (bb_id k))) as [E|E].
    + destruct (Hc _ E) as [_ Hn].
      split; [|split].
      * intros [= HX]. rewrite HX in Hne. contradiction.
      * intros HQk. exfalso. apply Hn. now left.
      * intros _ _. rewrite closed_block_snoc, (H1 E), Hr. reflexivity.
    + split; [|split].
      * intros [= HX]. rewrite H2 by (right; now rewrite HX).
        reflexivity.
      * intros HQk. apply H2. now left.
      * intros HX HQk. apply H3; [exact E|].
        intros [H | H]; [contradiction | congruence].
Qed.

(** A terminator at the insertion point with no block pending: every
    block of the module is finished. *)
Lemma close_building r ty s :
  is_terminator r = true ->
  building (fun _ => False) s ->
  (exists k, In k (module_blocks s) /\ insert_block s = Some (bb_id k)) ->
  all_closed (snd (request r ty s)).
Proof.
  intros Hr [Hi Hb Hc Hp Hs] _. unfold all_closed.
  rewrite List.Forall_forall. intros k Hk.
  rewrite requests_in_request.
  assert (In k (module_blocks s)) as Hk' by exact Hk.
  destruct (Hs k Hk') as (H1 & H2 & H3).
  destruct (decide (insert_block s = Some (bb_id k))) as [E|E].
  - rewrite closed_block_snoc, (H1 E), Hr. reflexivity.
  - apply H3; [exact E | tauto].
Qed.

Lemma builds_None {A} P (s : t) : builds P (@None A, s).
Proof. exact I. Qed.

Lemma generateUnaryOp_builds P op v loc s :
  building P s -> builds P (generateUnaryOp op v loc s).
Proof.
  intros B. unfold generateUnaryOp. destruct v as [v|]; [|exact I].
  destruct op. destruct (isIntegerTy _); [now apply some_request_builds|].
  destruct (isFloatingPointTy _); [now apply some_request_builds|].
  exact I.
Qed.

Lemma binary_switch_no_terminator op l r rq ty :
  binary_switch op l r = Some (rq, ty) -> is_terminator rq = false.
Proof.
  unfold binary_switch, case_LESS_THAN, arith_case, cmp_case.
  destruct op; repeat (destruct (both _ _ _)); intros [= <- _]; reflexivity.
Qed.

Lemma generateBinaryOp_builds P op l r loc s :
  building P s -> builds P (generateBinaryOp op l r loc s).
Proof.
  intros B. unfold generateBinaryOp.
  destruct l as [l|]; [|exact I]. destruct r as [r|]; [|exact I].
  destruct (binary_switch op l r) as [[rq ty]|] eqn:E; [|exact I].
  apply some_request_builds; [|exact B].
  eapply binary_switch_no_terminator; exact E.
Qed.

Lemma generateIndirectCall_builds P funcPtr args s :
  building P s -> builds P (generateIndirectCall funcPtr args s).
Proof.
  intros B. unfold generateIndirectCall, bind.
  match goal with |- context [request ?r ?ty s] =>
    pose proof (request_building P r ty s eq_refl B) as B1;
    destruct (request r ty s) as [v s1] end.
  cbn [snd] in B1. now apply some_request_builds.
Qed.

Lemma generateArgs_builds args :
  Forall closes args ->
  forall P s, building P s -> builds P (generateArgs args s).
Proof.
  induction 1 as [|a args Ha _ IH]; intros P s B; [exact B|].
  cbn [generateArgs]. unfold bind at 1.
  pose proof (Ha P s B) as B1.
  destruct (generateExpression a s) as [[v|] s1]; unfold builds in B1;
    cbn [fst snd] in B1; [|exact I].
  unfold bind. pose proof (IH P s1 B1) as B2.
  destruct (generateArgs args s1) as [[vs|] s2]; unfold builds in B2 |- *;
    cbn [fst snd option_map ret] in *; [exact B2 | exact I].
Qed.

Lemma generateExpression_builds e : closes e.
Proof.
  induction e using Expression_induction; intros P s B.
  - cbn [generateExpression]. unfold bind.
    pose proof (CreateGlobalStringPtr_building P v "str" s B) as B1.
    destruct (CreateGlobalStringPtr_ v "str" s). exact B1.
  - exact B.
  - exact B.
  - cbn [generateExpression]. unfold bind, namedValues_find, functions_find, function_by_id.
    destruct (namedValues s !! name); [exact B|].
    destruct (functions s !! name); [now apply some_request_builds | exact I].
  - rewrite generateExpression_BinaryOp.
    pose proof (IHe1 P s B) as B1.
    destruct (generateExpression e1 s) as [[lv|] s1]; unfold builds in B1; cbn [fst snd] in B1.
    + pose proof (IHe2 P s1 B1) as B2.
      destruct (generateExpression e2 s1) as [[rv|] s2]; unfold builds in B2;
        cbn [fst snd] in B2; [|exact I].
      now apply generateBinaryOp_builds.
    + destruct (generateExpression e2 s1) as [rv s2]. exact I.
  - rewrite generateExpression_UnaryOp.
    pose proof (IHe P s B) as B1.
    destruct (generateExpression e s) as [[v|] s1]; unfold builds in B1;
      cbn [fst snd] in B1; [|exact I].
    now apply generateUnaryOp_builds.
  - cbn [generateExpression]. fold generateArgs.
    unfold bind at 1. unfold namedValues_find at 1. cbn beta iota.
    destruct (namedValues s !! name) as [funcPtr|].
    + unfold bind at 1. pose proof (generateArgs_builds args H P s B) as B1.
      destruct (generateArgs args s) as [[vs|] s1]; unfold builds in B1;
        cbn [fst snd] in B1; [|exact I].
      now apply generateIndirectCall_builds.
    + unfold bind at 1. unfold functions_find at 1. cbn beta iota.
      unfold bind at 1.
      set (lookup := (match functions s !! name with Some fn => function_by_id fn | None => getFunction name end) s).
      assert (snd lookup = s) as Hl by (subst lookup; destruct (functions s !! name); reflexivity).
      destruct lookup as [func s0]. cbn [snd] in Hl. subst s0.
      destruct func as [func|]; [|exact I].
      destruct (negb _); [exact I|].
      unfold bind at 1. pose proof (generateArgs_builds args H P s B) as B1.
      destruct (generateArgs args s) as [[vs|] s1]; unfold builds in B1;
        cbn [fst snd] in B1; [|exact I].
      now apply some_request_builds.
  - cbn [generateExpression]. unfold bind at 1.
    pose proof (IHe1 P s B) as B1.
    destruct (generateExpression e1 s) as [[cv|] s1]; unfold builds in B1;
      cbn [fst snd] in B1; [|exact I].
    clear B s. unfold bind at 1.
    match goal with |- context [(if ?c then ?a else ?b) s1] =>
      set (cb := (if c then a else b) s1) end.
    assert (builds P cb) as B2.
    { subst cb. destruct (isIntegerTy _); [now apply some_request_builds|].
      destruct (isFloatingPointTy _); [now apply some_request_builds|]. exact I. }
    destruct cb as [[condBool|] s2]; unfold builds in B2; cbn [fst snd] in B2; [|exact I].
    clear B1 s1.
    unfold bind at 1. unfold GetInsertBlock at 1. cbn beta iota.
    unfold bind at 1.
    destruct (getParent (insert_block s2) s2) as [func s2'] eqn:E.
    assert (s2' = s2) as -> by (unfold getParent in E; now injection E as _ <-). clear E.
    pose proof (building_pending P s2 B2) as Hold.
    unfold bind at 1.
    pose proof (BasicBlock_Create_building P "then" func s2 B2) as (T & N3 & B3).
    destruct (BasicBlock_Create "then" func s2) as [thenBlock s3]; cbn [fst snd] in T, N3, B3.
    unfold bind at 1.
    pose proof (BasicBlock_Create_building _ "else" func s3 B3) as (E4 & N4 & B4).
    destruct (BasicBlock_Create "else" func s3) as [elseBlock s4]; cbn [fst snd] in E4, N4, B4.
    unfold bind at 1.
    pose proof (BasicBlock_Create_building _ "ifcont" func s4 B4) as (M5 & N5 & B5).
    destruct (BasicBlock_Create "ifcont" func s4) as [mergeBlock s5]; cbn [fst snd] in M5, N5, B5.
    assert (thenBlock < elseBlock < mergeBlock) as Hord by lia.
    assert (forall b, P b -> b < thenBlock) as HP by (intros b Hb; rewrite T; now apply Hold).
    assert (building (fun b => (P b \/ b = elseBlock \/ b = mergeBlock) \/ b = thenBlock) s5)
      as B5'.
    { eapply building_ext; [|exact B5]. intros b. cbv beta. rewrite T, E4, M5. tauto. }
    clear B2 B3 B4 B5 T N3 E4 N4 M5 N5 Hold.
    (* the conditional branch, and on to the then block *)
    unfold bind at 1. unfold bind at 1.
    assert (building (fun b => P b \/ b = elseBlock \/ b = mergeBlock)
              (snd (SetInsertPoint thenBlock
                      (snd (request (CreateCondBr condBool thenBlock elseBlock) Int1Ty s5)))))
      as B7.
    { apply move_building; [reflexivity| |].
      - intros [Hb | [Hb | Hb]]; [specialize (HP _ Hb); lia | lia | lia].
      - exact B5'. }
    destruct (request (CreateCondBr condBool thenBlock elseBlock) Int1Ty s5) as [v6 s6].
    cbn [snd] in B7.
    destruct (SetInsertPoint thenBlock s6) as [u7 s7]. cbn [snd] in B7. clear B5' s5.
    unfold bind at 1.
    pose proof (IHe2 _ s7 B7) as B8.
    destruct (generateExpression e2 s7) as [[thenValue|] s8]; unfold builds in B8;
      cbn [fst snd] in B8; [|exact I].
    clear B7 s7.
    (* the branch to the merge block, and on to the else block *)
    unfold bind at 1. unfold bind at 1. unfold GetInsertBlock at 1. cbn beta iota.
    unfold bind at 1.
    assert (building (fun b => P b \/ b = mergeBlock)
              (snd (SetInsertPoint elseBlock
                      (snd (request (CreateBr mergeBlock) Int1Ty s8))))) as B10.
    { apply move_building; [reflexivity| |].
      - intros [Hb | Hb]; [specialize (HP _ Hb); lia | lia].
      - eapply building_ext; [|exact B8]. intros b. cbv beta. tauto. }
    destruct (request (CreateBr mergeBlock) Int1Ty s8) as [v9 s9].
    cbn [snd] in B10.
    destruct (SetInsertPoint elseBlock s9) as [u10 s10]. cbn [snd] in B10. clear B8.
    unfold bind at 1.
    pose proof (IHe3 _ s10 B10) as B11.
    destruct (generateExpression e3 s10) as [[elseValue|] s11]; unfold builds in B11;
      cbn [fst snd] in B11; [|exact I].
    clear B10 s10.
    (* the branch to the merge block, and on to the merge block *)
    unfold bind at 1. unfold bind at 1. unfold GetInsertBlock at 1. cbn beta iota.
    unfold bind at 1.
    assert (building P
              (snd (SetInsertPoint mergeBlock
                      (snd (request (CreateBr mergeBlock) Int1Ty s11))))) as B13.
    { apply move_building; [reflexivity| |exact B11].
      intros Hb. specialize (HP _ Hb). lia. }
    destruct (request (CreateBr mergeBlock) Int1Ty s11) as [v12 s12].
    cbn [snd] in B13.
    destruct (SetInsertPoint mergeBlock s12) as [u13 s13]. cbn [snd] in B13.
    now apply some_request_builds.
Qed.

Lemma all_closed_same s s' :
  module_blocks s' = module_blocks s -> module_insts s' = module_insts s ->
  all_closed s -> all_closed s'.
Proof.
  unfold all_closed. intros Hb Hi H. rewrite Hb.
  eapply List.Forall_impl; [|exact H]. cbv beta. intros k Hk.
  now rewrite (requests_in_same s s' _ Hi).
Qed.

(** The module when the body of a function is about to be generated. *)
Lemma enterFunction_building func s :
  fresh_ids s -> all_closed s ->
  building (fun _ => False) (snd (enterFunction func s)).
Proof.
  intros Hfresh Hall.
  destruct (enterFunction_spec func s Hfresh)
    as (Hf & Hfs & Hbs & His & Hts & Hrs & Hn & Hin).
  cbv zeta in *.
  assert (insert_block (snd (enterFunction func s)) = Some (S (next_id s))) as Hc
    by reflexivity.
  destruct Hfresh as (Fr_f & Fr_b & Fr_i).
  set (s0 := snd (enterFunction func s)) in *.
  assert (forall k, In k (module_blocks s) -> bb_id k < next_id s) as Hold.
  { intros k Hk. rewrite List.Forall_forall in Fr_b. now apply Fr_b. }
  constructor.
  - rewrite His, Hn. eapply List.Forall_impl; [|exact Fr_i]. cbv beta.
    intros i H b Hb. specialize (H b Hb). lia.
  - exact (proj1 Hin).
  - rewrite Hc, Hn. intros b [= <-]. split; [lia | tauto].
  - intros b [].
  - intros k Hk. rewrite Hc, (requests_in_same s s0 _ His).
    rewrite Hbs in Hk. apply in_app_or in Hk as [Hk | [<- | []]].
    + specialize (Hold k Hk). unfold all_closed in Hall.
      rewrite List.Forall_forall in Hall.
      split; [intros [= E]; lia|]. split; [intros []|]. intros _ _. now apply Hall.
    + cbn [bb_id]. rewrite (requests_in_fresh s (S (next_id s))).
      * split; [reflexivity|]. split; [reflexivity|]. intros E. congruence.
      * eapply List.Forall_impl; [|exact Fr_i]. cbv beta.
        intros i H b Hb. specialize (H b Hb). lia.
Qed.

Lemma generateFunction_closed func s :
  fresh_ids s -> all_closed s ->
  all_closed (snd (generateFunction func s)).
Proof.
  intros Hfresh Hall.
  pose proof (enterFunction_building func s Hfresh Hall) as B0.
  destruct (enterFunction_spec func s Hfresh)
    as (Hf & Hfs & Hbs & His & Hts & Hrs & Hn & Hin).
  cbv zeta in *.
  pose proof (generateExpression_step (func_body func) (next_id s) _ Hin) as [G I1].
  pose proof (generateExpression_builds (func_body func) _ _ B0) as B1.
  pose proof (eraseFromParent_restores func s _ Hfresh G) as R.
  unfold generateFunction, bind.
  destruct (enterFunction func s) as [function s0]. cbn [fst snd] in *.
  destruct (generateExpression (func_body func) s0) as [[retVal|] s1];
    unfold builds in B1; cbn [fst snd] in *.
  - pose proof (close_building (CreateRet retVal) Int1Ty s1 eq_refl B1) as C.
    destruct (request (CreateRet retVal) Int1Ty s1) as [v s2]. cbn [snd] in C.
    cbn. apply C.
    destruct (inside_insert _ _ I1) as (b & Hb).
    destruct I1 as [_ Hown]. rewrite Hb in Hown.
    unfold owner, getParent in Hown. cbn [fst] in Hown.
    destruct (find (fun k => Nat.eqb (bb_id k) b) (module_blocks s1)) as [k|] eqn:E;
      [|discriminate].
    apply find_some in E as [Hk Hid]. apply Nat.eqb_eq in Hid.
    exists k. split; [exact Hk | now rewrite Hid].
  - assert (fn_id function = next_id s) as -> by (rewrite Hf; reflexivity).
    destruct R as (_ & Rb & Ri).
    eapply all_closed_same; [exact Rb | exact Ri | exact Hall].
Qed.

Lemma generateFunctions_closed funcs :
  forall s, fresh_ids s -> all_closed s ->
            all_closed (snd (generateFunctions funcs s)).
Proof.
  induction funcs as [|func funcs IH]; intros s Hfresh Hall; [exact Hall|].
  cbn [generateFunctions]. unfold bind.
  pose proof (generateFunction_closed func s Hfresh Hall) as C.
  pose proof (generateFunction_spec func s Hfresh) as (_ & _ & F).
  cbv zeta in F.
  destruct (generateFunction func s) as [f s1]. cbn [snd] in *.
  now apply IH.
Qed.

End BlockFacts.

Module BlockExtras.
Import IR CodeGenerator CodeGeneratorFacts CodeGeneratorInvariants Blocks BlockFacts.

(** X23.  Whatever the program, every basic block of the module [generate]
    leaves ends with a terminator (a conditional branch, a branch or a
    return), which is the only one placed in it and the last request
    placed in it: the blocks of a function whose body failed are gone with
    the function, and a body that gave a value leaves each of its blocks
    finished. *)
Theorem generated_blocks_are_terminated (program : Program) :
  let s' := snd (generate program CodeGenerator.new) in
  Forall (fun k => closed_block (requests_in s' (bb_id k)) = true)
         (module_blocks s').
Proof.
  cbv zeta. apply (generateFunctions_closed (Program_functions program)).
  - apply fresh_ids_new.
  - constructor.
Qed.

End BlockExtras.

Module CallFacts.
Import IR CodeGenerator CodeGeneratorFacts CodeGeneratorInvariants Calls.
#[local] Open Scope nat_scope.

Lemma request_calls r ty s :
  call_arity_ok r = true -> calls_ok s -> calls_ok (snd (request r ty s)).
Proof.
  intros Hr H. rewrite request_eq. unfold calls_ok. cbn.
  apply Forall_app. split; [exact H|]. constructor; [exact Hr | constructor].
Qed.

Lemma some_request_calls r ty s :
  call_arity_ok r = true -> calls_ok s -> calls_ok (snd (some_request r ty s)).
Proof. exact (request_calls r ty s). Qed.

Lemma generateArgs_same_length args :
  forall s vs, fst (generateArgs args s) = Some vs -> length vs = length args.
Proof.
  induction args as [|a args IH]; intros s vs.
  - cbn. now intros [= <-].
  - cbn [generateArgs]. unfold bind at 1.
    destruct (generateExpression a s) as [[v|] s1]; [|discriminate].
    unfold bind. specialize (IH s1).
    destruct (generateArgs args s1) as [[ws|] s2]; cbn [fst option_map ret] in *;
      [|discriminate].
    intros [= <-]. cbn [length]. f_equal. now apply IH.
Qed.

Lemma generateUnaryOp_calls op v loc s :
  calls_ok s -> calls_ok (snd (generateUnaryOp op v loc s)).
Proof.
  intros H. unfold generateUnaryOp. destruct v as [v|]; [|exact H].
  destruct op. destruct (isIntegerTy _); [now apply some_request_calls|].
  destruct (isFloatingPointTy _); [now apply some_request_calls | exact H].
Qed.

Lemma binary_switch_no_call op l r rq ty :
  binary_switch op l r = Some (rq, ty) -> call_arity_ok rq = true.
Proof.
  unfold binary_switch, case_LESS_THAN, arith_case, cmp_case.
  destruct op; repeat (destruct (both _ _ _)); intros [= <- _]; reflexivity.
Qed.

Lemma generateBinaryOp_calls op l r loc s :
  calls_ok s -> calls_ok (snd (generateBinaryOp op l r loc s)).
Proof.
  intros H. unfold generateBinaryOp.
  destruct l as [l|]; [|exact H]. destruct r as [r|]; [|exact H].
  destruct (binary_switch op l r) as [[rq ty]|] eqn:E; [|exact H].
  apply some_request_calls; [|exact H]. eapply binary_switch_no_call; exact E.
Qed.

Lemma generateIndirectCall_calls funcPtr args s :
  calls_ok s -> calls_ok (snd (generateIndirectCall funcPtr args s)).
Proof.
  intros H. unfold generateIndirectCall, bind.
  match goal with |- context [request ?r ?ty s] =>
    pose proof (request_calls r ty s eq_refl H) as H1;
    destruct (request r ty s) as [v s1] end.
  cbn [snd] in H1. apply some_request_calls; [|exact H1].
  cbn. rewrite length_map. apply Nat.eqb_refl.
Qed.

Lemma generateArgs_calls args :
  Forall keeps_calls args ->
  forall s, calls_ok s -> calls_ok (snd (generateArgs args s)).
Proof.
  induction 1 as [|a args Ha _ IH]; intros s Hs; [exact Hs|].
  cbn [generateArgs]. unfold bind at 1.
  pose proof (Ha s Hs) as H1.
  destruct (generateExpression a s) as [[v|] s1]; cbn [snd] in H1; [|exact H1].
  unfold bind. pose proof (IH s1 H1) as H2.
  destruct (generateArgs args s1) as [vs s2]. exact H2.
Qed.

(** A step of the builder that places nothing, or a request that is no
    call. *)
Ltac calls_step call a s' H :=
  unfold bind at 1;
  let Q := fresh "Q" in
  assert (calls_ok (snd call)) as Q
    by first [exact H | apply request_calls; [reflexivity | exact H]];
  destruct call as [a s']; cbn [snd] in Q; clear H; rename Q into H.

Lemma generateExpression_calls e : keeps_calls e.
Proof.
  induction e using Expression_induction; intros s Hs.
  - cbn [generateExpression]. unfold bind.
    pose proof (request_calls (CreateGlobalStringPtr v "str") Int8PtrTy s eq_refl Hs) as H1.
    unfold CreateGlobalStringPtr_, bind.
    destruct (request (CreateGlobalStringPtr v "str") Int8PtrTy s) as [x s1]. exact H1.
  - exact Hs.
  - exact Hs.
  - cbn [generateExpression]. unfold bind, namedValues_find, functions_find, function_by_id.
    destruct (namedValues s !! name); [exact Hs|].
    destruct (functions s !! name); [now apply some_request_calls | exact Hs].
  - rewrite generateExpression_BinaryOp.
    pose proof (IHe1 s Hs) as H1.
    destruct (generateExpression e1 s) as [lv s1]; cbn [snd] in H1.
    pose proof (IHe2 s1 H1) as H2.
    destruct (generateExpression e2 s1) as [rv s2]; cbn [snd] in H2.
    now apply generateBinaryOp_calls.
  - rewrite generateExpression_UnaryOp.
    pose proof (IHe s Hs) as H1.
    destruct (generateExpression e s) as [v s1]; cbn [snd] in H1.
    now apply generateUnaryOp_calls.
  - cbn [generateExpression]. fold generateArgs.
    unfold bind at 1. unfold namedValues_find at 1. cbn beta iota.
    destruct (namedValues s !! name) as [funcPtr|].
    + unfold bind at 1. pose proof (generateArgs_calls args H s Hs) as H1.
      destruct (generateArgs args s) as [[vs|] s1]; cbn [snd] in H1; [|exact H1].
      now apply generateIndirectCall_calls.
    + unfold bind at 1. unfold functions_find at 1. cbn beta iota.
      unfold bind at 1.
      set (lookup := (match functions s !! name with Some fn => function_by_id fn | None => getFunction name end) s).
      assert (snd lookup = s) as Hl by (subst lookup; destruct (functions s !! name); reflexivity).
      destruct lookup as [func s0]. cbn [snd] in Hl. subst s0.
      destruct func as [func|]; [|exact Hs].
      destruct (Nat.eqb_spec (length (getParams (fn_type func))) (length args)) as [Hlen|Hlen];
        cbn [negb]; [|exact Hs].
      unfold bind at 1. pose proof (generateArgs_calls args H s Hs) as H1.
      pose proof (generateArgs_same_length args s) as Hvs.
      destruct (generateArgs args s) as [[vs|] s1]; cbn [fst snd] in H1, Hvs; [|exact H1].
      apply some_request_calls; [|exact H1].
      cbn. rewrite (Hvs vs eq_refl), Hlen. apply Nat.eqb_refl.
  - cbn [generateExpression]. unfold bind at 1.
    pose proof (IHe1 s Hs) as H1.
    destruct (generateExpression e1 s) as [[cv|] s1]; cbn [snd] in H1; [|exact H1].
    clear Hs s. unfold bind at 1.
    match goal with |- context [(if ?c then ?a else ?b) s1] =>
      set (cb := (if c then a else b) s1) end.
    assert (calls_ok (snd cb)) as H2.
    { subst cb. destruct (isIntegerTy _); [now apply some_request_calls|].
      destruct (isFloatingPointTy _); [now apply some_request_calls | exact H1]. }
    destruct cb as [[condBool|] s2]; cbn [snd] in H2; [|exact H2].
    clear H1 s1.
    unfold bind at 1. unfold GetInsertBlock at 1. cbn beta iota.
    unfold bind at 1.
    destruct (getParent (insert_block s2) s2) as [func s2'] eqn:E.
    assert (s2' = s2) as -> by (unfold getParent in E; now injection E as _ <-). clear E.
    calls_step (BasicBlock_Create "then" func s2) thenBlock s3 H2.
    calls_step (BasicBlock_Create "else" func s3) elseBlock s4 H2.
    calls_step (BasicBlock_Create "ifcont" func s4) mergeBlock s5 H2.
    calls_step (request (CreateCondBr condBool thenBlock elseBlock) Int1Ty s5) v6 s6 H2.
    calls_step (SetInsertPoint thenBlock s6) u7 s7 H2.
    unfold bind at 1.
    pose proof (IHe2 s7 H2) as H3.
    destruct (generateExpression e2 s7) as [[tv|] s8]; cbn [snd] in H3; [|exact H3].
    calls_step (request (CreateBr mergeBlock) Int1Ty s8) v9 s9 H3.
    unfold bind at 1. unfold GetInsertBlock at 1. cbn beta iota.
    calls_step (SetInsertPoint elseBlock s9) u10 s10 H3.
    unfold bind at 1.
    pose proof (IHe3 s10 H3) as H4.
    destruct (generateExpression e3 s10) as [[ev|] s11]; cbn [snd] in H4; [|exact H4].
    calls_step (request (CreateBr mergeBlock) Int1Ty s11) v12 s12 H4.
    unfold bind at 1. unfold GetInsertBlock at 1. cbn beta iota.
    calls_step (SetInsertPoint mergeBlock s12) u13 s13 H4.
    now apply some_request_calls.
Qed.

Lemma generateFunction_calls func s :
  fresh_ids s -> calls_ok s -> calls_ok (snd (generateFunction func s)).
Proof.
  intros Hfresh Hs.
  destruct (enterFunction_spec func s Hfresh)
    as (Hf & Hfs & Hbs & His & Hts & Hrs & Hn & Hin).
  cbv zeta in *.
  pose proof (generateExpression_step (func_body func) (next_id s) _ Hin) as [G I1].
  assert (calls_ok (snd (enterFunction func s))) as H0
    by (unfold calls_ok; now rewrite His).
  pose proof (generateExpression_calls (func_body func) _ H0) as H1.
  pose proof (eraseFromParent_restores func s _ Hfresh G) as R.
  unfold generateFunction, bind.
  destruct (enterFunction func s) as [function s0]. cbn [fst snd] in *.
  destruct (generateExpression (func_body func) s0) as [[retVal|] s1]; cbn [fst snd] in *.
  - pose proof (request_calls (CreateRet retVal) Int1Ty s1 eq_refl H1) as C.
    destruct (request (CreateRet retVal) Int1Ty s1) as [v s2]. exact C.
  - assert (fn_id function = next_id s) as -> by (rewrite Hf; reflexivity).
    destruct R as (_ & _ & Ri). unfold calls_ok in *. cbv zeta in Ri.
    change (Forall (fun i => call_arity_ok (inst_request i) = true)
                   (module_insts (snd (eraseFromParent (next_id s) s1)))).
    now rewrite Ri.
Qed.

Lemma generateFunctions_calls funcs :
  forall s, fresh_ids s -> calls_ok s -> calls_ok (snd (generateFunctions funcs s)).
Proof.
  induction funcs as [|func funcs IH]; intros s Hfresh Hs; [exact Hs|].
  cbn [generateFunctions]. unfold bind.
  pose proof (generateFunction_calls func s Hfresh Hs) as C.
  pose proof (generateFunction_spec func s Hfresh) as (_ & _ & F).
  cbv zeta in F.
  destruct (generateFunction func s) as [f s1]. cbn [snd] in *.
  now apply IH.
Qed.

End CallFacts.

Module CallExtras.
Import IR CodeGenerator CodeGeneratorFacts CodeGeneratorInvariants Calls CallFacts.

(** X24.  Every call in the module [generate] leaves passes as many arguments
    as the function type it is made with has parameters: a direct call
    is placed only after the count of the arguments was compared with the
    callee's, and the function type of an indirect call is made from the
    arguments themselves. *)
Theorem calls_pass_as_many_arguments_as_parameters (program : Program) :
  let s' := snd (generate program CodeGenerator.new) in
  Forall (fun i =>
            forall fty callee args name,
              inst_request i = CreateCall fty callee args name ->
              length args = length (getParams fty))
         (module_insts s').
Proof.
  cbv zeta.
  pose proof (generateFunctions_calls (Program_functions program) CodeGenerator.new
                fresh_ids_new (List.Forall_nil _)) as H.
  eapply List.Forall_impl; [|exact H]. cbv beta.
  intros i Hi fty callee args name E. rewrite E in Hi. cbn in Hi.
  now apply Nat.eqb_eq in Hi.
Qed.

End CallExtras.

(** ** Runs of the driver *)

Module DriverRuns.
Import LexerFacts LexerStream ParserRuns Main MainFacts.

(** The run from code generation on: the steps and the output it adds to
    the log do not depend on the log. *)
Lemma codegen_part_log env program :
  exists st more,
    (st = Exit 0 \/ st = Exit 1) /\
    (st = Exit 0 ->
     (forall s, codegen_stage s = true -> fault env s = None) /\
     In (Wrote (Stdout_IR (CodeGenerator.emitIR
                             (snd (CodeGenerator.generate program CodeGenerator.new)))))
        more) /\
    ((forall s, codegen_stage s = true -> fault env s = None) -> st = Exit 0) /\
    (forall e, In e more ->
       match e with
       | Entered s => codegen_stage s = true
       | Wrote (Stdout_IR _) | Wrote (Stderr_exception _) => True
       | Wrote _ => False
       end) /\
    forall log, codegen_part env program log = mkRun st (log ++ more).
Proof.
  unfold codegen_part, enter, catch.
  destruct (fault env CodeGeneratorCtor) as [w1|] eqn:E1.
  { exists (Exit 1), [Entered CodeGeneratorCtor; Wrote (Stderr_exception w1)].
    split; [now right|]. split; [discriminate|].
    split; [intros H; rewrite (H CodeGeneratorCtor eq_refl) in E1; discriminate|].
    split; [intros e [<-|[<-|[]]]; exact eq_refl || exact I|].
    intros log. now rewrite <- !app_assoc. }
  destruct (fault env CodeGeneratorGenerate) as [w2|] eqn:E2.
  { exists (Exit 1), [Entered CodeGeneratorCtor; Entered CodeGeneratorGenerate;
                      Wrote (Stderr_exception w2)].
    split; [now right|]. split; [discriminate|].
    split; [intros H; rewrite (H CodeGeneratorGenerate eq_refl) in E2; discriminate|].
    split; [intros e [<-|[<-|[<-|[]]]]; exact eq_refl || exact I|].
    intros log. now rewrite <- !app_assoc. }
  destruct (fault env CodeGeneratorEmitIR) as [w3|] eqn:E3.
  { exists (Exit 1), [Entered CodeGeneratorCtor; Entered CodeGeneratorGenerate;
                      Entered CodeGeneratorEmitIR; Wrote (Stderr_exception w3)].
    split; [now right|]. split; [discriminate|].
    split; [intros H; rewrite (H CodeGeneratorEmitIR eq_refl) in E3; discriminate|].
    split; [intros e [<-|[<-|[<-|[<-|[]]]]]; exact eq_refl || exact I|].
    intros log. now rewrite <- !app_assoc. }
  eexists (Exit 0), [Entered CodeGeneratorCtor; Entered CodeGeneratorGenerate;
                     Entered CodeGeneratorEmitIR; Wrote (Stdout_IR _)].
  split; [now left|]. split.
  { intros _. split; [|do 3 right; left; reflexivity].
    intros [] Hs; try discriminate Hs; assumption. }
  split; [reflexivity|].
  split; [intros e [<-|[<-|[<-|[<-|[]]]]]; exact eq_refl || exact I|].
  intros log. now rewrite <- !app_assoc.
Qed.

(** [parse()] on the vector of a parser made from a lexer inside its
    buffer returns. *)
Lemma parse_new_returns stof lexer :
  Lexer.in_bounds lexer ->
  exists funcs errs c,
    Parser.parse stof (fst (Parser.new lexer)) =
      Parser.Ok (mkProgram funcs Location_default,
                 Parser.mk (Parser.tokens (fst (Parser.new lexer))) c errs) c.
Proof.
  intros Hb. pose proof (tokenize_EOF_terminated lexer Hb) as Hwf.
  unfold Parser.new. destruct (Lexer.tokenize lexer) as [toks lexer'].
  cbn [fst Parser.tokens] in *.
  assert (0 < length toks)%nat as HL.
  { destruct Hwf as (body & eof & -> & _). rewrite length_app. simpl. lia. }
  destruct (parse_loop_returns toks stof Hwf (Parser.fuel_at toks 0) [] [] 0)
    as (fs & es & c & Hl & Hend); [lia | unfold Parser.fuel_at; lia |].
  unfold Parser.parse. cbn [Parser.tokens Parser.current Parser.errors].
  rewrite Hl. cbn [app]. eauto.
Qed.

Lemma parse_part_status env opts lexer log :
  Lexer.in_bounds lexer ->
  status (parse_part env opts (fst (Parser.new lexer)) log) = Exit 0 \/
  status (parse_part env opts (fst (Parser.new lexer)) log) = Exit 1.
Proof.
  intros Hb. unfold parse_part, enter, catch.
  destruct (fault env ParserParse); [now right|].
  destruct (parse_new_returns (stof env) lexer Hb) as (funcs & errs & c & ->).
  destruct (Parser.hasErrors _); [now right|].
  destruct (codegen_part_log env (mkProgram funcs Location_default))
    as (st & more & Hst & _ & _ & _ & Hlog).
  destruct (dumpAST opts).
  - destruct (fault env ParserDumpAST); [now right|]. rewrite Hlog. exact Hst.
  - rewrite Hlog. exact Hst.
Qed.


(** A parser made from a lexer at the end of its buffer gets the
    EOF_TOKEN alone; the run then goes through code generation with the
    empty program. *)
Lemma parse_part_at_end env opts lexer log :
  (forall s, fault env s = None) ->
  Lexer.isAtEnd lexer = true ->
  exists more,
    parse_part env opts (fst (Parser.new lexer)) log = mkRun (Exit 0) (log ++ more) /\
    In (Wrote (Stdout_IR (CodeGenerator.emitIR CodeGenerator.new))) more.
Proof.
  intros Hf Hend. unfold Parser.new.
  pose proof (tokenize_at_end lexer Hend) as Ht.
  destruct (Lexer.tokenize lexer) as [toks lexer']. cbn [fst] in *. subst toks.
  unfold parse_part, enter. rewrite Hf.
  pose proof (parse_comments [] (Lexer.makeToken lexer TokenType.EOF_TOKEN EmptyString)
                (stof env) (List.Forall_nil _) eq_refl) as Hp.
  cbn [app length] in Hp. rewrite Hp.
  cbn [Parser.hasErrors Parser.errors].
  destruct (dumpAST opts).
  - rewrite Hf. unfold codegen_part, enter. rewrite !Hf. cbn [CodeGenerator.generate].
    eexists. split.
    + rewrite <- !app_assoc. reflexivity.
    + cbn. auto 10.
  - unfold codegen_part, enter. rewrite !Hf.
    eexists. split.
    + rewrite <- !app_assoc. reflexivity.
    + cbn. auto 10.
Qed.

Lemma parse_part_dumpAST env file dump parser log :
  fault env ParserDumpAST = None ->
  status (parse_part env (mkOptions file dump true) parser log) =
  status (parse_part env (mkOptions file dump false) parser log) /\
  forall ir,
    In (Wrote (Stdout_IR ir))
       (events (parse_part env (mkOptions file dump true) parser log)) <->
    In (Wrote (Stdout_IR ir))
       (events (parse_part env (mkOptions file dump false) parser log)).
Proof.
  intros Hf. unfold parse_part, enter.
  destruct (fault env ParserParse); [split; [reflexivity | reflexivity]|].
  destruct (Parser.parse (stof env) parser) as [[program parser'] c|e c| |];
    try (split; reflexivity).
  destruct (Parser.hasErrors parser'); [split; reflexivity|].
  cbn [dumpAST]. rewrite Hf.
  destruct (codegen_part_log env program) as (st & more & _ & _ & _ & _ & Hlog).
  rewrite !Hlog. cbn [status events]. split; [reflexivity|].
  intros ir. rewrite !in_app_iff. cbn [In].
  split; intros H; [|tauto].
  destruct H as [[[H|[H|[]]]|[H|[]]]|H]; try discriminate H; tauto.
Qed.

End DriverRuns.

Module DriverExtras.
Import LexerFacts LexerStream ParserRuns Main MainFacts DriverRuns Samples.

(** X14.  Whatever the file holds and whichever step throws, the process ends by
    a [return] of [main] with status 0 or 1: the parser does not read
    outside its token vector and every loop ends. *)
Theorem main_returns_0_or_1 (env : Env) (opts : Options) :
  status (main env opts) = Exit 0 \/ status (main env opts) = Exit 1.
Proof.
  unfold main, enter, catch.
  destruct (fault env LexerCtor); [now right|].
  assert (Lexer.in_bounds (fst (Lexer_open env (inputFile opts) ([] ++ [Entered LexerCtor]))))
    as Hb by (unfold Lexer_open; destruct (read_file env _); apply new_in_bounds).
  destruct (Lexer_open env (inputFile opts) ([] ++ [Entered LexerCtor])) as [lexer log].
  cbn [fst] in Hb.
  destruct (dumpTokens opts).
  - destruct (fault env LexerDumpTokens); [now right|].
    pose proof (tokenize_loop_in_bounds (S (Lexer.remaining lexer)) lexer Hb) as Hb'.
    fold (Lexer.tokenize lexer) in Hb'.
    destruct (Lexer.tokenize lexer) as [tokens lexer']. cbn [snd] in Hb'.
    destruct (fault env ParserCtor); [now right|].
    pose proof (parse_part_status env opts lexer') as H.
    destruct (Parser.new lexer') as [parser lexer'']. apply H, Hb'.
  - destruct (fault env ParserCtor); [now right|].
    pose proof (parse_part_status env opts lexer) as H.
    destruct (Parser.new lexer) as [parser lexer'']. apply H, Hb.
Qed.


(** X15.  With [--dump-tokens] nothing is compiled: [dumpTokens] leaves the one
    lexer at the end of its buffer, the parser's constructor gets the
    EOF_TOKEN alone, and, whatever the file holds, the run prints its
    tokens, then the module of the empty program, and ends with status
    0. *)
Theorem dump_tokens_compiles_nothing (env : Env) (opts : Options) :
  (forall s, fault env s = None) ->
  dumpTokens opts = true ->
  let lexer := fst (Lexer_open env (inputFile opts) []) in
  status (main env opts) = Exit 0 /\
  In (Wrote (Stdout_tokens (inputFile opts) (fst (Lexer.tokenize lexer))))
     (events (main env opts)) /\
  In (Wrote (Stdout_IR (CodeGenerator.emitIR CodeGenerator.new)))
     (events (main env opts)).
Proof.
  intros Hf Hdump. cbv zeta. unfold main, enter. rewrite Hdump, !Hf.
  rewrite <- (Lexer_open_fst env (inputFile opts) ([] ++ [Entered LexerCtor])).
  assert (Lexer.in_bounds (fst (Lexer_open env (inputFile opts) ([] ++ [Entered LexerCtor])))
          /\ Lexer.filename (fst (Lexer_open env (inputFile opts) ([] ++ [Entered LexerCtor])))
             = inputFile opts)
    as [Hb Hname]
    by (unfold Lexer_open; destruct (read_file env _); split;
        solve [apply new_in_bounds | reflexivity]).
  destruct (Lexer_open env (inputFile opts) ([] ++ [Entered LexerCtor])) as [lexer log].
  cbn [fst] in *.
  destruct (tokenize_loop_fuel (S (Lexer.remaining lexer)) lexer Hb)
    as (_ & Hend & (_ & Hfn & _)); [lia|].
  fold (Lexer.tokenize lexer) in Hend, Hfn.
  destruct (Lexer.tokenize lexer) as [tokens lexer']. cbn [fst snd] in *.
  rewrite Hfn, Hname.
  destruct (Parser.new lexer') as [parser lexer''] eqn:Enew.
  match goal with
  | |- context [parse_part env opts parser ?l] =>
      pose proof (parse_part_at_end env opts lexer' l Hf Hend) as (more & Hrun & Hir)
  end.
  rewrite Enew in Hrun. cbn [fst] in Hrun. rewrite Hrun. cbn [status events].
  split; [reflexivity|]. rewrite !in_app_iff. cbn [In]. split; [|right; exact Hir].
  left. left. right. left. reflexivity.
Qed.

(** A garbage file run with the flag. *)
Lemma dump_tokens_compiles_nothing_witness :
  status (main (file_with "let let ) 1") (mkOptions "f.lge" true false)) = Exit 0 /\
  In (Wrote (Stdout_IR (CodeGenerator.emitIR CodeGenerator.new)))
     (events (main (file_with "let let ) 1") (mkOptions "f.lge" true false))).
Proof.
  destruct (dump_tokens_compiles_nothing (file_with "let let ) 1")
              (mkOptions "f.lge" true false)) as (Hs & _ & Hir).
  - reflexivity.
  - reflexivity.
  - split; assumption.
Defined.

(** X16.  A file that cannot be read is compiled as an empty one: the
    constructor of the lexer writes its message and goes on with an empty
    buffer, and the run ends with the module of the empty program and
    status 0. *)
Theorem unreadable_file_compiles_as_empty (env : Env) (opts : Options) :
  (forall s, fault env s = None) ->
  read_file env (inputFile opts) = None ->
  status (main env opts) = Exit 0 /\
  In (Wrote (Stderr_cannot_open (inputFile opts))) (events (main env opts)) /\
  In (Wrote (Stdout_IR (CodeGenerator.emitIR CodeGenerator.new)))
     (events (main env opts)).
Proof.
  intros Hf Hread. unfold main, enter. rewrite !Hf.
  unfold Lexer_open. rewrite Hread.
  set (lexer := Lexer.new EmptyString (inputFile opts)).
  assert (Lexer.isAtEnd lexer = true) as Hend by reflexivity.
  assert (Lexer.tokenize lexer =
          ([Lexer.makeToken lexer TokenType.EOF_TOKEN EmptyString], lexer)) as Htok
    by reflexivity.
  destruct (dumpTokens opts).
  - rewrite Htok.
    destruct (Parser.new lexer) as [parser lexer''] eqn:Enew.
    match goal with
    | |- context [parse_part env opts parser ?l] =>
        pose proof (parse_part_at_end env opts lexer l Hf Hend) as (more & Hrun & Hir)
    end.
    rewrite Enew in Hrun. cbn [fst] in Hrun. rewrite Hrun. cbn [status events].
    split; [reflexivity|]. rewrite !in_app_iff. cbn [In]. split; [|right; exact Hir].
    left. left. left. left. right. left. reflexivity.
  - destruct (Parser.new lexer) as [parser lexer''] eqn:Enew.
    match goal with
    | |- context [parse_part env opts parser ?l] =>
        pose proof (parse_part_at_end env opts lexer l Hf Hend) as (more & Hrun & Hir)
    end.
    rewrite Enew in Hrun. cbn [fst] in Hrun. rewrite Hrun. cbn [status events].
    split; [reflexivity|]. rewrite !in_app_iff. cbn [In]. split; [|right; exact Hir].
    left. left. right. left. reflexivity.
Qed.

Lemma unreadable_file_compiles_as_empty_witness :
  status (main (mkEnv (fun _ => None) no_stof (fun _ => None)) (plain "f.lge")) = Exit 0.
Proof.
  destruct (unreadable_file_compiles_as_empty
              (mkEnv (fun _ => None) no_stof (fun _ => None)) (plain "f.lge"))
    as (Hs & _ & _).
  - reflexivity.
  - reflexivity.
  - exact Hs.
Defined.

(** X17.  [--dump-ast] only adds output: with or without it the run has the same
    exit status and writes the same module. *)
Theorem dump_ast_changes_no_result (env : Env) (file : string) (dump : bool) :
  fault env ParserDumpAST = None ->
  let with_ast := main env (mkOptions file dump true) in
  let without := main env (mkOptions file dump false) in
  status with_ast = status without /\
  forall ir, In (Wrote (Stdout_IR ir)) (events with_ast) <->
             In (Wrote (Stdout_IR ir)) (events without).
Proof.
  intros Hf. cbv zeta. unfold main, enter. cbn [inputFile dumpTokens].
  destruct (fault env LexerCtor); [split; reflexivity|].
  destruct (Lexer_open env file ([] ++ [Entered LexerCtor])) as [lexer log].
  destruct dump.
  - destruct (fault env LexerDumpTokens); [split; reflexivity|].
    destruct (Lexer.tokenize lexer) as [tokens lexer'].
    destruct (fault env ParserCtor); [split; reflexivity|].
    destruct (Parser.new lexer') as [parser lexer''].
    now apply parse_part_dumpAST.
  - destruct (fault env ParserCtor); [split; reflexivity|].
    destruct (Parser.new lexer) as [parser lexer''].
    now apply parse_part_dumpAST.
Qed.

Lemma dump_ast_changes_no_result_witness :
  status (main (file_with "let main: int = () -> 0") (mkOptions "f.lge" false true)) =
  status (main (file_with "let main: int = () -> 0") (mkOptions "f.lge" false false)).
Proof.
  destruct (dump_ast_changes_no_result (file_with "let main: int = () -> 0")
              "f.lge" false) as [Hs _].
  - reflexivity.
  - exact Hs.
Defined.

End DriverExtras.

(** ** The string built-ins of the runtime *)

Module RuntimeStringFacts.
Import Runtime RuntimeFacts RuntimeStrings Notions.

Lemma strlen_le buf : (strlen buf <= length buf)%nat.
Proof.
  induction buf as [|c buf IH]; simpl; [lia|]. destruct (Ascii.eqb c NUL); simpl; lia.
Qed.

(** The bytes before the terminator are not NUL. *)
Lemma nth_before_strlen buf : forall i,
  (i < strlen buf)%nat -> nth i buf NUL <> NUL.
Proof.
  induction buf as [|c buf IH]; intros i Hi; simpl in Hi; [lia|].
  destruct (Ascii.eqb_spec c NUL) as [->|Hc]; [lia|].
  destruct i as [|i]; simpl; [exact Hc | apply IH; lia].
Qed.

Lemma c_str_no_NUL buf : ~ In NUL (c_str buf).
Proof.
  unfold c_str. induction buf as [|c buf IH]; simpl; [tauto|].
  destruct (Ascii.eqb_spec c NUL) as [->|Hc]; simpl; [tauto|].
  intros [H|H]; [congruence | contradiction].
Qed.

Lemma c_str_length buf : length (c_str buf) = strlen buf.
Proof. unfold c_str. rewrite length_firstn. pose proof (strlen_le buf). lia. Qed.

(** A terminated array is its string, the NUL, and what is behind. *)
Lemma c_str_split buf :
  In NUL buf -> exists post, buf = (c_str buf ++ NUL :: post)%list.
Proof.
  unfold c_str. induction buf as [|c buf IH]; intros H; [contradiction|].
  simpl. destruct (Ascii.eqb_spec c NUL) as [->|Hc].
  - exists buf. reflexivity.
  - destruct H as [H|H]; [congruence|].
    destruct (IH H) as (post & E). exists post. simpl. now rewrite <- E.
Qed.

Lemma strlen_store_0 buf : buf <> [] -> strlen (store buf 0 NUL) = 0%nat.
Proof. destruct buf; [congruence|]. reflexivity. Qed.

Lemma nth_c_str buf i :
  (i < strlen buf)%nat -> nth i (c_str buf) NUL = nth i buf NUL.
Proof.
  unfold c_str. revert i. induction buf as [|c buf IH]; intros i Hi; simpl in *; [lia|].
  destruct (Ascii.eqb c NUL); [lia|]. destruct i; simpl; [reflexivity | apply IH; lia].
Qed.


Lemma strlen_skipn buf : forall i,
  (i <= strlen buf)%nat ->
  strlen (skipn i buf) = (strlen buf - i)%nat /\
  c_str (skipn i buf) = skipn i (c_str buf).
Proof.
  unfold c_str. induction buf as [|c buf IH]; intros i Hi.
  - simpl in Hi. assert (i = 0%nat) as -> by lia. split; reflexivity.
  - destruct i as [|i]; [split; [simpl; lia | reflexivity]|].
    cbn [strlen] in Hi |- *. cbn [skipn].
    destruct (Ascii.eqb c NUL); [lia|].
    destruct (IH i ltac:(lia)) as [H1 H2]. split; [rewrite H1; lia|].
    rewrite H2. reflexivity.
Qed.

(** *** Decimal text and back *)

Lemma digits_value_eval d : forall acc,
  Parser.digits_value (NilEmpty.string_of_uint d) (Some acc) = Some (eval d acc).
Proof.
  induction d; intros acc; cbn [NilEmpty.string_of_uint Parser.digits_value eval];
    try reflexivity; apply IHd.
Qed.

Lemma digits_value_eval_None d :
  d <> Decimal.Nil ->
  Parser.digits_value (NilEmpty.string_of_uint d) None = Some (eval d 0).
Proof.
  destruct d; intros H; [congruence|..];
    cbn [NilEmpty.string_of_uint Parser.digits_value eval]; apply digits_value_eval.
Qed.

Lemma eval_of_uint_acc d : forall acc,
  eval d (Z.pos acc) = Z.pos (Pos.of_uint_acc d acc).
Proof.
  induction d; intros acc; cbn [eval Pos.of_uint_acc]; try reflexivity;
    rewrite <- IHd; f_equal; lia.
Qed.

Lemma eval_of_uint d : eval d 0 = Z.of_N (Pos.of_uint d).
Proof.
  induction d; cbn [eval Pos.of_uint]; try reflexivity; try exact IHd;
    cbn [Z.mul Z.add Z.of_N]; apply eval_of_uint_acc.
Qed.

Lemma eval_lower d : forall acc, 0 <= acc -> acc * 10 ^ Z.of_nat (Decimal.nb_digits d) <= eval d acc.
Proof.
  induction d; intros acc Ha; cbn [eval Decimal.nb_digits];
    [rewrite Z.pow_0_r; lia|..];
    (rewrite Nat2Z.inj_succ, Z.pow_succ_r by lia;
     etransitivity; [|apply IHd; lia];
     assert (0 <= 10 ^ Z.of_nat (Decimal.nb_digits d)) by (apply Z.pow_nonneg; lia);
     nia).
Qed.

Lemma string_of_uint_length d :
  String.length (NilEmpty.string_of_uint d) = Decimal.nb_digits d.
Proof. induction d; cbn; congruence. Qed.

Lemma string_of_uint_digits d :
  forall c, In c (list_ascii_of_string (NilEmpty.string_of_uint d)) ->
            Lexer.isdigit c = true.
Proof.
  induction d; cbn [NilEmpty.string_of_uint list_ascii_of_string In];
    intros c H; [contradiction|..]; (destruct H as [<-|H]; [reflexivity | now apply IHd]).
Qed.

(** The decimal text of a positive number has no leading zero. *)
Lemma to_uint_head p :
  exists l, Pos.to_uint p <> Decimal.Nil /\
    (Pos.to_uint p = Decimal.D1 l \/ Pos.to_uint p = Decimal.D2 l \/
     Pos.to_uint p = Decimal.D3 l \/ Pos.to_uint p = Decimal.D4 l \/
     Pos.to_uint p = Decimal.D5 l \/ Pos.to_uint p = Decimal.D6 l \/
     Pos.to_uint p = Decimal.D7 l \/ Pos.to_uint p = Decimal.D8 l \/
     Pos.to_uint p = Decimal.D9 l).
Proof.
  pose proof (DecimalPos.Unsigned.to_of (Pos.to_uint p)) as H.
  rewrite DecimalPos.Unsigned.of_to in H. cbn [N.to_uint] in H.
  pose proof (DecimalPos.Unsigned.to_uint_nonzero p) as Hz.
  pose proof (DecimalPos.Unsigned.to_uint_nonnil p) as Hn.
  destruct (Pos.to_uint p) as [|l|l|l|l|l|l|l|l|l|l] eqn:E; try congruence;
    try (exists l; split; [discriminate | tauto]).
  exfalso. unfold Decimal.unorm in H. cbn [Decimal.nzhead] in H.
  assert (forall d l', Decimal.nzhead d <> Decimal.D0 l') as Hnz
    by (induction d; intros l'; cbn [Decimal.nzhead]; solve [discriminate | apply IHd]).
  destruct (Decimal.nzhead l) eqn:El; try discriminate H.
  - injection H as Hl. subst l. congruence.
  - exact (Hnz l _ El).
Qed.

Lemma int_wrap_id z : Parser.INT_MIN <= z <= Parser.INT_MAX -> int_wrap z = z.
Proof.
  unfold Parser.INT_MIN, Parser.INT_MAX, int_wrap. intros H.
  rewrite Z.mod_small by lia. lia.
Qed.

Lemma atoi_digit_first c rest :
  Lexer.isdigit c = true ->
  atoi (c :: list_ascii_of_string rest) =
  match Parser.digits_value (String c rest) None with
  | None => 0
  | Some v => int_wrap v
  end.
Proof.
  intros H. unfold atoi. cbn [string_of_list_ascii].
  rewrite string_of_list_ascii_of_string.
  destruct c as [[] [] [] [] [] [] [] []]; try discriminate H; reflexivity.
Qed.

Lemma atoi_minus rest :
  atoi ("-"%char :: list_ascii_of_string rest) =
  match Parser.digits_value rest None with
  | None => 0
  | Some v => int_wrap (- v)
  end.
Proof.
  unfold atoi. cbn [string_of_list_ascii]. rewrite string_of_list_ascii_of_string.
  reflexivity.
Qed.

Lemma string_of_uint_first d :
  d <> Decimal.Nil ->
  exists c rest, NilEmpty.string_of_uint d = String c rest /\ Lexer.isdigit c = true.
Proof.
  destruct d; intros H; [congruence|..]; cbn [NilEmpty.string_of_uint];
    do 2 eexists; split; reflexivity.
Qed.

Lemma atoi_uint d :
  d <> Decimal.Nil ->
  atoi (list_ascii_of_string (NilEmpty.string_of_uint d)) = int_wrap (eval d 0).
Proof.
  intros H. pose proof (digits_value_eval_None d H) as Hv.
  destruct (string_of_uint_first d H) as (c & rest & E & Hc).
  rewrite E in *. cbn [list_ascii_of_string].
  now rewrite (atoi_digit_first c rest Hc), Hv.
Qed.

(** The decimal text of an [int]: its digits, what they are worth, and
    how many there are. *)
Lemma decimal_spec value :
  Parser.INT_MIN <= value <= Parser.INT_MAX ->
  exists d,
    d <> Decimal.Nil /\ eval d 0 = Z.abs value /\
    (Decimal.nb_digits d <= 10)%nat /\
    decimal value =
      ((if value <? 0 then ["-"%char] else []) ++
       list_ascii_of_string (NilEmpty.string_of_uint d))%list.
Proof.
  intros Hr. unfold decimal.
  assert (forall p, Z.pos p <= 2147483648 ->
                    eval (Pos.to_uint p) 0 = Z.pos p /\
                    (Decimal.nb_digits (Pos.to_uint p) <= 10)%nat /\
                    NilZero.string_of_uint (Pos.to_uint p) =
                      NilEmpty.string_of_uint (Pos.to_uint p)) as Hpos.
  { intros p Hp.
    assert (eval (Pos.to_uint p) 0 = Z.pos p) as He
      by (rewrite eval_of_uint, DecimalPos.Unsigned.of_to; reflexivity).
    split; [exact He|].
    destruct (to_uint_head p) as (l & Hn & Hhead).
    split.
    - assert (10 ^ Z.of_nat (Decimal.nb_digits l) <= Z.pos p) as Hlow.
      { rewrite <- He.
        destruct Hhead as [E|[E|[E|[E|[E|[E|[E|[E|E]]]]]]]]; rewrite E; cbn [eval];
          (etransitivity; [|apply eval_lower; lia]);
          assert (0 <= 10 ^ Z.of_nat (Decimal.nb_digits l)) by (apply Z.pow_nonneg; lia);
          lia. }
      assert (Decimal.nb_digits (Pos.to_uint p) = S (Decimal.nb_digits l)) as ->
        by (destruct Hhead as [E|[E|[E|[E|[E|[E|[E|[E|E]]]]]]]]; rewrite E; reflexivity).
      destruct (Nat.le_gt_cases (Decimal.nb_digits l) 9) as [|Hgt]; [lia|].
      exfalso.
      assert (10 ^ 10 <= 10 ^ Z.of_nat (Decimal.nb_digits l))
        by (apply Z.pow_le_mono_r; lia).
      change (10 ^ 10) with 10000000000 in *. lia.
    - destruct (Pos.to_uint p); [congruence|..]; reflexivity. }
  unfold Parser.INT_MIN, Parser.INT_MAX in Hr.
  destruct value as [|p|p]; cbn [Z.to_int NilZero.string_of_int Z.ltb Z.compare Z.abs].
  - exists (Decimal.D0 Decimal.Nil). split; [discriminate|].
    split; [reflexivity|]. split; [cbn; lia | reflexivity].
  - destruct (Hpos p ltac:(lia)) as (He & Hn & Hs).
    exists (Pos.to_uint p). split; [apply DecimalPos.Unsigned.to_uint_nonnil|].
    split; [exact He|]. split; [exact Hn|]. now rewrite Hs.
  - destruct (Hpos p ltac:(lia)) as (He & Hn & Hs).
    exists (Pos.to_uint p). split; [apply DecimalPos.Unsigned.to_uint_nonnil|].
    split; [exact He|]. split; [exact Hn|].
    cbn [list_ascii_of_string app]. now rewrite Hs.
Qed.

Lemma digits_not_NUL d : ~ In NUL (list_ascii_of_string (NilEmpty.string_of_uint d)).
Proof. intros H. now apply string_of_uint_digits in H. Qed.

Lemma list_ascii_length s : length (list_ascii_of_string s) = String.length s.
Proof. induction s; simpl; congruence. Qed.

(** [strcmp] gives 0 exactly on equal strings. *)
Lemma strcmp_0 a : forall b, strcmp a b = 0 <-> c_str a = c_str b.
Proof.
  assert (forall x y, Z.of_nat (nat_of_ascii x) - Z.of_nat (nat_of_ascii y) = 0 -> x = y)
    as Hinj.
  { intros x y H. assert (nat_of_ascii x = nat_of_ascii y) as E by lia.
    rewrite <- (ascii_nat_embedding x), <- (ascii_nat_embedding y). now f_equal. }
  unfold c_str. induction a as [|x a IH]; intros b.
  - cbn [strlen firstn strcmp]. destruct b as [|y b]; cbn [hd strlen].
    + split; reflexivity.
    + destruct (Ascii.eqb_spec y NUL) as [->|Hy]; cbn [firstn].
      * split; reflexivity.
      * split; [|discriminate]. intros H. exfalso. apply Hy.
        symmetry. apply (Hinj NUL y). exact H.
  - cbn [strcmp strlen]. destruct b as [|y b]; cbn [hd tl strlen].
    + destruct (Ascii.eqb_spec x NUL) as [->|Hx]; cbn [firstn].
      * split; reflexivity.
      * split; [|discriminate]. intros H. exfalso. apply Hx. apply (Hinj x NUL). exact H.
    + destruct (Ascii.eqb_spec x y) as [<-|Hxy].
      * destruct (Ascii.eqb_spec x NUL) as [->|Hx]; cbn [firstn].
        -- split; reflexivity.
        -- rewrite IH. split; [now intros -> | now intros [= ->]].
      * split.
        -- intros H. exfalso. apply Hxy. now apply Hinj.
        -- destruct (Ascii.eqb_spec x NUL), (Ascii.eqb_spec y NUL); cbn [firstn];
             intros H; try discriminate H; [congruence | injection H; congruence].
Qed.

End RuntimeStringFacts.

Module RuntimeExtras.
Import Runtime RuntimeFacts RuntimeStrings RuntimeStringFacts.

(** X18.  [str_at] gives the byte of the string at [index] when [index] is
    within the string, and that byte is not NUL; through a null pointer
    and for every other index, negative or at the terminator or beyond,
    it gives NUL without reading the array. *)
Theorem str_at_in_and_out_of_range (st : state) (str : c_string) (index : Z) :
  match bytes_at st str with
  | None => str_at st str index = NUL
  | Some bytes =>
      (0 <= index < Z.of_nat (strlen bytes) ->
       str_at st str index = nth (Z.to_nat index) (c_str bytes) NUL /\
       str_at st str index <> NUL) /\
      (index < 0 \/ Z.of_nat (strlen bytes) <= index -> str_at st str index = NUL)
  end.
Proof.
  unfold str_at. destruct (bytes_at st str) as [bytes|]; [|reflexivity]. split.
  - intros [H0 H1].
    assert ((index <? 0) = false) as -> by (apply Z.ltb_ge; lia).
    assert ((Z.of_nat (strlen bytes) <=? index) = false) as -> by (apply Z.leb_gt; lia).
    cbn [orb]. rewrite nth_c_str by lia. split; [reflexivity|].
    apply nth_before_strlen. lia.
  - intros [H|H].
    + assert ((index <? 0) = true) as -> by (apply Z.ltb_lt; lia). reflexivity.
    + assert ((Z.of_nat (strlen bytes) <=? index) = true) as -> by (apply Z.leb_le; lia).
      now rewrite orb_true_r.
Qed.

(** X19.  [str_sub] on the static buffer itself, that is on the string any
    string-returning built-in has given, yields the empty string whatever
    the bounds: the buffer is emptied before its length is taken. *)
Theorem str_sub_of_the_static_buffer (st : state) (start end_ : Z) :
  glob_buffer st <> [] ->
  str_sub st at_glob_buffer start end_ =
    Some (addr_glob_buffer, mkState (store (glob_buffer st) 0 NUL) (stdin st)) /\
  c_str (store (glob_buffer st) 0 NUL) = [].
Proof.
  intros Hne. unfold str_sub. cbn [bytes_at glob_buffer].
  rewrite (strlen_store_0 _ Hne). change (int_wrap (Z.of_nat 0)) with 0.
  split.
  - destruct (start <? 0) eqn:E; [reflexivity|].
    apply Z.ltb_ge in E.
    assert ((0 <=? start) = true) as -> by (apply Z.leb_le; lia).
    now rewrite orb_true_r.
  - unfold c_str. now rewrite (strlen_store_0 _ Hne).
Qed.

(** A line is read, and the substring of its first three bytes asked for. *)
Lemma str_sub_of_the_static_buffer_witness :
  let st := mkState (repeat NUL 255) (list_ascii_of_string "hello") in
  let st1 := snd (str_read 10 st) in
  c_str (glob_buffer st1) = list_ascii_of_string "hello" /\
  exists st2, str_sub st1 at_glob_buffer 0 3 = Some (addr_glob_buffer, st2) /\
              c_str (glob_buffer st2) = [].
Proof.
  intros st st1. split; [reflexivity|].
  destruct (str_sub_of_the_static_buffer st1 0 3) as [Hs Hc].
  - discriminate.
  - eexists. split; [exact Hs | exact Hc].
Defined.

(** X20.  [str_sub] on a string constant.  With [start] outside the string or
    [end] before [start] the result is the empty string.  Otherwise the
    bytes from [start] to [end], or to the end of the string when [end] is
    beyond it, are copied to the static buffer, when there are fewer than
    [BUFFER_SIZE] of them; with [BUFFER_SIZE] bytes or more the copy or
    the NUL after it is written outside the buffer. *)
Theorem str_sub_of_a_constant (st : state) (bytes : list ascii) (start end_ : Z) :
  length (glob_buffer st) = Z.to_nat BUFFER_SIZE ->
  Z.of_nat (strlen bytes) <= Parser.INT_MAX ->
  let len := Z.of_nat (strlen bytes) in
  let stop := Z.min end_ len in
  (start < 0 \/ end_ < start \/ len <= start ->
   str_sub st (at_array bytes) start end_ =
     Some (addr_glob_buffer, mkState (store (glob_buffer st) 0 NUL) (stdin st))) /\
  (0 <= start < len -> start <= end_ ->
   if stop - start <? BUFFER_SIZE then
     exists st',
       str_sub st (at_array bytes) start end_ = Some (addr_glob_buffer, st') /\
       stdin st' = stdin st /\
       length (glob_buffer st') = Z.to_nat BUFFER_SIZE /\
       c_str (glob_buffer st') =
         firstn (Z.to_nat (stop - start)) (skipn (Z.to_nat start) (c_str bytes))
   else str_sub st (at_array bytes) start end_ = None).
Proof.
  change (Z.to_nat BUFFER_SIZE) with 255%nat. change BUFFER_SIZE with 255.
  intros Hlen Hmax. cbv zeta.
  pose proof (Nat2Z.is_nonneg (strlen bytes)) as Hpos.
  assert (int_wrap (Z.of_nat (strlen bytes)) = Z.of_nat (strlen bytes)) as Hw
    by (apply int_wrap_id; unfold Parser.INT_MIN, Parser.INT_MAX in *; lia).
  unfold str_sub. cbn [bytes_at glob_buffer stdin]. rewrite Hw. split.
  - intros H.
    assert ((start <? 0) || (end_ <? start) || (Z.of_nat (strlen bytes) <=? start) = true)
      as ->; [|reflexivity].
    destruct H as [H|[H|H]].
    + apply Z.ltb_lt in H. now rewrite H.
    + apply Z.ltb_lt in H. rewrite H. now rewrite orb_true_r.
    + apply Z.leb_le in H. rewrite H. now rewrite orb_true_r.
  - intros Hs He.
    assert ((start <? 0) = false) as -> by (apply Z.ltb_ge; lia).
    assert ((end_ <? start) = false) as -> by (apply Z.ltb_ge; lia).
    assert ((Z.of_nat (strlen bytes) <=? start) = false) as -> by (apply Z.leb_gt; lia).
    cbn [orb].
    assert ((if Z.of_nat (strlen bytes) <? end_ then Z.of_nat (strlen bytes) else end_)
            = Z.min end_ (Z.of_nat (strlen bytes))) as ->
      by (destruct (Z.ltb_spec (Z.of_nat (strlen bytes)) end_); lia).
    set (stop := Z.min end_ (Z.of_nat (strlen bytes))).
    assert (start <= stop <= Z.of_nat (strlen bytes)) as Hstop by (subst stop; lia).
    rewrite int_wrap_id by (unfold Parser.INT_MIN, Parser.INT_MAX in *; lia).
    rewrite store_length, Hlen.
    destruct (Z.ltb_spec (stop - start) 255) as [Hfit|Hbig].
    + assert (Nat.ltb (Z.to_nat (stop - start)) 255 = true) as ->
        by (apply Nat.ltb_lt; lia).
      set (n := Z.to_nat (stop - start)).
      destruct (strlen_skipn bytes (Z.to_nat start) ltac:(lia)) as [Hl Hc].
      assert (strncpy_bytes (skipn (Z.to_nat start) bytes) n =
              firstn n (skipn (Z.to_nat start) (c_str bytes))) as Hcopy.
      { unfold strncpy_bytes. rewrite Hc, Hl.
        replace (n - (strlen bytes - Z.to_nat start))%nat with 0%nat by (subst n; lia).
        cbn [repeat]. apply app_nil_r. }
      rewrite Hcopy.
      set (text := firstn n (skipn (Z.to_nat start) (c_str bytes))).
      assert (length text = n) as Htext.
      { subst text. rewrite length_firstn, length_skipn, c_str_length. subst n. lia. }
      assert (~ In NUL text) as Hnul.
      { subst text. intros H. apply (c_str_no_NUL bytes).
        rewrite <- (firstn_skipn (Z.to_nat start) (c_str bytes)).
        apply in_or_app. right.
        rewrite <- (firstn_skipn n (skipn (Z.to_nat start) (c_str bytes))).
        apply in_or_app. now left. }
      set (buf := store (glob_buffer st) 0 NUL).
      assert (length buf = 255%nat) as Hbuf by (subst buf; now rewrite store_length).
      rewrite store_all_0 by lia.
      assert (exists b post, skipn (length text) buf = b :: post) as (b & post & Hsk).
      { destruct (skipn (length text) buf) as [|b post] eqn:E; [|eauto].
        apply (f_equal (@length ascii)) in E. rewrite length_skipn in E. simpl in E. lia. }
      rewrite Hsk.
      replace (store (text ++ b :: post) n NUL)
        with (store (text ++ b :: post) (length text) NUL) by (now rewrite Htext).
      rewrite store_app.
      eexists. split; [reflexivity|]. cbn [stdin glob_buffer].
      split; [reflexivity|]. split.
      * rewrite length_app. cbn [length].
        apply (f_equal (@length ascii)) in Hsk. rewrite length_skipn in Hsk.
        cbn [length] in Hsk. lia.
      * now apply c_str_app.
    + assert (Nat.ltb (Z.to_nat (stop - start)) 255 = false) as ->
        by (apply Nat.ltb_ge; lia).
      reflexivity.
Qed.

(** The bytes 2 to 4 of [abcdef]. *)
Lemma str_sub_of_a_constant_witness :
  exists st',
    str_sub (mkState (repeat NUL 255) []) (at_array (list_ascii_of_string "abcdef" ++ [NUL]))
            2 5 = Some (addr_glob_buffer, st') /\
    c_str (glob_buffer st') = list_ascii_of_string "cde".
Proof.
  destruct (str_sub_of_a_constant (mkState (repeat NUL 255) [])
              (list_ascii_of_string "abcdef" ++ [NUL]) 2 5) as [_ H].
  - reflexivity.
  - vm_compute. discriminate.
  - destruct H as (st' & Hs & _ & _ & Hc).
    + vm_compute. split; [discriminate | reflexivity].
    + vm_compute. discriminate.
    + exists st'. split; [exact Hs | exact Hc].
Defined.

(** X21.  [str_to_int(int_to_str(value))] is [value], for every [int]: the text
    fits the static buffer, and the string in the buffer is the decimal
    text of [value]. *)
Theorem int_to_str_round_trip (value : Z) (st : state) :
  length (glob_buffer st) = Z.to_nat BUFFER_SIZE ->
  Parser.INT_MIN <= value <= Parser.INT_MAX ->
  exists st',
    int_to_str value st = Some (addr_glob_buffer, st') /\
    stdin st' = stdin st /\
    c_str (glob_buffer st') = decimal value /\
    str_to_int st' at_glob_buffer = value.
Proof.
  change (Z.to_nat BUFFER_SIZE) with 255%nat. intros Hlen Hr.
  destruct (decimal_spec value Hr) as (d & Hd & He & Hn & Htext).
  assert (length (decimal value) <= 11)%nat as Hsize.
  { rewrite Htext, length_app, list_ascii_length, string_of_uint_length.
    destruct (value <? 0); simpl; lia. }
  assert (~ In NUL (decimal value)) as Hnul.
  { rewrite Htext. intros H. apply in_app_or in H as [H|H].
    - destruct (value <? 0); [destruct H as [H|[]]; discriminate H | contradiction].
    - now apply digits_not_NUL in H. }
  unfold int_to_str. rewrite Hlen.
  assert (Nat.leb (length (decimal value ++ [NUL])) 255 = true) as ->
    by (apply Nat.leb_le; rewrite length_app; simpl; lia).
  eexists. split; [reflexivity|]. cbn [stdin glob_buffer].
  split; [reflexivity|].
  assert (c_str (store_all (glob_buffer st) 0 (decimal value ++ [NUL])) = decimal value)
    as Hc.
  { rewrite store_all_0 by (rewrite length_app; simpl; lia).
    rewrite <- app_assoc. cbn [app]. now apply c_str_app. }
  split; [exact Hc|].
  unfold str_to_int. cbn [bytes_at glob_buffer]. rewrite Hc, Htext.
  unfold Parser.INT_MIN, Parser.INT_MAX in Hr.
  destruct (Z.ltb_spec value 0) as [Hneg|Hpos]; cbn [app].
  - rewrite atoi_minus, (digits_value_eval_None d Hd), He.
    rewrite int_wrap_id by (unfold Parser.INT_MIN, Parser.INT_MAX; lia). lia.
  - rewrite (atoi_uint d Hd), He.
    rewrite int_wrap_id by (unfold Parser.INT_MIN, Parser.INT_MAX; lia). lia.
Qed.

(** The least [int]. *)
Lemma int_to_str_round_trip_witness :
  exists st',
    int_to_str (-2147483648) (mkState (repeat NUL 255) []) = Some (addr_glob_buffer, st') /\
    c_str (glob_buffer st') = list_ascii_of_string "-2147483648" /\
    str_to_int st' at_glob_buffer = -2147483648.
Proof.
  destruct (int_to_str_round_trip (-2147483648) (mkState (repeat NUL 255) []))
    as (st' & Hs & _ & Hc & Hv).
  - reflexivity.
  - vm_compute. split; discriminate.
  - exists st'. split; [exact Hs|]. split; [exact Hc | exact Hv].
Defined.

(** X22.  [str_cmp] gives 1 when the two strings are equal and 0 when they are
    not (where [strcmp] gives 0 for equal strings); through a null pointer
    it has no result. *)
Theorem str_cmp_tells_equality (st : state) (a b : c_string) :
  match bytes_at st a, bytes_at st b with
  | Some x, Some y =>
      (c_str x = c_str y -> str_cmp st a b = Some 1) /\
      (c_str x <> c_str y -> str_cmp st a b = Some 0)
  | _, _ => str_cmp st a b = None
  end.
Proof.
  unfold str_cmp.
  destruct (bytes_at st a) as [x|]; [|reflexivity].
  destruct (bytes_at st b) as [y|]; [|reflexivity].
  pose proof (strcmp_0 x y) as H. split; intros E.
  - apply H in E. now rewrite E.
  - destruct (Z.eqb_spec (strcmp x y) 0) as [E0|]; [|reflexivity].
    apply H in E0. contradiction.
Qed.

End RuntimeExtras.
